(** * MCDC codec: a shallow embedding and its verified properties

    The development follows the C++ sources of the codec:
    - [entropy/rle.cpp]       zero run-length coding and symbol packing,
    - [entropy/huffman.cpp]   canonical Huffman builder, bit writer/reader,
    - [entropy/bitstream.*]   little-endian byte writer/reader and header,
    - [preprocess/level_shift.cpp], [block/tiling.cpp], [block/zigzag.cpp],
    - [transform/dct2d.cpp], [quant/quantizer.cpp],
    - [codec/encoder.cpp], [codec/decoder.cpp],
    - [cli/cli_parser.cpp], [io/medical_saver.cpp].

    Conventions.  Fixed-width integers are values of [Z]; every conversion
    to an unsigned type is written as a reduction modulo the width.  A
    [std::vector] is a [list]; [push_back] is [++ [x]].  A thrown
    [std::runtime_error] is the [Err] constructor of [result], carrying the
    message of the source.  [float] and [double] are the binary32 and
    binary64 formats of [SpecFloat].

    The first part holds the definitions, the second part the lemmas and
    theorems. *)

From Stdlib Require Import ZArith Lia SpecFloat.
From stdpp Require Import base option list gmap sorting strings pretty.

Open Scope Z_scope.

(** ** Results of fallible code *)

Inductive result (A : Type) : Type :=
| OK (a : A)
| Err (msg : string).
Arguments OK {A} a.
Arguments Err {A} msg.

#[global] Instance result_ret : MRet result := fun A a => OK a.
#[global] Instance result_bind : MBind result := fun A B f r =>
  match r with
  | OK a => f a
  | Err msg => Err msg
  end.


(** The length of a vector, as the [size_t] the source compares against. *)
Definition zlen {A} (l : list A) : Z := Z.of_nat (length l).

(** Conversions to the unsigned and signed fixed-width types. *)
Definition u8 (z : Z) : Z := z mod 256.
Definition u16 (z : Z) : Z := z mod 65536.
Definition u32 (z : Z) : Z := z mod 4294967296.
(** [static_cast<int>] of a 32-bit pattern (two's complement). *)
Definition i32 (z : Z) : Z :=
  let w := z mod 4294967296 in if w <? 2147483648 then w else w - 4294967296.
Definition i16 (z : Z) : Z :=
  let w := z mod 65536 in if w <? 32768 then w else w - 65536.

(** * Zero run-length coding (entropy/rle.cpp) *)

Module Rle.

Record RlePair := mkPair { value : Z; run : Z }.

(** The inner loop of [rle_encode_zeros]: [for (; i < block_end; ++i)], over
    the AC coefficients [ac] of one block, with the pending zero run [run]
    (a [uint16_t]) and the pairs pushed so far. *)
Fixpoint rle_ac_loop (ac : list Z) (run : Z) (rle_out : list RlePair)
  : list RlePair * Z :=
  match ac with
  | [] => (rle_out, run)
  | v :: ac' =>
      if v =? 0 then
        let '(out1, run1) :=
          if run =? 65535 then (rle_out ++ [mkPair 0 run], 0)
          else (rle_out, run) in
        rle_ac_loop ac' (u16 (run1 + 1)) out1
      else
        rle_ac_loop ac' 0 (rle_out ++ [mkPair v run])
  end.

(** One iteration of the outer loop: the DC pair, the AC walk, and the
    trailing-zeros pair. [ac] is [seq_in[i .. block_end)]. *)
Definition rle_block (dc : Z) (ac : list Z) (rle_out : list RlePair)
  : list RlePair :=
  let '(out1, run) := rle_ac_loop ac 0 (rle_out ++ [mkPair dc 0]) in
  if 0 <? run then out1 ++ [mkPair 0 (u16 (run - 1))] else out1.

(** The outer loop [for (i = 0; i < seq_in.size(); )] on the part of the
    input not yet consumed.  Every iteration consumes at least the DC, so
    [length seq_in] iterations always suffice. *)
Fixpoint rle_blocks (fuel : nat) (block_elems : nat) (seq : list Z)
    (rle_out : list RlePair) : list RlePair :=
  match fuel with
  | O => rle_out
  | S fuel' =>
      match seq with
      | [] => rle_out
      | dc :: rest =>
          rle_blocks fuel' block_elems (drop (block_elems - 1) rest)
            (rle_block dc (take (block_elems - 1) rest) rle_out)
      end
  end.

Definition rle_encode_zeros (seq_in : list Z) (block_size : Z)
  : result (list RlePair) :=
  if negb (block_size =? 8) && negb (block_size =? 16) then
    Err "rle_encode_zeros: block_size must be 8 or 16"
  else
    let block_elems := block_size * block_size in
    if negb (zlen seq_in mod block_elems =? 0) then
      Err "rle_encode_zeros: input size not multiple of block"
    else
      OK (rle_blocks (length seq_in) (Z.to_nat block_elems) seq_in []).

(** The loop of [rle_decode_zeros] over the pairs. *)
Fixpoint rle_decode_loop (rle_in : list RlePair) (total_coeffs : Z)
    (seq_out : list Z) : result (list Z) :=
  match rle_in with
  | [] => OK seq_out
  | p :: ps =>
      let s1 := if 0 <? run p
                then seq_out ++ replicate (Z.to_nat (run p)) 0
                else seq_out in
      let s2 := s1 ++ [value p] in
      if total_coeffs <? zlen s2 then
        Err "rle_decode_zeros: output exceeds expected size"
      else rle_decode_loop ps total_coeffs s2
  end.

Definition rle_decode_zeros (rle_in : list RlePair) (block_size : Z)
    (total_coeffs : Z) : result (list Z) :=
  if negb (block_size =? 8) && negb (block_size =? 16) then
    Err "rle_decode_zeros: block_size must be 8 or 16"
  else
    seq_out ← rle_decode_loop rle_in total_coeffs [];
    if negb (zlen seq_out =? total_coeffs) then
      Err "rle_decode_zeros: output size mismatch"
    else OK seq_out.

(** [(run << 16) | uint16_t(value)] and its inverse. *)
Definition pack_rle_symbols (pairs : list RlePair) : list Z :=
  map (fun p => Z.lor (Z.shiftl (u16 (run p)) 16) (u16 (value p))) pairs.

Definition unpack_rle_symbols (symbols : list Z) : list RlePair :=
  map (fun sym => mkPair (i16 (Z.land sym 65535)) (u16 (Z.shiftr sym 16)))
      symbols.

(** The block of the source's self-test: DC 5, non-zero ACs at 5, 12, 63. *)
Definition self_test_block : list Z :=
  [5; 0; 0; 0; 0; -3; 0; 0; 0; 0; 0; 0; 7] ++ replicate 50 0 ++ [-1].

(** What the decoder writes for a list of pairs. *)
Definition expand (ps : list RlePair) : list Z :=
  concat (map (fun p => replicate (Z.to_nat (run p)) 0 ++ [value p]) ps).

End Rle.

(** * Level shift (preprocess/level_shift.cpp) *)

Module Img.

Inductive PixelType := U8 | U16 | S16.

Record Image := mkImage {
  width : Z;
  height : Z;
  channels : Z;
  bits_stored : Z;
  bits_allocated : Z;
  is_signed : bool;
  type : PixelType;
  pixels : list Z
}.

Definition empty (img : Image) : bool :=
  match pixels img with [] => true | _ => false end.

Definition set_pixels (img : Image) (px : list Z) (sgn : bool) : Image :=
  mkImage (width img) (height img) (channels img) (bits_stored img)
          (bits_allocated img) sgn (type img) px.

Definition clamp_i32 (v lo hi : Z) : Z := Z.min (Z.max v lo) hi.

(** Arithmetic on [int32_t] pixels is written in [Z]: the source leaves
    signed overflow undefined and the pixel values of an image of at most
    16 bits stay far from the limits. *)
Definition apply_level_shift (img : Image) : result Image :=
  if empty img then OK img
  else if (bits_stored img <=? 0) || (16 <? bits_stored img) then
    Err "apply_level_shift: invalid bits_stored"
  else if is_signed img then OK img
  else
    let offset := Z.shiftl 1 (bits_stored img - 1) in
    OK (set_pixels img (map (fun v => v - offset) (pixels img)) true).

Definition inverse_level_shift (img : Image) : result Image :=
  if empty img then OK img
  else if (bits_stored img <=? 0) || (16 <? bits_stored img) then
    Err "inverse_level_shift: invalid bits_stored"
  else
    let offset := Z.shiftl 1 (bits_stored img - 1) in
    let minv := 0 in
    let maxv := Z.shiftl 1 (bits_stored img) - 1 in
    OK (set_pixels img
          (map (fun v => clamp_i32 (v + offset) minv maxv) (pixels img))
          false).

(** An image with no pixels and [bits_stored = 0]. *)
Definition no_pixels_image : Image := mkImage 0 0 1 0 0 false U16 [].

(** An image of 2x2 samples that declares [bits_stored = 17]. *)
Definition wide_image : Image :=
  mkImage 2 2 1 17 16 false U16 [0; 10; 200; 255].

End Img.

(** * Canonical Huffman coding (entropy/huffman.cpp) *)

Module Huffman.

Record EncEntry := mkEnc { code : Z; len : Z; valid : bool }.

(** A node of the decode trie; [left], [right] and [symbol] are [int]s and
    [-1] stands for "none". *)
Record Node := mkNode { left : Z; right : Z; symbol : Z }.

(** [enc] is a dense [std::vector<EncEntry>] indexed by symbol.  It is kept
    as its size together with the entries that were assigned; every other
    index holds the default entry [{0, 0, false}]. *)
Record HuffTable := mkTable {
  enc_size : Z;
  enc : gmap Z EncEntry;
  decode_nodes : list Node
}.

Definition enc_at (t : HuffTable) (s : Z) : EncEntry :=
  default (mkEnc 0 0 false) (enc t !! s).

(** [v[i]] for an [int] index; an index outside the vector has no value. *)
Definition node_at {A} (v : list A) (i : Z) : option A :=
  if i <? 0 then None else v !! Z.to_nat i.

(** Orders used by the three calls of [std::sort]. *)
Definition key_le : relation (Z * Z) := fun a b => a.1 <= b.1.
#[global] Instance key_le_dec : RelDecision key_le.
Proof. intros a b. unfold key_le. apply _. Defined.

(** (length ascending, symbol ascending) on (symbol, length) pairs. *)
Definition len_sym_le : relation (Z * Z) := fun a b =>
  a.2 < b.2 \/ (a.2 = b.2 /\ a.1 <= b.1).
#[global] Instance len_sym_le_dec : RelDecision len_sym_le.
Proof. intros a b. unfold len_sym_le. apply _. Defined.

(** The entries of a dense vector that differ from the default, in
    increasing index order. *)
Definition entries_by_index {A} (m : gmap Z A) : list (Z * A) :=
  let keys := merge_sort Z.le (map fst (map_to_list m)) in
  omap (fun k => option_map (fun a => (k, a)) (m !! k)) keys.

(** ** build_symbol_frequencies *)

Fixpoint count_symbols (symbols : list Z) (freq_map : gmap Z Z)
  : result (gmap Z Z) :=
  match symbols with
  | [] => OK freq_map
  | s :: rest =>
      match freq_map !! s with
      | None => count_symbols rest (<[s := 1]> freq_map)
      | Some c =>
          if c =? 4294967295 then Err "huffman: frequency overflow"
          else count_symbols rest (<[s := c + 1]> freq_map)
      end
  end.

Definition build_symbol_frequencies (symbols : list Z)
  : result (list (Z * Z)) :=
  freq_map ← count_symbols symbols ∅;
  OK (merge_sort key_le (map_to_list freq_map)).

(** ** BitWriter *)

Record BitWriter := mkBW { bw_data : list Z; bw_cur : Z; bw_bit_pos : Z }.

Definition bw_init : BitWriter := mkBW [] 0 0.

(** The loop [for (int i = bit_len - 1; i >= 0; --i)]; [n] bits remain. *)
Fixpoint write_bits_loop (n : nat) (code : Z) (w : BitWriter) : BitWriter :=
  match n with
  | O => w
  | S i =>
      let bit := Z.land (Z.shiftr code (Z.of_nat i)) 1 in
      let cur := u8 (Z.lor (Z.shiftl (bw_cur w) 1) bit) in
      let bit_pos := bw_bit_pos w + 1 in
      write_bits_loop i code
        (if bit_pos =? 8 then mkBW (bw_data w ++ [cur]) 0 0
         else mkBW (bw_data w) cur bit_pos)
  end.

Definition write_bits (code bit_len : Z) (w : BitWriter) : result BitWriter :=
  if (bit_len =? 0) || (32 <? bit_len) then
    Err "BitWriter: invalid bit length"
  else OK (write_bits_loop (Z.to_nat bit_len) code w).

Definition flush (w : BitWriter) : BitWriter :=
  if 0 <? bw_bit_pos w then
    mkBW (bw_data w ++ [u8 (Z.shiftl (bw_cur w) (u8 (8 - bw_bit_pos w)))]) 0 0
  else w.

(** ** BitReader *)

Record BitReader := mkBR { br_byte_idx : Z; br_bit_pos : Z }.

Definition br_init : BitReader := mkBR 0 0.

Definition read_bit (data : list Z) (r : BitReader) : result (bool * BitReader) :=
  match node_at data (br_byte_idx r) with
  | None => Err "BitReader: out of data"
  | Some byte =>
      let bit := u8 (Z.land (Z.shiftr byte (7 - br_bit_pos r)) 1) in
      let bit_pos := br_bit_pos r + 1 in
      OK (negb (bit =? 0),
          if bit_pos =? 8 then mkBR (br_byte_idx r + 1) 0
          else mkBR (br_byte_idx r) bit_pos)
  end.

(** ** Building the tree of code lengths *)

Record HeapNode := mkHeap { freq : Z; hsym : Z; hleft : Z; hright : Z }.

(** [HeapComp] makes [std::priority_queue] a min-heap on
    (freq, symbol): [heap_lt a b] says that [a] leaves the queue before
    [b]. *)
Definition heap_lt (a b : HeapNode) : bool :=
  if freq a =? freq b then hsym a <? hsym b else freq a <? freq b.

(** [top()] followed by [pop()]: the least element and the other ones.  The
    queue is the list of its elements; the elements of a queue built by
    [build_canonical_table] have pairwise different symbols, so that the
    least element does not depend on how the heap arranges them. *)
Fixpoint pq_pop (pq : list HeapNode) : option (HeapNode * list HeapNode) :=
  match pq with
  | [] => None
  | x :: rest =>
      match pq_pop rest with
      | None => Some (x, [])
      | Some (m, rest') =>
          if heap_lt x m then Some (x, rest) else Some (m, x :: rest')
      end
  end.

(** [while (pq.size() > 1)]: every iteration removes one element, so
    [length pq] iterations suffice. *)
Fixpoint merge_loop (fuel : nat) (pq nodes : list HeapNode)
  : list HeapNode * list HeapNode :=
  match fuel with
  | O => (pq, nodes)
  | S fuel' =>
      match pq_pop pq with
      | Some (a, pq1) =>
          match pq_pop pq1 with
          | Some (b, pq2) =>
              let parent :=
                mkHeap (u32 (freq a + freq b)) (Z.min (hsym a) (hsym b))
                       (zlen nodes) (zlen nodes + 1) in
              merge_loop fuel' (parent :: pq2) (nodes ++ [a; b])
          | None => (pq, nodes)
          end
      | None => (pq, nodes)
      end
  end.

(** The depth-first walk with an explicit stack of (node index, depth);
    index [-1] is the root.  The head of the list is the back of the
    vector. *)
Fixpoint dfs_lengths (fuel : nat) (root : HeapNode) (nodes : list HeapNode)
    (stack : list (Z * Z)) (lens : list (Z * Z)) : result (list (Z * Z)) :=
  match fuel with
  | O => Err "huffman: invalid tree structure"
  | S fuel' =>
      match stack with
      | [] => OK lens
      | (idx, depth) :: stack' =>
          match (if idx =? -1 then Some root else node_at nodes idx) with
          | None => Err "huffman: invalid tree structure"
          | Some cur =>
              if (hleft cur =? -1) && (hright cur =? -1) then
                dfs_lengths fuel' root nodes stack'
                  (lens ++ [(hsym cur, u8 depth)])
              else if 32 <=? depth then
                Err "huffman: code length exceeds 32"
              else
                let s1 := if hright cur =? -1 then stack'
                          else (hright cur, u8 (depth + 1)) :: stack' in
                let s2 := if hleft cur =? -1 then s1
                          else (hleft cur, u8 (depth + 1)) :: s1 in
                dfs_lengths fuel' root nodes s2 lens
          end
      end
  end.

(** ** Canonical codes and the table *)

Record CanonEntry := mkCanon { c_symbol : Z; c_code : Z; c_len : Z }.

(** The loop assigning canonical codes to the sorted (symbol, length)
    pairs; [code] is a [uint32_t]. *)
Fixpoint assign_codes (lens : list (Z * Z)) (code prev_len : Z)
    (canon : list CanonEntry) : list CanonEntry :=
  match lens with
  | [] => canon
  | (sym, l) :: rest =>
      let code1 := if l =? prev_len then code
                   else u32 (Z.shiftl code (l - prev_len)) in
      assign_codes rest (u32 (code1 + 1)) l (canon ++ [mkCanon sym code1 l])
  end.

Definition canonical_codes (lens : list (Z * Z)) : list CanonEntry :=
  match lens with
  | [] => []
  | (_, l0) :: _ => assign_codes lens (u32 (Z.shiftl 0 l0)) l0 []
  end.

Definition set_left (nd : Node) (i : Z) : Node := mkNode i (right nd) (symbol nd).
Definition set_right (nd : Node) (i : Z) : Node := mkNode (left nd) i (symbol nd).
Definition set_symbol (nd : Node) (s : Z) : Node := mkNode (left nd) (right nd) s.

(** The bit loop of the trie insertion; [n] bits of [code] remain. *)
Fixpoint trie_walk (n : nat) (code : Z) (node_idx : Z) (nodes : list Node)
  : result (Z * list Node) :=
  match n with
  | O => OK (node_idx, nodes)
  | S i =>
      let bit := Z.land (Z.shiftr code (Z.of_nat i)) 1 in
      match node_at nodes node_idx with
      | None => Err "huffman: invalid node index"
      | Some nd =>
          let next := if bit =? 0 then left nd else right nd in
          if next =? -1 then
            let next' := zlen nodes in
            let nodes1 := nodes ++ [mkNode (-1) (-1) (-1)] in
            let nodes2 :=
              <[Z.to_nat node_idx :=
                  if bit =? 0 then set_left nd next' else set_right nd next']>
                nodes1 in
            trie_walk i code next' nodes2
          else trie_walk i code next nodes
      end
  end.

(** Insertion of one canonical entry into the decode trie. *)
Definition trie_insert (dup_msg : string) (ce : CanonEntry) (nodes : list Node)
  : result (list Node) :=
  '(node_idx, nodes1) ← trie_walk (Z.to_nat (c_len ce)) (c_code ce) 0 nodes;
  match node_at nodes1 node_idx with
  | None => Err "huffman: invalid node index"
  | Some nd =>
      if negb (symbol nd =? -1) then Err dup_msg
      else OK (<[Z.to_nat node_idx := set_symbol nd (i32 (c_symbol ce))]> nodes1)
  end.

(** The loop [for (const auto& ce : canon)] of [build_canonical_table]. *)
Fixpoint fill_table (canon : list CanonEntry) (t : HuffTable) : result HuffTable :=
  match canon with
  | [] => OK t
  | ce :: rest =>
      let size1 := if enc_size t <=? c_symbol ce then c_symbol ce + 1
                   else enc_size t in
      let enc1 := <[c_symbol ce := mkEnc (c_code ce) (c_len ce) true]> (enc t) in
      nodes1 ← trie_insert "huffman: duplicate code assignment" ce (decode_nodes t);
      fill_table rest (mkTable size1 enc1 nodes1)
  end.

(** The first loop over [sym_freq]: largest symbol of non-zero frequency. *)
Fixpoint scan_max (sym_freq : list (Z * Z)) (max_sym : Z) (has_nonzero : bool)
  : Z * bool :=
  match sym_freq with
  | [] => (max_sym, has_nonzero)
  | (sym, f) :: rest =>
      if f =? 0 then scan_max rest max_sym has_nonzero
      else scan_max rest (if max_sym <? sym then sym else max_sym) true
  end.

(** The second loop: the dense vector [freqs]; an index that is not a key
    of the map holds 0. *)
Fixpoint accumulate (sym_freq : list (Z * Z)) (freqs : gmap Z Z)
  : result (gmap Z Z) :=
  match sym_freq with
  | [] => OK freqs
  | (sym, f) :: rest =>
      if f =? 0 then accumulate rest freqs
      else
        let sum := default 0 (freqs !! sym) + f in
        if 4294967295 <? sum then Err "huffman: frequency overflow"
        else accumulate rest (<[sym := u32 sum]> freqs)
  end.

(** The leaves pushed by [for (uint32_t i = 0; i < freqs.size(); ++i)]. *)
Definition collect_leaves (freqs : gmap Z Z) : list HeapNode :=
  omap (fun '(i, f) => if f =? 0 then None else Some (mkHeap f i (-1) (-1)))
       (entries_by_index freqs).

(** [std::priority_queue::push] for each leaf in turn. *)
Definition pq_push_all (leaves : list HeapNode) : list HeapNode :=
  foldl (fun pq x => x :: pq) [] leaves.

(** [build_canonical_table].  The counter [i] of the loop collecting the
    leaves is a [uint32_t] compared with the [size_t] [freqs.size()]: when
    [max_sym] is [0xFFFFFFFF] the vector has [2^32] entries, the comparison
    never fails and the function does not return; this is the failure
    ["huffman: leaf loop does not end"] below.  Indices of type [int] are
    written in [Z]. *)
Definition build_canonical_table (sym_freq : list (Z * Z)) : result HuffTable :=
  match sym_freq with
  | [] => Err "huffman: empty symbol-frequency list"
  | _ =>
      let '(max_sym, has_nonzero) := scan_max sym_freq 0 false in
      if negb has_nonzero then Err "huffman: all frequencies are zero"
      else
        freqs ← accumulate sym_freq ∅;
        let freqs_size := max_sym + 1 in
        if 4294967295 <? freqs_size then Err "huffman: leaf loop does not end"
        else
          let pq := pq_push_all (collect_leaves freqs) in
          match pq with
          | [leaf] =>
              OK (mkTable freqs_size
                    (<[hsym leaf := mkEnc 0 1 true]> ∅)
                    [mkNode 1 (-1) (-1); mkNode (-1) (-1) (i32 (hsym leaf))])
          | _ =>
              let '(pq1, nodes) := merge_loop (length pq) pq [] in
              match pq1 with
              | [] => Err "huffman: invalid tree structure"
              | root :: _ =>
                  lens ← dfs_lengths (length nodes + 2) root nodes [(-1, 0)] [];
                  let lens := merge_sort len_sym_le lens in
                  let canon := canonical_codes lens in
                  fill_table canon
                    (mkTable freqs_size ∅ [mkNode (-1) (-1) (-1)])
              end
          end
  end.

(** ** build_table_from_code_lengths *)

Fixpoint fill_table_dec (canon : list CanonEntry) (t : HuffTable) : result HuffTable :=
  match canon with
  | [] => OK t
  | ce :: rest =>
      if enc_size t <=? c_symbol ce then
        Err "decode: encode table index out of range"
      else
        let enc1 := <[c_symbol ce := mkEnc (c_code ce) (c_len ce) true]> (enc t) in
        nodes1 ← trie_insert "decode: duplicate code assignment" ce (decode_nodes t);
        fill_table_dec rest (mkTable (enc_size t) enc1 nodes1)
  end.

(** [t.enc] is sized with [max_sym + 1] computed in [uint32_t]; when that
    wraps to 0 the assignment [t.enc[ce.symbol]] is outside the vector,
    which is the failure ["decode: encode table index out of range"]. *)
Definition build_table_from_code_lengths (entries : list (Z * Z))
  : result HuffTable :=
  match entries with
  | [] => Err "decode: empty Huffman table entries"
  | _ =>
      if existsb (fun e => (e.2 =? 0) || (32 <? e.2)) entries then
        Err "decode: invalid code length"
      else
        let sorted := merge_sort len_sym_le entries in
        let canon := canonical_codes sorted in
        let max_sym := foldl (fun m c => Z.max m (c_symbol c)) 0 canon in
        fill_table_dec canon
          (mkTable (u32 (max_sym + 1)) ∅ [mkNode (-1) (-1) (-1)])
  end.

(** ** huff_encode and huff_decode *)

Fixpoint encode_symbols (t : HuffTable) (symbols : list Z) (w : BitWriter)
  : result BitWriter :=
  match symbols with
  | [] => OK w
  | s :: rest =>
      if (enc_size t <=? s) || negb (valid (enc_at t s)) then
        Err "huffman encode: symbol not in table"
      else
        w1 ← write_bits (code (enc_at t s)) (len (enc_at t s)) w;
        encode_symbols t rest w1
  end.

Definition huff_encode (symbols : list Z) : result (HuffTable * list Z) :=
  match symbols with
  | [] => Err "huffman encode: empty symbols"
  | _ =>
      freqs ← build_symbol_frequencies symbols;
      t ← build_canonical_table freqs;
      w ← encode_symbols t symbols bw_init;
      OK (t, bw_data (flush w))
  end.

(** The loop [while (true)] decoding one symbol.  Every iteration that does
    not leave the loop reads one bit, so [8 * bits.size() + 1] iterations
    are never used up. *)
Fixpoint decode_symbol (fuel : nat) (t : HuffTable) (bits : list Z)
    (node : Z) (r : BitReader) : result (Z * BitReader) :=
  match fuel with
  | O => Err "huffman decode: invalid node"
  | S fuel' =>
      match node_at (decode_nodes t) node with
      | None => Err "huffman decode: invalid node"
      | Some nd =>
          if negb (symbol nd =? -1) then OK (u32 (symbol nd), r)
          else
            '(bit, r1) ← read_bit bits r;
            let node1 := if bit : bool then right nd else left nd in
            if node1 =? -1 then Err "huffman decode: reached null child"
            else decode_symbol fuel' t bits node1 r1
      end
  end.

Fixpoint decode_symbols (n : nat) (t : HuffTable) (bits : list Z)
    (r : BitReader) (out : list Z) : result (list Z) :=
  match n with
  | O => OK out
  | S n' =>
      '(s, r1) ← decode_symbol (8 * length bits + 1) t bits 0 r;
      decode_symbols n' t bits r1 (out ++ [s])
  end.

Definition huff_decode (bits : list Z) (t : HuffTable) (symbol_count : Z)
  : result (list Z) :=
  decode_symbols (Z.to_nat symbol_count) t bits br_init [].

(** The symbols of the source's self-test. *)
Definition self_test_symbols : list Z := [3; 0; 1; 3; 2; 2; 3].

(** The table of a stream whose only symbol is [sym]. *)
Definition single_table (sym : Z) : HuffTable :=
  mkTable (sym + 1) {[sym := mkEnc 0 1 true]}
          [mkNode 1 (-1) (-1); mkNode (-1) (-1) (i32 sym)].

End Huffman.

(** * Notions used to state and prove the Huffman properties *)

Module HuffSpec.
Import Huffman.

(** The [n] low bits of a code, most significant first: the order in which
    [write_bits] emits them and the trie insertion walks them. *)
Fixpoint code_bits (c : Z) (n : nat) : list bool :=
  match n with
  | O => []
  | S i => Z.testbit c (Z.of_nat i) :: code_bits c i
  end.

(** The number whose binary digits, most significant first, are [bs]. *)
Definition bits_value (bs : list bool) : Z :=
  foldl (fun acc b => 2 * acc + Z.b2z b) 0 bs.

(** The bits a [BitReader] delivers from a byte buffer, in order. *)
Definition stream_bits (data : list Z) : list bool :=
  concat (map (fun byte => code_bits byte 8) data).

(** The reader state after [p] bits. *)
Definition br_at (p : nat) : BitReader :=
  mkBR (Z.of_nat p / 8) (Z.of_nat p mod 8).

(** From node [k], the bits [bits] lead through nodes without a symbol to a
    node carrying [s]. *)
Fixpoint code_path (nodes : list Node) (k : Z) (bits : list bool) (s : Z)
  : Prop :=
  match bits with
  | [] => exists nd, node_at nodes k = Some nd /\ symbol nd = s /\ s <> -1
  | b :: bs =>
      exists nd, node_at nodes k = Some nd /\ symbol nd = -1 /\
        (if b : bool then right nd else left nd) <> -1 /\
        code_path nodes (if b : bool then right nd else left nd) bs s
  end.

(** The bits [huff_encode] writes for symbol [s]. *)
Definition sym_bits (t : HuffTable) (s : Z) : list bool :=
  code_bits (code (enc_at t s)) (Z.to_nat (len (enc_at t s))).

(** The table encodes symbol [s] and its decode trie maps the code of [s]
    back to [s]. *)
Definition codes_symbol (t : HuffTable) (s : Z) : Prop :=
  0 <= s < 4294967296 /\ s < enc_size t /\
  valid (enc_at t s) = true /\ 1 <= len (enc_at t s) <= 32 /\
  code_path (decode_nodes t) 0 (sym_bits t s) (i32 s).

(** The writer state [w] holds the bit sequence [bs]: whole bytes in
    [bw_data], the rest in [bw_cur]. *)
Definition writer_holds (w : BitWriter) (bs : list bool) : Prop :=
  exists partial,
    bs = stream_bits (bw_data w) ++ partial /\
    (length partial < 8)%nat /\
    bw_cur w = bits_value partial /\
    bw_bit_pos w = Z.of_nat (length partial).

(** Following child links from node [k] along [bits], whatever the symbols
    on the way. *)
Fixpoint walk (nodes : list Node) (k : Z) (bits : list bool) : option Z :=
  match bits with
  | [] => match node_at nodes k with Some _ => Some k | None => None end
  | b :: bs =>
      match node_at nodes k with
      | None => None
      | Some nd =>
          let c := if b : bool then right nd else left nd in
          if c =? -1 then None else walk nodes c bs
      end
  end.

(** The decode trie [nodes] is a tree: node [k] is reached from the root by
    the bit path [paths !! k], the symbols it carries are those of the
    inserted codes [C], each at the end of its code. *)
Definition trie_inv (nodes : list Node) (paths : list (list bool))
    (C : list (Z * list bool)) : Prop :=
  length paths = length nodes /\
  paths !! 0%nat = Some [] /\
  (forall (k : nat) nd p, nodes !! k = Some nd -> paths !! k = Some p ->
     (left nd = -1 \/
      (0 <= left nd /\ paths !! Z.to_nat (left nd) = Some (p ++ [false]))) /\
     (right nd = -1 \/
      (0 <= right nd /\ paths !! Z.to_nat (right nd) = Some (p ++ [true]))) /\
     (symbol nd = -1 \/ (symbol nd, p) ∈ C)) /\
  (forall s bits, (s, bits) ∈ C ->
     s <> -1 /\
     exists k nd, walk nodes 0 bits = Some k /\
                  node_at nodes k = Some nd /\ symbol nd = s).

(** [nodes'] extends [nodes]: nodes keep their symbol and the child links
    they have. *)
Definition trie_ext (nodes nodes' : list Node) : Prop :=
  forall (k : nat) nd, nodes !! k = Some nd ->
    exists nd', nodes' !! k = Some nd' /\ symbol nd' = symbol nd /\
      (left nd <> -1 -> left nd' = left nd) /\
      (right nd <> -1 -> right nd' = right nd).

(** The (stored symbol, code bits) pair of a canonical entry. *)
Definition entry_code (ce : CanonEntry) : Z * list bool :=
  (i32 (c_symbol ce), code_bits (c_code ce) (Z.to_nat (c_len ce))).

(** The share of the code space [0, 2^32) taken by a code of length [l]. *)
Definition weight (l : Z) : Z := 2 ^ (32 - l).

(** The Kraft sum of a list of (symbol, length) pairs, scaled by [2^32]. *)
Definition kraft (lens : list (Z * Z)) : Z :=
  foldr (fun x acc => weight x.2 + acc) 0 lens.

(** The canonical codes in closed form: the code of an entry is the code
    space [K] used by the entries before it, in units of its own weight. *)
Fixpoint spec_codes (lens : list (Z * Z)) (K : Z) : list CanonEntry :=
  match lens with
  | [] => []
  | (s, l) :: rest => mkCanon s (K / weight l) l :: spec_codes rest (K + weight l)
  end.

(** [e1] comes before [e2] in the canonical order: its code, extended to the
    length of [e2], lies strictly below the code of [e2]. *)
Definition code_lt (e1 e2 : CanonEntry) : Prop :=
  c_len e1 <= c_len e2 /\
  (c_code e1 + 1) * 2 ^ (c_len e2 - c_len e1) <= c_code e2.

(** The tree that the merge loop builds inside the vector [nodes]. *)
Inductive tree : Type :=
| Leaf (s : Z)
| Br (l r : tree).

Fixpoint leaves (T : tree) : list Z :=
  match T with
  | Leaf s => [s]
  | Br l r => leaves l ++ leaves r
  end.

(** The (symbol, depth) pairs of the leaves, left to right, for a tree
    whose root is at depth [d]. *)
Fixpoint leaf_depths (T : tree) (d : Z) : list (Z * Z) :=
  match T with
  | Leaf s => [(s, d)]
  | Br l r => leaf_depths l (d + 1) ++ leaf_depths r (d + 1)
  end.

Fixpoint tree_size (T : tree) : nat :=
  match T with
  | Leaf _ => 1
  | Br l r => S (tree_size l + tree_size r)
  end.

(** No inner node at depth 32 or more. *)
Fixpoint depth_ok (T : tree) (d : Z) : bool :=
  match T with
  | Leaf _ => true
  | Br l r => (d <? 32) && depth_ok l (d + 1) && depth_ok r (d + 1)
  end.

(** The heap node [h] is the root of [T], its descendants being stored in
    [nodes]. *)
Fixpoint repr (nodes : list HeapNode) (h : HeapNode) (T : tree) : Prop :=
  match T with
  | Leaf s => hleft h = -1 /\ hright h = -1 /\ hsym h = s
  | Br Tl Tr =>
      0 <= hleft h /\ 0 <= hright h /\
      exists hl hr,
        nodes !! Z.to_nat (hleft h) = Some hl /\
        nodes !! Z.to_nat (hright h) = Some hr /\
        repr nodes hl Tl /\ repr nodes hr Tr
  end.

(** An entry (index, depth) of the stack of the depth-first walk, with the
    subtree it stands for. *)
Definition item_repr (root : HeapNode) (nodes : list HeapNode)
    (it : Z * Z * tree) : Prop :=
  let '(idx, d, T) := it in
  0 <= d <= 32 /\
  if idx =? -1 then repr nodes root T
  else 0 <= idx /\ exists h, nodes !! Z.to_nat idx = Some h /\ repr nodes h T.

Definition items_leaves (items : list (Z * Z * tree)) : list (Z * Z) :=
  concat (map (fun it : Z * Z * tree => leaf_depths it.2 it.1.2) items).

Definition items_ok (items : list (Z * Z * tree)) : bool :=
  forallb (fun it : Z * Z * tree => depth_ok it.2 it.1.2) items.

Definition items_size (items : list (Z * Z * tree)) : nat :=
  foldr (fun (it : Z * Z * tree) n => (tree_size it.2 + n)%nat) 0%nat items.

Definition forest_size (Ts : list tree) : nat :=
  foldr (fun T n => (tree_size T + n)%nat) 0%nat Ts.

(** One bit through the writer: the body of the loop of [write_bits]. *)
Definition write_one (b : bool) (w : BitWriter) : BitWriter :=
  let cur := u8 (Z.lor (Z.shiftl (bw_cur w) 1) (Z.b2z b)) in
  if bw_bit_pos w + 1 =? 8 then mkBW (bw_data w ++ [cur]) 0 0
  else mkBW (bw_data w) cur (bw_bit_pos w + 1).

(** [nodes'] keeps the child links of [nodes]. *)
Definition links_kept (nodes nodes' : list Node) : Prop :=
  forall (k : nat) nd, nodes !! k = Some nd ->
    exists nd', nodes' !! k = Some nd' /\
      (left nd <> -1 -> left nd' = left nd) /\
      (right nd <> -1 -> right nd' = right nd).

(** The values of a frequency vector are non-zero [uint32_t]s. *)
Definition positive_map (m : gmap Z Z) : Prop :=
  forall k v, m !! k = Some v -> 0 < v <= 4294967295.

(** One iteration of the loop filling [freqs]. *)
Definition acc_step (x : Z * Z) (freqs : gmap Z Z) : result (gmap Z Z) :=
  if x.2 =? 0 then OK freqs
  else
    let sum := default 0 (freqs !! x.1) + x.2 in
    if 4294967295 <? sum then Err "huffman: frequency overflow"
    else OK (<[x.1 := u32 sum]> freqs).

Definition bounded_map (m : gmap Z Z) : Prop :=
  forall k v, m !! k = Some v -> 0 <= v <= 4294967295.

End HuffSpec.

(** * Byte stream and container header (entropy/bitstream.hpp, bitstream.cpp) *)

Module Bitstream.
Import Img.

(** [ByteWriter]: the buffer written so far. *)
Definition write_u8 (v : Z) (buf : list Z) : list Z := buf ++ [v].

Definition write_u16_le (v : Z) (buf : list Z) : list Z :=
  buf ++ [u8 (Z.land v 255); u8 (Z.land (Z.shiftr v 8) 255)].

Definition write_u32_le (v : Z) (buf : list Z) : list Z :=
  write_u16_le (u16 (Z.land (Z.shiftr v 16) 65535))
    (write_u16_le (u16 (Z.land v 65535)) buf).

Definition write_bytes (data : list Z) (buf : list Z) : list Z := buf ++ data.

(** [ByteReader]: the buffer and the read position. *)
Record ByteReader := mkReader { rd_buf : list Z; rd_pos : Z }.

Definition remaining (r : ByteReader) : Z := zlen (rd_buf r) - rd_pos r.

Definition read_u8 (r : ByteReader) : result (Z * ByteReader) :=
  if zlen (rd_buf r) <? rd_pos r + 1 then Err "bitstream: premature EOF"
  else
    match rd_buf r !! Z.to_nat (rd_pos r) with
    | Some b => OK (b, mkReader (rd_buf r) (rd_pos r + 1))
    | None => Err "bitstream: premature EOF"
    end.

Definition read_u16_le (r : ByteReader) : result (Z * ByteReader) :=
  '(lo, r1) ← read_u8 r;
  '(hi, r2) ← read_u8 r1;
  OK (u16 (Z.lor lo (Z.shiftl hi 8)), r2).

Definition read_u32_le (r : ByteReader) : result (Z * ByteReader) :=
  '(a, r1) ← read_u16_le r;
  '(b, r2) ← read_u16_le r1;
  OK (Z.lor a (u32 (Z.shiftl b 16)), r2).

Definition read_bytes (n : Z) (r : ByteReader) : result (list Z * ByteReader) :=
  if zlen (rd_buf r) <? rd_pos r + n then Err "bitstream: premature EOF"
  else OK (take (Z.to_nat n) (drop (Z.to_nat (rd_pos r)) (rd_buf r)),
           mkReader (rd_buf r) (rd_pos r + n)).

Definition kMCodecHeaderBytes : Z := 32.

Record MCodecHeader := mkHeader {
  magic : list Z;
  version : Z;
  header_bytes : Z;
  h_width : Z;
  h_height : Z;
  h_channels : Z;
  h_bits_allocated : Z;
  h_bits_stored : Z;
  h_is_signed : Z;
  flags : Z;
  h_block_size : Z;
  quality : Z;
  payload_bytes : Z
}.

(** [write_bitstream_header]; the parameters [block_size] and [quality] are
    [uint16_t]. *)
Definition write_bitstream_header (w : list Z) (im : Image) (flags : Z)
    (block_size quality : Z) : list Z :=
  let hdr := mkHeader [77; 67; 68; 67] 1 kMCodecHeaderBytes
               (u32 (width im)) (u32 (height im)) (u16 (channels im))
               (u16 (bits_allocated im)) (u16 (bits_stored im))
               (if is_signed im then 1 else 0) flags
               (u16 block_size) (u16 quality) 0 in
  let w := write_bytes (magic hdr) w in
  let w := write_u16_le (version hdr) w in
  let w := write_u16_le (header_bytes hdr) w in
  let w := write_u32_le (h_width hdr) w in
  let w := write_u32_le (h_height hdr) w in
  let w := write_u16_le (h_channels hdr) w in
  let w := write_u16_le (h_bits_allocated hdr) w in
  let w := write_u16_le (h_bits_stored hdr) w in
  let w := write_u8 (h_is_signed hdr) w in
  let w := write_u8 (Bitstream.flags hdr) w in
  let w := write_u16_le (h_block_size hdr) w in
  let w := write_u16_le (Bitstream.quality hdr) w in
  write_u32_le (payload_bytes hdr) w.

Definition byte_at (b : list Z) (off : Z) : Z := default 0 (b !! Z.to_nat off).

Definition read_u16_le_at (b : list Z) (off : Z) : result Z :=
  if zlen b <? off + 2 then Err "bitstream: premature EOF (u16)"
  else OK (u16 (Z.lor (byte_at b off) (u16 (Z.shiftl (byte_at b (off + 1)) 8)))).

Definition read_u32_le_at (b : list Z) (off : Z) : result Z :=
  if zlen b <? off + 4 then Err "bitstream: premature EOF (u32)"
  else OK (u32 (Z.lor (Z.lor (Z.lor (byte_at b off)
                                 (u32 (Z.shiftl (byte_at b (off + 1)) 8)))
                          (u32 (Z.shiftl (byte_at b (off + 2)) 16)))
                   (u32 (Z.shiftl (byte_at b (off + 3)) 24)))).

Definition read_bitstream_header (bytes : list Z) : result MCodecHeader :=
  if zlen bytes <? kMCodecHeaderBytes then Err "decode: file too small"
  else
    version ← read_u16_le_at bytes 4;
    header_bytes ← read_u16_le_at bytes 6;
    width ← read_u32_le_at bytes 8;
    height ← read_u32_le_at bytes 12;
    channels ← read_u16_le_at bytes 16;
    bits_allocated ← read_u16_le_at bytes 18;
    bits_stored ← read_u16_le_at bytes 20;
    block_size ← read_u16_le_at bytes 24;
    quality ← read_u16_le_at bytes 26;
    payload_bytes ← read_u32_le_at bytes 28;
    let hdr := mkHeader (take 4 bytes) version header_bytes width height
                 channels bits_allocated bits_stored (byte_at bytes 22)
                 (byte_at bytes 23) block_size quality payload_bytes in
    if negb (bool_decide (magic hdr = [77; 67; 68; 67])) then
      Err "decode: bad magic"
    else if negb (version =? 1) then Err "decode: unsupported version"
    else if header_bytes <? kMCodecHeaderBytes then
      Err "decode: invalid header_bytes"
    else if zlen bytes <? header_bytes then Err "decode: truncated header"
    else OK hdr.

End Bitstream.

(** * Block grid, tiling and zigzag scan (block/tiling.cpp, block/zigzag.cpp) *)

Module Block.
Import Img.

Record BlockGrid := mkGrid {
  block_size : Z;
  blocks_x : Z;
  blocks_y : Z;
  padded_w : Z;
  padded_h : Z
}.

(** The sums and products are [int] operations, written with their
    wrap-around: [width + block_size - 1] exceeds [INT_MAX] for a width
    above [INT_MAX - block_size + 1], and the grid is then negative.  [/] on
    [int] truncates. *)
Definition make_grid (width height block_size : Z) : result BlockGrid :=
  if negb (block_size =? 8) && negb (block_size =? 16) then
    Err "make_grid: block_size must be 8 or 16"
  else if (width <=? 0) || (height <=? 0) then
    Err "make_grid: invalid image size"
  else
    let bx := Z.quot (i32 (width + block_size - 1)) block_size in
    let by_ := Z.quot (i32 (height + block_size - 1)) block_size in
    OK (mkGrid block_size bx by_
          (i32 (bx * block_size)) (i32 (by_ * block_size))).

(** [v[i]] of a vector of integers, where [i] is inside the vector. *)
Definition at_ (v : list Z) (i : Z) : Z := default 0 (v !! Z.to_nat i).

Definition tile_to_blocks (img : Image) (g : BlockGrid) : result (list Z) :=
  if negb (channels img =? 1) then
    Err "tile_to_blocks: only grayscale supported"
  else if (width img <=? 0) || (height img <=? 0) then
    Err "tile_to_blocks: invalid image size"
  else if negb (zlen (pixels img) =? width img * height img) then
    Err "tile_to_blocks: pixel buffer mismatch"
  else if (padded_w g <=? 0) || (padded_h g <=? 0) then
    Err "tile_to_blocks: invalid grid"
  else
    let padded0 := replicate (Z.to_nat (padded_w g * padded_h g)) 0 in
    OK (foldl (fun padded y =>
          foldl (fun padded x =>
                   <[Z.to_nat (y * padded_w g + x) :=
                       at_ (pixels img) (y * width img + x)]> padded)
                padded (seqZ 0 (width img)))
          padded0 (seqZ 0 (height img))).

Definition untile_from_blocks (img : Image) (g : BlockGrid) (padded : list Z)
  : result Image :=
  if negb (channels img =? 1) then
    Err "untile_from_blocks: only grayscale supported"
  else if (width img <=? 0) || (height img <=? 0) then
    Err "untile_from_blocks: invalid image size"
  else if negb (zlen padded =? padded_w g * padded_h g) then
    Err "untile_from_blocks: padded buffer mismatch"
  else
    let n := Z.to_nat (width img * height img) in
    let px0 := take n (pixels img) ++ replicate (n - length (pixels img)) 0 in
    OK (set_pixels img
          (foldl (fun px y =>
             foldl (fun px x =>
                      <[Z.to_nat (y * width img + x) :=
                          at_ padded (y * padded_w g + x)]> px)
                   px (seqZ 0 (width img)))
             px0 (seqZ 0 (height img)))
          (is_signed img)).

(** The values stored by [order[idx++] = y * N + x], in the order of the
    two loops; [2 * (N - 1)] and [y * N + x] are [int] operations, written
    with their wrap-around. *)
Definition zigzag_writes (N : Z) : list Z :=
  concat (map (fun s =>
      if Z.rem s 2 =? 0 then
        concat (map (fun x => let y := s - x in
                       if (x <? N) && (y <? N) then [i32 (y * N + x)] else [])
                    (seqZ 0 (s + 1)))
      else
        concat (map (fun y => let x := s - y in
                       if (x <? N) && (y <? N) then [i32 (y * N + x)] else [])
                    (seqZ 0 (s + 1))))
    (seqZ 0 (i32 (2 * (N - 1)) + 1))).

(** [make_zigzag_order].  The vector is created with [N * N] entries, an
    [int] product converted to [size_t], all 0, and filled from index 0.
    From [N = 46341] on the product exceeds [INT_MAX]: a wrapped negative
    product is a size no vector can have, which the constructor refuses,
    and a write beyond a wrapped size is outside the vector; both are
    failures here. *)
Definition make_zigzag_order (N : Z) : result (list Z) :=
  if N <=? 0 then Err "make_zigzag_order: N must be positive"
  else
    let size := i32 (N * N) in
    let written := zigzag_writes N in
    if size <? 0 then Err "make_zigzag_order: vector size out of range"
    else if size <? zlen written then
      Err "make_zigzag_order: write outside the vector"
    else OK (written ++ replicate (Z.to_nat (size - zlen written)) 0).

(** Block [b] of a block-contiguous buffer: [data() + b * block_elems]. *)
Definition block_at {A} (v : list A) (block_elems b : Z) : list A :=
  take (Z.to_nat block_elems) (drop (Z.to_nat (b * block_elems)) v).

Definition zigzag_scan_blocks (qcoeff_in : list Z) (block_size : Z)
  : result (list Z) :=
  if negb (block_size =? 8) && negb (block_size =? 16) then
    Err "zigzag_scan_blocks: block_size must be 8 or 16"
  else
    let block_elems := block_size * block_size in
    if negb (Z.rem (zlen qcoeff_in) block_elems =? 0) then
      Err "zigzag_scan_blocks: input size not multiple of block"
    else
      order ← make_zigzag_order block_size;
      let blocks := Z.quot (zlen qcoeff_in) block_elems in
      OK (concat (map (fun b =>
            let src := block_at qcoeff_in block_elems b in
            map (fun i => at_ src (at_ order i)) (seqZ 0 block_elems))
          (seqZ 0 blocks))).

Definition inverse_zigzag_blocks (seq_in : list Z) (block_size : Z)
  : result (list Z) :=
  if negb (block_size =? 8) && negb (block_size =? 16) then
    Err "inverse_zigzag_blocks: block_size must be 8 or 16"
  else
    let block_elems := block_size * block_size in
    if negb (Z.rem (zlen seq_in) block_elems =? 0) then
      Err "inverse_zigzag_blocks: input size not multiple of block"
    else
      order ← make_zigzag_order block_size;
      let blocks := Z.quot (zlen seq_in) block_elems in
      OK (concat (map (fun b =>
            let src := block_at seq_in block_elems b in
            foldl (fun dst i => <[Z.to_nat (at_ order i) := at_ src i]> dst)
                  (replicate (Z.to_nat block_elems) 0) (seqZ 0 block_elems))
          (seqZ 0 blocks))).

End Block.

(** * Floating-point stages (transform/dct2d.cpp, quant/quantizer.cpp)

    [float] and [double] are the IEEE 754 binary32 and binary64 formats with
    round-to-nearest-even, as specified by [SpecFloat]; every operation of
    the source is one rounded operation (no contraction, no extended
    precision).  The library function [std::cos] is the parameter [fcos];
    [std::sqrt] is the correctly rounded square root.  A conversion of a
    NaN or of a value outside the target range to an integer type, which
    the source leaves undefined, is a failure. *)

Module Fp.

Definition f64_of_int (z : Z) : spec_float := binary_normalize 53 1024 z 0 false.
Definition f64_add : spec_float -> spec_float -> spec_float := SFadd 53 1024.
Definition f64_mul : spec_float -> spec_float -> spec_float := SFmul 53 1024.
Definition f64_div : spec_float -> spec_float -> spec_float := SFdiv 53 1024.
Definition f64_sqrt : spec_float -> spec_float := SFsqrt 53 1024.

Definition f32_of_int (z : Z) : spec_float := binary_normalize 24 128 z 0 false.
Definition f32_mul : spec_float -> spec_float -> spec_float := SFmul 24 128.
Definition f32_div : spec_float -> spec_float -> spec_float := SFdiv 24 128.

(** [static_cast<float>] of a [double]. *)
Definition f32_of_f64 (x : spec_float) : spec_float :=
  match x with
  | S754_finite s m e => binary_round 24 128 s m e
  | _ => x
  end.

(** [std::round]: to the nearest integer, halves away from zero; [None] for
    a NaN or an infinity. *)
Definition round_half_away (x : spec_float) : option Z :=
  match x with
  | S754_zero _ => Some 0
  | S754_finite s m e =>
      let mag :=
        if 0 <=? e then Zpos m * 2 ^ e
        else
          let d := 2 ^ (- e) in
          if d <=? 2 * (Zpos m mod d) then Zpos m / d + 1 else Zpos m / d in
      Some (if s then - mag else mag)
  | _ => None
  end.

(** The literal [3.14159265358979323846] as a [double]. *)
Definition kPi : spec_float := S754_finite false 7074237752028440 (-51).

End Fp.

Module Quant.
Import Fp.

(** [101 - quality] is an [int] subtraction, written with its wrap-around:
    for a quality below [INT_MIN + 102] the difference exceeds [INT_MAX]. *)
Definition quant_step_from_quality (quality : Z) : Z :=
  let q := i32 (101 - quality) in
  let q := if q <? 1 then 1 else q in
  if 100 <? q then 100 else q.

(** The body of the loop of [quantize] for one coefficient. *)
Definition quantize_one (inv_step : spec_float) (coeff : spec_float)
  : result Z :=
  let v := f32_mul coeff inv_step in
  match round_half_away v with
  | None => Err "quantize: conversion of a non-finite value to int"
  | Some r =>
      if (r <? -2147483648) || (2147483647 <? r) then
        Err "quantize: conversion to int out of range"
      else
        let q := r in
        let q := if 32767 <? q then 32767 else q in
        let q := if q <? -32768 then -32768 else q in
        OK q
  end.

Fixpoint quantize_loop (inv_step : spec_float) (coeff_in : list spec_float)
  : result (list Z) :=
  match coeff_in with
  | [] => OK []
  | c :: rest =>
      q ← quantize_one inv_step c;
      qs ← quantize_loop inv_step rest;
      OK (q :: qs)
  end.

Definition quantize (coeff_in : list spec_float) (block_size quality : Z)
  : result (list Z) :=
  if negb (block_size =? 8) && negb (block_size =? 16) then
    Err "quantize: block_size must be 8 or 16"
  else
    let block_elems := block_size * block_size in
    if negb (Z.rem (zlen coeff_in) block_elems =? 0) then
      Err "quantize: coeff size not multiple of block"
    else
      let step := quant_step_from_quality quality in
      let inv_step := f32_div (f32_of_int 1) (f32_of_int step) in
      quantize_loop inv_step coeff_in.

Definition dequantize (qcoeff_in : list Z) (block_size quality : Z)
  : result (list spec_float) :=
  if negb (block_size =? 8) && negb (block_size =? 16) then
    Err "dequantize: block_size must be 8 or 16"
  else
    let block_elems := block_size * block_size in
    if negb (Z.rem (zlen qcoeff_in) block_elems =? 0) then
      Err "dequantize: qcoeff size not multiple of block"
    else
      let step := quant_step_from_quality quality in
      OK (map (fun q => f32_mul (f32_of_int q) (f32_of_int step)) qcoeff_in).

End Quant.

Module Dct.
Import Fp Block.

Section WithCos.

(** [std::cos] on [double]. *)
Variable fcos : spec_float -> spec_float.

(** The entries of the cache built by [get_cache]. *)
Definition cos_table (N u x : Z) : spec_float :=
  let factor := f64_div kPi (f64_mul (f64_of_int 2) (f64_of_int N)) in
  fcos (f64_mul (f64_of_int ((2 * x + 1) * u)) factor).

Definition alpha (N u : Z) : spec_float :=
  if u =? 0 then f64_sqrt (f64_div (f64_of_int 1) (f64_of_int N))
  else f64_sqrt (f64_div (f64_of_int 2) (f64_of_int N)).

Definition fat (v : list spec_float) (i : Z) : spec_float :=
  default (S754_zero false) (v !! Z.to_nat i).

(** [sum = 0.0; for (k = 0; k < N; ++k) sum += term(k)]. *)
Definition fsum (N : Z) (term : Z -> spec_float) : spec_float :=
  foldl (fun sum k => f64_add sum (term k)) (S754_zero false) (seqZ 0 N).

(** The forward transform of one block. *)
Definition dct_block (N : Z) (src : list Z) : list spec_float :=
  let tmp :=
    concat (map (fun y => map (fun u =>
        f64_mul (fsum N (fun x =>
                   f64_mul (f64_of_int (at_ src (y * N + x))) (cos_table N u x)))
                (alpha N u))
      (seqZ 0 N)) (seqZ 0 N)) in
  concat (map (fun v => map (fun u =>
      f32_of_f64
        (f64_mul (fsum N (fun y =>
                    f64_mul (fat tmp (y * N + u)) (cos_table N v y)))
                 (alpha N v)))
    (seqZ 0 N)) (seqZ 0 N)).

Definition dct2d_blocks (blocks_in : list Z) (block_size : Z)
  : result (list spec_float) :=
  let N := block_size in
  if negb (N =? 8) && negb (N =? 16) then
    Err "dct2d_blocks: block_size must be 8 or 16"
  else if negb (Z.rem (zlen blocks_in) (N * N) =? 0) then
    Err "dct2d_blocks: input size not multiple of block"
  else
    let block_elems := N * N in
    let blocks := Z.quot (zlen blocks_in) block_elems in
    OK (concat (map (fun b => dct_block N (block_at blocks_in block_elems b))
                    (seqZ 0 blocks))).

(** Rounding, clamping to [int32_t] and conversion of one sample. *)
Definition idct_sample (sum : spec_float) : result Z :=
  match sum with
  | S754_nan => Err "idct2d_blocks: conversion of a NaN to int32_t"
  | S754_infinity s => OK (if s then -2147483648 else 2147483647)
  | _ =>
      match round_half_away sum with
      | Some r => OK (Z.max (-2147483648) (Z.min 2147483647 r))
      | None => Err "idct2d_blocks: conversion of a NaN to int32_t"
      end
  end.

Fixpoint collect {A} (l : list (result A)) : result (list A) :=
  match l with
  | [] => OK []
  | r :: rest => a ← r; as_ ← collect rest; OK (a :: as_)
  end.

(** The inverse transform of one block; [tmp] is indexed [y * N + u]. *)
Definition idct_block (N : Z) (src : list spec_float) : result (list Z) :=
  let tmp :=
    concat (map (fun y => map (fun u =>
        fsum N (fun v =>
          f64_mul (f64_mul (alpha N v) (fat src (v * N + u))) (cos_table N v y)))
      (seqZ 0 N)) (seqZ 0 N)) in
  collect (concat (map (fun y => map (fun x =>
      idct_sample (fsum N (fun u =>
        f64_mul (f64_mul (alpha N u) (fat tmp (y * N + u))) (cos_table N u x))))
    (seqZ 0 N)) (seqZ 0 N))).

Definition idct2d_blocks (coeff_in : list spec_float) (block_size : Z)
  : result (list Z) :=
  let N := block_size in
  if negb (N =? 8) && negb (N =? 16) then
    Err "idct2d_blocks: block_size must be 8 or 16"
  else if negb (Z.rem (zlen coeff_in) (N * N) =? 0) then
    Err "idct2d_blocks: input size not multiple of block"
  else
    let block_elems := N * N in
    let blocks := Z.quot (zlen coeff_in) block_elems in
    bs ← collect (map (fun b => idct_block N (block_at coeff_in block_elems b))
                      (seqZ 0 blocks));
    OK (concat bs).

End WithCos.

End Dct.

(** * The codec (codec/encoder.cpp, codec/decoder.cpp)

    The functions are those of a build with [NDEBUG]: the diagnostic output
    and the self-tests of the debug build are left out. *)

Module Codec.
Import Img Rle Huffman Bitstream Block Quant Dct.

Section WithCos.

Variable fcos : spec_float -> spec_float.

(** The loop collecting the used symbols with their code lengths, in
    increasing symbol order. *)
Definition collect_table_entries (table : HuffTable) : list (Z * Z) :=
  omap (fun '(i, e) =>
          if valid e && (0 <? len e) && (i <? enc_size table)
          then Some (i, len e) else None)
       (entries_by_index (enc table)).

Definition write_table_entries (entries : list (Z * Z)) (w : list Z) : list Z :=
  foldl (fun w '(sym, l) => write_u8 l (write_u32_le sym w)) w entries.

(** [bytes[28 .. 31]] overwritten with [payload_bytes]. *)
Definition patch_payload_bytes (bytes : list Z) (payload_bytes : Z) : list Z :=
  <[31%nat := u8 (Z.land (Z.shiftr payload_bytes 24) 255)]>
    (<[30%nat := u8 (Z.land (Z.shiftr payload_bytes 16) 255)]>
       (<[29%nat := u8 (Z.land (Z.shiftr payload_bytes 8) 255)]>
          (<[28%nat := u8 (Z.land payload_bytes 255)]> bytes))).

Definition encode_to_mcodec (im : Image) (quality : Z) : result (list Z) :=
  let img := im in
  if negb (channels img =? 1) then Err "encode: only grayscale is supported"
  else if (width img <=? 0) || (height img <=? 0) then
    Err "encode: invalid image size"
  else if negb (zlen (pixels img) =? width img * height img) then
    Err "encode: buffer size mismatch"
  else
    let block_size := 8 in
    let level_shift_applied := negb (is_signed img) in
    img ← apply_level_shift img;
    grid ← make_grid (width img) (height img) block_size;
    blocks ← tile_to_blocks img grid;
    coeffs ← dct2d_blocks fcos blocks block_size;
    qcoeff ← quantize coeffs block_size quality;
    zigzag_seq ← zigzag_scan_blocks qcoeff block_size;
    rle ← rle_encode_zeros zigzag_seq block_size;
    let symbols := pack_rle_symbols rle in
    '(table, huff_encode_bits) ← huff_encode symbols;
    let flags := if level_shift_applied : bool then 1 else 0 in
    let symbol_count := u32 (zlen symbols) in
    let table_entries :=
      merge_sort len_sym_le (collect_table_entries table) in
    match table_entries with
    | [] => Err "encode: no used symbols for Huffman table"
    | _ =>
        let used_symbol_count := u32 (zlen table_entries) in
        let huff_table_section_bytes :=
          u32 (4 + 4 + used_symbol_count * (4 + 1)) in
        let huff_payload_bytes := u32 (zlen huff_encode_bits) in
        let payload_bytes :=
          u32 (huff_table_section_bytes + huff_payload_bytes) in
        let w := write_bitstream_header [] img flags block_size quality in
        let w := write_u32_le symbol_count w in
        let w := write_u32_le used_symbol_count w in
        let w := write_table_entries table_entries w in
        let w := write_bytes huff_encode_bits w in
        let bytes := w in
        if zlen bytes <? kMCodecHeaderBytes then
          Err "encode: header size too small when patching payload_bytes"
        else
          let bytes := patch_payload_bytes bytes payload_bytes in
          let expected_size := u32 (kMCodecHeaderBytes + payload_bytes) in
          if negb (zlen bytes =? expected_size) then
            Err "encode: buffer size mismatch after patching payload_bytes"
          else OK bytes
    end.

(** The loop reading the table entries. *)
Fixpoint read_table_entries (n : nat) (r : ByteReader)
    (entries : list (Z * Z)) : result (list (Z * Z) * ByteReader) :=
  match n with
  | O => OK (entries, r)
  | S n' =>
      '(sym, r1) ← read_u32_le r;
      '(l, r2) ← read_u8 r1;
      if (l =? 0) || (32 <? l) then
        Err "decode: invalid code length in table section"
      else read_table_entries n' r2 (entries ++ [(sym, l)])
  end.

(** [decode_from_mcodec].  When the sum [header_bytes + payload_bytes]
    wraps below [header_bytes], the source builds the payload vector from
    a range that ends before it starts, which is undefined: that case is a
    failure here. *)
Definition decode_from_mcodec (bytes : list Z) : result Image :=
  if zlen bytes <? kMCodecHeaderBytes then
    Err "decode: buffer too small for header"
  else
    hdr ← read_bitstream_header bytes;
    let payload_end := u32 (header_bytes hdr + payload_bytes hdr) in
    if zlen bytes <? payload_end then
      Err "decode: buffer smaller than declared payload_bytes"
    else
      let payload_start := header_bytes hdr in
      if payload_end <? payload_start then
        Err "decode: payload range ends before it starts"
      else
        let r := mkReader (take (Z.to_nat (payload_end - payload_start))
                                (drop (Z.to_nat payload_start) bytes)) 0 in
        '(symbol_count, r) ← read_u32_le r;
        '(used_symbol_count, r) ← read_u32_le r;
        if used_symbol_count =? 0 then Err "decode: used_symbol_count is zero"
        else if remaining r <? used_symbol_count * (4 + 1) then
          Err "decode: table section truncated"
        else
          '(entries, r) ← read_table_entries (Z.to_nat used_symbol_count) r [];
          '(huff_bits, r) ← read_bytes (remaining r) r;
          table ← build_table_from_code_lengths entries;
          symbols ← huff_decode huff_bits table symbol_count;
          let rle := unpack_rle_symbols symbols in
          let block_size := h_block_size hdr in
          grid ← make_grid (i32 (h_width hdr)) (i32 (h_height hdr)) block_size;
          let coeffs_per_block := block_size * block_size in
          let total_coeffs := blocks_x grid * blocks_y grid * coeffs_per_block in
          seq ← rle_decode_zeros rle block_size total_coeffs;
          qcoeff ← inverse_zigzag_blocks seq block_size;
          coeffs ← dequantize qcoeff block_size (quality hdr);
          blocks ← idct2d_blocks fcos coeffs block_size;
          let is_signed := negb (h_is_signed hdr =? 0) in
          let bits_allocated := h_bits_allocated hdr in
          let im := mkImage (i32 (h_width hdr)) (i32 (h_height hdr))
                      (h_channels hdr) (h_bits_stored hdr) bits_allocated
                      is_signed
                      (if is_signed then S16
                       else if bits_allocated <=? 8 then U8 else U16)
                      [] in
          let level_shift_applied := negb (Z.land (flags hdr) 1 =? 0) in
          im ← untile_from_blocks im grid blocks;
          im ← (if level_shift_applied then inverse_level_shift im else OK im);
          if negb (zlen (pixels im) =? width im * height im * channels im) then
            Err "decode: decoded pixel count mismatch"
          else OK im.

End WithCos.

End Codec.

(** * Notions used to state the properties of the codec *)

Module CodecSpec.
Import Img Fp Quant.

(** Little-endian bytes of a 16-bit and of a 32-bit field. *)
Definition le16 (v : Z) : list Z := [v mod 256; v / 256 mod 256].

Definition le32 (v : Z) : list Z :=
  [v mod 256; v / 256 mod 256; v / 65536 mod 256; v / 16777216 mod 256].

(** One entry of the table section: the symbol, then its code length. *)
Definition entry_bytes (e : Z * Z) : list Z := le32 e.1 ++ [e.2].

(** The first 28 bytes of the header written for an image. *)
Definition header_prefix (im : Image) (sgn flg quality : Z) : list Z :=
  [77; 67; 68; 67] ++ le16 1 ++ le16 32 ++
  le32 (u32 (width im)) ++ le32 (u32 (height im)) ++
  le16 (u16 (channels im)) ++ le16 (u16 (bits_allocated im)) ++
  le16 (u16 (bits_stored im)) ++ [sgn] ++ [flg] ++
  le16 8 ++ le16 (u16 quality).

(** [clamp(v, lo, hi)]. *)
Definition clamp (v lo hi : Z) : Z := Z.max lo (Z.min hi v).

(** The finite float [x] is the integer [z]. *)
Definition represents (x : spec_float) (z : Z) : Prop :=
  match x with
  | S754_zero _ => z = 0
  | S754_finite s m e =>
      (if s then Z.neg m else Z.pos m) * 2 ^ Z.max e 0 = z * 2 ^ Z.max (- e) 0
  | _ => False
  end.

(** [round(coeff / step)] on the exact quotient, halves away from zero. *)
Definition round_quotient (coeff : spec_float) (step : Z) : option Z :=
  match coeff with
  | S754_zero _ => Some 0
  | S754_finite s m e =>
      let num := Z.pos m * 2 ^ Z.max e 0 in
      let den := step * 2 ^ Z.max (- e) 0 in
      let mag := (2 * num + den) / (2 * den) in
      Some (if s then - mag else mag)
  | _ => None
  end.

(** The quantiser as the format description words it:
    [q = round(coeff / step)], clamped to the signed 16-bit range. *)
Definition spec_quantize (x : list spec_float) (quality : Z) : list (option Z) :=
  map (fun c => (fun r => clamp r (-32768) 32767) <$>
                round_quotient c (quant_step_from_quality quality)) x.

(** The conversion [static_cast<int>(std::round(coeff * inv_step))] is
    defined: the rounded value is a number inside the range of [int]. *)
Definition int_convertible (inv_step coeff : spec_float) : bool :=
  match round_half_away (f32_mul coeff inv_step) with
  | Some r => (-2147483648 <=? r) && (r <=? 2147483647)
  | None => false
  end.

(** The coefficient 20.5 and a block that starts with it. *)
Definition coeff_20_5 : spec_float := S754_finite false 10747904 (-19).

Definition block_20_5 : list spec_float :=
  coeff_20_5 :: replicate 63 (S754_zero false).

(** A block of the coefficients -32, -31.5, ..., -0.5. *)
Definition half_steps_block : list spec_float :=
  map (fun i => f32_div (f32_of_int (i - 64)) (f32_of_int 2)) (seqZ 0 64).

Section Stages.
Import Rle Block Dct.

Variable fcos : spec_float -> spec_float.

(** The stages of [encode_to_mcodec] up to the transform: the DCT
    coefficients of the tiled, level-shifted image. *)
Definition encoder_coefficients (im : Image) : result (list spec_float) :=
  img ← apply_level_shift im;
  grid ← make_grid (width img) (height img) 8;
  blocks ← tile_to_blocks img grid;
  dct2d_blocks fcos blocks 8.

(** The stages up to the entropy coder: the symbols handed to
    [huff_encode]. *)
Definition encoder_symbols (im : Image) (quality : Z) : result (list Z) :=
  coeffs ← encoder_coefficients im;
  qcoeff ← quantize coeffs 8 quality;
  zigzag_seq ← zigzag_scan_blocks qcoeff 8;
  rle ← rle_encode_zeros zigzag_seq 8;
  OK (pack_rle_symbols rle).

End Stages.

End CodecSpec.

(** * The cosines of the 8-point transform

    [cos8_table] lists, for each non-zero argument [(2x+1) * u * factor] of
    the cache of the 8-point transform, the [double] returned by [std::cos]
    in the C library: (mantissa and exponent of the argument, sign, mantissa
    and exponent of the cosine). *)

Module Cos8.

Definition cos8_table : list (positive * Z * (bool * positive * Z)) :=
  [   (7074237752028440%positive, -55, (false, 8834128446708912%positive, -53));
   (7074237752028440%positive, -54, (false, 8321567036706118%positive, -53));
   (5305678314021330%positive, -53, (false, 7489212472271267%positive, -53));
   (7074237752028440%positive, -53, (false, 6369051672525773%positive, -53));
   (8842797190035550%positive, -53, (false, 5004131788810441%positive, -53));
   (5305678314021330%positive, -52, (false, 6893811853601124%positive, -54));
   (6189958033024885%positive, -52, (false, 7028869612283405%positive, -55));
   (7958517471031995%positive, -52, (true, 7028869612283400%positive, -55));
   (8842797190035550%positive, -52, (true, 6893811853601122%positive, -54));
   (4863538454519552%positive, -51, (true, 5004131788810438%positive, -53));
   (5305678314021330%positive, -51, (true, 6369051672525772%positive, -53));
   (5747818173523108%positive, -51, (true, 7489212472271268%positive, -53));
   (6189958033024885%positive, -51, (true, 8321567036706118%positive, -53));
   (6632097892526662%positive, -51, (true, 8834128446708912%positive, -53));
   (7958517471031995%positive, -51, (true, 8321567036706119%positive, -53));
   (8842797190035550%positive, -51, (true, 6369051672525774%positive, -53));
   (4642468524768664%positive, -50, (true, 5004131788810440%positive, -53));
   (4863538454519552%positive, -50, (true, 6893811853601133%positive, -54));
   (5526748243772219%positive, -50, (false, 7028869612283404%positive, -55));
   (5747818173523108%positive, -50, (false, 6893811853601127%positive, -54));
   (5968888103273996%positive, -50, (false, 5004131788810437%positive, -53));
   (6189958033024885%positive, -50, (false, 6369051672525771%positive, -53));
   (6632097892526662%positive, -50, (false, 8321567036706116%positive, -53));
   (7295307681779329%positive, -50, (false, 8834128446708912%positive, -53));
   (7737447541281106%positive, -50, (false, 7489212472271269%positive, -53));
   (7958517471031995%positive, -50, (false, 6369051672525774%positive, -53));
   (8621727260284661%positive, -50, (false, 7028869612283421%positive, -55));
   (4642468524768664%positive, -49, (true, 6893811853601125%positive, -54));
   (4863538454519552%positive, -49, (true, 6369051672525765%positive, -53));
   (4974073419394997%positive, -49, (true, 7489212472271266%positive, -53));
   (5416213278896774%positive, -49, (true, 8834128446708914%positive, -53));
   (5747818173523108%positive, -49, (true, 6369051672525769%positive, -53));
   (5968888103273996%positive, -49, (true, 6893811853601137%positive, -54));
   (6079423068149441%positive, -49, (true, 7028869612283394%positive, -55));
   (6632097892526662%positive, -49, (false, 6369051672525764%positive, -53));
   (6963702787152996%positive, -49, (false, 8834128446708912%positive, -53));
   (7184772716903884%positive, -49, (false, 8834128446708914%positive, -53));
   (7295307681779329%positive, -49, (false, 8321567036706118%positive, -53));
   (8290122365658328%positive, -49, (true, 5004131788810434%positive, -53));
   (8511192295409217%positive, -49, (true, 7489212472271265%positive, -53));
   (8621727260284661%positive, -49, (true, 8321567036706115%positive, -53));
   (4974073419394997%positive, -48, (false, 6893811853601119%positive, -54));
   (5029340901832719%positive, -48, (false, 5004131788810434%positive, -53));
   (5803085655960830%positive, -48, (true, 7028869612283414%positive, -55))].

Fixpoint cos8_lookup (m : positive) (e : Z)
    (tbl : list (positive * Z * (bool * positive * Z))) : spec_float :=
  match tbl with
  | [] => S754_nan
  | (m', e', (s, mc, ec)) :: rest =>
      if (m =? m')%positive && (e =? e') then S754_finite s mc ec
      else cos8_lookup m e rest
  end.

(** [std::cos] on the arguments of the 8-point cache; the arguments outside
    the cache are not covered and give a NaN. *)
Definition cos8 (x : spec_float) : spec_float :=
  match x with
  | S754_zero _ => Fp.f64_of_int 1
  | S754_finite false m e => cos8_lookup m e cos8_table
  | _ => S754_nan
  end.

(** An image of 8x8 samples of 8 bits: a diagonal ramp. *)
Definition ramp_image : Img.Image :=
  Img.mkImage 8 8 1 8 8 false Img.U8
    (map (fun i => 16 * (i / 8) + 12 * (i mod 8) + 20) (seqZ 0 64)).

(** The container of [ramp_image] at quality 100 and the image decoded
    from it. *)
Definition ramp_container : list Z :=
  [77; 67; 68; 67; 1; 0; 32; 0; 8; 0; 0; 0; 8; 0; 0; 0; 1; 0; 8; 0; 8;
   0; 1; 1; 8; 0; 100; 0; 63; 0; 0; 0; 10; 0; 0; 0; 10; 0; 0; 0; 233;
   255; 3; 0; 3; 247; 255; 4; 0; 3; 249; 255; 5; 0; 3; 254; 255; 6; 0;
   3; 254; 255; 7; 0; 3; 0; 0; 27; 0; 3; 220; 254; 0; 0; 4; 37; 255;
   0; 0; 4; 176; 255; 0; 0; 4; 226; 255; 2; 0; 4; 237; 193; 232; 199;
   64].

Definition decoded_ramp : Img.Image :=
  Img.mkImage 8 8 1 8 8 false Img.S16 (Img.pixels ramp_image).

End Cos8.

(** * Sample inputs *)

Module Samples.
Import Img Rle.

(** The image of the self-test of [level_shift.cpp]. *)
Definition shift_test_image : Image :=
  mkImage 2 2 1 8 8 false U16 [0; 10; 200; 255].

(** Pairs of a block: a DC, a value after two zeros, a negative value after
    a long run, and the trailing zeros. *)
Definition sample_pairs : list RlePair :=
  [mkPair 5 0; mkPair (-3) 2; mkPair 32767 40; mkPair (-32768) 0;
   mkPair 0 17].

(** An image of 3x2 samples. *)
Definition small_image : Image :=
  mkImage 3 2 1 8 8 false U8 [1; 2; 3; 4; 5; 6].

(** A block of the quantised coefficients 0, 1, ..., 63 followed by a
    block of zeros with a single -7. *)
Definition two_blocks : list Z :=
  seqZ 0 64 ++ replicate 20 0 ++ [-7] ++ replicate 43 0.

(** The histogram of the symbols 3, 0, 1, 3, 2, 2, 3 and the table they
    are coded with. *)
Definition sample_histogram : list (Z * Z) := [(3, 3); (0, 1); (1, 1); (2, 2)].

Definition sample_table : Huffman.HuffTable :=
  Huffman.mkTable 4
    (<[1 := Huffman.mkEnc 7 3 true]> (<[0 := Huffman.mkEnc 6 3 true]>
       (<[2 := Huffman.mkEnc 2 2 true]> (<[3 := Huffman.mkEnc 0 1 true]> ∅))))
    [Huffman.mkNode 1 2 (-1); Huffman.mkNode (-1) (-1) 3;
     Huffman.mkNode 3 4 (-1); Huffman.mkNode (-1) (-1) 2;
     Huffman.mkNode 5 6 (-1); Huffman.mkNode (-1) (-1) 0;
     Huffman.mkNode (-1) (-1) 1].

End Samples.

(** * Command line (cli/cli_parser.cpp) *)

Module Cli.
Import Stdlib.Strings.Ascii.

(** [a.rfind("--", 0) == 0]: [a] starts with two dashes. *)
Definition starts_with_dashes (a : string) : bool :=
  match a with
  | String "-"%char (String "-"%char _) => true
  | _ => false
  end.

(** The loop of [CliParser::parse] on the arguments not yet read; [kv] is
    the member [kv_].  For an argument that starts with two dashes,
    [a.substr(2)] is the key; the argument after it is its value unless it
    starts with two dashes itself, and is then skipped by [++i]. *)
Fixpoint parse_args (args : list string) (kv : gmap string string)
  : gmap string string :=
  match args with
  | [] => kv
  | a :: rest =>
      match a with
      | String "-"%char (String "-"%char key) =>
          match rest with
          | next :: rest' =>
              if starts_with_dashes next
              then parse_args rest (<[key := "true"]> kv)
              else parse_args rest' (<[key := next]> kv)
          | [] => parse_args rest (<[key := "true"]> kv)
          end
      | _ => parse_args rest kv
      end
  end.

(** [CliParser::parse]: [kv_.clear()], then the loop from [argv[1]] on. *)
Definition parse (argv : list string) : gmap string string :=
  parse_args (drop 1 argv) ∅.

Definition has (kv : gmap string string) (key : string) : bool :=
  bool_decide (is_Some (kv !! key)).

Definition get (kv : gmap string string) (key def : string) : string :=
  default def (kv !! key).

End Cli.

(** Notions used to state the properties of the command line. *)

Module CliSpec.
Import Stdlib.Strings.Ascii.

(** An option with its value, or a flag. *)
Inductive item : Type :=
| Opt (key value : string)
| Flag (key : string).

Definition item_key (it : item) : string :=
  match it with Opt k _ => k | Flag k => k end.

Definition item_value (it : item) : string :=
  match it with Opt _ v => v | Flag _ => "true" end.

(** The arguments that spell an item. *)
Definition item_args (it : item) : list string :=
  match it with
  | Opt k v => [String "-"%char (String "-"%char k); v]
  | Flag k => [String "-"%char (String "-"%char k)]
  end.

(** The value of an option can be told from the next option. *)
Definition item_ok (it : item) : Prop :=
  match it with
  | Opt _ v => Cli.starts_with_dashes v = false
  | Flag _ => True
  end.

End CliSpec.

(** * Writing a PGM file (io/medical_saver.cpp) *)

Module Saver.
Import Img Block.







End Saver.

(** * Lemmas and theorems *)

(** * Zero run-length coding: round trip *)

Lemma bind_OK_inv {A B} (r : result A) (f : A -> result B) (b : B) :
  r ≫= f = OK b -> exists a, r = OK a /\ f a = OK b.
Proof. destruct r as [a|msg]; simpl; [eauto | discriminate]. Qed.

Lemma zlen_app {A} (l1 l2 : list A) : zlen (l1 ++ l2) = zlen l1 + zlen l2.
Proof. unfold zlen. rewrite length_app. lia. Qed.

Lemma zlen_nonneg {A} (l : list A) : 0 <= zlen l.
Proof. unfold zlen. lia. Qed.

Section RleProofs.
Import Rle.

Lemma expand_app ps qs : expand (ps ++ qs) = expand ps ++ expand qs.
Proof. unfold expand. by rewrite map_app, concat_app. Qed.

Lemma expand_single v r : expand [mkPair v r] = replicate (Z.to_nat r) 0 ++ [v].
Proof. unfold expand. simpl. by rewrite app_nil_r. Qed.

Lemma replicate_snoc_zero (n : nat) : replicate n 0 ++ [0] = replicate (S n) (0:Z).
Proof. induction n as [|n IH]; simpl; [done | by rewrite IH]. Qed.

Lemma u16_small z : 0 <= z < 65536 -> u16 z = z.
Proof. intros. unfold u16. by apply Z.mod_small. Qed.

(** An [int] operation whose exact result is an [int] does not wrap. *)
Lemma i32_id z : -2147483648 <= z <= 2147483647 -> i32 z = z.
Proof.
  intros Hz. unfold i32. cbv zeta.
  destruct (Z.lt_ge_cases z 0).
  - replace (z mod 4294967296) with (z + 4294967296).
    + destruct (Z.ltb_spec (z + 4294967296) 2147483648); lia.
    + apply (Z.mod_unique_pos _ _ (-1)); lia.
  - rewrite Z.mod_small by lia. destruct (Z.ltb_spec z 2147483648); lia.
Qed.

(** A result just above [INT_MAX] wraps to a negative [int]. *)
Lemma i32_wrap z :
  2147483647 < z <= 4294967295 -> i32 z = z - 4294967296.
Proof.
  intros Hz. unfold i32. cbv zeta. rewrite Z.mod_small by lia.
  destruct (Z.ltb_spec z 2147483648); lia.
Qed.

(** The AC walk only appends pairs; what those pairs expand to, followed by
    the pending run, is the pending run at entry followed by the
    coefficients walked.  No split happens while the run stays below
    [0xFFFF]. *)
Lemma rle_ac_loop_spec ac : forall run0 out,
  0 <= run0 -> run0 + zlen ac <= 65535 ->
  exists ps run',
    rle_ac_loop ac run0 out = (out ++ ps, run') /\
    0 <= run' <= run0 + zlen ac /\
    expand ps ++ replicate (Z.to_nat run') 0
      = replicate (Z.to_nat run0) 0 ++ ac.
Proof.
  induction ac as [|v ac IH]; intros run0 out Hr Hb.
  - exists [], run0. simpl. rewrite app_nil_r. unfold zlen; simpl.
    split; [done|]. split; [lia|]. by rewrite app_nil_r.
  - unfold zlen in Hb. simpl length in Hb. simpl.
    destruct (Z.eqb_spec v 0) as [->|Hv].
    + destruct (Z.eqb_spec run0 65535) as [->|Hne]; [lia|].
      rewrite (u16_small (run0 + 1)) by lia.
      destruct (IH (run0 + 1) out) as (ps & run' & Heq & Hrun & Hexp);
        [lia | unfold zlen; lia |].
      exists ps, run'. split; [done|]. split; [unfold zlen in *; simpl; lia|].
      rewrite Hexp. replace (Z.to_nat (run0 + 1)) with (S (Z.to_nat run0)) by lia.
      rewrite <- replicate_snoc_zero. by rewrite <- app_assoc.
    + destruct (IH 0 (out ++ [mkPair v run0])) as (ps & run' & Heq & Hrun & Hexp);
        [lia | unfold zlen; lia |].
      exists (mkPair v run0 :: ps), run'. split.
      { rewrite Heq. by rewrite <- app_assoc. }
      split; [unfold zlen in *; simpl; lia|].
      change (mkPair v run0 :: ps) with ([mkPair v run0] ++ ps).
      rewrite expand_app, expand_single. rewrite <- !app_assoc. f_equal.
      simpl. f_equal. rewrite Hexp. done.
Qed.

(** One block: the pairs appended expand to the block itself. *)
Lemma rle_block_spec dc ac out :
  zlen ac <= 65535 ->
  exists ps, rle_block dc ac out = out ++ ps /\ expand ps = dc :: ac.
Proof.
  intros Hb. unfold rle_block.
  destruct (rle_ac_loop_spec ac 0 (out ++ [mkPair dc 0])) as (ps & run' & Heq & Hrun & Hexp);
    [lia | lia |].
  rewrite Heq. simpl in Hexp.
  destruct (Z.ltb_spec 0 run') as [Hpos|Hz].
  - exists ([mkPair dc 0] ++ ps ++ [mkPair 0 (u16 (run' - 1))]). split.
    { by rewrite <- !app_assoc. }
    rewrite !expand_app, !expand_single. simpl. f_equal.
    rewrite u16_small by lia. rewrite replicate_snoc_zero.
    replace (S (Z.to_nat (run' - 1))) with (Z.to_nat run') by lia. done.
  - exists ([mkPair dc 0] ++ ps). split.
    { by rewrite <- !app_assoc. }
    rewrite expand_app, expand_single. simpl. f_equal.
    replace run' with 0 in Hexp by lia. simpl in Hexp. by rewrite app_nil_r in Hexp.
Qed.

(** [k] whole blocks: the outer loop expands to its input. *)
Lemma rle_blocks_spec (n : nat) : (1 <= n)%nat -> Z.of_nat n <= 65536 ->
  forall (k : nat) seq fuel out,
  length seq = (k * n)%nat -> (length seq <= fuel)%nat ->
  exists ps, rle_blocks fuel n seq out = out ++ ps /\ expand ps = seq.
Proof.
  intros Hn1 Hn2. induction k as [|k IH]; intros seq fuel out Hlen Hfuel.
  - destruct seq; [|simpl in Hlen; lia]. exists []. rewrite app_nil_r.
    split; [by destruct fuel | done].
  - destruct seq as [|dc rest]; [simpl in Hlen; lia|].
    destruct fuel as [|fuel]; [simpl in Hfuel; lia|].
    simpl in Hlen, Hfuel. simpl.
    destruct (rle_block_spec dc (take (n - 1) rest) out) as (ps1 & Hb & He1).
    { unfold zlen. rewrite length_take. lia. }
    rewrite Hb.
    destruct (IH (drop (n - 1) rest) fuel (out ++ ps1)) as (ps2 & Hr & He2).
    { rewrite length_drop. lia. }
    { rewrite length_drop. lia. }
    rewrite Hr. exists (ps1 ++ ps2). split; [by rewrite app_assoc|].
    rewrite expand_app, He1, He2. simpl. by rewrite take_drop.
Qed.

(** The decoding loop writes [expand] of its pairs when that fits. *)
Lemma rle_decode_loop_expand ps : forall total out,
  zlen (out ++ expand ps) <= total ->
  rle_decode_loop ps total out = OK (out ++ expand ps).
Proof.
  induction ps as [|p ps IH]; intros total out Hfit.
  - simpl. unfold expand. simpl. by rewrite app_nil_r.
  - change (p :: ps) with ([p] ++ ps) in Hfit. rewrite expand_app in Hfit.
    destruct p as [v r]. rewrite expand_single in Hfit. simpl.
    assert (Hs1 : (if 0 <? r then out ++ replicate (Z.to_nat r) 0 else out)
                  = out ++ replicate (Z.to_nat r) 0).
    { destruct (Z.ltb_spec 0 r); [done|].
      replace (Z.to_nat r) with 0%nat by lia. simpl. by rewrite app_nil_r. }
    rewrite Hs1.
    destruct (Z.ltb_spec total (zlen ((out ++ replicate (Z.to_nat r) 0) ++ [v]))) as [Hover|_].
    + rewrite !zlen_app in Hfit. rewrite !zlen_app in Hover. pose proof (zlen_nonneg (expand ps)). lia.
    + rewrite IH.
      * f_equal. change (mkPair v r :: ps) with ([mkPair v r] ++ ps).
        rewrite expand_app, expand_single. by rewrite <- !app_assoc.
      * by rewrite <- !app_assoc in *.
Qed.

End RleProofs.

Section RleClaims.
Import Rle.

Lemma rle_ac_loop_app a1 : forall a2 run0 out,
  rle_ac_loop (a1 ++ a2) run0 out =
  let '(o1, r1) := rle_ac_loop a1 run0 out in rle_ac_loop a2 r1 o1.
Proof.
  induction a1 as [|v a1 IH]; intros a2 run0 out; [done|].
  simpl. destruct (v =? 0).
  - destruct (run0 =? 65535); apply IH.
  - apply IH.
Qed.

Lemma rle_ac_loop_zeros (r : nat) : forall run0 out,
  0 <= run0 -> run0 + Z.of_nat r <= 65535 ->
  rle_ac_loop (replicate r 0) run0 out = (out, run0 + Z.of_nat r).
Proof.
  induction r as [|r IH]; intros run0 out H0 Hb; simpl.
  - f_equal. lia.
  - destruct (Z.eqb_spec run0 65535); [lia|].
    rewrite u16_small by lia. rewrite IH by lia. f_equal. lia.
Qed.

Lemma rle_ac_loop_no_pending pre : forall run0 out,
  last pre ≠ Some 0 -> pre ≠ [] -> snd (rle_ac_loop pre run0 out) = 0.
Proof.
  induction pre as [|v pre IH] using rev_ind; intros run0 out Hlast Hne; [done|].
  rewrite last_snoc in Hlast. rewrite rle_ac_loop_app.
  destruct (rle_ac_loop pre run0 out) as [o1 r1]. simpl.
  destruct (Z.eqb_spec v 0) as [->|_]; [done | done].
Qed.

Lemma rle_blocks_one_block (n : nat) dc ac out :
  length ac = (n - 1)%nat ->
  rle_blocks (length (dc :: ac)) n (dc :: ac) out = rle_block dc ac out.
Proof.
  intros Hlen. simpl. rewrite <- Hlen, drop_all, firstn_all.
  by destruct (length ac).
Qed.

(** C1: for a buffer of [k > 0] whole blocks, with block size 8 or 16,
    decoding the encoded pairs with [total_coeffs = len(x)] gives back the
    buffer.  A block has at most 255 AC coefficients, so the pending run
    never reaches [0xFFFF] and no block of such a buffer needs a split; the
    statement covers all-zero AC tails and a single non-zero AC at the last
    position like every other block. *)
Theorem rle_round_trip (x : list Z) (B : Z) (k : nat) :
  B = 8 \/ B = 16 ->
  (0 < k)%nat ->
  zlen x = Z.of_nat k * (B * B) ->
  exists rle,
    rle_encode_zeros x B = OK rle /\
    rle_decode_zeros rle B (zlen x) = OK x.
Proof.
  intros HB Hk Hlen.
  assert (Hbb : 0 < B * B <= 256) by (destruct HB; subst; lia).
  destruct (rle_blocks_spec (Z.to_nat (B * B)) ltac:(lia) ltac:(lia)
              k x (length x) []) as (ps & Henc & Hexp).
  { unfold zlen in Hlen. lia. }
  { lia. }
  exists ps. unfold rle_encode_zeros, rle_decode_zeros.
  assert (Hbs : negb (B =? 8) && negb (B =? 16) = false)
    by (destruct HB; subst; reflexivity).
  rewrite Hbs.
  assert (Hmod : (zlen x mod (B * B) =? 0) = true).
  { apply Z.eqb_eq. rewrite Hlen. apply Z_mod_mult. }
  rewrite Hmod. simpl negb. cbv iota.
  split; [by rewrite Henc|].
  rewrite (rle_decode_loop_expand ps (zlen x) []).
  - simpl. rewrite Hexp. by rewrite Z.eqb_refl.
  - simpl. rewrite Hexp. lia.
Qed.

Lemma rle_round_trip_witness :
  (8 = 8 \/ 8 = 16) /\ (0 < 1)%nat /\
  zlen self_test_block = Z.of_nat 1 * (8 * 8) /\
  exists rle,
    rle_encode_zeros self_test_block 8 = OK rle /\
    rle_decode_zeros rle 8 (zlen self_test_block) = OK self_test_block.
Proof.
  assert (H1 : 8 = 8 \/ 8 = 16) by (left; reflexivity).
  assert (H2 : (0 < 1)%nat) by lia.
  assert (H3 : zlen self_test_block = Z.of_nat 1 * (8 * 8)) by reflexivity.
  split; [exact H1|]. split; [exact H2|]. split; [exact H3|].
  exact (rle_round_trip self_test_block 8 1 H1 H2 H3).
Defined.

(** ** The walk of a buffer, block by block *)

(** The AC walk only appends to the pairs it is given. *)
Lemma rle_ac_loop_acc ac : forall run0 out,
  rle_ac_loop ac run0 out =
  (out ++ (rle_ac_loop ac run0 []).1, (rle_ac_loop ac run0 []).2).
Proof.
  induction ac as [|v ac IH]; intros run0 out.
  { simpl. by rewrite app_nil_r. }
  simpl. destruct (v =? 0).
  - destruct (run0 =? 65535).
    + rewrite (IH _ (out ++ _)), (IH _ [_]). simpl.
      by rewrite <- app_assoc.
    + apply IH.
  - rewrite (IH _ (out ++ _)), (IH _ [_]). simpl.
    by rewrite <- app_assoc.
Qed.

Lemma rle_block_acc dc ac out :
  rle_block dc ac out = out ++ rle_block dc ac [].
Proof.
  unfold rle_block.
  rewrite (rle_ac_loop_acc ac 0 (out ++ _)), (rle_ac_loop_acc ac 0 ([] ++ _)).
  cbn [app].
  destruct (rle_ac_loop ac 0 []) as [ps run']. simpl.
  destruct (0 <? run'); by rewrite <- ?app_assoc.
Qed.

Lemma rle_blocks_acc n : forall fuel seq out,
  rle_blocks fuel n seq out = out ++ rle_blocks fuel n seq [].
Proof.
  induction fuel as [|fuel IH]; intros seq out.
  { simpl. by rewrite app_nil_r. }
  destruct seq as [|dc rest]; simpl; [by rewrite app_nil_r|].
  rewrite (IH _ (rle_block dc _ out)), (IH _ (rle_block dc _ [])).
  rewrite (rle_block_acc dc _ out). by rewrite <- app_assoc.
Qed.

(** More iterations than the input has elements change nothing. *)
Lemma rle_blocks_fuel n : forall f1 f2 seq out,
  (length seq <= f1)%nat -> (length seq <= f2)%nat ->
  rle_blocks f1 n seq out = rle_blocks f2 n seq out.
Proof.
  induction f1 as [|f1 IH]; intros f2 seq out H1 H2.
  { destruct seq; [by destruct f2 | simpl in H1; lia]. }
  destruct seq as [|dc rest]; [by destruct f2|].
  destruct f2 as [|f2]; [simpl in H2; lia|].
  simpl in *. apply IH; rewrite length_drop; lia.
Qed.

(** The walk of [k] whole blocks followed by [rest] is the walk of the
    blocks, then the walk of [rest]. *)
Lemma rle_blocks_split (n : nat) : (1 <= n)%nat ->
  forall (k : nat) before rest fuel out,
  length before = (k * n)%nat -> (length (before ++ rest) <= fuel)%nat ->
  rle_blocks fuel n (before ++ rest) out =
  rle_blocks (length rest) n rest (rle_blocks (length before) n before out).
Proof.
  intros Hn. induction k as [|k IH]; intros before rest fuel out Hlen Hfuel.
  { destruct before; [|simpl in Hlen; lia]. simpl in *.
    by apply rle_blocks_fuel. }
  destruct before as [|dc b]; [simpl in Hlen; lia|].
  destruct fuel as [|fuel]; [simpl in Hfuel; lia|].
  simpl in Hlen, Hfuel. rewrite length_app in Hfuel.
  cbn [app length rle_blocks].
  rewrite take_app_le, drop_app_le by lia.
  rewrite (IH (drop (n - 1) b) rest fuel).
  - f_equal. apply rle_blocks_fuel; rewrite ?length_drop; lia.
  - rewrite length_drop. lia.
  - rewrite length_app, length_drop. lia.
Qed.

(** The encoding of a buffer of whole blocks, followed by one more block
    and by further whole blocks. *)
Lemma rle_encode_zeros_block B before dc ac after :
  B = 8 \/ B = 16 ->
  zlen before mod (B * B) = 0 -> zlen after mod (B * B) = 0 ->
  zlen ac = B * B - 1 ->
  exists out_before out_after,
    rle_encode_zeros before B = OK out_before /\
    rle_encode_zeros after B = OK out_after /\
    rle_encode_zeros (before ++ dc :: ac ++ after) B
      = OK (out_before ++ rle_block dc ac [] ++ out_after).
Proof.
  intros HB Hb Ha Hac.
  assert (Hbb : 0 < B * B) by (destruct HB; subst; lia).
  assert (Hbs : negb (B =? 8) && negb (B =? 16) = false)
    by (destruct HB; subst; reflexivity).
  set (n := Z.to_nat (B * B)).
  assert (Hn : (1 <= n)%nat) by lia.
  apply Z.mod_divide in Hb as [kb Hkb]; [|lia].
  exists (rle_blocks (length before) n before []),
         (rle_blocks (length after) n after []).
  unfold rle_encode_zeros. rewrite Hbs. fold n.
  assert (Hmod : zlen (before ++ dc :: ac ++ after) mod (B * B) = 0).
  { change (dc :: ac ++ after) with ([dc] ++ ac ++ after).
    rewrite !zlen_app, Hac. change (zlen [dc]) with 1.
    replace (zlen before + (1 + (B * B - 1 + zlen after)))
      with (zlen after + (kb + 1) * (B * B)) by lia.
    by rewrite Z_mod_plus_full. }
  rewrite Hmod, Ha, Hkb, Z_mod_mult. cbn [Z.eqb negb].
  split; [done|]. split; [done|]. f_equal.
  assert (Hkb0 : 0 <= kb) by (pose proof (zlen_nonneg before); nia).
  rewrite (rle_blocks_split n Hn (Z.to_nat kb) before (dc :: ac ++ after)
             _ []); [| unfold zlen in Hkb; nia | lia].
  rewrite (rle_blocks_acc n _ (dc :: ac ++ after)). f_equal.
  cbn [length rle_blocks].
  assert (Hlac : length ac = (n - 1)%nat) by (unfold zlen in Hac; lia).
  rewrite take_app_le, drop_app_le by lia.
  rewrite <- Hlac, firstn_all, drop_all. cbn [app].
  rewrite (rle_blocks_acc n _ after). f_equal.
  apply rle_blocks_fuel; rewrite ?length_app; lia.
Qed.

(** What one block contributes when its AC coefficients are [pre], empty
    or ending in a non-zero value, followed by [r] zeros. *)
Lemma rle_block_trailing dc pre (r : nat) :
  zlen pre + Z.of_nat r <= 65535 ->
  last pre ≠ Some 0 ->
  exists ps,
    rle_ac_loop pre 0 [mkPair dc 0] = (ps, 0) /\
    rle_ac_loop (pre ++ replicate r 0) 0 [mkPair dc 0] = (ps, Z.of_nat r) /\
    rle_block dc (pre ++ replicate r 0) [] =
      ps ++ (if 0 <? Z.of_nat r then [mkPair 0 (Z.of_nat r - 1)] else []).
Proof.
  intros Hlen Hlast.
  destruct (rle_ac_loop pre 0 [mkPair dc 0]) as [ps run'] eqn:Hpre.
  assert (Hrun : run' = 0).
  { destruct pre as [|v pre]; [simpl in Hpre; congruence|].
    change run' with (snd (ps, run')). rewrite <- Hpre.
    by apply rle_ac_loop_no_pending. }
  subst run'. exists ps.
  assert (Hwalk : rle_ac_loop (pre ++ replicate r 0) 0 [mkPair dc 0]
                  = (ps, Z.of_nat r)).
  { rewrite rle_ac_loop_app, Hpre. rewrite rle_ac_loop_zeros; [done | lia |].
    pose proof (zlen_nonneg pre). lia. }
  split; [done|]. split; [done|].
  unfold rle_block. cbn [app]. rewrite Hwalk.
  destruct (Z.ltb_spec 0 (Z.of_nat r)); [|by rewrite app_nil_r].
  rewrite u16_small; [done|]. pose proof (zlen_nonneg pre). lia.
Qed.

(** A buffer of [k] all-zero 8x8 blocks. *)
Lemma rle_zero_blocks (k : nat) :
  rle_encode_zeros (replicate (64 * k) 0) 8
    = OK (concat (replicate k [mkPair 0 0; mkPair 0 62])).
Proof.
  unfold rle_encode_zeros. cbn [Z.eqb negb andb].
  change (8 * 8) with 64.
  assert (Hmod : zlen (replicate (64 * k) (0:Z)) mod 64 = 0).
  { unfold zlen. rewrite length_replicate.
    replace (Z.of_nat (64 * k)) with (Z.of_nat k * 64) by lia.
    apply Z_mod_mult. }
  rewrite Hmod. cbn [Z.eqb negb]. f_equal.
  rewrite length_replicate. change (Z.to_nat 64) with 64%nat. clear Hmod.
  induction k as [|k IH]; [done|].
  replace (64 * S k)%nat with (64 + 64 * k)%nat by lia.
  rewrite replicate_add.
  rewrite (rle_blocks_split 64 ltac:(lia) 1 (replicate 64 0)
             (replicate (64 * k) 0) _ []);
    [| by rewrite length_replicate
     | rewrite length_app, !length_replicate; lia].
  rewrite !length_replicate, rle_blocks_acc, IH. done.
Qed.

(** C3, for every block of a buffer of whole blocks.  Let the block have
    the DC [dc] and the AC coefficients [pre] followed by [r] zeros, where
    [pre] is empty or ends in a non-zero value, and let whole blocks
    [before] and [after] surround it.  The walk of the AC coefficients
    leaves the pending run [r] after the pairs [ps] of [dc] and [pre], and
    the block contributes [ps] followed, when [r > 0], by the one pair
    [(0, r - 1)] and by nothing when [r = 0]; the pairs of the blocks
    before and after are those of their own encoding.  The pair
    [(0, r - 1)] decodes to exactly [r] zeros.  A buffer of [k] all-zero
    8x8 blocks is [k] times the DC pair [(0, 0)] followed by [(0, 62)]. *)
Theorem rle_trailing_zeros_pair (B dc : Z) (before pre after : list Z)
    (r : nat) :
  B = 8 \/ B = 16 ->
  zlen before mod (B * B) = 0 -> zlen after mod (B * B) = 0 ->
  zlen pre + Z.of_nat r = B * B - 1 ->
  last pre ≠ Some 0 ->
  (exists out_before ps out_after,
     rle_encode_zeros before B = OK out_before /\
     rle_encode_zeros after B = OK out_after /\
     rle_ac_loop pre 0 [mkPair dc 0] = (ps, 0) /\
     rle_ac_loop (pre ++ replicate r 0) 0 [mkPair dc 0] = (ps, Z.of_nat r) /\
     rle_encode_zeros (before ++ dc :: (pre ++ replicate r 0) ++ after) B
       = OK (out_before ++
             (ps ++ if 0 <? Z.of_nat r then [mkPair 0 (Z.of_nat r - 1)]
                    else []) ++
             out_after)) /\
  ((0 < r)%nat ->
   rle_decode_loop [mkPair 0 (Z.of_nat r - 1)] (Z.of_nat r) []
     = OK (replicate r 0)) /\
  (forall k : nat,
     rle_encode_zeros (replicate (64 * k) 0) 8
       = OK (concat (replicate k [mkPair 0 0; mkPair 0 62]))).
Proof.
  intros HB Hb Ha Hlen Hlast.
  assert (Hbb : B * B = 64 \/ B * B = 256) by (destruct HB; subst; lia).
  split; [|split].
  - destruct (rle_block_trailing dc pre r ltac:(lia) Hlast)
      as (ps & Hpre & Hwalk & Hblock).
    destruct (rle_encode_zeros_block B before dc (pre ++ replicate r 0) after
                HB Hb Ha) as (ob & oa & Hob & Hoa & Henc).
    { rewrite zlen_app. unfold zlen at 2. rewrite length_replicate. lia. }
    exists ob, ps, oa. rewrite Hblock in Henc. done.
  - intros Hr. rewrite rle_decode_loop_expand.
    + simpl. rewrite expand_single, replicate_snoc_zero. f_equal. f_equal. lia.
    + simpl. rewrite expand_single. unfold zlen.
      rewrite length_app, length_replicate. simpl. lia.
  - apply rle_zero_blocks.
Qed.

Lemma rle_trailing_zeros_pair_witness :
  (8 = 8 \/ 8 = 16) /\
  zlen self_test_block mod (8 * 8) = 0 /\
  zlen (replicate 64 0) mod (8 * 8) = 0 /\
  zlen [0; 0; 4] + Z.of_nat 60 = 8 * 8 - 1 /\
  last [0; 0; 4] <> Some 0 /\
  rle_encode_zeros
    (self_test_block ++ 9 :: ([0; 0; 4] ++ replicate 60 0) ++ replicate 64 0) 8
    = OK ([mkPair 5 0; mkPair (-3) 4; mkPair 7 6; mkPair (-1) 50] ++
          ([mkPair 9 0; mkPair 4 2] ++ [mkPair 0 59]) ++
          [mkPair 0 0; mkPair 0 62]).
Proof.
  assert (H1 : 8 = 8 \/ 8 = 16) by (left; reflexivity).
  assert (H2 : zlen self_test_block mod (8 * 8) = 0) by reflexivity.
  assert (H3 : zlen (replicate 64 0) mod (8 * 8) = 0) by reflexivity.
  assert (H4 : zlen [0; 0; 4] + Z.of_nat 60 = 8 * 8 - 1) by reflexivity.
  assert (H5 : last [0; 0; 4] <> Some 0) by (simpl; discriminate).
  split; [exact H1|]. split; [exact H2|]. split; [exact H3|].
  split; [exact H4|]. split; [exact H5|].
  destruct (rle_trailing_zeros_pair 8 9 self_test_block [0; 0; 4]
              (replicate 64 0) 60 H1 H2 H3 H4 H5)
    as ((ob & ps & oa & Hob & Hoa & Hps & _ & Henc) & _ & _).
  vm_compute in Hob, Hoa, Hps.
  injection Hob as <-. injection Hoa as <-. injection Hps as <-.
  exact Henc.
Defined.

End RleClaims.

(** * Level shift *)

Section LevelShift.
Import Img.

(** C9, as the code has it: with a non-empty pixel buffer, both functions
    fail when [bits_stored] is outside [1, 16]; with an empty pixel buffer
    both return first and leave the image as it is, whatever
    [bits_stored] is. *)
Theorem level_shift_rejects_bits_stored (img : Image) :
  bits_stored img < 1 \/ 16 < bits_stored img ->
  (pixels img <> [] ->
     apply_level_shift img = Err "apply_level_shift: invalid bits_stored" /\
     inverse_level_shift img = Err "inverse_level_shift: invalid bits_stored") /\
  (pixels img = [] ->
     apply_level_shift img = OK img /\ inverse_level_shift img = OK img).
Proof.
  intros Hbs. unfold apply_level_shift, inverse_level_shift, empty.
  split; intros Hpx.
  - destruct (pixels img) as [|p px]; [done|].
    assert (Hc : (bits_stored img <=? 0) || (16 <? bits_stored img) = true).
    { apply orb_true_iff. destruct Hbs; [left; apply Z.leb_le | right; apply Z.ltb_lt]; lia. }
    by rewrite Hc.
  - by rewrite Hpx.
Qed.

Lemma level_shift_rejects_bits_stored_witness :
  (bits_stored wide_image < 1 \/ 16 < bits_stored wide_image) /\
  pixels wide_image <> [] /\
  apply_level_shift wide_image = Err "apply_level_shift: invalid bits_stored" /\
  inverse_level_shift wide_image
    = Err "inverse_level_shift: invalid bits_stored".
Proof.
  assert (H1 : bits_stored wide_image < 1 \/ 16 < bits_stored wide_image)
    by (right; simpl; lia).
  assert (H2 : pixels wide_image <> []) by (simpl; discriminate).
  split; [exact H1|]. split; [exact H2|].
  exact (proj1 (level_shift_rejects_bits_stored wide_image H1) H2).
Defined.

(** C9 as stated fails for an image without pixels: [bits_stored = 0] is
    outside [1, 16], and neither function raises an error. *)
Lemma level_shift_empty_image_no_error :
  (bits_stored no_pixels_image < 1 \/ 16 < bits_stored no_pixels_image) /\
  apply_level_shift no_pixels_image = OK no_pixels_image /\
  inverse_level_shift no_pixels_image = OK no_pixels_image.
Proof. split; [left; simpl; lia|]. split; reflexivity. Qed.

End LevelShift.

(** * Bit input and output *)

Section BitIO.
Import Huffman HuffSpec.

Lemma land_shiftr_bit c i :
  0 <= i -> Z.land (Z.shiftr c i) 1 = Z.b2z (Z.testbit c i).
Proof.
  intros Hi. change 1 with (Z.ones 1). rewrite Z.land_ones by lia.
  change (2 ^ 1) with 2. rewrite <- Z.bit0_mod.
  rewrite Z.shiftr_spec by lia. by rewrite Z.add_0_l.
Qed.

Lemma lor_double_bit c (b : bool) :
  Z.lor (Z.shiftl c 1) (Z.b2z b) = 2 * c + Z.b2z b.
Proof.
  rewrite Z.shiftl_mul_pow2 by lia. change (2 ^ 1) with 2.
  rewrite (Z.mul_comm c 2). symmetry. apply Z.add_nocarry_lor.
  destruct b; simpl Z.b2z; [|apply Z.land_0_r].
  change 1 with (Z.ones 1). rewrite Z.land_ones by lia.
  change (2 ^ 1) with 2. rewrite Z.mul_comm. apply Z_mod_mult.
Qed.

Lemma bits_value_snoc bs b :
  bits_value (bs ++ [b]) = 2 * bits_value bs + Z.b2z b.
Proof. unfold bits_value. by rewrite foldl_snoc. Qed.

Lemma bits_value_bound bs : 0 <= bits_value bs < 2 ^ Z.of_nat (length bs).
Proof.
  induction bs as [|b bs IH] using rev_ind; [simpl; unfold bits_value; simpl; lia|].
  rewrite bits_value_snoc, length_app. simpl length.
  replace (Z.of_nat (length bs + 1)) with (Z.succ (Z.of_nat (length bs))) by lia.
  rewrite Z.pow_succ_r by lia. destruct b; simpl Z.b2z; lia.
Qed.

Lemma code_bits_length c n : length (code_bits c n) = n.
Proof. induction n as [|n IH]; simpl; [done | by rewrite IH]. Qed.

Lemma code_bits_double v (b : bool) n :
  code_bits (2 * v + Z.b2z b) (S n) = code_bits v n ++ [b].
Proof.
  induction n as [|n IH].
  - cbn [code_bits app]. change (Z.of_nat 0) with 0. by rewrite Z.testbit_0_r.
  - change (code_bits (2 * v + Z.b2z b) (S (S n)))
      with (Z.testbit (2 * v + Z.b2z b) (Z.of_nat (S n))
              :: code_bits (2 * v + Z.b2z b) (S n)).
    rewrite IH. replace (Z.of_nat (S n)) with (Z.succ (Z.of_nat n)) by lia.
    rewrite Z.testbit_succ_r by lia. done.
Qed.

Lemma code_bits_value bs : code_bits (bits_value bs) (length bs) = bs.
Proof.
  induction bs as [|b bs IH] using rev_ind; [done|].
  rewrite bits_value_snoc, length_app. simpl length.
  replace (length bs + 1)%nat with (S (length bs)) by lia.
  by rewrite code_bits_double, IH.
Qed.

Lemma bits_value_zeros bs (m : nat) :
  bits_value (bs ++ replicate m false) = bits_value bs * 2 ^ Z.of_nat m.
Proof.
  induction m as [|m IH]; [simpl; rewrite app_nil_r; lia|].
  replace (replicate (S m) false) with (replicate m false ++ [false]).
  - rewrite app_assoc, bits_value_snoc, IH. simpl Z.b2z.
    replace (Z.of_nat (S m)) with (Z.succ (Z.of_nat m)) by lia.
    rewrite Z.pow_succ_r by lia. lia.
  - clear. induction m; simpl; [done | by f_equal].
Qed.

Lemma stream_bits_snoc data byte :
  stream_bits (data ++ [byte]) = stream_bits data ++ code_bits byte 8.
Proof.
  unfold stream_bits. rewrite map_app, concat_app.
  f_equal; cbn [map concat]; apply app_nil_r.
Qed.

Lemma stream_bits_length data : length (stream_bits data) = (8 * length data)%nat.
Proof.
  induction data as [|x data IH]; [done|].
  change (stream_bits (x :: data)) with (code_bits x 8 ++ stream_bits data).
  rewrite length_app, IH, code_bits_length. simpl length. lia.
Qed.

(** *** The writer *)

Lemma writer_holds_init : writer_holds bw_init [].
Proof. exists []. simpl. repeat split; try done. lia. Qed.

Lemma write_one_holds w bs b :
  writer_holds w bs -> writer_holds (write_one b w) (bs ++ [b]).
Proof.
  intros (partial & Hbs & Hlen & Hcur & Hpos). unfold write_one.
  rewrite lor_double_bit, Hcur, <- bits_value_snoc.
  pose proof (bits_value_bound (partial ++ [b])) as Hb.
  rewrite length_app in Hb. simpl length in Hb.
  assert (Hu : u8 (bits_value (partial ++ [b])) = bits_value (partial ++ [b])).
  { unfold u8. apply Z.mod_small. split; [lia|].
    eapply Z.lt_le_trans; [apply Hb|].
    change 256 with (2 ^ 8). apply Z.pow_le_mono_r; lia. }
  rewrite Hu, Hpos.
  destruct (Z.eqb_spec (Z.of_nat (length partial) + 1) 8) as [H8|H8].
  - exists []. simpl. rewrite stream_bits_snoc, app_nil_r.
    assert (Hl : length (partial ++ [b]) = 8%nat)
      by (rewrite length_app; simpl; lia).
    assert (Hcb : code_bits (bits_value (partial ++ [b])) 8 = partial ++ [b])
      by (rewrite <- Hl; apply code_bits_value).
    rewrite Hcb, Hbs, <- app_assoc.
    repeat split; try done. lia.
  - exists (partial ++ [b]). simpl. rewrite Hbs, <- app_assoc.
    rewrite length_app. simpl length. repeat split; try done; lia.
Qed.

Lemma write_bits_loop_holds n : forall c w bs,
  writer_holds w bs ->
  writer_holds (write_bits_loop n c w) (bs ++ code_bits c n).
Proof.
  induction n as [|n IH]; intros c w bs Hw; simpl.
  - by rewrite app_nil_r.
  - rewrite land_shiftr_bit by lia.
    replace (bs ++ Z.testbit c (Z.of_nat n) :: code_bits c n)
      with ((bs ++ [Z.testbit c (Z.of_nat n)]) ++ code_bits c n)
      by (by rewrite <- app_assoc).
    apply IH. by apply (write_one_holds w bs (Z.testbit c (Z.of_nat n))).
Qed.

Lemma flush_holds w bs :
  writer_holds w bs ->
  exists pad, stream_bits (bw_data (flush w)) = bs ++ pad.
Proof.
  intros (partial & Hbs & Hlen & Hcur & Hpos). unfold flush. rewrite Hpos.
  destruct (Z.ltb_spec 0 (Z.of_nat (length partial))) as [Hp|Hp].
  - exists (replicate (8 - length partial) false). simpl.
    rewrite stream_bits_snoc, Hbs, <- app_assoc. f_equal.
    assert (Hu : u8 (8 - Z.of_nat (length partial)) = Z.of_nat (8 - length partial)).
    { unfold u8. rewrite Z.mod_small; lia. }
    rewrite Hu, Z.shiftl_mul_pow2 by lia.
    rewrite Hcur, <- bits_value_zeros.
    pose proof (bits_value_bound (partial ++ replicate (8 - length partial) false)) as Hb.
    assert (Hl : length (partial ++ replicate (8 - length partial) false) = 8%nat).
    { rewrite length_app, length_replicate. lia. }
    rewrite Hl in Hb. unfold u8. rewrite Z.mod_small by (change 256 with (2 ^ 8); lia).
    pose proof (code_bits_value (partial ++ replicate (8 - length partial) false)) as Hcb.
    by rewrite Hl in Hcb.
  - exists []. destruct partial; [|simpl in Hp; lia]. by rewrite Hbs, !app_nil_r.
Qed.

(** *** The reader *)

Lemma code_bits_lookup c n j :
  (j < n)%nat -> code_bits c n !! j = Some (Z.testbit c (Z.of_nat (n - 1 - j))).
Proof.
  revert j. induction n as [|n IH]; intros j Hj; [lia|].
  destruct j as [|j]; simpl.
  - do 2 f_equal. lia.
  - rewrite IH by lia. do 2 f_equal. lia.
Qed.

Lemma stream_bits_lookup data : forall (i j : nat) byte,
  data !! i = Some byte -> (j < 8)%nat ->
  stream_bits data !! (8 * i + j)%nat = Some (Z.testbit byte (Z.of_nat (7 - j))).
Proof.
  induction data as [|x data IH]; intros i j byte Hi Hj; [done|].
  change (stream_bits (x :: data)) with (code_bits x 8 ++ stream_bits data).
  destruct i as [|i].
  - simpl in Hi. injection Hi as ->.
    rewrite lookup_app_l by (rewrite code_bits_length; lia).
    rewrite Nat.mul_0_r, Nat.add_0_l.
    rewrite code_bits_lookup by lia. do 2 f_equal.
  - simpl in Hi. rewrite lookup_app_r by (rewrite code_bits_length; lia).
    rewrite code_bits_length.
    replace (8 * S i + j - 8)%nat with (8 * i + j)%nat by lia.
    by apply IH.
Qed.

Lemma br_at_split (p : nat) :
  p = (8 * Z.to_nat (Z.of_nat p / 8) + Z.to_nat (Z.of_nat p mod 8))%nat /\
  0 <= Z.of_nat p / 8 /\ 0 <= Z.of_nat p mod 8 < 8.
Proof.
  pose proof (Z.div_mod (Z.of_nat p) 8 ltac:(lia)).
  pose proof (Z.mod_pos_bound (Z.of_nat p) 8 ltac:(lia)).
  assert (0 <= Z.of_nat p / 8) by (apply Z.div_pos; lia). lia.
Qed.

Lemma br_at_succ (p : nat) :
  (if Z.of_nat p mod 8 + 1 =? 8
   then mkBR (Z.of_nat p / 8 + 1) 0
   else mkBR (Z.of_nat p / 8) (Z.of_nat p mod 8 + 1)) = br_at (S p).
Proof.
  unfold br_at.
  pose proof (Z.div_mod (Z.of_nat p) 8 ltac:(lia)) as Hdm.
  pose proof (Z.mod_pos_bound (Z.of_nat p) 8 ltac:(lia)) as Hm.
  replace (Z.of_nat (S p)) with (Z.of_nat p + 1) by lia.
  destruct (Z.eqb_spec (Z.of_nat p mod 8 + 1) 8) as [H8|H8].
  - assert (Hq : (Z.of_nat p + 1) = 8 * (Z.of_nat p / 8 + 1) + 0) by lia.
    f_equal.
    + apply (Z.div_unique _ 8 _ 0); lia.
    + apply (Z.mod_unique _ 8 (Z.of_nat p / 8 + 1) 0); lia.
  - assert (Hq : (Z.of_nat p + 1) = 8 * (Z.of_nat p / 8) + (Z.of_nat p mod 8 + 1)) by lia.
    f_equal.
    + apply (Z.div_unique _ 8 _ (Z.of_nat p mod 8 + 1)); lia.
    + apply (Z.mod_unique _ 8 (Z.of_nat p / 8) (Z.of_nat p mod 8 + 1)); lia.
Qed.

Lemma read_bit_stream data (p : nat) b :
  stream_bits data !! p = Some b ->
  read_bit data (br_at p) = OK (b, br_at (S p)).
Proof.
  intros Hb. destruct (br_at_split p) as (Hp & Hq & Hr).
  assert (Hlt : (p < 8 * length data)%nat).
  { rewrite <- stream_bits_length. by eapply lookup_lt_Some. }
  unfold read_bit, br_at at 1. simpl br_byte_idx. simpl br_bit_pos.
  unfold node_at. destruct (Z.ltb_spec (Z.of_nat p / 8) 0); [lia|].
  destruct (data !! Z.to_nat (Z.of_nat p / 8)) as [byte|] eqn:Hbyte.
  - rewrite land_shiftr_bit by lia.
    pose proof (stream_bits_lookup data _ (Z.to_nat (Z.of_nat p mod 8)) byte Hbyte
                  ltac:(lia)) as Hl.
    rewrite <- Hp in Hl. rewrite Hl in Hb. injection Hb as Hb.
    replace (Z.of_nat (7 - Z.to_nat (Z.of_nat p mod 8))) with (7 - Z.of_nat p mod 8) in Hb by lia.
    rewrite Hb, br_at_succ. f_equal. f_equal. by destruct b.
  - apply lookup_ge_None in Hbyte. lia.
Qed.

End BitIO.

(** * Encoding and decoding with a table that has a code for every symbol *)

Section TableRoundTrip.
Import Huffman HuffSpec.

Lemma u32_i32 s : 0 <= s < 4294967296 -> u32 (i32 s) = s.
Proof.
  intros Hs. unfold u32, i32. rewrite (Z.mod_small s) by lia.
  destruct (Z.ltb_spec s 2147483648); [by apply Z.mod_small|].
  replace (s - 4294967296) with (s + (-1) * 4294967296) by lia.
  rewrite Z_mod_plus_full. by apply Z.mod_small.
Qed.

Lemma i32_not_minus_one s : 0 <= s < 4294967295 -> i32 s <> -1.
Proof.
  intros Hs. unfold i32. rewrite (Z.mod_small s) by lia.
  destruct (Z.ltb_spec s 2147483648); lia.
Qed.

Lemma decode_symbol_path t data bits : forall fuel k pre rest s,
  code_path (decode_nodes t) k bits s ->
  stream_bits data = pre ++ bits ++ rest ->
  (length bits < fuel)%nat ->
  decode_symbol fuel t data k (br_at (length pre))
    = OK (u32 s, br_at (length pre + length bits)).
Proof.
  induction bits as [|b bits IH]; intros fuel k pre rest s Hpath Hstream Hfuel.
  - destruct fuel as [|fuel]; [simpl in Hfuel; lia|].
    destruct Hpath as (nd & Hnd & Hsym & Hne). simpl. rewrite Hnd.
    destruct (Z.eqb_spec (symbol nd) (-1)) as [He|_]; [congruence|].
    simpl. rewrite Hsym. do 3 f_equal. lia.
  - destruct fuel as [|fuel]; [simpl in Hfuel; lia|].
    destruct Hpath as (nd & Hnd & Hsym & Hchild & Hrest). simpl decode_symbol.
    rewrite Hnd, Hsym. simpl negb. cbv iota.
    assert (Hb : stream_bits data !! length pre = Some b).
    { rewrite Hstream. rewrite lookup_app_r by lia.
      by rewrite Nat.sub_diag. }
    rewrite (read_bit_stream data (length pre) b Hb). simpl.
    destruct (Z.eqb_spec (if b then right nd else left nd) (-1)) as [He|_];
      [congruence|].
    specialize (IH fuel (if b then right nd else left nd) (pre ++ [b]) rest s Hrest).
    rewrite length_app in IH. simpl length in IH.
    replace (length pre + 1)%nat with (S (length pre)) in IH by lia.
    rewrite IH.
    + do 3 f_equal. lia.
    + by rewrite Hstream, <- app_assoc.
    + simpl in Hfuel. lia.
Qed.

Lemma decode_symbols_codes t data syms : forall pre rest out,
  Forall (codes_symbol t) syms ->
  stream_bits data = pre ++ concat (map (sym_bits t) syms) ++ rest ->
  decode_symbols (length syms) t data (br_at (length pre)) out
    = OK (out ++ syms).
Proof.
  induction syms as [|s syms IH]; intros pre rest out Hall Hstream.
  - simpl. by rewrite app_nil_r.
  - apply Forall_cons in Hall as [Hs Hall].
    destruct Hs as (Hrange & _ & _ & _ & Hpath).
    cbn [map concat] in Hstream. rewrite <- app_assoc in Hstream.
    cbn [length decode_symbols].
    rewrite (decode_symbol_path t data (sym_bits t s) _ 0 pre
               (concat (map (sym_bits t) syms) ++ rest) (i32 s) Hpath Hstream).
    + simpl. rewrite u32_i32 by done.
      rewrite <- length_app. rewrite (IH (pre ++ sym_bits t s) rest).
      * by rewrite <- app_assoc.
      * done.
      * by rewrite <- app_assoc.
    + pose proof (f_equal length Hstream) as Hl.
      rewrite stream_bits_length, !length_app in Hl. lia.
Qed.

Lemma encode_symbols_codes t syms : forall w bs,
  Forall (codes_symbol t) syms ->
  writer_holds w bs ->
  exists w', encode_symbols t syms w = OK w' /\
             writer_holds w' (bs ++ concat (map (sym_bits t) syms)).
Proof.
  induction syms as [|s syms IH]; intros w bs Hall Hw.
  - exists w. simpl. by rewrite app_nil_r.
  - apply Forall_cons in Hall as [Hs Hall].
    destruct Hs as (Hrange & Hsize & Hvalid & Hlen & _).
    cbn [encode_symbols]. rewrite Hvalid.
    destruct (Z.leb_spec (enc_size t) s); [lia|]. simpl orb. cbv iota.
    unfold write_bits.
    destruct (Z.eqb_spec (len (enc_at t s)) 0); [lia|].
    destruct (Z.ltb_spec 32 (len (enc_at t s))); [lia|]. simpl.
    destruct (IH (write_bits_loop (Z.to_nat (len (enc_at t s)))
                    (code (enc_at t s)) w)
                 (bs ++ sym_bits t s) Hall) as (w' & Henc & Hw').
    { by apply write_bits_loop_holds. }
    exists w'. split; [done|]. by rewrite <- app_assoc in Hw'.
Qed.

(** A table that has a code for every symbol of the stream encodes it and
    decodes the result to the stream. *)
Lemma table_round_trip t syms :
  Forall (codes_symbol t) syms ->
  exists w, encode_symbols t syms bw_init = OK w /\
            huff_decode (bw_data (flush w)) t (zlen syms) = OK syms.
Proof.
  intros Hall.
  destruct (encode_symbols_codes t syms bw_init [] Hall writer_holds_init)
    as (w & Henc & Hw).
  exists w. split; [done|].
  destruct (flush_holds w _ Hw) as (pad & Hpad). simpl in Hpad.
  unfold huff_decode, zlen. rewrite Nat2Z.id.
  pose proof (decode_symbols_codes t (bw_data (flush w)) syms [] pad [] Hall Hpad) as Hd.
  exact Hd.
Qed.

End TableRoundTrip.

(** * The decode trie *)

Section Trie.
Import Huffman HuffSpec.

Lemma node_at_Some {A} (v : list A) i x :
  node_at v i = Some x <-> 0 <= i /\ v !! Z.to_nat i = Some x.
Proof.
  unfold node_at. destruct (Z.ltb_spec i 0).
  - split; [done | intros [? _]; lia].
  - split; [intros ?; split; [lia | done] | intros [_ ?]; done].
Qed.

Lemma node_at_nat {A} (v : list A) (k : nat) : node_at v (Z.of_nat k) = v !! k.
Proof.
  unfold node_at. destruct (Z.ltb_spec (Z.of_nat k) 0); [lia|].
  by rewrite Nat2Z.id.
Qed.

Lemma trie_ext_links nodes nodes' : trie_ext nodes nodes' -> links_kept nodes nodes'.
Proof.
  intros H k nd Hk. destruct (H k nd Hk) as (nd' & ? & ? & ? & ?). eauto.
Qed.

Lemma trie_ext_refl nodes : trie_ext nodes nodes.
Proof. intros k nd Hk. exists nd. auto. Qed.

Lemma trie_ext_trans n1 n2 n3 : trie_ext n1 n2 -> trie_ext n2 n3 -> trie_ext n1 n3.
Proof.
  intros H12 H23 k nd Hk.
  destruct (H12 k nd Hk) as (nd2 & Hk2 & Hs2 & Hl2 & Hr2).
  destruct (H23 k nd2 Hk2) as (nd3 & Hk3 & Hs3 & Hl3 & Hr3).
  exists nd3. split; [done|]. split; [congruence|]. split; intros Hne.
  - rewrite Hl3, Hl2; [done | done | rewrite Hl2; done].
  - rewrite Hr3, Hr2; [done | done | rewrite Hr2; done].
Qed.

Lemma walk_links_kept nodes nodes' bits : forall j k,
  links_kept nodes nodes' -> walk nodes j bits = Some k ->
  walk nodes' j bits = Some k.
Proof.
  induction bits as [|b bits IH]; intros j k Hl Hw; simpl in *.
  - destruct (node_at nodes j) as [nd|] eqn:Hnd; [|done].
    apply node_at_Some in Hnd as [Hj Hnd].
    destruct (Hl _ _ Hnd) as (nd' & Hnd' & _).
    assert (Hn : node_at nodes' j = Some nd') by (by apply node_at_Some).
    by rewrite Hn.
  - destruct (node_at nodes j) as [nd|] eqn:Hnd; [|done].
    apply node_at_Some in Hnd as [Hj Hnd].
    destruct (Hl _ _ Hnd) as (nd' & Hnd' & Hleft & Hright).
    assert (Hn : node_at nodes' j = Some nd') by (by apply node_at_Some).
    rewrite Hn.
    destruct (Z.eqb_spec (if b then right nd else left nd) (-1)) as [|Hc]; [done|].
    assert (Hsame : (if b then right nd' else left nd')
                    = (if b then right nd else left nd)).
    { destruct b; auto. }
    rewrite Hsame.
    destruct (Z.eqb_spec (if b then right nd else left nd) (-1)); [done|].
    by apply IH.
Qed.

(** The path recorded for a node is the only way to reach it. *)
Lemma walk_path nodes paths C bits : forall j p k,
  trie_inv nodes paths C ->
  walk nodes j bits = Some k -> 0 <= j -> paths !! Z.to_nat j = Some p ->
  0 <= k /\ paths !! Z.to_nat k = Some (p ++ bits).
Proof.
  induction bits as [|b bits IH]; intros j p k Hinv Hw Hj Hp; simpl in Hw.
  - destruct (node_at nodes j); [|done]. injection Hw as <-.
    by rewrite app_nil_r.
  - destruct (node_at nodes j) as [nd|] eqn:Hnd; [|done].
    apply node_at_Some in Hnd as [_ Hnd].
    destruct (Z.eqb_spec (if b then right nd else left nd) (-1)) as [|Hc]; [done|].
    destruct Hinv as (Hlen & Hroot & Hnodes & Hcodes).
    destruct (Hnodes _ _ _ Hnd Hp) as (Hleft & Hright & _).
    assert (Hchild : 0 <= (if b then right nd else left nd) /\
              paths !! Z.to_nat (if b then right nd else left nd) = Some (p ++ [b])).
    { destruct b; [destruct Hright | destruct Hleft]; done. }
    destruct Hchild as [Hc0 Hcp].
    destruct (IH _ _ _ (conj Hlen (conj Hroot (conj Hnodes Hcodes))) Hw Hc0 Hcp)
      as [Hk Hkp].
    split; [done|]. by rewrite <- app_assoc in Hkp.
Qed.

Lemma trie_codes_ext nodes nodes' (C : list (Z * list bool)) :
  trie_ext nodes nodes' ->
  (forall s bits, (s, bits) ∈ C ->
     s <> -1 /\ exists k nd, walk nodes 0 bits = Some k /\
                  node_at nodes k = Some nd /\ symbol nd = s) ->
  (forall s bits, (s, bits) ∈ C ->
     s <> -1 /\ exists k nd, walk nodes' 0 bits = Some k /\
                  node_at nodes' k = Some nd /\ symbol nd = s).
Proof.
  intros Hext Hc s bits Hin.
  destruct (Hc s bits Hin) as (Hs & k & nd & Hw & Hnd & Hsym).
  split; [done|].
  apply node_at_Some in Hnd as [Hk Hnd].
  destruct (Hext _ _ Hnd) as (nd' & Hnd' & Hsym' & _).
  exists k, nd'. split; [|split].
  - eapply walk_links_kept; [by apply trie_ext_links | done].
  - by apply node_at_Some.
  - congruence.
Qed.

(** A new node hung under node [idx] on side [b]. *)
Lemma trie_add_child nodes paths C (idx : nat) nd p (b : bool) :
  trie_inv nodes paths C ->
  nodes !! idx = Some nd -> paths !! idx = Some p ->
  (if b then right nd else left nd) = -1 ->
  let nodes2 :=
    <[idx := if b then set_right nd (zlen nodes) else set_left nd (zlen nodes)]>
      (nodes ++ [mkNode (-1) (-1) (-1)]) in
  trie_inv nodes2 (paths ++ [p ++ [b]]) C /\ trie_ext nodes nodes2.
Proof.
  intros (Hlen & Hroot & Hnodes & Hcodes) Hnd Hp Hnone nodes2.
  assert (Hidx : (idx < length nodes)%nat) by (by eapply lookup_lt_Some).
  assert (Hext : trie_ext nodes nodes2).
  { intros k nd0 Hk. unfold nodes2.
    destruct (decide (k = idx)) as [->|Hne].
    - rewrite Hnd in Hk. injection Hk as <-.
      rewrite list_lookup_insert_eq by (rewrite length_app; simpl; lia).
      eexists. split; [done|]. destruct b; simpl in *; repeat split; auto; congruence.
    - rewrite list_lookup_insert_ne by done.
      exists nd0. rewrite lookup_app_l by (by eapply lookup_lt_Some). auto. }
  split; [|done].
  split; [|split; [|split]].
  - unfold nodes2. rewrite length_insert, !length_app. simpl. lia.
  - by apply lookup_app_l_Some.
  - intros k nd0 p0 Hk Hpk. unfold nodes2 in Hk.
    assert (Hlift : forall c q, 0 <= c /\ paths !! Z.to_nat c = Some q ->
              0 <= c /\ (paths ++ [p ++ [b]]) !! Z.to_nat c = Some q).
    { intros c q [? ?]. split; [done|]. by apply lookup_app_l_Some. }
    destruct (decide (k = idx)) as [->|Hne].
    + rewrite list_lookup_insert_eq in Hk by (rewrite length_app; simpl; lia).
      injection Hk as <-.
      rewrite lookup_app_l in Hpk by lia. rewrite Hp in Hpk. injection Hpk as <-.
      destruct (Hnodes _ _ _ Hnd Hp) as (Hleft & Hright & Hsym).
      assert (Hnew : 0 <= zlen nodes /\
                (paths ++ [p ++ [b]]) !! Z.to_nat (zlen nodes) = Some (p ++ [b])).
      { unfold zlen. split; [lia|]. rewrite Nat2Z.id, <- Hlen.
        rewrite lookup_app_r by lia. by rewrite Nat.sub_diag. }
      destruct b; simpl in *.
      * split; [|split]; [ | by right | done].
        destruct Hleft as [|Hl]; [by left | right; by apply Hlift].
      * split; [|split]; [ by right | | done].
        destruct Hright as [|Hr]; [by left | right; by apply Hlift].
    + rewrite list_lookup_insert_ne in Hk by done.
      destruct (decide (k < length nodes)%nat) as [Hlt|Hge].
      * rewrite lookup_app_l in Hk by done. rewrite lookup_app_l in Hpk by lia.
        destruct (Hnodes _ _ _ Hk Hpk) as (Hleft & Hright & Hsym).
        split; [|split]; [ | | done].
        -- destruct Hleft as [|Hl]; [by left | right; by apply Hlift].
        -- destruct Hright as [|Hr]; [by left | right; by apply Hlift].
      * rewrite lookup_app_r in Hk by lia.
        destruct (k - length nodes)%nat eqn:Hd; [|by destruct n].
        simpl in Hk. injection Hk as <-. simpl. auto.
  - by apply (trie_codes_ext nodes nodes2 C Hext).
Qed.

(** The bit loop of the insertion: it ends at the node of path
    [p ++ code_bits code n], creating the nodes that are missing. *)
Lemma trie_walk_inv n : forall code idx nodes paths C p,
  trie_inv nodes paths C -> 0 <= idx -> paths !! Z.to_nat idx = Some p ->
  exists k nodes' paths',
    trie_walk n code idx nodes = OK (k, nodes') /\
    trie_inv nodes' paths' C /\ trie_ext nodes nodes' /\
    0 <= k /\ paths' !! Z.to_nat k = Some (p ++ code_bits code n) /\
    walk nodes' idx (code_bits code n) = Some k.
Proof.
  induction n as [|n IH]; intros code idx nodes paths C p Hinv Hidx Hp.
  - exists idx, nodes, paths. simpl. rewrite app_nil_r.
    split; [done|]. split; [done|]. split; [apply trie_ext_refl|].
    split; [done|]. split; [done|].
    destruct Hinv as (Hlen & _).
    assert (Hlt : (Z.to_nat idx < length nodes)%nat).
    { rewrite <- Hlen. by eapply lookup_lt_Some. }
    destruct (lookup_lt_is_Some_2 nodes _ Hlt) as [nd Hnd].
    assert (Hn : node_at nodes idx = Some nd) by (by apply node_at_Some).
    by rewrite Hn.
  - assert (Hlt : (Z.to_nat idx < length nodes)%nat).
    { destruct Hinv as (Hlen & _). rewrite <- Hlen. by eapply lookup_lt_Some. }
    destruct (lookup_lt_is_Some_2 nodes _ Hlt) as [nd Hnd].
    assert (Hn : node_at nodes idx = Some nd) by (by apply node_at_Some).
    cbn [trie_walk code_bits]. rewrite Hn, land_shiftr_bit by lia.
    set (b := Z.testbit code (Z.of_nat n)).
    assert (Hbit : (if Z.b2z b =? 0 then left nd else right nd)
                   = (if b then right nd else left nd)) by (by destruct b).
    rewrite Hbit.
    destruct (Z.eqb_spec (if b then right nd else left nd) (-1)) as [Hnone|Hsome].
    + assert (Hset : (if Z.b2z b =? 0 then set_left nd (zlen nodes)
                      else set_right nd (zlen nodes))
                     = (if b then set_right nd (zlen nodes)
                        else set_left nd (zlen nodes))) by (by destruct b).
      rewrite Hset.
      destruct (trie_add_child nodes paths C (Z.to_nat idx) nd p b Hinv Hnd Hp Hnone)
        as [Hinv2 Hext2].
      set (nodes2 := <[Z.to_nat idx := _]> _) in *.
      assert (Hp2 : (paths ++ [p ++ [b]]) !! Z.to_nat (zlen nodes) = Some (p ++ [b])).
      { destruct Hinv as (Hlen & _). unfold zlen. rewrite Nat2Z.id, <- Hlen.
        rewrite lookup_app_r by lia. by rewrite Nat.sub_diag. }
      destruct (IH code (zlen nodes) nodes2 _ C (p ++ [b]) Hinv2
                  ltac:(unfold zlen; lia) Hp2)
        as (k & nodes' & paths' & Hw & Hinv' & Hext' & Hk & Hkp & Hwalk).
      exists k, nodes', paths'. split; [done|]. split; [done|].
      split; [by eapply trie_ext_trans|]. split; [done|].
      split; [by rewrite <- app_assoc in Hkp|].
      (* the walk from [idx] in the final trie *)
      destruct (Hext2 _ _ Hnd) as (nd2 & Hnd2 & _).
      assert (Hnd2' : nodes2 !! Z.to_nat idx
                = Some (if b then set_right nd (zlen nodes) else set_left nd (zlen nodes))).
      { unfold nodes2. apply list_lookup_insert_eq. rewrite length_app. simpl. lia. }
      destruct (Hext' _ _ Hnd2') as (nd3 & Hnd3 & _ & Hl3 & Hr3).
      simpl. assert (Hn3 : node_at nodes' idx = Some nd3) by (by apply node_at_Some).
      rewrite Hn3.
      assert (Hc3 : (if b then right nd3 else left nd3) = zlen nodes).
      { destruct b; simpl in *; [apply Hr3 | apply Hl3]; unfold zlen; lia. }
      rewrite Hc3. destruct (Z.eqb_spec (zlen nodes) (-1)); [unfold zlen in *; lia|].
      done.
    + assert (Hchild : 0 <= (if b then right nd else left nd) /\
                paths !! Z.to_nat (if b then right nd else left nd) = Some (p ++ [b])).
      { destruct Hinv as (_ & _ & Hnodes & _).
        destruct (Hnodes _ _ _ Hnd Hp) as (Hleft & Hright & _).
        destruct b; [destruct Hright | destruct Hleft]; done. }
      destruct Hchild as [Hc0 Hcp].
      destruct (IH code _ nodes paths C (p ++ [b]) Hinv Hc0 Hcp)
        as (k & nodes' & paths' & Hw & Hinv' & Hext' & Hk & Hkp & Hwalk).
      exists k, nodes', paths'. split; [done|]. split; [done|].
      split; [done|]. split; [done|].
      split; [by rewrite <- app_assoc in Hkp|].
      destruct (Hext' _ _ Hnd) as (nd3 & Hnd3 & _ & Hl3 & Hr3).
      simpl. assert (Hn3 : node_at nodes' idx = Some nd3) by (by apply node_at_Some).
      rewrite Hn3.
      assert (Hc3 : (if b then right nd3 else left nd3)
                    = (if b then right nd else left nd)).
      { destruct b; [apply Hr3 | apply Hl3]; done. }
      rewrite Hc3.
      destruct (Z.eqb_spec (if b then right nd else left nd) (-1)); [done|].
      done.
Qed.

End Trie.

Section TrieFill.
Import Huffman HuffSpec.

Lemma trie_inv_init : trie_inv [mkNode (-1) (-1) (-1)] [[]] [].
Proof.
  split; [done|]. split; [done|]. split.
  - intros k nd p Hk Hp. destruct k as [|k]; [|done].
    injection Hk as <-. simpl. auto.
  - intros s bits Hin. by apply elem_of_nil in Hin.
Qed.

(** Writing the symbol at the end of a new code. *)
Lemma trie_set_symbol nodes paths C (k : nat) nd bits s :
  trie_inv nodes paths C ->
  nodes !! k = Some nd -> paths !! k = Some bits ->
  symbol nd = -1 -> s <> -1 ->
  walk nodes 0 bits = Some (Z.of_nat k) ->
  trie_inv (<[k := set_symbol nd s]> nodes) paths ((s, bits) :: C).
Proof.
  intros (Hlen & Hroot & Hnodes & Hcodes) Hnd Hp Hsym Hs Hwalk.
  assert (Hk : (k < length nodes)%nat) by (by eapply lookup_lt_Some).
  assert (Hlinks : links_kept nodes (<[k := set_symbol nd s]> nodes)).
  { intros j nd0 Hj. destruct (decide (j = k)) as [->|Hne].
    - rewrite Hnd in Hj. injection Hj as <-.
      rewrite list_lookup_insert_eq by done. eexists. split; [done|]. simpl. auto.
    - rewrite list_lookup_insert_ne by done. exists nd0. auto. }
  split; [by rewrite length_insert|]. split; [done|]. split.
  - intros j nd0 p0 Hj Hpj. destruct (decide (j = k)) as [->|Hne].
    + rewrite list_lookup_insert_eq in Hj by done. injection Hj as <-.
      rewrite Hp in Hpj. injection Hpj as <-.
      destruct (Hnodes _ _ _ Hnd Hp) as (Hl & Hr & _). simpl.
      split; [done|]. split; [done|]. right. apply elem_of_cons. by left.
    + rewrite list_lookup_insert_ne in Hj by done.
      destruct (Hnodes _ _ _ Hj Hpj) as (Hl & Hr & Hsy).
      split; [done|]. split; [done|].
      destruct Hsy as [|Hin]; [by left | right; apply elem_of_cons; by right].
  - intros s0 b0 Hin. apply elem_of_cons in Hin as [Heq|Hin].
    + injection Heq as -> ->. split; [done|].
      exists (Z.of_nat k), (set_symbol nd s). split; [|split]; [ | | done].
      * by eapply walk_links_kept.
      * rewrite node_at_nat. by apply list_lookup_insert_eq.
    + destruct (Hcodes _ _ Hin) as (Hs0 & k0 & nd0 & Hw0 & Hn0 & Hsy0).
      split; [done|]. exists k0, nd0. split; [|split]; [ | | done].
      * by eapply walk_links_kept.
      * apply node_at_Some in Hn0 as [Hk0 Hn0]. apply node_at_Some.
        split; [done|]. rewrite list_lookup_insert_ne; [done|].
        intros Heq. rewrite Heq, Hn0 in Hnd. injection Hnd as <-. congruence.
Qed.

Lemma trie_insert_inv msg ce nodes paths C nodes' :
  trie_inv nodes paths C ->
  i32 (c_symbol ce) <> -1 ->
  trie_insert msg ce nodes = OK nodes' ->
  exists paths', trie_inv nodes' paths' (entry_code ce :: C).
Proof.
  intros Hinv Hs Hins. unfold trie_insert in Hins.
  assert (Hroot : paths !! Z.to_nat 0 = Some []) by (by destruct Hinv as (_ & ? & _)).
  destruct (trie_walk_inv (Z.to_nat (c_len ce)) (c_code ce) 0 nodes paths C []
              Hinv ltac:(lia) Hroot)
    as (k & nodes1 & paths1 & Hw & Hinv1 & Hext1 & Hk & Hkp & Hwalk).
  rewrite Hw in Hins. simpl in Hins, Hkp.
  assert (Hlt : (Z.to_nat k < length nodes1)%nat).
  { destruct Hinv1 as (Hlen & _). rewrite <- Hlen. by eapply lookup_lt_Some. }
  destruct (lookup_lt_is_Some_2 nodes1 _ Hlt) as [nd Hnd].
  assert (Hn : node_at nodes1 k = Some nd) by (by apply node_at_Some).
  rewrite Hn in Hins.
  destruct (Z.eqb_spec (symbol nd) (-1)) as [Hsym|_]; [|done].
  simpl in Hins. injection Hins as <-.
  exists paths1. apply trie_set_symbol; try done.
  by rewrite Z2Nat.id.
Qed.

Lemma fill_table_inv canon : forall t t' paths C,
  trie_inv (decode_nodes t) paths C ->
  Forall (fun ce => i32 (c_symbol ce) <> -1) canon ->
  fill_table canon t = OK t' ->
  exists paths' C',
    trie_inv (decode_nodes t') paths' C' /\
    (forall x, x ∈ C' <-> x ∈ map entry_code canon \/ x ∈ C).
Proof.
  induction canon as [|ce canon IH]; intros t t' paths C Hinv Hall Hfill.
  - simpl in Hfill. injection Hfill as <-. exists paths, C. split; [done|].
    intros x. split; [by right | intros [Hx|]; [by apply elem_of_nil in Hx | done]].
  - apply Forall_cons in Hall as [Hce Hall]. cbn [fill_table] in Hfill.
    apply bind_OK_inv in Hfill as (nodes1 & Hins & Hfill).
    destruct (trie_insert_inv _ _ _ _ _ _ Hinv Hce Hins) as (paths1 & Hinv1).
    destruct (IH _ t' paths1 (entry_code ce :: C)
                (Hinv1 : trie_inv (decode_nodes (mkTable _ _ nodes1)) _ _)
                Hall Hfill)
      as (paths' & C' & Hinv' & HC').
    exists paths', C'. split; [done|]. intros x. rewrite HC'.
    cbn [map]. rewrite !elem_of_cons. tauto.
Qed.

Lemma fill_table_enc_other canon : forall t t',
  fill_table canon t = OK t' ->
  enc_size t <= enc_size t' /\
  (forall s, s ∉ map c_symbol canon -> enc t' !! s = enc t !! s).
Proof.
  induction canon as [|ce canon IH]; intros t t' Hfill.
  - simpl in Hfill. injection Hfill as <-. split; [lia | done].
  - cbn [fill_table] in Hfill.
    apply bind_OK_inv in Hfill as (nodes1 & Hins & Hfill).
    destruct (IH _ _ Hfill) as [Hsize Hother]. simpl in Hsize, Hother.
    split.
    + destruct (Z.leb_spec (enc_size t) (c_symbol ce)); lia.
    + intros s Hs. cbn [map] in Hs. apply not_elem_of_cons in Hs as [Hne Hs].
      rewrite (Hother s Hs). by apply lookup_insert_ne.
Qed.

Lemma fill_table_enc canon : forall t t',
  NoDup (map c_symbol canon) ->
  fill_table canon t = OK t' ->
  forall ce, ce ∈ canon ->
    enc t' !! c_symbol ce = Some (mkEnc (c_code ce) (c_len ce) true) /\
    c_symbol ce < enc_size t'.
Proof.
  induction canon as [|ce0 canon IH]; intros t t' Hnd Hfill ce Hin.
  - by apply elem_of_nil in Hin.
  - cbn [map] in Hnd. apply NoDup_cons in Hnd as [Hfresh Hnd].
    cbn [fill_table] in Hfill.
    apply bind_OK_inv in Hfill as (nodes1 & Hins & Hfill).
    apply elem_of_cons in Hin as [->|Hin].
    + destruct (fill_table_enc_other _ _ _ Hfill) as [Hsize Hother].
      simpl in Hsize, Hother. split.
      * rewrite (Hother _ Hfresh). apply lookup_insert_eq.
      * destruct (Z.leb_spec (enc_size t) (c_symbol ce0)); lia.
    + by apply (IH _ _ Hnd Hfill).
Qed.

(** In a trie built from codes none of which is a proper prefix of [bits],
    the walk along [bits] is what the decoder follows. *)
Lemma trie_code_path_from nodes paths C bits s k nd :
  trie_inv nodes paths C ->
  (forall s' p, (s', p) ∈ C -> p `prefix_of` bits -> p = bits) ->
  node_at nodes k = Some nd -> symbol nd = s -> s <> -1 ->
  forall rest j p,
    walk nodes j rest = Some k -> 0 <= j -> paths !! Z.to_nat j = Some p ->
    p ++ rest = bits ->
    code_path nodes j rest s.
Proof.
  intros Hinv Hfree Hnd Hsym Hs.
  induction rest as [|b rest IH]; intros j p Hw Hj Hp Hbits; simpl in Hw.
  - destruct (node_at nodes j) eqn:Hnj; [|done]. injection Hw as ->.
    exists nd. done.
  - destruct (node_at nodes j) as [ndj|] eqn:Hnj; [|done].
    destruct (Z.eqb_spec (if b then right ndj else left ndj) (-1)) as [|Hc]; [done|].
    pose proof Hnj as Hnj'. apply node_at_Some in Hnj' as [_ Hlj].
    destruct Hinv as (Hlen & Hroot & Hnodes & Hcodes).
    destruct (Hnodes _ _ _ Hlj Hp) as (Hleft & Hright & Hsymj).
    exists ndj. split; [done|]. split.
    { destruct Hsymj as [|Hin]; [done|]. exfalso.
      assert (Hpre : p `prefix_of` bits) by (exists (b :: rest); done).
      pose proof (Hfree _ _ Hin Hpre) as Heq.
      rewrite <- Hbits in Heq. apply (f_equal length) in Heq.
      rewrite length_app in Heq. simpl in Heq. lia. }
    split; [done|].
    assert (Hchild : 0 <= (if b then right ndj else left ndj) /\
              paths !! Z.to_nat (if b then right ndj else left ndj) = Some (p ++ [b])).
    { destruct b; [destruct Hright | destruct Hleft]; done. }
    destruct Hchild as [Hc0 Hcp].
    apply (IH _ (p ++ [b])); try done. by rewrite <- app_assoc.
Qed.

(** The table filled from canonical entries with distinct symbols and
    prefix-free codes has a code for each of the symbols. *)
Lemma fill_table_codes canon size t :
  NoDup (map c_symbol canon) ->
  Forall (fun ce => 0 <= c_symbol ce < 4294967295 /\ 1 <= c_len ce <= 32) canon ->
  (forall c1 c2, c1 ∈ canon -> c2 ∈ canon ->
     (entry_code c1).2 `prefix_of` (entry_code c2).2 ->
     (entry_code c1).2 = (entry_code c2).2) ->
  fill_table canon (mkTable size ∅ [mkNode (-1) (-1) (-1)]) = OK t ->
  forall ce, ce ∈ canon -> codes_symbol t (c_symbol ce).
Proof.
  intros Hnd Hall Hfree Hfill ce Hin.
  assert (Hne : Forall (fun ce => i32 (c_symbol ce) <> -1) canon).
  { eapply Forall_impl; [exact Hall|]. intros c [Hc _]. by apply i32_not_minus_one. }
  destruct (fill_table_inv canon _ t [[]] []
              (trie_inv_init : trie_inv (decode_nodes (mkTable _ _ _)) _ _) Hne Hfill)
    as (paths & C & Hinv & HC).
  destruct (fill_table_enc canon _ t Hnd Hfill ce Hin) as [Henc Hsize].
  pose proof (proj1 (Forall_forall _ _) Hall ce Hin) as [Hsym Hlen].
  assert (HinC : entry_code ce ∈ C).
  { apply HC. left. apply list_elem_of_fmap. by exists ce. }
  unfold codes_symbol, sym_bits, enc_at. rewrite Henc. simpl.
  split; [lia|]. split; [done|]. split; [done|]. split; [done|].
  pose proof Hinv as (Hlen' & Hroot & Hnodes & Hcodes).
  destruct (Hcodes _ _ HinC) as (Hs & k & nd & Hw & Hnk & Hsy).
  eapply (trie_code_path_from _ paths C _ _ k nd Hinv); try done.
  intros s' p HinC' Hpre. apply HC in HinC' as [Hin'|Hin']; [|by apply elem_of_nil in Hin'].
  apply list_elem_of_fmap in Hin' as (c1 & Hc1 & Hin1).
  specialize (Hfree c1 ce Hin1 Hin). rewrite <- Hc1 in Hfree. by apply Hfree.
Qed.

End TrieFill.

(** * Canonical codes *)

Section Canonical.
Import Huffman HuffSpec.

Lemma weight_pos l : l <= 32 -> 0 < weight l.
Proof. intros. unfold weight. apply Z.pow_pos_nonneg; lia. Qed.

Lemma weight_split l1 l2 :
  l1 <= l2 -> l2 <= 32 -> weight l1 = weight l2 * 2 ^ (l2 - l1).
Proof.
  intros H1 H2. unfold weight. rewrite <- Z.pow_add_r by lia. f_equal. lia.
Qed.

Lemma kraft_nonneg lens : Forall (fun x : Z * Z => x.2 <= 32) lens -> 0 <= kraft lens.
Proof.
  induction 1 as [|x l Hx Hl IH]; simpl; [lia|].
  pose proof (weight_pos x.2 Hx). lia.
Qed.

Lemma kraft_app l1 l2 : kraft (l1 ++ l2) = kraft l1 + kraft l2.
Proof. induction l1 as [|x l1 IH]; simpl; [lia | rewrite IH; lia]. Qed.

Lemma kraft_perm l1 l2 : l1 ≡ₚ l2 -> kraft l1 = kraft l2.
Proof. induction 1; simpl; lia. Qed.

Lemma u32_small z : 0 <= z < 4294967296 -> u32 z = z.
Proof. intros. unfold u32. by apply Z.mod_small. Qed.

(** The loop of the source computes the closed form. *)
Lemma assign_codes_spec lens : forall code prev canon K c,
  StronglySorted (fun a b : Z * Z => a.2 <= b.2) lens ->
  Forall (fun x : Z * Z => prev <= x.2 <= 32) lens ->
  0 <= K -> K = c * weight prev -> code = u32 c ->
  K + kraft lens <= 4294967296 ->
  assign_codes lens code prev canon = canon ++ spec_codes lens K.
Proof.
  induction lens as [|[s l] rest IH]; intros code prev canon K c Hsort Hall HK Hdiv Hcode Hkraft.
  - simpl. by rewrite app_nil_r.
  - apply StronglySorted_inv in Hsort as [Hsort Hhd].
    apply Forall_cons in Hall as [[Hpl Hl32] Hall]. simpl in Hpl, Hl32.
    cbn [kraft foldr] in Hkraft. fold (kraft rest) in Hkraft. simpl in Hkraft.
    assert (Hrest32 : Forall (fun x : Z * Z => x.2 <= 32) rest).
    { eapply Forall_impl; [exact Hall|]. simpl. intros; lia. }
    pose proof (kraft_nonneg rest Hrest32) as Hk0.
    pose proof (weight_pos l Hl32) as Hwl.
    pose proof (weight_pos prev ltac:(lia)) as Hwp.
    pose proof (weight_split prev l Hpl Hl32) as Hsplit.
    assert (Hpow : 0 < 2 ^ (l - prev)) by (apply Z.pow_pos_nonneg; lia).
    assert (Hc0 : 0 <= c) by nia.
    assert (Hcl : K / weight l = c * 2 ^ (l - prev)).
    { rewrite Hdiv, Hsplit.
      replace (c * (weight l * 2 ^ (l - prev))) with (c * 2 ^ (l - prev) * weight l) by lia.
      apply Z_div_mult_full. lia. }
    assert (Hcb : 0 <= K / weight l < 4294967296).
    { split; [apply Z.div_pos; lia|].
      apply Z.div_lt_upper_bound; [lia|]. nia. }
    assert (Hcsmall : 0 <= c < 4294967296) by nia.
    cbn [assign_codes spec_codes].
    assert (Hcode1 : (if l =? prev then code
                      else u32 (Z.shiftl code (l - prev))) = K / weight l).
    { rewrite Hcode, (u32_small c) by done.
      destruct (Z.eqb_spec l prev) as [->|Hne].
      - rewrite Hcl, Z.sub_diag. simpl. lia.
      - rewrite Z.shiftl_mul_pow2 by lia. rewrite <- Hcl. by apply u32_small. }
    rewrite Hcode1.
    rewrite (IH _ l _ (K + weight l) (K / weight l + 1)); try done.
    + by rewrite <- app_assoc.
    + apply Forall_forall. intros x Hx.
      pose proof (proj1 (Forall_forall _ _) Hall x Hx).
      pose proof (proj1 (Forall_forall _ _) Hhd x Hx). simpl in *. lia.
    + lia.
    + rewrite Hcl.
      replace K with (c * 2 ^ (l - prev) * weight l) at 1; [lia|].
      rewrite Hdiv, Hsplit. lia.
    + lia.
Qed.

End Canonical.

Section CanonicalPrefix.
Import Huffman HuffSpec.

Lemma spec_codes_fields lens : forall K,
  map c_symbol (spec_codes lens K) = map fst lens /\
  map c_len (spec_codes lens K) = map snd lens.
Proof.
  induction lens as [|[s l] rest IH]; intros K; [done|].
  destruct (IH (K + weight l)) as [H1 H2]. simpl. by rewrite H1, H2.
Qed.

Lemma spec_codes_bounds lens : forall K l0 c0,
  StronglySorted (fun a b : Z * Z => a.2 <= b.2) lens ->
  Forall (fun x : Z * Z => l0 <= x.2 <= 32) lens ->
  0 <= K -> K = c0 * weight l0 ->
  Forall (fun e => 0 <= c_code e /\
                   K <= c_code e * weight (c_len e) /\
                   (c_code e + 1) * weight (c_len e) <= K + kraft lens /\
                   l0 <= c_len e <= 32)
         (spec_codes lens K).
Proof.
  induction lens as [|[s l] rest IH]; intros K l0 c0 Hsort Hall HK Hdiv.
  - constructor.
  - apply StronglySorted_inv in Hsort as [Hsort Hhd].
    apply Forall_cons in Hall as [[Hpl Hl32] Hall]. simpl in Hpl, Hl32.
    assert (Hall' : Forall (fun x : Z * Z => l <= x.2 <= 32) rest).
    { apply Forall_forall. intros x Hx.
      pose proof (proj1 (Forall_forall _ _) Hall x Hx).
      pose proof (proj1 (Forall_forall _ _) Hhd x Hx). simpl in *. lia. }
    assert (Hrest32 : Forall (fun x : Z * Z => x.2 <= 32) rest).
    { eapply Forall_impl; [exact Hall|]. simpl. intros; lia. }
    pose proof (kraft_nonneg rest Hrest32) as Hk0.
    pose proof (weight_pos l Hl32) as Hwl.
    pose proof (weight_pos l0 ltac:(lia)) as Hwp.
    pose proof (weight_split l0 l Hpl Hl32) as Hsplit.
    assert (Hpow : 0 < 2 ^ (l - l0)) by (apply Z.pow_pos_nonneg; lia).
    assert (Hcl : K / weight l = c0 * 2 ^ (l - l0)).
    { rewrite Hdiv, Hsplit.
      replace (c0 * (weight l * 2 ^ (l - l0))) with (c0 * 2 ^ (l - l0) * weight l) by lia.
      apply Z_div_mult_full. lia. }
    assert (Hexact : K / weight l * weight l = K).
    { rewrite Hcl, Hdiv, Hsplit. lia. }
    cbn [spec_codes kraft foldr]. fold (kraft rest). simpl snd.
    constructor.
    + simpl. split; [apply Z.div_pos; lia|]. split; [lia|]. split; [lia|]. lia.
    + specialize (IH (K + weight l) l (K / weight l + 1) Hsort Hall' ltac:(lia)
                     ltac:(lia)).
      eapply Forall_impl; [exact IH|]. simpl. intros e (He0 & He1 & He2 & He3).
      split; [done|]. split; [lia|]. split; [lia|]. lia.
Qed.

Lemma spec_codes_sorted lens : forall K l0 c0,
  StronglySorted (fun a b : Z * Z => a.2 <= b.2) lens ->
  Forall (fun x : Z * Z => l0 <= x.2 <= 32) lens ->
  0 <= K -> K = c0 * weight l0 ->
  StronglySorted code_lt (spec_codes lens K).
Proof.
  induction lens as [|[s l] rest IH]; intros K l0 c0 Hsort Hall HK Hdiv.
  - constructor.
  - pose proof Hsort as Hsort0. pose proof Hall as Hall0.
    apply StronglySorted_inv in Hsort as [Hsort Hhd].
    apply Forall_cons in Hall as [[Hpl Hl32] Hall]. simpl in Hpl, Hl32.
    assert (Hall' : Forall (fun x : Z * Z => l <= x.2 <= 32) rest).
    { apply Forall_forall. intros x Hx.
      pose proof (proj1 (Forall_forall _ _) Hall x Hx).
      pose proof (proj1 (Forall_forall _ _) Hhd x Hx). simpl in *. lia. }
    pose proof (weight_pos l Hl32) as Hwl.
    pose proof (weight_pos l0 ltac:(lia)) as Hwp.
    pose proof (weight_split l0 l Hpl Hl32) as Hsplit.
    assert (Hcl : K / weight l = c0 * 2 ^ (l - l0)).
    { rewrite Hdiv, Hsplit.
      replace (c0 * (weight l * 2 ^ (l - l0))) with (c0 * 2 ^ (l - l0) * weight l) by lia.
      apply Z_div_mult_full. lia. }
    assert (Hexact : K / weight l * weight l = K).
    { rewrite Hcl, Hdiv, Hsplit. lia. }
    cbn [spec_codes]. constructor.
    + apply (IH (K + weight l) l (K / weight l + 1)); try done; lia.
    + pose proof (spec_codes_bounds rest (K + weight l) l (K / weight l + 1)
                    Hsort Hall' ltac:(lia) ltac:(lia)) as Hb.
      eapply Forall_impl; [exact Hb|]. intros e (He0 & He1 & He2 & He3).
      unfold code_lt. simpl. split; [lia|].
      pose proof (weight_split l (c_len e) ltac:(lia) ltac:(lia)) as Hs2.
      pose proof (weight_pos (c_len e) ltac:(lia)) as Hwe.
      assert (Hp2 : 0 < 2 ^ (c_len e - l)) by (apply Z.pow_pos_nonneg; lia).
      assert (Hle : (K / weight l + 1) * 2 ^ (c_len e - l) * weight (c_len e)
                    <= c_code e * weight (c_len e)).
      { replace ((K / weight l + 1) * 2 ^ (c_len e - l) * weight (c_len e))
          with ((K / weight l + 1) * weight l) by (rewrite Hs2; lia).
        lia. }
      apply Z.mul_le_mono_pos_r in Hle; done.
Qed.

Lemma code_below_pow c l :
  0 <= l <= 32 -> (c + 1) * weight l <= 4294967296 -> c + 1 <= 2 ^ l.
Proof.
  intros Hl Hc. pose proof (weight_pos l ltac:(lia)) as Hw.
  assert (Hprod : 2 ^ l * weight l = 4294967296).
  { unfold weight. rewrite <- Z.pow_add_r by lia.
    replace (l + (32 - l)) with 32 by lia. reflexivity. }
  rewrite <- Hprod in Hc. apply Z.mul_le_mono_pos_r in Hc; done.
Qed.

Lemma bits_value_app p q :
  bits_value (p ++ q) = bits_value p * 2 ^ Z.of_nat (length q) + bits_value q.
Proof.
  induction q as [|b q IH] using rev_ind.
  - rewrite app_nil_r. simpl. unfold bits_value at 3. simpl. lia.
  - rewrite app_assoc, !bits_value_snoc, IH, length_app. simpl length.
    replace (Z.of_nat (length q + 1)) with (Z.succ (Z.of_nat (length q))) by lia.
    rewrite Z.pow_succ_r by lia. lia.
Qed.

Lemma bits_value_code_bits n : forall c,
  bits_value (code_bits c n) = c mod 2 ^ Z.of_nat n.
Proof.
  induction n as [|n IH]; intros c.
  - simpl. unfold bits_value. simpl. by rewrite Z.mod_1_r.
  - cbn [code_bits].
    change (Z.testbit c (Z.of_nat n) :: code_bits c n)
      with ([Z.testbit c (Z.of_nat n)] ++ code_bits c n).
    rewrite bits_value_app, code_bits_length, IH.
    replace (Z.of_nat (S n)) with (Z.succ (Z.of_nat n)) by lia.
    rewrite Z.pow_succ_r by lia. rewrite (Z.mul_comm 2).
    rewrite Z.rem_mul_r by lia.
    rewrite <- Z.testbit_spec' by lia.
    unfold bits_value. simpl. lia.
Qed.

Lemma code_bits_prefix c1 n1 c2 n2 :
  0 <= c1 < 2 ^ Z.of_nat n1 -> 0 <= c2 < 2 ^ Z.of_nat n2 ->
  code_bits c1 n1 `prefix_of` code_bits c2 n2 ->
  (n1 <= n2)%nat /\ c1 = c2 / 2 ^ (Z.of_nat n2 - Z.of_nat n1).
Proof.
  intros H1 H2 [q Hq].
  pose proof (f_equal length Hq) as Hlen.
  rewrite length_app, !code_bits_length in Hlen.
  pose proof (f_equal bits_value Hq) as Hval.
  rewrite bits_value_app, !bits_value_code_bits in Hval.
  rewrite !Z.mod_small in Hval by done.
  split; [lia|].
  replace (Z.of_nat n2 - Z.of_nat n1) with (Z.of_nat (length q)) by lia.
  pose proof (bits_value_bound q) as Hqb.
  apply (Z.div_unique c2 _ c1 (bits_value q)); lia.
Qed.

Lemma strongly_sorted_pair {A} (R : relation A) l x y :
  StronglySorted R l -> x ∈ l -> y ∈ l -> x = y \/ R x y \/ R y x.
Proof.
  induction 1 as [|a l Hs IH Hall]; intros Hx Hy.
  - by apply elem_of_nil in Hx.
  - apply elem_of_cons in Hx as [->|Hx]; apply elem_of_cons in Hy as [->|Hy].
    + by left.
    + right; left. by apply (proj1 (Forall_forall _ _) Hall).
    + right; right. by apply (proj1 (Forall_forall _ _) Hall).
    + by apply IH.
Qed.

(** What the canonical construction guarantees for sorted lengths in
    [1, 32] whose Kraft sum does not exceed 1. *)
Lemma canonical_codes_props lens :
  StronglySorted (fun a b : Z * Z => a.2 <= b.2) lens ->
  Forall (fun x : Z * Z => 1 <= x.2 <= 32) lens ->
  kraft lens <= 4294967296 ->
  map c_symbol (canonical_codes lens) = map fst lens /\
  map c_len (canonical_codes lens) = map snd lens /\
  (forall c1 c2, c1 ∈ canonical_codes lens -> c2 ∈ canonical_codes lens ->
     (entry_code c1).2 `prefix_of` (entry_code c2).2 ->
     (entry_code c1).2 = (entry_code c2).2).
Proof.
  intros Hsort Hall Hkraft.
  destruct lens as [|[s0 l0] rest] eqn:Hlens.
  { split; [done|]. split; [done|]. intros c1 c2 H. by apply elem_of_nil in H. }
  rewrite <- Hlens in *.
  assert (Hl0 : Forall (fun x : Z * Z => l0 <= x.2 <= 32) lens).
  { rewrite Hlens in *. apply StronglySorted_inv in Hsort as [_ Hhd].
    apply Forall_cons in Hall as [Hh Hall]. simpl in Hh.
    constructor; [simpl; lia|].
    apply Forall_forall. intros x Hx.
    pose proof (proj1 (Forall_forall _ _) Hall x Hx).
    pose proof (proj1 (Forall_forall _ _) Hhd x Hx). simpl in *. lia. }
  assert (Hcan : canonical_codes lens = spec_codes lens 0).
  { rewrite Hlens at 1. unfold canonical_codes. rewrite <- Hlens.
    rewrite Z.shiftl_0_l.
    rewrite (assign_codes_spec lens _ l0 [] 0 0); try done; try lia. }
  rewrite Hcan.
  destruct (spec_codes_fields lens 0) as [Hsym Hlen].
  split; [done|]. split; [done|].
  pose proof (spec_codes_bounds lens 0 l0 0 Hsort Hl0 ltac:(lia) ltac:(lia)) as Hb.
  pose proof (spec_codes_sorted lens 0 l0 0 Hsort Hl0 ltac:(lia) ltac:(lia)) as Hs.
  assert (Hlen1 : forall e, e ∈ spec_codes lens 0 -> 1 <= c_len e <= 32).
  { intros e He. apply (list_elem_of_fmap_2 c_len) in He.
    change (fmap c_len (spec_codes lens 0)) with (map c_len (spec_codes lens 0)) in He.
    rewrite Hlen in He. apply list_elem_of_fmap in He as (x & -> & Hx).
    by apply (proj1 (Forall_forall _ _) Hall). }
  assert (Hrange : forall e, e ∈ spec_codes lens 0 ->
            0 <= c_code e < 2 ^ Z.of_nat (Z.to_nat (c_len e))).
  { intros e He. pose proof (proj1 (Forall_forall _ _) Hb e He) as (H0 & _ & H2 & _).
    pose proof (Hlen1 e He) as Hl.
    rewrite Z2Nat.id by lia.
    pose proof (code_below_pow (c_code e) (c_len e) ltac:(lia) ltac:(lia)). lia. }
  intros c1 c2 Hc1 Hc2 Hpre. unfold entry_code in *. simpl in *.
  pose proof (Hlen1 c1 Hc1) as Hl1. pose proof (Hlen1 c2 Hc2) as Hl2.
  destruct (strongly_sorted_pair code_lt _ c1 c2 Hs Hc1 Hc2) as [->|[Hlt|Hlt]];
    [done | exfalso | exfalso].
  - destruct (code_bits_prefix _ _ _ _ (Hrange c1 Hc1) (Hrange c2 Hc2) Hpre)
      as [Hn Hc].
    rewrite !Z2Nat.id in Hc by lia. destruct Hlt as [Hll Hcc].
    assert (Hp : 0 < 2 ^ (c_len c2 - c_len c1)) by (apply Z.pow_pos_nonneg; lia).
    assert (c_code c1 + 1 <= c_code c2 / 2 ^ (c_len c2 - c_len c1)).
    { apply Z.div_le_lower_bound; lia. }
    lia.
  - destruct (code_bits_prefix _ _ _ _ (Hrange c1 Hc1) (Hrange c2 Hc2) Hpre)
      as [Hn Hc].
    rewrite !Z2Nat.id in Hc by lia. destruct Hlt as [Hll Hcc].
    assert (Heq : c_len c1 = c_len c2) by lia.
    rewrite Heq, Z.sub_diag in Hc, Hcc. simpl in Hc, Hcc.
    rewrite Z.div_1_r in Hc. lia.
Qed.

End CanonicalPrefix.

(** * The tree of code lengths *)

Section Tree.
Import Huffman HuffSpec.

Lemma repr_app nodes extra T : forall h,
  repr nodes h T -> repr (nodes ++ extra) h T.
Proof.
  induction T as [s|Tl IHl Tr IHr]; intros h Hr; [done|].
  destruct Hr as (Hl0 & Hr0 & hl & hr & Hnl & Hnr & Hrl & Hrr).
  split; [done|]. split; [done|]. exists hl, hr.
  split; [by apply lookup_app_l_Some|]. split; [by apply lookup_app_l_Some|].
  split; [by apply IHl | by apply IHr].
Qed.

Lemma pq_pop_None pq : pq_pop pq = None -> pq = [].
Proof.
  destruct pq as [|x rest]; [done|]. simpl.
  destruct (pq_pop rest) as [[m r]|]; [|done]. by destruct (heap_lt x m).
Qed.

Lemma pq_pop_length pq a rest :
  pq_pop pq = Some (a, rest) -> length pq = S (length rest).
Proof.
  revert a rest. induction pq as [|x pq IH]; intros a rest Hp; [done|].
  simpl in Hp. destruct (pq_pop pq) as [[m r]|] eqn:Hpop.
  - specialize (IH _ _ eq_refl).
    destruct (heap_lt x m); injection Hp as <- <-; simpl; lia.
  - apply pq_pop_None in Hpop as ->. by injection Hp as <- <-.
Qed.

Lemma pq_pop_perm pq a rest : pq_pop pq = Some (a, rest) -> pq ≡ₚ a :: rest.
Proof.
  revert a rest. induction pq as [|x pq IH]; intros a rest Hp; [done|].
  simpl in Hp. destruct (pq_pop pq) as [[m r]|] eqn:Hpop.
  - specialize (IH _ _ eq_refl).
    destruct (heap_lt x m); injection Hp as <- <-; [done|].
    rewrite IH. apply perm_swap.
  - apply pq_pop_None in Hpop as ->. by injection Hp as <- <-.
Qed.

Lemma pq_pop_forall2 {B} (P : HeapNode -> B -> Prop) pq : forall Ts a rest,
  pq_pop pq = Some (a, rest) -> Forall2 P pq Ts ->
  exists Ta Ts', P a Ta /\ Forall2 P rest Ts' /\ Ts ≡ₚ Ta :: Ts'.
Proof.
  induction pq as [|x pq IH]; intros Ts a rest Hp HF; [done|].
  destruct Ts as [|Tx Ts]; [by apply Forall2_cons_nil_inv in HF|].
  apply Forall2_cons in HF as [Hx HF]. simpl in Hp.
  destruct (pq_pop pq) as [[m r]|] eqn:Hpop.
  - destruct (IH Ts m r eq_refl HF) as (Tm & Ts' & Hm & Hr & Hperm).
    destruct (heap_lt x m); injection Hp as <- <-.
    + exists Tx, Ts. split; [done|]. split; [done|]. done.
    + exists Tm, (Tx :: Ts'). split; [done|]. split; [by constructor|].
      rewrite Hperm. apply perm_swap.
  - apply pq_pop_None in Hpop as ->. injection Hp as <- <-.
    apply Forall2_nil_inv_l in HF as ->.
    exists Tx, []. split; [done|]. split; [constructor | done].
Qed.

Lemma forest_size_perm Ts Ts' : Ts ≡ₚ Ts' -> forest_size Ts = forest_size Ts'.
Proof. induction 1; simpl; lia. Qed.

Lemma concat_leaves_perm (Ts Ts' : list tree) :
  Ts ≡ₚ Ts' -> concat (map leaves Ts) ≡ₚ concat (map leaves Ts').
Proof.
  induction 1 as [|x l l' Hp IH|x y l|l l' l'' Hp IH Hp' IH']; simpl.
  - done.
  - by rewrite IH.
  - rewrite !app_assoc. f_equiv. apply Permutation_app_comm.
  - by rewrite IH.
Qed.

(** The merge loop ends with one root, which stands for a tree over the
    leaves of the forest it started from. *)
Lemma merge_loop_spec fuel : forall pq nodes Ts,
  Forall2 (repr nodes) pq Ts ->
  (length pq <= fuel)%nat -> pq <> [] ->
  forest_size Ts = (length nodes + length pq)%nat ->
  exists root nodes' T,
    merge_loop fuel pq nodes = ([root], nodes') /\
    repr nodes' root T /\
    leaves T ≡ₚ concat (map leaves Ts) /\
    tree_size T = S (length nodes') /\
    (forall s, T = Leaf s -> Ts = [Leaf s]).
Proof.
  induction fuel as [|fuel IH]; intros pq nodes Ts HF Hfuel Hne Hsize.
  - destruct pq; [done | simpl in Hfuel; lia].
  - simpl. destruct (pq_pop pq) as [[a pq1]|] eqn:Hpop1;
      [|by apply pq_pop_None in Hpop1].
    destruct (pq_pop_forall2 _ _ _ _ _ Hpop1 HF) as (Ta & Ts1 & Ha & HF1 & Hperm1).
    pose proof (pq_pop_length _ _ _ Hpop1) as Hlen1.
    destruct (pq_pop pq1) as [[b pq2]|] eqn:Hpop2.
    + destruct (pq_pop_forall2 _ _ _ _ _ Hpop2 HF1) as (Tb & Ts2 & Hb & HF2 & Hperm2).
      pose proof (pq_pop_length _ _ _ Hpop2) as Hlen2.
      set (parent := mkHeap _ _ _ _).
      assert (Hparent : repr (nodes ++ [a; b]) parent (Br Ta Tb)).
      { simpl. unfold zlen. split; [lia|]. split; [lia|]. exists a, b.
        split; [|split; [|split]].
        - rewrite Nat2Z.id. rewrite lookup_app_r by lia. by rewrite Nat.sub_diag.
        - replace (Z.to_nat (Z.of_nat (length nodes) + 1)) with (S (length nodes)) by lia.
          rewrite lookup_app_r by lia.
          by replace (S (length nodes) - length nodes)%nat with 1%nat by lia.
        - by apply repr_app.
        - by apply repr_app. }
      destruct (IH (parent :: pq2) (nodes ++ [a; b]) (Br Ta Tb :: Ts2))
        as (root & nodes' & T & Hm & Hr & Hl & Hs & Hleaf).
      * constructor; [done|].
        eapply Forall2_impl; [exact HF2|]. intros h T0 Hh. by apply repr_app.
      * simpl. lia.
      * done.
      * rewrite (forest_size_perm _ _ Hperm1) in Hsize. simpl in Hsize.
        rewrite (forest_size_perm _ _ Hperm2) in Hsize. simpl in Hsize.
        simpl. rewrite length_app. simpl. lia.
      * exists root, nodes', T. split; [done|]. split; [done|].
        split; [|split; [done|]].
        -- rewrite Hl. rewrite (concat_leaves_perm _ _ Hperm1). simpl.
           rewrite (concat_leaves_perm _ _ Hperm2). simpl.
           by rewrite app_assoc.
        -- intros s Hs0. by specialize (Hleaf s Hs0).
    + apply pq_pop_None in Hpop2 as ->.
      apply Forall2_nil_inv_l in HF1 as ->.
      assert (Hpq : pq = [a]).
      { apply pq_pop_perm in Hpop1. by apply Permutation_singleton_r in Hpop1. }
      assert (HTs : Ts = [Ta]) by (by apply Permutation_singleton_r in Hperm1).
      subst pq Ts. exists a, nodes, Ta. split; [done|]. split; [done|].
      split; [simpl; by rewrite app_nil_r|]. split.
      * simpl in Hsize. lia.
      * by intros s ->.
Qed.

(** *** The depth-first walk *)

Lemma u8_small z : 0 <= z < 256 -> u8 z = z.
Proof. intros. unfold u8. by apply Z.mod_small. Qed.

Lemma items_ok_cons it items :
  items_ok (it :: items) = depth_ok it.2 it.1.2 && items_ok items.
Proof. done. Qed.

(** With fuel for every node still to be visited, the walk returns the
    leaf depths of the trees on its stack, or fails because an inner node
    lies at depth 32. *)
Lemma dfs_spec root nodes fuel : forall items lens,
  Forall (item_repr root nodes) items ->
  (items_size items < fuel)%nat ->
  dfs_lengths fuel root nodes (map fst items) lens =
    if items_ok items then OK (lens ++ items_leaves items)
    else Err "huffman: code length exceeds 32".
Proof.
  induction fuel as [|fuel IH]; intros items lens Hall Hfuel; [lia|].
  destruct items as [|[[idx d] T] items].
  - simpl. by rewrite app_nil_r.
  - apply Forall_cons in Hall as [Hit Hall].
    destruct Hit as [Hd Hit]. cbn [map fst dfs_lengths].
    assert (Hcur : exists cur, (if idx =? -1 then Some root else node_at nodes idx)
                               = Some cur /\ repr nodes cur T).
    { destruct (Z.eqb_spec idx (-1)); [by exists root|].
      destruct Hit as (Hidx & h & Hh & Hr). exists h. split; [|done].
      unfold node_at. destruct (Z.ltb_spec idx 0); [lia | done]. }
    destruct Hcur as (cur & -> & Hrepr).
    destruct T as [s|Tl Tr].
    + destruct Hrepr as (Hl & Hr & Hs). rewrite Hl, Hr, Hs. simpl andb. cbv iota.
      rewrite (u8_small d) by lia.
      rewrite (IH items (lens ++ [(s, d)]) Hall).
      * rewrite items_ok_cons. simpl depth_ok. simpl andb.
        destruct (items_ok items); [|done].
        unfold items_leaves. simpl. by rewrite <- app_assoc.
      * simpl in Hfuel. lia.
    + destruct Hrepr as (Hl0 & Hr0 & hl & hr & Hnl & Hnr & Hrl & Hrr).
      destruct (Z.eqb_spec (hleft cur) (-1)); [lia|].
      destruct (Z.eqb_spec (hright cur) (-1)); [lia|]. simpl andb. cbv iota.
      rewrite items_ok_cons. simpl depth_ok. simpl fst. simpl snd.
      destruct (Z.leb_spec 32 d) as [Hdeep|Hshallow].
      * destruct (Z.ltb_spec d 32); [lia | done].
      * destruct (Z.ltb_spec d 32); [|lia]. simpl andb.
        rewrite (u8_small (d + 1)) by lia.
        specialize (IH ((hleft cur, d + 1, Tl) :: (hright cur, d + 1, Tr) :: items) lens).
        cbn [map fst] in IH. rewrite IH.
        -- rewrite !items_ok_cons. simpl fst. simpl snd.
           rewrite andb_assoc.
           destruct (depth_ok Tl (d + 1) && depth_ok Tr (d + 1) && items_ok items); [|done].
           unfold items_leaves. simpl. by rewrite <- !app_assoc.
        -- constructor; [|constructor; [|done]].
           ++ split; [lia|]. destruct (Z.eqb_spec (hleft cur) (-1)); [lia|]. eauto.
           ++ split; [lia|]. destruct (Z.eqb_spec (hright cur) (-1)); [lia|]. eauto.
        -- simpl in Hfuel |- *. lia.
Qed.

Lemma leaf_depths_fst T : forall d, map fst (leaf_depths T d) = leaves T.
Proof.
  induction T as [s|Tl IHl Tr IHr]; intros d; [done|].
  simpl. by rewrite map_app, IHl, IHr.
Qed.

Lemma leaf_depths_range T : forall d,
  0 <= d -> depth_ok T d = true ->
  Forall (fun x : Z * Z => d <= x.2 <= 32) (leaf_depths T d) \/ 32 < d.
Proof.
  induction T as [s|Tl IHl Tr IHr]; intros d Hd Hok.
  - destruct (Z.le_gt_cases d 32); [left | right; lia].
    constructor; [simpl; lia | constructor].
  - simpl in Hok. apply andb_prop in Hok as [Hok Hokr].
    apply andb_prop in Hok as [Hlt Hokl]. apply Z.ltb_lt in Hlt.
    left. simpl. apply Forall_app. split.
    + destruct (IHl (d + 1) ltac:(lia) Hokl) as [H|]; [|lia].
      eapply Forall_impl; [exact H|]. simpl. intros; lia.
    + destruct (IHr (d + 1) ltac:(lia) Hokr) as [H|]; [|lia].
      eapply Forall_impl; [exact H|]. simpl. intros; lia.
Qed.

Lemma leaf_depths_kraft T : forall d,
  0 <= d <= 32 -> depth_ok T d = true -> kraft (leaf_depths T d) = weight d.
Proof.
  induction T as [s|Tl IHl Tr IHr]; intros d Hd Hok.
  - simpl. lia.
  - simpl in Hok. apply andb_prop in Hok as [Hok Hokr].
    apply andb_prop in Hok as [Hlt Hokl]. apply Z.ltb_lt in Hlt.
    simpl. rewrite kraft_app, IHl, IHr by (done || lia).
    unfold weight. replace (32 - d) with (Z.succ (32 - (d + 1))) by lia.
    rewrite Z.pow_succ_r by lia. lia.
Qed.

End Tree.

(** * Frequencies and leaves *)

#[global] Instance key_le_total : Total Huffman.key_le.
Proof. intros a b. unfold Huffman.key_le. lia. Qed.

#[global] Instance len_sym_le_total : Total Huffman.len_sym_le.
Proof. intros a b. unfold Huffman.len_sym_le. lia. Qed.

#[global] Instance len_sym_le_trans : Transitive Huffman.len_sym_le.
Proof. intros a b c. unfold Huffman.len_sym_le. lia. Qed.

Section Frequencies.
Import Huffman HuffSpec.

Lemma entries_by_index_elem {A} (m : gmap Z A) k a :
  (k, a) ∈ entries_by_index m <-> m !! k = Some a.
Proof.
  unfold entries_by_index. rewrite list_elem_of_omap. split.
  - intros (k' & _ & Hf). destruct (m !! k') as [a'|] eqn:Hk'; [|done].
    simpl in Hf. by injection Hf as -> ->.
  - intros Hk. exists k. split.
    + rewrite merge_sort_Permutation. apply list_elem_of_fmap.
      exists (k, a). split; [done|]. by apply elem_of_map_to_list.
    + by rewrite Hk.
Qed.

Lemma omap_keys_NoDup {A} (f : Z -> option (Z * A)) keys :
  (forall k y, f k = Some y -> y.1 = k) ->
  NoDup keys -> NoDup (map fst (omap f keys)).
Proof.
  intros Hf. induction 1 as [|k keys Hk Hnd IH]; [constructor|].
  simpl. destruct (f k) as [y|] eqn:Hfk; [|done].
  simpl. constructor; [|done].
  intros Hin. apply list_elem_of_fmap in Hin as (y' & Hy' & Hin).
  apply list_elem_of_omap in Hin as (k' & Hk' & Hfk').
  apply Hf in Hfk, Hfk'. apply Hk. congruence.
Qed.

Lemma entries_by_index_NoDup {A} (m : gmap Z A) :
  NoDup (map fst (entries_by_index m)).
Proof.
  unfold entries_by_index. apply omap_keys_NoDup.
  - intros k y Hy. destruct (m !! k); [|done]. simpl in Hy. by injection Hy as <-.
  - rewrite merge_sort_Permutation. apply NoDup_fst_map_to_list.
Qed.

(** The leaves: one per non-zero entry of [freqs], with distinct symbols. *)
Lemma collect_leaves_elem freqs h :
  h ∈ collect_leaves freqs <->
  exists i f, h = mkHeap f i (-1) (-1) /\ freqs !! i = Some f /\ f <> 0.
Proof.
  unfold collect_leaves. rewrite list_elem_of_omap. split.
  - intros ([i f] & Hin & Hf). apply entries_by_index_elem in Hin.
    destruct (Z.eqb_spec f 0); [done|]. injection Hf as <-. eauto.
  - intros (i & f & -> & Hi & Hf). exists (i, f). split.
    + by apply entries_by_index_elem.
    + destruct (Z.eqb_spec f 0); done.
Qed.

Lemma collect_leaves_NoDup freqs : NoDup (map hsym (collect_leaves freqs)).
Proof.
  unfold collect_leaves.
  pose proof (entries_by_index_NoDup freqs) as Hnd.
  induction (entries_by_index freqs) as [|[i f] l IH]; [constructor|].
  simpl in Hnd. apply NoDup_cons in Hnd as [Hi Hnd]. simpl.
  destruct (Z.eqb_spec f 0); [by apply IH|].
  simpl. constructor; [|by apply IH].
  intros Hin. apply list_elem_of_fmap in Hin as (h & Hh & Hin).
  apply list_elem_of_omap in Hin as ([i' f'] & Hin' & Hf').
  destruct (Z.eqb_spec f' 0); [done|]. injection Hf' as <-. simpl in Hh. subst i'.
  apply Hi. apply list_elem_of_fmap. by exists (i, f').
Qed.

Lemma pq_push_all_perm leaves : pq_push_all leaves ≡ₚ leaves.
Proof.
  unfold pq_push_all.
  assert (H : forall acc, foldl (fun pq x => x :: pq) acc leaves ≡ₚ leaves ++ acc).
  { induction leaves as [|x l IH]; intros acc; [done|].
    simpl. rewrite IH. by rewrite Permutation_middle. }
  rewrite H. by rewrite app_nil_r.
Qed.

(** *** The dense frequency vector *)

Lemma accumulate_spec sf : forall fr fr',
  positive_map fr -> Forall (fun x : Z * Z => 0 <= x.2) sf ->
  accumulate sf fr = OK fr' ->
  positive_map fr' /\
  (forall k, is_Some (fr' !! k) <->
             is_Some (fr !! k) \/ exists f, (k, f) ∈ sf /\ f <> 0).
Proof.
  induction sf as [|[s f] sf IH]; intros fr fr' Hpos Hall Hacc.
  - simpl in Hacc. injection Hacc as <-. split; [done|].
    intros k. split; [by left|]. intros [H|(f & Hin & _)]; [done|].
    by apply elem_of_nil in Hin.
  - apply Forall_cons in Hall as [Hf Hall]. simpl in Hf. cbn [accumulate] in Hacc.
    destruct (Z.eqb_spec f 0) as [->|Hf0].
    + destruct (IH _ _ Hpos Hall Hacc) as [Hpos' Hdom]. split; [done|].
      intros k. rewrite Hdom. split; (intros [H|(f & Hin & Hne)]; [by left|right]).
      * exists f. split; [by apply elem_of_cons; right | done].
      * exists f. split; [|done]. apply elem_of_cons in Hin as [Heq|Hin]; [|done].
        injection Heq as -> ->. done.
    + set (sum := default 0 (fr !! s) + f) in *.
      destruct (Z.ltb_spec 4294967295 sum) as [|Hsum]; [done|].
      assert (Hsum0 : 0 < sum).
      { unfold sum. destruct (fr !! s) as [v|] eqn:Hv; simpl; [|lia].
        pose proof (Hpos _ _ Hv). lia. }
      assert (Hpos1 : positive_map (<[s := u32 sum]> fr)).
      { intros k v Hk. destruct (decide (k = s)) as [->|Hne].
        - rewrite lookup_insert_eq in Hk. injection Hk as <-.
          rewrite u32_small; lia.
        - rewrite lookup_insert_ne in Hk by done. by apply (Hpos k). }
      destruct (IH _ _ Hpos1 Hall Hacc) as [Hpos' Hdom]. split; [done|].
      intros k. rewrite Hdom. split.
      * intros [H|(f' & Hin & Hne)].
        -- destruct (decide (k = s)) as [->|Hne].
           ++ right. exists f. split; [apply elem_of_cons; by left | done].
           ++ left. by rewrite lookup_insert_ne in H.
        -- right. exists f'. split; [by apply elem_of_cons; right | done].
      * intros [H|(f' & Hin & Hne)].
        -- left. destruct (decide (k = s)) as [->|Hne].
           ++ rewrite lookup_insert_eq. eauto.
           ++ by rewrite lookup_insert_ne.
        -- apply elem_of_cons in Hin as [Heq|Hin].
           ++ injection Heq as -> ->. left. rewrite lookup_insert_eq. eauto.
           ++ right. eauto.
Qed.

Lemma scan_max_spec sf : forall m h m' h',
  scan_max sf m h = (m', h') ->
  m <= m' /\
  (forall s f, (s, f) ∈ sf -> f <> 0 -> s <= m') /\
  (h = true -> h' = true) /\
  (forall s f, (s, f) ∈ sf -> f <> 0 -> h' = true).
Proof.
  induction sf as [|[s f] sf IH]; intros m h m' h' Hscan.
  - simpl in Hscan. injection Hscan as <- <-. split; [lia|].
    split; [intros s f Hin; by apply elem_of_nil in Hin|]. split; [done|].
    intros s f Hin; by apply elem_of_nil in Hin.
  - cbn [scan_max] in Hscan. destruct (Z.eqb_spec f 0) as [->|Hf0].
    + destruct (IH _ _ _ _ Hscan) as (Hm & Hle & Hh & Hex).
      split; [done|]. split; [|split; [done|]].
      * intros s' f' Hin Hne. apply elem_of_cons in Hin as [Heq|Hin]; [congruence|].
        by apply (Hle s' f').
      * intros s' f' Hin Hne. apply elem_of_cons in Hin as [Heq|Hin]; [congruence|].
        by apply (Hex s' f').
    + destruct (IH _ _ _ _ Hscan) as (Hm & Hle & Hh & Hex).
      split; [destruct (Z.ltb_spec m s); lia|]. split; [|split].
      * intros s' f' Hin Hne. apply elem_of_cons in Hin as [Heq|Hin].
        -- injection Heq as -> ->. destruct (Z.ltb_spec m s); lia.
        -- by apply (Hle s' f').
      * intros _. by apply Hh.
      * intros _ _ _ _. by apply Hh.
Qed.

(** *** Counting the symbols of a stream *)

Lemma count_symbols_spec symbols : forall fm fm',
  (forall k v, fm !! k = Some v -> 0 < v) ->
  count_symbols symbols fm = OK fm' ->
  (forall k v, fm' !! k = Some v -> 0 < v) /\
  (forall k, is_Some (fm' !! k) <-> is_Some (fm !! k) \/ k ∈ symbols).
Proof.
  induction symbols as [|s symbols IH]; intros fm fm' Hpos Hc.
  - simpl in Hc. injection Hc as <-. split; [done|]. intros k.
    split; [by left | intros [|H]; [done | by apply elem_of_nil in H]].
  - cbn [count_symbols] in Hc.
    assert (Hstep : exists v, 0 < v /\ count_symbols symbols (<[s := v]> fm) = OK fm').
    { destruct (fm !! s) as [c|] eqn:Hs.
      - destruct (Z.eqb_spec c 4294967295); [done|].
        exists (c + 1). split; [|done]. pose proof (Hpos _ _ Hs). lia.
      - exists 1. split; [lia | done]. }
    destruct Hstep as (v & Hv & Hc').
    assert (Hpos1 : forall k v', <[s := v]> fm !! k = Some v' -> 0 < v').
    { intros k v' Hk. destruct (decide (k = s)) as [->|Hne].
      - rewrite lookup_insert_eq in Hk. injection Hk as <-. lia.
      - rewrite lookup_insert_ne in Hk by done. by apply (Hpos k). }
    destruct (IH _ _ Hpos1 Hc') as [Hpos' Hdom].
    split; [done|]. intros k. rewrite Hdom. rewrite elem_of_cons.
    destruct (decide (k = s)) as [->|Hne].
    + rewrite lookup_insert_eq. split; [intros _; right; by left|]. intros _. left. eauto.
    + rewrite lookup_insert_ne by done. split; intros [H|H]; auto.
      destruct H as [H|H]; [done | auto].
Qed.

Lemma build_symbol_frequencies_spec symbols sf :
  build_symbol_frequencies symbols = OK sf ->
  Forall (fun x : Z * Z => 0 < x.2) sf /\
  (forall s, s ∈ symbols <-> exists f, (s, f) ∈ sf).
Proof.
  unfold build_symbol_frequencies. intros H.
  apply bind_OK_inv in H as (fm & Hc & Hsf). injection Hsf as <-.
  assert (Hpos0 : forall k v, (∅ : gmap Z Z) !! k = Some v -> 0 < v).
  { intros k v Hk. by rewrite lookup_empty in Hk. }
  destruct (count_symbols_spec symbols ∅ fm Hpos0 Hc) as [Hpos Hdom].
  split.
  - apply Forall_forall. intros [s f] Hin. rewrite merge_sort_Permutation in Hin.
    apply elem_of_map_to_list in Hin. simpl. by apply (Hpos s).
  - intros s. specialize (Hdom s). rewrite lookup_empty in Hdom.
    split.
    + intros Hin. destruct (proj2 Hdom (or_intror Hin)) as [f Hf].
      exists f. rewrite merge_sort_Permutation. by apply elem_of_map_to_list.
    + intros (f & Hin). rewrite merge_sort_Permutation in Hin.
      apply elem_of_map_to_list in Hin.
      destruct (proj1 Hdom (ex_intro _ f Hin)) as [[? H]|]; done.
Qed.

End Frequencies.

(** * The table built from a histogram has a code for every symbol in it *)

Section Build.
Import Huffman HuffSpec.

Lemma StronglySorted_weaken {A} (R1 R2 : relation A) l :
  (forall a b, R1 a b -> R2 a b) -> StronglySorted R1 l -> StronglySorted R2 l.
Proof.
  intros Himp. induction 1 as [|a l Hs IH Hall]; constructor; [done|].
  eapply Forall_impl; [exact Hall | auto].
Qed.

Lemma sorted_lens_by_length lens :
  StronglySorted (fun a b : Z * Z => a.2 <= b.2) (merge_sort len_sym_le lens).
Proof.
  apply (StronglySorted_weaken len_sym_le).
  - intros a b. unfold len_sym_le. lia.
  - apply StronglySorted_merge_sort; apply _.
Qed.

Lemma single_leaf_codes size s :
  0 <= s < 4294967295 -> s < size ->
  codes_symbol
    (mkTable size (<[s := mkEnc 0 1 true]> ∅)
       [mkNode 1 (-1) (-1); mkNode (-1) (-1) (i32 s)]) s.
Proof.
  intros Hs Hsize. unfold codes_symbol, sym_bits, enc_at. simpl.
  rewrite lookup_insert_eq. simpl.
  split; [lia|]. split; [done|]. split; [done|]. split; [lia|].
  exists (mkNode 1 (-1) (-1)). split; [done|]. split; [done|]. split; [done|].
  simpl. exists (mkNode (-1) (-1) (i32 s)). split; [done|]. split; [done|].
  by apply i32_not_minus_one.
Qed.

Lemma forest_size_leaf_forest (l : list HeapNode) :
  forest_size (map (fun h => Leaf (hsym h)) l) = (length ([] : list HeapNode) + length l)%nat.
Proof. induction l as [|h l IH]; simpl in *; [done | lia]. Qed.

Lemma leaves_leaf_forest (l : list HeapNode) :
  concat (map leaves (map (fun h => Leaf (hsym h)) l)) = map hsym l.
Proof. induction l as [|h l IH]; simpl; [done | by f_equal]. Qed.

Lemma build_canonical_table_codes sf t :
  Forall (fun x : Z * Z => 0 <= x.1 /\ 0 <= x.2) sf ->
  build_canonical_table sf = OK t ->
  forall s f, (s, f) ∈ sf -> f <> 0 -> codes_symbol t s.
Proof.
  intros Hall Hb s f Hin Hf. unfold build_canonical_table in Hb.
  destruct sf as [|x0 sf0] eqn:Hsf; [by apply elem_of_nil in Hin|].
  rewrite <- Hsf in *. clear Hsf x0 sf0.
  destruct (scan_max sf 0 false) as [max_sym has] eqn:Hscan.
  destruct (scan_max_spec _ _ _ _ _ Hscan) as (Hm0 & Hle & _ & Hhas).
  rewrite (Hhas s f Hin Hf) in Hb. simpl negb in Hb. cbv iota in Hb.
  apply bind_OK_inv in Hb as (freqs & Hacc & Hb).
  assert (Hpos0 : positive_map ∅).
  { intros k v Hk. by rewrite lookup_empty in Hk. }
  assert (Hall2 : Forall (fun x : Z * Z => 0 <= x.2) sf).
  { eapply Forall_impl; [exact Hall|]. simpl. intros ? [? ?]. done. }
  destruct (accumulate_spec sf ∅ freqs Hpos0 Hall2 Hacc) as [Hpos Hdom].
  destruct (Z.ltb_spec 4294967295 (max_sym + 1)) as [|Hmax]; [done|].
  set (pq := pq_push_all (collect_leaves freqs)) in *.
  assert (Hpq : pq ≡ₚ collect_leaves freqs) by apply pq_push_all_perm.
  (* every element of the queue is a leaf with a symbol of the histogram *)
  assert (Hleafs : forall h, h ∈ pq ->
            hleft h = -1 /\ hright h = -1 /\ 0 <= hsym h <= max_sym).
  { intros h Hh. rewrite Hpq in Hh. apply collect_leaves_elem in Hh
      as (i & v & -> & Hi & Hv). simpl. split; [done|]. split; [done|].
    destruct (proj1 (Hdom i) (ex_intro _ v Hi)) as [[? H]|(f' & Hin' & Hf')].
    - by rewrite lookup_empty in H.
    - split; [|by apply (Hle i f')].
      by pose proof (proj1 (Forall_forall _ _) Hall _ Hin') as [? _]. }
  assert (Hs_leaf : s ∈ map hsym pq).
  { destruct (proj2 (Hdom s) (or_intror (ex_intro _ f (conj Hin Hf)))) as [v Hv].
    apply list_elem_of_fmap. exists (mkHeap v s (-1) (-1)). split; [done|].
    rewrite Hpq. apply collect_leaves_elem. exists s, v. split; [done|].
    split; [done|]. pose proof (Hpos _ _ Hv). lia. }
  assert (Hnd : NoDup (map hsym pq)).
  { rewrite Hpq. apply collect_leaves_NoDup. }
  assert (Hs_range : 0 <= s < 4294967295 /\ s < max_sym + 1).
  { apply list_elem_of_fmap in Hs_leaf as (h & -> & Hh).
    destruct (Hleafs h Hh) as (_ & _ & ?). lia. }
  destruct (Nat.lt_ge_cases (length pq) 2) as [Hshort|Hlen2].
  { (* one distinct symbol *)
    destruct pq as [|h1 [|h2 pq']]; [by apply elem_of_nil in Hs_leaf | | simpl in Hshort; lia].
    injection Hb as <-. simpl in Hs_leaf. apply list_elem_of_singleton in Hs_leaf as <-.
    apply single_leaf_codes; lia. }
  - (* two or more *)
    assert (Hmatch : forall (A : Type) (a : HeapNode -> A) (b : A),
              match pq with [leaf] => a leaf | _ => b end = b).
    { intros A a b. destruct pq as [|h1 [|h2 pq']]; simpl in Hlen2; (done || lia). }
    rewrite Hmatch in Hb. clear Hmatch.
    set (Ts := map (fun h => Leaf (hsym h)) pq).
    assert (HF : Forall2 (repr []) pq Ts).
    { unfold Ts. apply Forall2_fmap_r. apply Forall_Forall2_diag.
      apply Forall_forall. intros h Hh. destruct (Hleafs h Hh) as (? & ? & _).
      simpl. auto. }
    assert (Hfs : forest_size Ts = (length ([] : list HeapNode) + length pq)%nat).
    { unfold Ts. apply forest_size_leaf_forest. }
    assert (Hpqne : pq <> []) by (intros E; rewrite E in Hlen2; simpl in Hlen2; lia).
    destruct (merge_loop_spec (length pq) pq [] Ts HF ltac:(lia) Hpqne Hfs)
      as (root & nodes & T & Hm & Hrepr & Hleaves & Hsize & Hleaf).
    rewrite Hm in Hb.
    apply bind_OK_inv in Hb as (lens & Hdfs & Hfill).
    assert (Hitems : Forall (item_repr root nodes) [(-1, 0, T)]).
    { constructor; [|constructor]. simpl. split; [lia | done]. }
    pose proof (dfs_spec root nodes (length nodes + 2) [(-1, 0, T)] [] Hitems
                  ltac:(simpl; lia)) as Hd.
    cbn [map fst] in Hd. rewrite Hd in Hdfs. clear Hd.
    unfold items_ok, items_leaves in Hdfs. simpl in Hdfs.
    rewrite andb_true_r, app_nil_r in Hdfs.
    destruct (depth_ok T 0) eqn:Hok; [|done]. injection Hdfs as <-.
    assert (HTs : concat (map leaves Ts) = map hsym pq).
    { unfold Ts. apply leaves_leaf_forest. }
    destruct T as [s0|Tl Tr].
    { specialize (Hleaf s0 eq_refl). apply (f_equal length) in Hleaf.
      unfold Ts in Hleaf. rewrite length_map in Hleaf. simpl in Hleaf. lia. }
    set (lens := leaf_depths (Br Tl Tr) 0) in *.
    assert (Hrange : Forall (fun x : Z * Z => 1 <= x.2 <= 32) lens).
    { unfold lens. cbn [depth_ok leaf_depths] in Hok |- *.
      apply andb_prop in Hok as [Hok Hokr]. apply andb_prop in Hok as [_ Hokl].
      change (0 + 1) with 1 in *.
      apply Forall_app. split.
      - destruct (leaf_depths_range Tl 1 ltac:(lia) Hokl); [done | lia].
      - destruct (leaf_depths_range Tr 1 ltac:(lia) Hokr); [done | lia]. }
    assert (Hkraft : kraft lens = 4294967296).
    { unfold lens. rewrite leaf_depths_kraft by (done || lia). reflexivity. }
    set (sorted := merge_sort len_sym_le lens) in *.
    assert (Hperm : sorted ≡ₚ lens) by apply merge_sort_Permutation.
    destruct (canonical_codes_props sorted) as (Hsym & Hclen & Hfree).
    { apply sorted_lens_by_length. }
    { by rewrite Hperm. }
    { rewrite (kraft_perm _ _ Hperm). lia. }
    assert (Hsyms : map c_symbol (canonical_codes sorted) ≡ₚ map hsym pq).
    { rewrite Hsym. rewrite Hperm. unfold lens.
      rewrite leaf_depths_fst, Hleaves, HTs. done. }
    assert (Hcanon : Forall (fun ce => 0 <= c_symbol ce < 4294967295 /\
                                      1 <= c_len ce <= 32)
                            (canonical_codes sorted)).
    { apply Forall_forall. intros ce Hce. split.
      - assert (Hc : c_symbol ce ∈ map c_symbol (canonical_codes sorted)).
        { apply list_elem_of_fmap. by exists ce. }
        rewrite Hsyms in Hc. apply list_elem_of_fmap in Hc as (h & -> & Hh).
        destruct (Hleafs h Hh) as (_ & _ & ?). lia.
      - assert (Hc : c_len ce ∈ map c_len (canonical_codes sorted)).
        { apply list_elem_of_fmap. by exists ce. }
        rewrite Hclen in Hc. apply list_elem_of_fmap in Hc as (x & -> & Hx).
        rewrite Hperm in Hx. by apply (proj1 (Forall_forall _ _) Hrange). }
    assert (Hs_canon : s ∈ map c_symbol (canonical_codes sorted)) by (by rewrite Hsyms).
    apply list_elem_of_fmap in Hs_canon as (ce & -> & Hce).
    eapply fill_table_codes; [| exact Hcanon | exact Hfree | exact Hfill | exact Hce].
    by rewrite Hsyms.
Qed.

End Build.

(** * Histograms listed in a different order *)

Section Histogram.
Import Huffman HuffSpec.

Lemma bind_OK {A B} (a : A) (f : A -> result B) : OK a ≫= f = f a.
Proof. done. Qed.

Lemma bind_Err {A B} msg (f : A -> result B) : Err msg ≫= f = Err msg.
Proof. done. Qed.

Lemma accumulate_cons x l fr :
  accumulate (x :: l) fr = acc_step x fr ≫= accumulate l.
Proof.
  destruct x as [s f]. unfold acc_step. simpl.
  destruct (f =? 0); [done|].
  by destruct (4294967295 <? default 0 (fr !! s) + f).
Qed.

Lemma acc_step_bounded x fr fr' :
  bounded_map fr -> 0 <= x.2 -> acc_step x fr = OK fr' -> bounded_map fr'.
Proof.
  intros Hb Hx. unfold acc_step.
  destruct (Z.eqb_spec x.2 0); [by intros [= <-]|].
  destruct (Z.ltb_spec 4294967295 (default 0 (fr !! x.1) + x.2)); [done|].
  intros [= <-] k v Hk. destruct (decide (k = x.1)) as [->|Hne].
  - rewrite lookup_insert_eq in Hk. injection Hk as <-.
    assert (0 <= default 0 (fr !! x.1)).
    { destruct (fr !! x.1) as [v|] eqn:Hv; simpl; [|lia]. pose proof (Hb _ _ Hv). lia. }
    rewrite u32_small; lia.
  - rewrite lookup_insert_ne in Hk by done. by apply (Hb k).
Qed.

Lemma default_bounded fr k :
  bounded_map fr -> 0 <= default 0 (fr !! k) <= 4294967295.
Proof.
  intros Hb. destruct (fr !! k) as [v|] eqn:Hv; simpl; [by apply (Hb k) | lia].
Qed.

Lemma acc_step_zero s fr : acc_step (s, 0) fr = OK fr.
Proof. done. Qed.

Lemma acc_step_nonzero s f fr :
  f <> 0 ->
  acc_step (s, f) fr =
    if 4294967295 <? default 0 (fr !! s) + f
    then Err "huffman: frequency overflow"
    else OK (<[s := u32 (default 0 (fr !! s) + f)]> fr).
Proof. intros Hf. unfold acc_step. simpl. by destruct (Z.eqb_spec f 0). Qed.

Lemma acc_step_comm x y fr :
  bounded_map fr -> 0 <= x.2 -> 0 <= y.2 ->
  acc_step x fr ≫= acc_step y = acc_step y fr ≫= acc_step x.
Proof.
  intros Hb Hx Hy. destruct x as [s1 f1], y as [s2 f2]. simpl in Hx, Hy.
  pose proof (default_bounded fr s1 Hb) as Hd1.
  pose proof (default_bounded fr s2 Hb) as Hd2.
  destruct (decide (f1 = 0)) as [->|Hf1].
  { rewrite acc_step_zero. simpl. by destruct (acc_step (s2, f2) fr). }
  destruct (decide (f2 = 0)) as [->|Hf2].
  { rewrite acc_step_zero. simpl. by destruct (acc_step (s1, f1) fr). }
  rewrite (acc_step_nonzero s1 f1 fr), (acc_step_nonzero s2 f2 fr) by done.
  destruct (Z.ltb_spec 4294967295 (default 0 (fr !! s1) + f1)) as [H1|H1];
    destruct (Z.ltb_spec 4294967295 (default 0 (fr !! s2) + f2)) as [H2|H2];
    simpl; rewrite ?acc_step_nonzero by done.
  - done.
  - destruct (decide (s1 = s2)) as [->|Hne].
    + rewrite lookup_insert_eq. simpl. rewrite u32_small by lia.
      destruct (Z.ltb_spec 4294967295 (default 0 (fr !! s2) + f2 + f1)); [done | lia].
    + rewrite lookup_insert_ne by done.
      destruct (Z.ltb_spec 4294967295 (default 0 (fr !! s1) + f1)); [done | lia].
  - destruct (decide (s1 = s2)) as [->|Hne].
    + rewrite lookup_insert_eq. simpl. rewrite u32_small by lia.
      destruct (Z.ltb_spec 4294967295 (default 0 (fr !! s2) + f1 + f2)); [done | lia].
    + rewrite lookup_insert_ne by done.
      destruct (Z.ltb_spec 4294967295 (default 0 (fr !! s2) + f2)); [done | lia].
  - destruct (decide (s1 = s2)) as [->|Hne].
    + rewrite !lookup_insert_eq. simpl. rewrite !(u32_small (default 0 (fr !! s2) + _)) by lia.
      destruct (Z.ltb_spec 4294967295 (default 0 (fr !! s2) + f1 + f2));
        destruct (Z.ltb_spec 4294967295 (default 0 (fr !! s2) + f2 + f1)); try lia; [done|].
      rewrite !insert_insert_eq. do 3 f_equal. lia.
    + rewrite !lookup_insert_ne by done.
      destruct (Z.ltb_spec 4294967295 (default 0 (fr !! s1) + f1)); [lia|].
      destruct (Z.ltb_spec 4294967295 (default 0 (fr !! s2) + f2)); [lia|].
      f_equal. by apply insert_insert_ne.
Qed.

Lemma accumulate_perm l1 l2 :
  l1 ≡ₚ l2 -> Forall (fun x : Z * Z => 0 <= x.2) l1 ->
  forall fr, bounded_map fr -> accumulate l1 fr = accumulate l2 fr.
Proof.
  induction 1 as [|x l l' Hp IH|x y l|l l' l'' Hp IH Hp' IH']; intros Hall fr Hb.
  - done.
  - apply Forall_cons in Hall as [Hx Hall]. rewrite !accumulate_cons.
    destruct (acc_step x fr) as [fr1|] eqn:Hs; [|done]. simpl.
    apply IH; [done|]. by eapply acc_step_bounded.
  - apply Forall_cons in Hall as [Hy Hall]. apply Forall_cons in Hall as [Hx Hall].
    rewrite !accumulate_cons.
    pose proof (acc_step_comm x y fr Hb Hx Hy) as Hc.
    destruct (acc_step x fr) as [frx|] eqn:Hsx; destruct (acc_step y fr) as [fry|] eqn:Hsy;
      rewrite ?bind_OK, ?bind_Err in *; rewrite ?accumulate_cons.
    + by rewrite Hc.
    + by rewrite Hc.
    + by rewrite <- Hc.
    + done.
  - rewrite IH by done. apply IH'; [|done]. by rewrite <- Hp.
Qed.

Lemma scan_max_perm l1 l2 :
  l1 ≡ₚ l2 -> forall m h, scan_max l1 m h = scan_max l2 m h.
Proof.
  induction 1 as [|[s f] l l' Hp IH|[s1 f1] [s2 f2] l|l l' l'' Hp IH Hp' IH']; intros m h.
  - done.
  - simpl. destruct (f =? 0); apply IH.
  - simpl. destruct (f1 =? 0), (f2 =? 0); try done.
    f_equal. destruct (Z.ltb_spec m s2), (Z.ltb_spec m s1);
      repeat match goal with |- context [Z.ltb ?a ?b] => destruct (Z.ltb_spec a b) end;
      lia.
  - by rewrite IH.
Qed.

Lemma build_canonical_table_perm h1 h2 :
  h1 ≡ₚ h2 -> Forall (fun x : Z * Z => 0 <= x.2) h1 ->
  build_canonical_table h1 = build_canonical_table h2.
Proof.
  intros Hp Hall. unfold build_canonical_table.
  assert (Hb0 : bounded_map ∅) by (intros k v Hk; by rewrite lookup_empty in Hk).
  rewrite (scan_max_perm _ _ Hp), (accumulate_perm _ _ Hp Hall ∅ Hb0).
  destruct h1 as [|x1 h1], h2 as [|x2 h2]; try done.
  - by apply Permutation_nil_cons in Hp.
  - symmetry in Hp. by apply Permutation_nil_cons in Hp.
Qed.

End Histogram.

(** * Huffman coding of a stream *)

Section HuffmanClaims.
Import Huffman HuffSpec.

Lemma huff_encode_codes s t bits :
  Forall (fun x => 0 <= x < 4294967296) s ->
  huff_encode s = OK (t, bits) ->
  Forall (codes_symbol t) s /\
  exists w, encode_symbols t s bw_init = OK w /\ bits = bw_data (flush w).
Proof.
  intros Hrange Henc. unfold huff_encode in Henc.
  destruct s as [|s0 s'] eqn:Hs; [done|]. rewrite <- Hs in *.
  apply bind_OK_inv in Henc as (sf & Hsf & Henc).
  apply bind_OK_inv in Henc as (t' & Ht & Henc).
  apply bind_OK_inv in Henc as (w & Hw & Henc).
  injection Henc as -> <-.
  destruct (build_symbol_frequencies_spec _ _ Hsf) as [Hpos Hdom].
  assert (Hall : Forall (fun x : Z * Z => 0 <= x.1 /\ 0 <= x.2) sf).
  { apply Forall_forall. intros [x f] Hin. simpl. split.
    - assert (Hx : x ∈ s) by (apply Hdom; eauto).
      pose proof (proj1 (Forall_forall _ _) Hrange x Hx) as Hx0. simpl in Hx0. lia.
    - pose proof (proj1 (Forall_forall _ _) Hpos _ Hin). simpl in *. lia. }
  split; [|by exists w].
  apply Forall_forall. intros x Hx.
  destruct (proj1 (Hdom x) Hx) as (f & Hin).
  apply (build_canonical_table_codes sf t Hall Ht x f Hin).
  pose proof (proj1 (Forall_forall _ _) Hpos _ Hin). simpl in *. lia.
Qed.

(** C2: a stream of 32-bit symbols that [huff_encode] accepts is decoded
    from the table and bytes it returns to the stream itself; and the table
    built from a histogram, hence the code length of every symbol, does not
    depend on the order in which the histogram lists its entries. *)
Theorem huffman_round_trip (s : list Z) (t : HuffTable) (bits : list Z) :
  s <> [] ->
  Forall (fun x => 0 <= x < 4294967296) s ->
  huff_encode s = OK (t, bits) ->
  huff_decode bits t (zlen s) = OK s /\
  (forall h1 h2 : list (Z * Z),
     h1 ≡ₚ h2 -> Forall (fun x : Z * Z => 0 <= x.2) h1 ->
     build_canonical_table h1 = build_canonical_table h2 /\
     forall t1 t2, build_canonical_table h1 = OK t1 ->
                   build_canonical_table h2 = OK t2 ->
                   forall sym, len (enc_at t1 sym) = len (enc_at t2 sym)).
Proof.
  intros _ Hrange Henc.
  destruct (huff_encode_codes s t bits Hrange Henc) as (Hcodes & w & Hw & ->).
  split.
  - destruct (table_round_trip t s Hcodes) as (w' & Hw' & Hdec).
    rewrite Hw in Hw'. by injection Hw' as <-.
  - intros h1 h2 Hp Hall.
    pose proof (build_canonical_table_perm h1 h2 Hp Hall) as Heq.
    split; [done|]. intros t1 t2 H1 H2 sym. rewrite Heq in H1. congruence.
Qed.

Lemma huffman_round_trip_witness :
  self_test_symbols <> [] /\
  Forall (fun x => 0 <= x < 4294967296) self_test_symbols /\
  huff_encode self_test_symbols
    = OK (mkTable 4
            (<[1 := mkEnc 7 3 true]> (<[0 := mkEnc 6 3 true]>
               (<[2 := mkEnc 2 2 true]> (<[3 := mkEnc 0 1 true]> ∅))))
            [mkNode 1 2 (-1); mkNode (-1) (-1) 3; mkNode 3 4 (-1);
             mkNode (-1) (-1) 2; mkNode 5 6 (-1); mkNode (-1) (-1) 0;
             mkNode (-1) (-1) 1],
          [110; 160]) /\
  huff_decode [110; 160]
    (mkTable 4
       (<[1 := mkEnc 7 3 true]> (<[0 := mkEnc 6 3 true]>
          (<[2 := mkEnc 2 2 true]> (<[3 := mkEnc 0 1 true]> ∅))))
       [mkNode 1 2 (-1); mkNode (-1) (-1) 3; mkNode 3 4 (-1);
        mkNode (-1) (-1) 2; mkNode 5 6 (-1); mkNode (-1) (-1) 0;
        mkNode (-1) (-1) 1])
    (zlen self_test_symbols) = OK self_test_symbols.
Proof.
  assert (Hne : self_test_symbols <> []) by discriminate.
  assert (Hr : Forall (fun x => 0 <= x < 4294967296) self_test_symbols).
  { repeat constructor; lia. }
  assert (He : huff_encode self_test_symbols
    = OK (mkTable 4
            (<[1 := mkEnc 7 3 true]> (<[0 := mkEnc 6 3 true]>
               (<[2 := mkEnc 2 2 true]> (<[3 := mkEnc 0 1 true]> ∅))))
            [mkNode 1 2 (-1); mkNode (-1) (-1) 3; mkNode 3 4 (-1);
             mkNode (-1) (-1) 2; mkNode 5 6 (-1); mkNode (-1) (-1) 0;
             mkNode (-1) (-1) 1],
          [110; 160])) by (vm_compute; reflexivity).
  split; [exact Hne|]. split; [exact Hr|]. split; [exact He|].
  exact (proj1 (huffman_round_trip self_test_symbols _ _ Hne Hr He)).
Defined.

End HuffmanClaims.

(** * Streams with one distinct symbol *)

Section SingleSymbol.
Import Huffman HuffSpec.

Lemma count_symbols_replicate sym (k : nat) : forall c fm,
  fm !! sym = Some c -> c + Z.of_nat k <= 4294967295 ->
  count_symbols (replicate k sym) fm = OK (<[sym := c + Z.of_nat k]> fm).
Proof.
  induction k as [|k IH]; intros c fm Hc Hb.
  - simpl. rewrite Z.add_0_r. by rewrite insert_id.
  - cbn [replicate count_symbols]. rewrite Hc.
    destruct (Z.eqb_spec c 4294967295); [lia|].
    rewrite (IH (c + 1)); [| apply lookup_insert_eq | lia].
    rewrite insert_insert_eq. do 2 f_equal. lia.
Qed.

Lemma merge_sort_singleton {A} (R : relation A) `{!RelDecision R} (x : A) :
  merge_sort R [x] = [x].
Proof. reflexivity. Qed.

Lemma single_symbol_frequencies sym (n : nat) :
  (0 < n)%nat -> Z.of_nat n <= 4294967295 ->
  build_symbol_frequencies (replicate n sym) = OK [(sym, Z.of_nat n)].
Proof.
  intros Hn Hb. destruct n as [|k]; [lia|].
  unfold build_symbol_frequencies. cbn [replicate count_symbols].
  rewrite lookup_empty.
  rewrite (count_symbols_replicate sym k 1); [| apply lookup_insert_eq | lia].
  rewrite bind_OK, insert_insert_eq, insert_empty, map_to_list_singleton.
  rewrite merge_sort_singleton. do 3 f_equal. lia.
Qed.

Lemma entries_by_index_singleton {A} (k : Z) (a : A) :
  entries_by_index ({[k := a]} : gmap Z A) = [(k, a)].
Proof.
  unfold entries_by_index. rewrite map_to_list_singleton.
  cbn [map fst]. rewrite merge_sort_singleton.
  cbn [omap list_omap]. by rewrite lookup_singleton_eq.
Qed.

Lemma single_symbol_build sym f :
  0 <= sym < 4294967295 -> 0 < f <= 4294967295 ->
  build_canonical_table [(sym, f)] = OK (single_table sym).
Proof.
  intros Hs Hf. unfold build_canonical_table. cbn [scan_max accumulate].
  destruct (Z.eqb_spec f 0); [lia|].
  assert (Hmax : (if 0 <? sym then sym else 0) = sym)
    by (destruct (Z.ltb_spec 0 sym); lia).
  rewrite Hmax. simpl negb. cbv iota.
  rewrite lookup_empty. simpl default. rewrite Z.add_0_l.
  destruct (Z.ltb_spec 4294967295 f); [lia|].
  rewrite bind_OK. destruct (Z.ltb_spec 4294967295 (sym + 1)); [lia|].
  rewrite u32_small by lia. rewrite insert_empty.
  unfold collect_leaves. rewrite entries_by_index_singleton. simpl.
  destruct (Z.eqb_spec f 0); [lia|]. simpl. by rewrite insert_empty.
Qed.

Lemma single_symbol_rebuild sym :
  0 <= sym < 4294967295 ->
  build_table_from_code_lengths [(sym, 1)] = OK (single_table sym).
Proof.
  intros Hs. unfold build_table_from_code_lengths. simpl existsb. cbv iota.
  rewrite merge_sort_singleton. simpl canonical_codes. simpl foldl.
  rewrite Z.max_r by lia. rewrite (u32_small (sym + 1)) by lia.
  cbn [fill_table_dec enc_size enc decode_nodes c_symbol c_code c_len].
  destruct (Z.leb_spec (sym + 1) sym); [lia|].
  unfold trie_insert. simpl. by rewrite insert_empty.
Qed.

(** The symbol [0xFFFFFFFF]: the leaf loop of the builder does not end, and
    the table rebuilt from its entry has an encode vector of size 0. *)
Lemma max_symbol_build f :
  0 < f <= 4294967295 ->
  build_canonical_table [(4294967295, f)]
    = Err "huffman: leaf loop does not end".
Proof.
  intros Hf. unfold build_canonical_table. cbn [scan_max accumulate].
  destruct (Z.eqb_spec f 0); [lia|]. cbn [Z.ltb Z.compare negb].
  rewrite lookup_empty. simpl default. rewrite Z.add_0_l.
  destruct (Z.ltb_spec 4294967295 f); [lia|]. by rewrite bind_OK.
Qed.

Lemma max_symbol_rebuild :
  build_table_from_code_lengths [(4294967295, 1)]
    = Err "decode: encode table index out of range".
Proof. reflexivity. Qed.

(** A symbol that occurs [2^32] times or more overflows its counter. *)
Lemma count_symbols_overflow sym (k : nat) : forall c fm,
  fm !! sym = Some c -> c <= 4294967295 -> 4294967295 < c + Z.of_nat k ->
  count_symbols (replicate k sym) fm = Err "huffman: frequency overflow".
Proof.
  induction k as [|k IH]; intros c fm Hc Hle Hover; [lia|].
  cbn [replicate count_symbols]. rewrite Hc.
  destruct (Z.eqb_spec c 4294967295); [done|].
  apply (IH (c + 1)); [apply lookup_insert_eq | lia | lia].
Qed.

Lemma long_stream_overflow sym (n : nat) :
  4294967295 < Z.of_nat n ->
  huff_encode (replicate n sym) = Err "huffman: frequency overflow".
Proof.
  intros Hn. destruct n as [|k]; [simpl in Hn; lia|].
  unfold huff_encode, build_symbol_frequencies.
  cbn [replicate count_symbols]. rewrite lookup_empty.
  rewrite (count_symbols_overflow sym k 1);
    [done | apply lookup_insert_eq | lia | lia].
Qed.

(** C8, as the code has it, for a stream of [n > 0] copies of one 32-bit
    symbol.  For a symbol below [0xFFFFFFFF] and up to [2^32 - 1] copies
    the histogram has the single entry [(sym, n)]; the builder gives the
    symbol code 0 of length 1 and the trie root -> left -> leaf; the table
    rebuilt from the entry [(sym, 1)] is the same table; and the stream is
    encoded, and decoded again with that table, to itself.  For the symbol
    [0xFFFFFFFF] neither side gives a table: the leaf loop of the builder
    does not end, and the rebuilt encode vector has [max_sym + 1 = 0]
    entries, so that the entry of the symbol is outside it.  A stream of
    [2^32] copies or more is refused with "frequency overflow". *)
Theorem single_symbol_stream (sym : Z) (n : nat) :
  0 <= sym <= 4294967295 ->
  (0 < n)%nat ->
  (sym < 4294967295 -> Z.of_nat n <= 4294967295 ->
   build_symbol_frequencies (replicate n sym) = OK [(sym, Z.of_nat n)] /\
   build_canonical_table [(sym, Z.of_nat n)] = OK (single_table sym) /\
   enc_at (single_table sym) sym = mkEnc 0 1 true /\
   (exists leaf,
      decode_nodes (single_table sym) !! 0%nat
        = Some (mkNode leaf (-1) (-1)) /\
      decode_nodes (single_table sym) !! Z.to_nat leaf
        = Some (mkNode (-1) (-1) (i32 sym)) /\ i32 sym <> -1) /\
   build_table_from_code_lengths [(sym, 1)] = OK (single_table sym) /\
   exists bits,
     huff_encode (replicate n sym) = OK (single_table sym, bits) /\
     huff_decode bits (single_table sym) (Z.of_nat n) = OK (replicate n sym)) /\
  (sym = 4294967295 -> Z.of_nat n <= 4294967295 ->
   build_symbol_frequencies (replicate n sym) = OK [(sym, Z.of_nat n)] /\
   build_canonical_table [(sym, Z.of_nat n)]
     = Err "huffman: leaf loop does not end" /\
   huff_encode (replicate n sym) = Err "huffman: leaf loop does not end" /\
   build_table_from_code_lengths [(sym, 1)]
     = Err "decode: encode table index out of range") /\
  (4294967295 < Z.of_nat n ->
   huff_encode (replicate n sym) = Err "huffman: frequency overflow").
Proof.
  intros Hs Hn. split; [|split].
  - intros Hlt Hb.
    pose proof (single_symbol_frequencies sym n Hn Hb) as Hfreq.
    pose proof (single_symbol_build sym (Z.of_nat n) ltac:(lia) ltac:(lia))
      as Hbuild.
    split; [done|]. split; [done|]. split.
    { unfold enc_at, single_table. simpl. by rewrite lookup_singleton_eq. }
    split.
    { exists 1. split; [done|]. split; [done|].
      apply i32_not_minus_one. lia. }
    split; [apply single_symbol_rebuild; lia|].
    assert (Hcodes : Forall (codes_symbol (single_table sym))
                            (replicate n sym)).
    { apply Forall_replicate. unfold single_table. rewrite <- insert_empty.
      apply single_leaf_codes; lia. }
    destruct (table_round_trip _ _ Hcodes) as (w & Hw & Hdec).
    exists (bw_data (flush w)). split.
    + unfold huff_encode. destruct n as [|k]; [lia|].
      change (replicate (S k) sym) with (sym :: replicate k sym) at 1.
      cbv iota. rewrite Hfreq, bind_OK, Hbuild, bind_OK, Hw. done.
    + unfold zlen in Hdec. by rewrite length_replicate in Hdec.
  - intros -> Hb.
    pose proof (single_symbol_frequencies 4294967295 n Hn Hb) as Hfreq.
    pose proof (max_symbol_build (Z.of_nat n) ltac:(lia)) as Hbuild.
    split; [done|]. split; [done|]. split; [|apply max_symbol_rebuild].
    unfold huff_encode. destruct n as [|k]; [lia|].
    change (replicate (S k) 4294967295)
      with (4294967295 :: replicate k 4294967295) at 1.
    cbv iota. by rewrite Hfreq, bind_OK, Hbuild.
  - apply long_stream_overflow.
Qed.

Lemma single_symbol_stream_witness :
  (0 <= 4063232 <= 4294967295 /\ (0 < 2)%nat) /\
  (4063232 < 4294967295 /\ Z.of_nat 2 <= 4294967295) /\
  huff_encode (replicate 2 4063232) = OK (single_table 4063232, [0]) /\
  huff_decode [0] (single_table 4063232) 2 = OK (replicate 2 4063232) /\
  build_table_from_code_lengths [(4063232, 1)] = OK (single_table 4063232).
Proof.
  assert (H1 : 0 <= 4063232 <= 4294967295) by lia.
  assert (H2 : (0 < 2)%nat) by lia.
  assert (H3 : 4063232 < 4294967295) by lia.
  assert (H4 : Z.of_nat 2 <= 4294967295) by (simpl; lia).
  split; [auto|]. split; [auto|].
  destruct (single_symbol_stream 4063232 2 H1 H2) as (Hok & _ & _).
  destruct (Hok H3 H4) as (_ & _ & _ & _ & Hre & _).
  split; [vm_compute; reflexivity|]. split; [vm_compute; reflexivity|].
  exact Hre.
Defined.

(** C8, the failing input: the stream that consists of the symbol
    [0xFFFFFFFF] once has exactly one distinct symbol, and [huff_encode]
    gives no table for it. *)
Lemma single_symbol_max_fails :
  build_symbol_frequencies [4294967295] = OK [(4294967295, 1)] /\
  huff_encode [4294967295] = Err "huffman: leaf loop does not end" /\
  build_table_from_code_lengths [(4294967295, 1)]
    = Err "decode: encode table index out of range".
Proof. repeat split; vm_compute; reflexivity. Qed.

End SingleSymbol.

(** * Bytes of the container *)

Section Bytes.
Import Img Bitstream CodecSpec.

Lemma land_255 v : Z.land v 255 = v mod 256.
Proof. change 255 with (Z.ones 8). by rewrite Z.land_ones by lia. Qed.

Lemma land_65535 v : Z.land v 65535 = v mod 65536.
Proof. change 65535 with (Z.ones 16). by rewrite Z.land_ones by lia. Qed.

Lemma write_u16_le_spec v w : write_u16_le v w = w ++ le16 v.
Proof.
  unfold write_u16_le, le16, u8. rewrite !land_255, !Z.mod_mod by lia.
  by rewrite Z.shiftr_div_pow2 by lia.
Qed.

Lemma mod_65536_low v : (v mod 65536) mod 256 = v mod 256.
Proof.
  apply Z.mod_mod_divide. exists 256. done.
Qed.

Lemma mod_65536_high v : (v mod 65536) / 256 = (v / 256) mod 256.
Proof.
  change 65536 with (256 * 256). rewrite Z.rem_mul_r by lia.
  pose proof (Z.mod_pos_bound v 256 ltac:(lia)).
  pose proof (Z.mod_pos_bound (v / 256) 256 ltac:(lia)).
  symmetry. apply (Z.div_unique _ 256 _ (v mod 256)); lia.
Qed.

Lemma write_u32_le_spec v w : write_u32_le v w = w ++ le32 v.
Proof.
  unfold write_u32_le. rewrite !write_u16_le_spec, <- app_assoc. f_equal.
  unfold le16, le32, u16. rewrite !land_65535, !Z.mod_mod by lia.
  rewrite Z.shiftr_div_pow2 by lia. change (2 ^ 16) with 65536.
  rewrite !mod_65536_low, !mod_65536_high, Z.mod_mod by lia.
  rewrite Z.div_div by lia. by rewrite Z.mod_mod by lia.
Qed.

Lemma le32_length v : length (le32 v) = 4%nat.
Proof. done. Qed.

Lemma write_bitstream_header_spec im flg bs q :
  write_bitstream_header [] im flg bs q =
    [77; 67; 68; 67] ++ le16 1 ++ le16 32 ++
    le32 (u32 (width im)) ++ le32 (u32 (height im)) ++
    le16 (u16 (channels im)) ++ le16 (u16 (bits_allocated im)) ++
    le16 (u16 (bits_stored im)) ++ [if is_signed im then 1 else 0] ++ [flg] ++
    le16 (u16 bs) ++ le16 (u16 q) ++ le32 0.
Proof.
  unfold write_bitstream_header. cbv zeta.
  cbn [magic version header_bytes h_width h_height h_channels h_bits_allocated
       h_bits_stored h_is_signed flags h_block_size quality payload_bytes].
  unfold write_u8, write_bytes. rewrite !write_u32_le_spec, !write_u16_le_spec.
  rewrite <- !app_assoc. done.
Qed.

Lemma write_table_entries_spec entries : forall w,
  Codec.write_table_entries entries w = w ++ concat (map entry_bytes entries).
Proof.
  induction entries as [|[s l] entries IH]; intros w.
  - simpl. by rewrite app_nil_r.
  - unfold Codec.write_table_entries in *. cbn [foldl]. rewrite IH.
    unfold write_u8. rewrite write_u32_le_spec.
    cbn [map concat]. unfold entry_bytes at 2. simpl fst. simpl snd.
    by rewrite <- !app_assoc.
Qed.

Lemma concat_entry_bytes_length entries :
  zlen (concat (map entry_bytes entries)) = 5 * zlen entries.
Proof.
  unfold zlen. induction entries as [|e entries IH]; [done|].
  cbn [map concat]. rewrite length_app. simpl length. lia.
Qed.

Lemma patch_payload_bytes_spec (pre rest : list Z) p :
  length pre = 28%nat ->
  Codec.patch_payload_bytes (pre ++ le32 0 ++ rest) p = pre ++ le32 p ++ rest.
Proof.
  intros Hlen. unfold Codec.patch_payload_bytes.
  rewrite !(insert_app_r_alt pre) by (rewrite ?length_insert; lia).
  rewrite Hlen. f_equal. simpl.
  unfold le32, u8. rewrite !land_255, !Z.mod_mod by lia.
  rewrite !Z.shiftr_div_pow2 by lia. done.
Qed.

End Bytes.

(** * The encoder and the decoder, step by step *)

(** Inversion of a successful run: every test on the way took the branch
    that does not fail, every call returned a value. *)
Ltac result_inv H :=
  repeat first
    [ match type of H with
      | (if ?c then Err _ else _) = OK _ =>
          let Hc := fresh "Hc" in
          destruct c eqn:Hc; [discriminate H |]
      | mbind _ _ = OK _ =>
          let x := fresh "x" in
          let Hx := fresh "Hx" in
          apply bind_OK_inv in H as (x & Hx & H)
      | (let '(_, _) := ?p in _) = OK _ => destruct p
      end ].

(** The tests of the source as propositions. *)
Ltac tests_to_props :=
  repeat match goal with
    | H : negb _ = false |- _ => apply negb_false_iff in H
    | H : (_ || _) = false |- _ => apply orb_false_elim in H as [? ?]
    | H : (_ =? _) = true |- _ => apply Z.eqb_eq in H
    | H : (_ <=? _) = false |- _ => apply Z.leb_gt in H
    | H : (_ <? _) = false |- _ => apply Z.ltb_ge in H
    end.

Section Pipeline.
Import Img Rle Huffman Bitstream Block Quant Dct Codec CodecSpec.

Variable fcos : spec_float -> spec_float.

Lemma apply_level_shift_fields im img :
  apply_level_shift im = OK img ->
  width img = width im /\ height img = height im /\
  channels img = channels im /\ bits_stored img = bits_stored im /\
  bits_allocated img = bits_allocated im /\
  (pixels im <> [] -> is_signed img = true /\ 1 <= bits_stored im <= 16).
Proof.
  unfold apply_level_shift, empty. intros H.
  destruct (pixels im) as [|p ps] eqn:Hpx.
  { injection H as <-. by repeat split. }
  destruct (_ || _) eqn:Hbs; [discriminate|].
  apply orb_false_elim in Hbs as [Hb1 Hb2].
  destruct (is_signed im) eqn:Hs; injection H as <-; repeat split; try done;
    simpl; lia.
Qed.

(** What a successful run of the encoder went through. *)
Lemma encode_inv im quality bytes :
  encode_to_mcodec fcos im quality = OK bytes ->
  exists img symbol_count entries huff,
    channels im = 1 /\ 0 < width im /\ 0 < height im /\
    zlen (pixels im) = width im * height im /\
    apply_level_shift im = OK img /\
    entries <> [] /\ 0 <= symbol_count < 4294967296 /\
    let payload := u32 (u32 (8 + u32 (zlen entries) * 5) + u32 (zlen huff)) in
    bytes =
      patch_payload_bytes
        (write_bytes huff (write_table_entries entries
           (write_u32_le (u32 (zlen entries)) (write_u32_le symbol_count
              (write_bitstream_header [] img
                 (if negb (is_signed im) then 1 else 0) 8 quality)))))
        payload /\
    zlen bytes = u32 (32 + payload).
Proof.
  unfold encode_to_mcodec. intros H. result_inv H.
  injection H as <-. tests_to_props.
  change (4 + 4) with 8 in *. change (4 + 1) with 5 in *.
  change kMCodecHeaderBytes with 32 in *.
  exists x, (u32 (zlen (pack_rle_symbols x5))), (p :: l0), l.
  do 6 (split; [done || lia|]).
  split; [unfold u32; apply Z.mod_pos_bound; lia|]. cbv zeta. split; done.
Qed.

(** The buffer of a successful run, field by field. *)
Lemma encode_layout im quality bytes :
  encode_to_mcodec fcos im quality = OK bytes ->
  exists symbol_count entries huff,
    let payload := 8 + 5 * zlen entries + zlen huff in
    bytes =
      header_prefix im 1 (if is_signed im then 0 else 1) quality ++
      le32 payload ++ le32 symbol_count ++ le32 (zlen entries) ++
      concat (map entry_bytes entries) ++ huff /\
    zlen bytes = 32 + payload /\ payload < 4294967296 /\
    0 <= symbol_count < 4294967296 /\ entries <> [].
Proof.
  intros H. apply encode_inv in H
    as (img & sc & entries & huff & Hch & Hw & Hh & Hpx & Hshift & Hne & Hsc
        & H).
  cbv zeta in H. destruct H as [Hbytes Hlen].
  apply apply_level_shift_fields in Hshift
    as (Ew & Eh & Ec & Ebs & Eba & Hsgn).
  destruct Hsgn as [Hsgn _].
  { intros Hnil. rewrite Hnil in Hpx. unfold zlen in Hpx. simpl in Hpx. nia. }
  exists sc, entries, huff. cbv zeta.
  rewrite write_bitstream_header_spec in Hbytes.
  unfold write_bytes in Hbytes.
  rewrite write_table_entries_spec, !write_u32_le_spec in Hbytes.
  rewrite Ew, Eh, Ec, Ebs, Eba, Hsgn in Hbytes.
  set (pre := header_prefix im 1 (if is_signed im then 0 else 1) quality).
  set (rest := le32 sc ++ le32 (u32 (zlen entries)) ++
               concat (map entry_bytes entries) ++ huff).
  assert (Hpre : length pre = 28%nat) by done.
  set (payload := u32 (u32 (8 + u32 (zlen entries) * 5) + u32 (zlen huff))) in *.
  assert (Hb : bytes = pre ++ le32 payload ++ rest).
  { rewrite Hbytes, <- (patch_payload_bytes_spec pre rest payload Hpre).
    f_equal. subst pre rest. unfold header_prefix.
    destruct (is_signed im); simpl; rewrite <- ?app_assoc; done. }
  assert (Hz : zlen bytes = 40 + 5 * zlen entries + zlen huff).
  { rewrite Hb. subst rest. rewrite !zlen_app, concat_entry_bytes_length.
    unfold zlen at 1 2 3 4. rewrite Hpre. simpl length. lia. }
  pose proof (zlen_nonneg entries) as Hn0. pose proof (zlen_nonneg huff) as Hh0.
  assert (Hlt : 40 + 5 * zlen entries + zlen huff < 4294967296).
  { rewrite <- Hz, Hlen. unfold u32. apply Z.mod_pos_bound. lia. }
  assert (Hu : u32 (zlen entries) = zlen entries).
  { unfold u32. apply Z.mod_small. lia. }
  assert (Hpay : payload = 8 + 5 * zlen entries + zlen huff).
  { subst payload. rewrite Hu. unfold u32.
    rewrite (Z.mod_small (8 + _)) by lia.
    rewrite (Z.mod_small (zlen huff)) by lia.
    rewrite Z.mod_small by lia. lia. }
  subst rest. rewrite Hu, Hpay in Hb.
  split; [done|]. split; [lia|]. split; [lia|]. split; done.
Qed.

(** The byte at offset 22 of every buffer the encoder returns is 1. *)
Lemma encode_byte_22 im quality bytes :
  encode_to_mcodec fcos im quality = OK bytes -> bytes !! 22%nat = Some 1.
Proof.
  intros H. apply encode_layout in H as (sc & entries & huff & H).
  cbv zeta in H. destruct H as [-> _]. done.
Qed.

Lemma pack_rle_symbols_range rle :
  Forall (fun x => 0 <= x < 4294967296) (pack_rle_symbols rle).
Proof.
  unfold pack_rle_symbols. apply List.Forall_map, Forall_forall.
  intros p _. cbv beta.
  set (a := u16 (run p)). set (b := u16 (value p)).
  assert (Ha : 0 <= a < 65536) by (apply Z.mod_pos_bound; lia).
  assert (Hb : 0 <= b < 65536) by (apply Z.mod_pos_bound; lia).
  assert (Hland : Z.land (Z.shiftl a 16) b = 0).
  { apply Z.bits_inj'. intros n Hn. rewrite Z.land_spec, Z.bits_0.
    destruct (Z.lt_ge_cases n 16).
    - by rewrite Z.shiftl_spec_low by lia.
    - rewrite (Z.bits_above_log2 b n); [apply andb_false_r | lia |].
      destruct (Z.eq_dec b 0) as [-> | Hb0]; [simpl; lia|].
      assert (Z.log2 b < 16) by (apply Z.log2_lt_pow2; lia). lia. }
  rewrite <- Z.lxor_lor, <- Z.add_nocarry_lxor by done.
  rewrite Z.shiftl_mul_pow2 by lia. lia.
Qed.






Lemma foldl_insert_length {A B} (f : B -> nat) (g : B -> A) (xs : list B) :
  forall px : list A,
  length (foldl (fun px x => <[f x := g x]> px) px xs) = length px.
Proof.
  induction xs as [|x xs IH]; intros px; [done|].
  cbn [foldl]. by rewrite IH, length_insert.
Qed.

Lemma untile_from_blocks_fields img g padded img' :
  untile_from_blocks img g padded = OK img' ->
  pixels img' <> [] /\ bits_stored img' = bits_stored img /\
  is_signed img' = is_signed img.
Proof.
  unfold untile_from_blocks. intros H. result_inv H. injection H as <-.
  tests_to_props. split; [|done].
  intros Hnil. apply (f_equal length) in Hnil. revert Hnil.
  unfold set_pixels. cbn [pixels].
  set (px0 := take _ _ ++ _).
  assert (Hlen : length px0 = Z.to_nat (width img * height img)).
  { subst px0. rewrite length_app, length_take, length_replicate. lia. }
  assert (Hrows : forall ys (px : list Z),
    length (foldl (fun px y =>
              foldl (fun px x =>
                       <[Z.to_nat (y * width img + x) :=
                           at_ padded (y * padded_w g + x)]> px)
                    px (seqZ 0 (width img))) px ys) = length px).
  { induction ys as [|y ys IH]; intros px; [done|].
    cbn [foldl]. rewrite IH.
    apply (foldl_insert_length (fun x => Z.to_nat (y * width img + x))
             (fun x => at_ padded (y * padded_w g + x))). }
  rewrite Hrows, Hlen. simpl. nia.
Qed.

Lemma inverse_level_shift_range img img' :
  pixels img <> [] ->
  inverse_level_shift img = OK img' ->
  is_signed img' = false /\ 1 <= bits_stored img' <= 16 /\
  Forall (fun v => 0 <= v <= 2 ^ bits_stored img' - 1) (pixels img').
Proof.
  unfold inverse_level_shift. intros Hne H.
  destruct (empty img) eqn:He.
  { unfold empty in He. by destruct (pixels img). }
  result_inv H. injection H as <-. tests_to_props.
  unfold set_pixels. cbn [is_signed bits_stored pixels].
  split; [done|]. split; [lia|].
  apply List.Forall_map, Forall_forall. intros v _. cbv beta.
  rewrite !Z.shiftl_mul_pow2 by lia.
  assert (0 < 2 ^ bits_stored img) by (apply Z.pow_pos_nonneg; lia).
  unfold clamp_i32. lia.
Qed.

Lemma read_bitstream_header_flags bytes hdr :
  read_bitstream_header bytes = OK hdr -> flags hdr = byte_at bytes 23.
Proof.
  unfold read_bitstream_header. intros H. result_inv H. by injection H as <-.
Qed.

(** With flag bit 0 set, the decoder ends with the inverse level shift of a
    non-empty image. *)
Lemma decode_shifted bytes im :
  decode_from_mcodec fcos bytes = OK im ->
  Z.land (byte_at bytes 23) 1 <> 0 ->
  is_signed im = false /\ 1 <= bits_stored im <= 16 /\
  Forall (fun v => 0 <= v <= 2 ^ bits_stored im - 1) (pixels im).
Proof.
  unfold decode_from_mcodec. intros H Hflag. result_inv H.
  injection H as <-.
  match goal with
  | Hh : read_bitstream_header bytes = OK ?h |- _ =>
      apply read_bitstream_header_flags in Hh as Hfl
  end.
  match goal with
  | Hu : untile_from_blocks _ _ _ = OK ?i |- _ =>
      apply untile_from_blocks_fields in Hu as (Hne & _ & _)
  end.
  match goal with
  | Hi : (if ?c then inverse_level_shift ?i else OK ?i) = OK _ |- _ =>
      assert (Hc' : c = true);
        [ rewrite Hfl; apply negb_true_iff, Z.eqb_neq; exact Hflag
        | rewrite Hc' in Hi; apply (inverse_level_shift_range _ _ Hne Hi) ]
  end.
Qed.

End Pipeline.

(** * Integers in binary32 *)

Section FloatInt.
Import Fp.

Lemma digits2_size p : digits2_pos p = Pos.size p.
Proof. induction p as [p IH|p IH|]; simpl; by rewrite ?IH. Qed.

Lemma size_log2 p : Zpos (Pos.size p) = Z.log2 (Zpos p) + 1.
Proof. destruct p; simpl; lia. Qed.

Lemma iter_pos_nat {A} (f : A -> A) p : forall x,
  SpecFloat.iter_pos f p x = Nat.iter (Pos.to_nat p) f x.
Proof.
  induction p as [p IH|p IH|]; intros x; cbn [SpecFloat.iter_pos].
  - rewrite !IH, Pos2Nat.inj_xI.
    replace (S (2 * Pos.to_nat p)) with (Pos.to_nat p + (Pos.to_nat p + 1))%nat
      by lia.
    by rewrite !Nat.iter_add.
  - rewrite !IH, Pos2Nat.inj_xO.
    replace (2 * Pos.to_nat p)%nat with (Pos.to_nat p + Pos.to_nat p)%nat
      by lia.
    by rewrite Nat.iter_add.
  - done.
Qed.

Lemma shl_value (k : nat) p : Zpos (Nat.iter k xO p) = Zpos p * 2 ^ Z.of_nat k.
Proof.
  induction k as [|k IH]; [simpl; lia|].
  rewrite Nat2Z.inj_succ, Z.pow_succ_r by lia.
  cbn [Nat.iter nat_rect]. change (Nat.iter k xO p) with (nat_rect _ p (fun _ => xO) k) in IH.
  rewrite Pos2Z.inj_xO, IH. lia.
Qed.

Lemma shl_size (k : nat) p :
  Zpos (Pos.size (Nat.iter k xO p)) = Zpos (Pos.size p) + Z.of_nat k.
Proof.
  induction k as [|k IH]; [simpl; lia|].
  change (Nat.iter (S k) xO p) with (xO (Nat.iter k xO p)).
  cbn [Pos.size]. rewrite Pos2Z.inj_succ, IH. lia.
Qed.

Lemma shr_shl (k : nat) p :
  Nat.iter k shr_1 (Build_shr_record (Zpos (Nat.iter k xO p)) false false) =
  Build_shr_record (Zpos p) false false.
Proof.
  induction k as [|k IH]; [done|].
  rewrite Nat.iter_succ_r.
  change (Nat.iter (S k) xO p) with (xO (Nat.iter k xO p)).
  cbn [shr_1 orb]. exact IH.
Qed.

Lemma shr_exact (k : nat) p e :
  shr (Build_shr_record (Zpos (Nat.iter k xO p)) false false) e (Z.of_nat k) =
  (Build_shr_record (Zpos p) false false, e + Z.of_nat k).
Proof.
  destruct k as [|k].
  - simpl. f_equal. lia.
  - rewrite Nat2Z.inj_succ, <- Zpos_P_of_succ_nat. cbn [shr].
    rewrite iter_pos_nat, SuccNat2Pos.id_succ. by rewrite shr_shl.
Qed.

(** A mantissa of 24 digits followed by [k] zero bits is rounded to itself:
    nothing is lost. *)
Lemma binary_round_aux_exact s (M : positive) (k : nat) (E : Z) :
  Pos.size M = 24%positive -> -149 <= E + Z.of_nat k <= 104 ->
  binary_round_aux 24 128 s (Zpos (Nat.iter k xO M)) E loc_Exact =
  S754_finite s M (E + Z.of_nat k).
Proof.
  intros Hsize Hrange.
  assert (H1 : fexp 24 128 (Zdigits2 (Zpos (Nat.iter k xO M)) + E) - E
               = Z.of_nat k).
  { cbn [Zdigits2]. rewrite digits2_size, shl_size, Hsize.
    unfold fexp, emin. lia. }
  assert (H2 : fexp 24 128 (Zdigits2 (Zpos M) + (E + Z.of_nat k))
               - (E + Z.of_nat k) = 0).
  { cbn [Zdigits2]. rewrite digits2_size, Hsize. unfold fexp, emin. lia. }
  unfold binary_round_aux, shr_fexp.
  rewrite H1. cbn [shr_record_of_loc]. rewrite shr_exact.
  cbn [shr_m loc_of_shr_record round_nearest_even].
  rewrite H2. cbn [shr shr_m].
  destruct (Z.leb_spec (E + Z.of_nat k) (128 - 24)); [done|lia].
Qed.

(** The mantissa and the exponent of the [float] of a positive integer
    below [2^24]. *)
Lemma binary_round_int s p :
  Zpos p < 16777216 ->
  binary_round 24 128 s p 0 =
    S754_finite s (Nat.iter (Z.to_nat (24 - Zpos (Pos.size p))) xO p)
                (Zpos (Pos.size p) - 24).
Proof.
  intros Hlt.
  assert (Hs : Zpos (Pos.size p) <= 24).
  { rewrite size_log2. change 16777216 with (2 ^ 24) in Hlt.
    apply Z.log2_lt_pow2 in Hlt; lia. }
  unfold binary_round, shl_align.
  rewrite digits2_size.
  replace (fexp 24 128 (Zpos (Pos.size p) + 0)) with (Zpos (Pos.size p) - 24)
    by (unfold fexp, emin; lia).
  destruct (Zpos (Pos.size p) - 24 - 0) as [|d|d] eqn:Hd; [|lia|].
  - replace (Z.to_nat (24 - Zpos (Pos.size p))) with 0%nat by lia.
    pose proof (binary_round_aux_exact s p 0 0) as Hr.
    cbn [Nat.iter nat_rect] in Hr. rewrite Hr; [f_equal; lia | | lia].
    apply Pos2Z.inj. lia.
  - replace (Z.to_nat (24 - Zpos (Pos.size p))) with (Pos.to_nat d) by lia.
    rewrite Pos2Nat.inj_iter.
    change (nat_rect _ p (fun _ => xO) (Pos.to_nat d))
      with (Nat.iter (Pos.to_nat d) xO p).
    pose proof (binary_round_aux_exact s (Nat.iter (Pos.to_nat d) xO p) 0
                  (Zpos (Pos.size p) - 24)) as Hr.
    cbn [Nat.iter nat_rect] in Hr. rewrite Hr; [f_equal; lia | | lia].
    apply Pos2Z.inj. rewrite shl_size. lia.
Qed.

(** The product of the [float]s of two integers is the [float] of their
    product, as long as the product is below [2^24]. *)
Lemma binary_round_mul s1 s2 a b :
  Zpos a * Zpos b < 16777216 ->
  f32_mul (binary_round 24 128 s1 a 0) (binary_round 24 128 s2 b 0) =
  binary_round 24 128 (xorb s1 s2) (a * b) 0.
Proof.
  intros Hlt.
  assert (Ha : Zpos a < 16777216) by nia.
  assert (Hb : Zpos b < 16777216) by nia.
  assert (Hab : Zpos (a * b) < 16777216) by (rewrite Pos2Z.inj_mul; lia).
  rewrite !binary_round_int by done.
  pose proof (size_log2 a) as Da. pose proof (size_log2 b) as Db.
  pose proof (size_log2 (a * b)) as Dab.
  assert (Hlog : Z.log2 (Zpos a) + Z.log2 (Zpos b) <= Z.log2 (Zpos (a * b))).
  { rewrite Pos2Z.inj_mul. apply Z.log2_mul_below; lia. }
  assert (Hla : Z.log2 (Zpos a) < 24).
  { apply Z.log2_lt_pow2; [lia|]. exact Ha. }
  assert (Hlb : Z.log2 (Zpos b) < 24).
  { apply Z.log2_lt_pow2; [lia|]. exact Hb. }
  assert (Hlab : Z.log2 (Zpos (a * b)) < 24).
  { apply Z.log2_lt_pow2; [lia|]. exact Hab. }
  set (k1 := Z.to_nat (24 - Zpos (Pos.size a))).
  set (k2 := Z.to_nat (24 - Zpos (Pos.size b))).
  set (k3 := Z.to_nat (24 - Zpos (Pos.size (a * b)))).
  unfold f32_mul, SFmul.
  assert (Hm : (Nat.iter k1 xO a * Nat.iter k2 xO b)%positive =
               Nat.iter (k1 + k2 - k3) xO (Nat.iter k3 xO (a * b)%positive)).
  { apply Pos2Z.inj. rewrite Pos2Z.inj_mul, !shl_value, Pos2Z.inj_mul.
    replace (Z.of_nat (k1 + k2 - k3)) with (Z.of_nat k1 + Z.of_nat k2 - Z.of_nat k3)
      by lia.
    assert (Hp : 2 ^ Z.of_nat k3 * 2 ^ (Z.of_nat k1 + Z.of_nat k2 - Z.of_nat k3)
                 = 2 ^ Z.of_nat k1 * 2 ^ Z.of_nat k2).
    { rewrite <- !Z.pow_add_r by lia. f_equal. lia. }
    rewrite <- (Z.mul_assoc (Zpos a * Zpos b)), Hp. ring. }
  rewrite Hm, binary_round_aux_exact.
  - f_equal. lia.
  - apply Pos2Z.inj. rewrite shl_size. lia.
  - lia.
Qed.

Lemma f32_mul_int a b :
  0 < b < 16777216 -> Z.abs (a * b) < 16777216 ->
  f32_mul (f32_of_int a) (f32_of_int b) = f32_of_int (a * b).
Proof.
  intros Hb Hlt. destruct b as [|b|b]; [lia| |lia].
  destruct a as [|a|a].
  - unfold f32_of_int, binary_normalize. rewrite Z.mul_0_l.
    rewrite binary_round_int by lia. done.
  - apply (binary_round_mul false false). lia.
  - apply (binary_round_mul true false). lia.
Qed.

End FloatInt.

(** * The quantiser *)

Section Quantiser.
Import Fp Quant CodecSpec.

(** The step is [clamp(101 - quality, 1, 100)] as long as [101 - quality]
    is an [int]. *)
Lemma quant_step_clamp quality :
  -2147483546 <= quality <= 2147483647 ->
  quant_step_from_quality quality = clamp (101 - quality) 1 100.
Proof.
  intros Hq. unfold quant_step_from_quality, clamp. cbv zeta.
  rewrite i32_id by lia.
  destruct (Z.ltb_spec (101 - quality) 1).
  - destruct (Z.ltb_spec 100 1); lia.
  - destruct (Z.ltb_spec 100 (101 - quality)); lia.
Qed.

(** Below that the difference wraps to a negative [int] and the step is 1. *)
Lemma quant_step_wrapped quality :
  -2147483648 <= quality < -2147483546 ->
  quant_step_from_quality quality = 1.
Proof.
  intros Hq. unfold quant_step_from_quality. cbv zeta.
  rewrite i32_wrap by lia.
  destruct (Z.ltb_spec (101 - quality - 4294967296) 1); [done | lia].
Qed.

Lemma quant_step_range quality : 1 <= quant_step_from_quality quality <= 100.
Proof.
  unfold quant_step_from_quality. cbv zeta.
  destruct (Z.ltb_spec (i32 (101 - quality)) 1).
  - destruct (Z.ltb_spec 100 1); lia.
  - destruct (Z.ltb_spec 100 (i32 (101 - quality))); lia.
Qed.

Lemma represents_int z :
  Z.abs z < 16777216 -> represents (f32_of_int z) z.
Proof.
  intros Hz. unfold f32_of_int, binary_normalize.
  destruct z as [|p|p]; [done| |].
  - rewrite binary_round_int by lia. unfold represents.
    assert (Hs : Zpos (Pos.size p) <= 24).
    { rewrite size_log2. assert (Z.log2 (Zpos p) < 24); [|lia].
      apply Z.log2_lt_pow2; lia. }
    rewrite shl_value, (Z.max_r (_ - 24)), Z.max_l by lia.
    rewrite Z2Nat.id by lia.
    rewrite Z.pow_0_r. replace (- (Zpos (Pos.size p) - 24))
      with (24 - Zpos (Pos.size p)) by lia.
    lia.
  - rewrite binary_round_int by lia. unfold represents.
    assert (Hs : Zpos (Pos.size p) <= 24).
    { rewrite size_log2. assert (Z.log2 (Zpos p) < 24); [|lia].
      apply Z.log2_lt_pow2; lia. }
    rewrite <- !Pos2Z.opp_pos, shl_value, (Z.max_r (_ - 24)), Z.max_l by lia.
    rewrite Z2Nat.id by lia.
    rewrite Z.pow_0_r. replace (- (Zpos (Pos.size p) - 24))
      with (24 - Zpos (Pos.size p)) by lia.
    lia.
Qed.

Lemma quantize_one_spec inv_step c :
  int_convertible inv_step c = true ->
  exists r, round_half_away (f32_mul c inv_step) = Some r /\
            quantize_one inv_step c = OK (clamp r (-32768) 32767).
Proof.
  unfold int_convertible, quantize_one.
  destruct (round_half_away _) as [r|]; [|done].
  intros Hr. apply andb_true_iff in Hr as [H1 H2].
  apply Z.leb_le in H1, H2. exists r. split; [done|].
  destruct (Z.ltb_spec r (-2147483648)); [lia|].
  destruct (Z.ltb_spec 2147483647 r); [lia|]. cbn [orb]. cbv zeta.
  f_equal. unfold clamp.
  destruct (Z.ltb_spec 32767 r).
  - destruct (Z.ltb_spec 32767 (-32768)); lia.
  - destruct (Z.ltb_spec r (-32768)); lia.
Qed.

Lemma quantize_loop_spec inv_step x :
  forallb (int_convertible inv_step) x = true ->
  exists q16, quantize_loop inv_step x = OK q16 /\
    Forall2 (fun c q => exists r,
               round_half_away (f32_mul c inv_step) = Some r /\
               q = clamp r (-32768) 32767) x q16.
Proof.
  induction x as [|c x IH]; intros Hall.
  - exists []. split; [done|constructor].
  - cbn [forallb] in Hall. apply andb_true_iff in Hall as [Hc Hall].
    destruct (IH Hall) as (qs & Hqs & Hrel).
    destruct (quantize_one_spec _ _ Hc) as (r & Hr & Hq).
    exists (clamp r (-32768) 32767 :: qs). split.
    + cbn [quantize_loop]. rewrite Hq, Hqs. done.
    + constructor; [eauto|done].
Qed.

Lemma dequantize_spec q16 B quality :
  B = 8 \/ B = 16 -> zlen q16 mod (B * B) = 0 ->
  Forall (fun q => -32768 <= q <= 32767) q16 ->
  dequantize q16 B quality =
    OK (map (fun q => f32_of_int (q * quant_step_from_quality quality)) q16).
Proof.
  intros HB Hlen Hrange. unfold dequantize.
  assert (HB' : negb (B =? 8) && negb (B =? 16) = false).
  { destruct HB as [-> | ->]; done. }
  rewrite HB'. 
  rewrite Z.rem_mod_nonneg by (pose proof (zlen_nonneg q16); lia).
  rewrite Hlen. cbn [Z.eqb negb]. cbv zeta. f_equal.
  apply map_ext_Forall. eapply Forall_impl; [exact Hrange|].
  intros q Hq. cbv beta in *. pose proof (quant_step_range quality).
  apply f32_mul_int; [lia|]. nia.
Qed.

End Quantiser.

(** * The quantiser contract *)

Section QuantiserContract.
Import Fp Quant CodecSpec.

(** C4, as the code has it.  The step is [clamp(101 - quality, 1, 100)]
    for every quality from [-2147483546] up, where [101 - quality] is an
    [int]; for a smaller quality the subtraction wraps and the step is 1.
    On a buffer of whole blocks whose scaled coefficients convert to [int],
    [quantize] returns, for every coefficient, the rounding (halves away
    from zero) of the [float] product of the coefficient and the [float]
    reciprocal [1.0f / step], clamped to the signed 16-bit range;
    [dequantize] of the result returns, for every [q], the [float] of the
    integer [q * step], which is that integer exactly. *)
Theorem quantizer_contract (x : list spec_float) (B quality : Z) :
  B = 8 \/ B = 16 ->
  zlen x mod (B * B) = 0 ->
  forallb (int_convertible
             (f32_div (f32_of_int 1)
                      (f32_of_int (quant_step_from_quality quality)))) x
    = true ->
  (-2147483546 <= quality <= 2147483647 ->
   quant_step_from_quality quality = clamp (101 - quality) 1 100) /\
  (-2147483648 <= quality < -2147483546 ->
   quant_step_from_quality quality = 1) /\
  exists q16,
    quantize x B quality = OK q16 /\
    Forall2 (fun c q => exists r,
               round_half_away
                 (f32_mul c (f32_div (f32_of_int 1)
                    (f32_of_int (quant_step_from_quality quality)))) = Some r /\
               q = clamp r (-32768) 32767) x q16 /\
    dequantize q16 B quality =
      OK (map (fun q => f32_of_int (q * quant_step_from_quality quality)) q16) /\
    Forall (fun q =>
              represents (f32_of_int (q * quant_step_from_quality quality))
                         (q * quant_step_from_quality quality)) q16.
Proof.
  intros HB Hlen Hconv. split; [apply quant_step_clamp|].
  split; [apply quant_step_wrapped|].
  destruct (quantize_loop_spec _ _ Hconv) as (q16 & Hq & Hrel).
  assert (HB' : negb (B =? 8) && negb (B =? 16) = false).
  { destruct HB as [-> | ->]; done. }
  assert (Hrange : Forall (fun q => -32768 <= q <= 32767) q16).
  { clear -Hrel. induction Hrel as [|c q x' q16' Hcq _ IH]; [constructor|].
    destruct Hcq as (r & _ & ->). constructor; [unfold clamp; lia | done]. }
  exists q16. split; [|split; [done|split]].
  - unfold quantize. rewrite HB'.
    rewrite Z.rem_mod_nonneg by (pose proof (zlen_nonneg x); lia).
    rewrite Hlen. done.
  - apply dequantize_spec; [done| |done].
    apply Forall2_length in Hrel. unfold zlen in *. by rewrite <- Hrel.
  - eapply Forall_impl; [exact Hrange|]. intros q Hq'. cbv beta in *.
    pose proof (quant_step_range quality). apply represents_int. nia.
Qed.

Lemma quantizer_contract_witness :
  (8 = 8 \/ 8 = 16) /\
  zlen half_steps_block mod (8 * 8) = 0 /\
  forallb (int_convertible
             (f32_div (f32_of_int 1)
                      (f32_of_int (quant_step_from_quality 98))))
          half_steps_block = true /\
  quant_step_from_quality 98 = clamp (101 - 98) 1 100 /\
  exists q16,
    quantize half_steps_block 8 98 = OK q16 /\
    dequantize q16 8 98 = OK (map (fun q => f32_of_int (q * 3)) q16).
Proof.
  assert (H1 : 8 = 8 \/ 8 = 16) by (left; reflexivity).
  assert (H2 : zlen half_steps_block mod (8 * 8) = 0) by reflexivity.
  assert (H3 : forallb (int_convertible
                          (f32_div (f32_of_int 1)
                             (f32_of_int (quant_step_from_quality 98))))
                       half_steps_block = true) by (vm_compute; reflexivity).
  split; [exact H1|]. split; [exact H2|]. split; [exact H3|].
  destruct (quantizer_contract half_steps_block 8 98 H1 H2 H3)
    as (Hstep & _ & q16 & Hq & _ & Hd & _).
  split; [apply Hstep; lia|].
  exists q16. split; [exact Hq | exact Hd].
Defined.

(** C4, the claim as stated fails: at quality 60 the step is 41 and the
    coefficient 20.5 is quantised to 0, while [round(20.5 / 41)] is 1. *)
Lemma quantize_not_rounded_quotient :
  quant_step_from_quality 60 = 41 /\
  represents (f32_mul coeff_20_5 (f32_of_int 2)) 41 /\
  quantize block_20_5 8 60 = OK (0 :: replicate 63 0) /\
  spec_quantize block_20_5 60 = Some 1 :: replicate 63 (Some 0) /\
  round_half_away (f32_div coeff_20_5 (f32_of_int 41)) = Some 1.
Proof. repeat split; vm_compute; reflexivity. Qed.

End QuantiserContract.

(** * The container and the codec *)

Section CodecClaims.
Import Img Rle Huffman Bitstream Block Quant Dct Codec CodecSpec Cos8.

Variable fcos : spec_float -> spec_float.

(** C6, what the code does: whatever the signedness of the input image,
    the byte at offset 22 of a buffer returned by the encoder is 1: the
    header is written from the working copy after the level shift. *)
Theorem header_signed_byte (im : Image) (quality : Z) (bytes : list Z) :
  encode_to_mcodec fcos im quality = OK bytes ->
  bytes !! 22%nat = Some 1.
Proof. apply encode_byte_22. Qed.

(** C10: when the decoder succeeds on a buffer whose flag bit 0 is set,
    the image it returns is unsigned and every sample lies in
    [0, 2^bits_stored - 1]. *)
Theorem decoded_samples_in_range (bytes : list Z) (im : Image) :
  decode_from_mcodec fcos bytes = OK im ->
  Z.land (byte_at bytes 23) 1 <> 0 ->
  is_signed im = false /\
  Forall (fun v => 0 <= v <= 2 ^ bits_stored im - 1) (pixels im).
Proof.
  intros H Hflag.
  destruct (decode_shifted fcos bytes im H Hflag) as (Hs & _ & Hpx). done.
Qed.

End CodecClaims.

Section CodecWitnesses.
Import Img Rle Huffman Bitstream Block Quant Dct Codec CodecSpec Cos8.

Lemma header_signed_byte_witness :
  is_signed ramp_image = false /\
  encode_to_mcodec cos8 ramp_image 100 = OK ramp_container /\
  ramp_container !! 22%nat = Some 1.
Proof.
  assert (H : encode_to_mcodec cos8 ramp_image 100 = OK ramp_container)
    by (vm_compute; reflexivity).
  split; [reflexivity|]. split; [exact H|].
  exact (header_signed_byte cos8 ramp_image 100 ramp_container H).
Defined.

Lemma decoded_samples_in_range_witness :
  decode_from_mcodec cos8 ramp_container = OK decoded_ramp /\
  Z.land (byte_at ramp_container 23) 1 <> 0 /\
  is_signed decoded_ramp = false /\
  Forall (fun v => 0 <= v <= 2 ^ bits_stored decoded_ramp - 1)
         (pixels decoded_ramp).
Proof.
  assert (H1 : decode_from_mcodec cos8 ramp_container = OK decoded_ramp)
    by (vm_compute; reflexivity).
  assert (H2 : Z.land (byte_at ramp_container 23) 1 <> 0)
    by (vm_compute; lia).
  split; [exact H1|]. split; [exact H2|].
  exact (decoded_samples_in_range cos8 ramp_container decoded_ramp H1 H2).
Defined.

End CodecWitnesses.

(** * Zero run-length coding: symbols, shape of the output, decoder *)

Section RleMore.
Import Rle Samples.

Lemma pack_value a b :
  0 <= a -> 0 <= b < 65536 ->
  Z.lor (Z.shiftl a 16) b = a * 65536 + b.
Proof.
  intros Ha Hb.
  assert (Hland : Z.land (Z.shiftl a 16) b = 0).
  { apply Z.bits_inj'. intros n Hn. rewrite Z.land_spec, Z.bits_0.
    destruct (Z.lt_ge_cases n 16).
    - by rewrite Z.shiftl_spec_low by lia.
    - rewrite (Z.bits_above_log2 b n); [apply andb_false_r | lia |].
      destruct (Z.eq_dec b 0) as [-> | Hb0]; [simpl; lia|].
      assert (Z.log2 b < 16) by (apply Z.log2_lt_pow2; lia). lia. }
  rewrite <- Z.lxor_lor, <- Z.add_nocarry_lxor by done.
  rewrite Z.shiftl_mul_pow2 by lia. lia.
Qed.

Lemma i16_u16 v : -32768 <= v <= 32767 -> i16 (u16 v) = v.
Proof.
  intros Hv. unfold i16, u16. rewrite Z.mod_mod by lia.
  destruct (Z.lt_ge_cases v 0).
  - replace (v mod 65536) with (v + 65536).
    + destruct (Z.ltb_spec (v + 65536) 32768); lia.
    + apply (Z.mod_unique _ _ (-1)); lia.
  - rewrite Z.mod_small by lia. destruct (Z.ltb_spec v 32768); lia.
Qed.

Lemma unpack_pack_pairs (pairs : list RlePair) :
  Forall (fun p => -32768 <= value p <= 32767 /\ 0 <= run p <= 65535) pairs ->
  unpack_rle_symbols (pack_rle_symbols pairs) = pairs.
Proof.
  intros Hall. unfold unpack_rle_symbols, pack_rle_symbols.
  rewrite map_map. rewrite <- (map_id pairs) at 2.
  apply map_ext_Forall. eapply Forall_impl; [exact Hall|].
  intros [v r] [Hv Hr]. cbn [value run] in *.
  assert (Hb : 0 <= u16 v < 65536) by (apply Z.mod_pos_bound; lia).
  rewrite (u16_small r) by lia. rewrite pack_value by lia.
  change 65535 with (Z.ones 16). rewrite Z.land_ones by lia.
  rewrite Z.shiftr_div_pow2 by lia. change (2 ^ 16) with 65536.
  f_equal.
  - rewrite Z.add_comm, Z_mod_plus_full.
    rewrite (Z.mod_small (u16 v)) by lia. exact (i16_u16 v Hv).
  - rewrite Z.add_comm, Z_div_plus_full by lia.
    rewrite (Z.div_small (u16 v)) by lia. apply u16_small. lia.
Qed.

(** Unpacking the symbol of a pair gives the pair back. *)
Theorem unpack_pack_rle_symbols (pairs : list RlePair) :
  Forall (fun p => -32768 <= value p <= 32767 /\ 0 <= run p <= 65535) pairs ->
  unpack_rle_symbols (pack_rle_symbols pairs) = pairs.
Proof. exact (unpack_pack_pairs pairs). Qed.

Lemma unpack_pack_rle_symbols_witness :
  Forall (fun p => -32768 <= value p <= 32767 /\ 0 <= run p <= 65535)
         sample_pairs /\
  unpack_rle_symbols (pack_rle_symbols sample_pairs) = sample_pairs.
Proof.
  assert (H : Forall (fun p => -32768 <= value p <= 32767 /\
                               0 <= run p <= 65535) sample_pairs).
  { unfold sample_pairs. repeat constructor; simpl; lia. }
  split; [exact H|]. exact (unpack_pack_rle_symbols sample_pairs H).
Defined.

(** The walk over the AC coefficients of a block: with [M] bounding the
    pending run plus the coefficients left, no pushed pair has a run above
    [M - 1], and there are no more pairs (counting the trailing one) than
    coefficients. *)
Lemma rle_ac_loop_shape M ac : forall run0 out,
  0 <= run0 -> run0 + zlen ac <= M -> M <= 65535 ->
  Forall (fun p => 0 <= run p <= M - 1) out ->
  Forall (fun p => 0 <= run p <= M - 1) (rle_ac_loop ac run0 out).1 /\
  0 <= (rle_ac_loop ac run0 out).2 <= M /\
  (length (rle_ac_loop ac run0 out).1 +
   (if (0 <? (rle_ac_loop ac run0 out).2)%Z then 1 else 0)
   <= length out + length ac + (if (0 <? run0)%Z then 1 else 0))%nat.
Proof.
  induction ac as [|v ac IH]; intros run0 out Hr HM HM' Hout.
  - cbn [rle_ac_loop fst snd]. unfold zlen in HM. simpl in HM.
    split; [done|]. split; [lia|]. simpl. lia.
  - cbn [rle_ac_loop]. unfold zlen in *. cbn [length] in *.
    destruct (Z.eqb_spec v 0) as [->|Hv].
    + destruct (Z.eqb_spec run0 65535) as [E|_]; [lia|].
      rewrite u16_small by lia.
      destruct (IH (run0 + 1) out) as (H1 & H2 & H3); [lia | lia | lia | done |].
      split; [done|]. split; [done|].
      destruct (Z.ltb_spec 0 (run0 + 1)); [|lia].
      destruct (0 <? run0); lia.
    + destruct (IH 0 (out ++ [mkPair v run0])) as (H1 & H2 & H3);
        [lia | lia | lia | |].
      { apply Forall_app. split; [done|]. constructor; [simpl; lia|constructor]. }
      split; [done|]. split; [done|].
      rewrite length_app in H3. simpl in H3.
      destruct (0 <? run0); lia.
Qed.

Lemma rle_block_shape M dc ac out :
  1 <= M <= 65535 -> zlen ac <= M ->
  Forall (fun p => 0 <= run p <= M - 1) out ->
  Forall (fun p => 0 <= run p <= M - 1) (rle_block dc ac out) /\
  (length (rle_block dc ac out) <= length out + S (length ac))%nat.
Proof.
  intros HM Hac Hout. unfold rle_block.
  destruct (rle_ac_loop_shape M ac 0 (out ++ [mkPair dc 0]))
    as (H1 & H2 & H3); [lia | lia | lia | |].
  { apply Forall_app. split; [done|]. constructor; [simpl; lia|constructor]. }
  destruct (rle_ac_loop ac 0 (out ++ [mkPair dc 0])) as [out1 run'].
  cbn [fst snd] in *. rewrite length_app in H3. simpl in H3.
  destruct (Z.ltb_spec 0 run').
  - split.
    + apply Forall_app. split; [done|]. constructor; [|constructor].
      simpl. rewrite u16_small by lia. lia.
    + rewrite length_app. simpl. lia.
  - split; [done|lia].
Qed.

Lemma rle_blocks_shape (n : nat) : (2 <= n)%nat -> Z.of_nat n <= 65536 ->
  forall fuel seq out,
  Forall (fun p => 0 <= run p <= Z.of_nat n - 2) out ->
  Forall (fun p => 0 <= run p <= Z.of_nat n - 2) (rle_blocks fuel n seq out) /\
  (length (rle_blocks fuel n seq out) <= length out + length seq)%nat.
Proof.
  intros Hn Hn'. induction fuel as [|fuel IH]; intros seq out Hout.
  - simpl. split; [done|lia].
  - cbn [rle_blocks]. destruct seq as [|dc rest]; [split; [done|lia]|].
    destruct (rle_block_shape (Z.of_nat n - 1) dc (take (n - 1) rest) out)
      as [Hb1 Hb2].
    + lia.
    + unfold zlen. rewrite length_take. lia.
    + eapply Forall_impl; [exact Hout|]. simpl. lia.
    + destruct (IH (drop (n - 1) rest)
                  (rle_block dc (take (n - 1) rest) out)) as [H1 H2].
      { eapply Forall_impl; [exact Hb1|]. simpl. lia. }
      split; [done|].
      rewrite length_drop in H2. rewrite length_take in Hb2.
      simpl. lia.
Qed.

Lemma rle_encode_shape (x : list Z) (B : Z) (rle : list RlePair) :
  rle_encode_zeros x B = OK rle ->
  Forall (fun p => 0 <= run p <= B * B - 2) rle /\ zlen rle <= zlen x.
Proof.
  unfold rle_encode_zeros. intros H.
  destruct (negb (B =? 8) && negb (B =? 16)) eqn:HB; [done|].
  destruct (negb _) in H; [done|]. injection H as <-.
  assert (HB' : B = 8 \/ B = 16).
  { apply andb_false_iff in HB as [HB|HB]; apply negb_false_iff, Z.eqb_eq in HB;
      auto. }
  destruct (rle_blocks_shape (Z.to_nat (B * B)) ltac:(destruct HB'; subst; lia)
              ltac:(destruct HB'; subst; lia) (length x) x [])
    as [H1 H2]; [constructor|].
  split.
  - eapply Forall_impl; [exact H1|]. simpl. intros p Hp.
    rewrite Z2Nat.id in Hp by (destruct HB'; subst; lia). done.
  - unfold zlen. simpl in H2. lia.
Qed.

(** The runs the encoder writes stay below the block size: a pending run
    never comes near [0xFFFF], so the branch that splits a run is never
    taken; and the encoder writes no more pairs than it read coefficients. *)
Theorem rle_encode_zeros_shape (x : list Z) (B : Z) (rle : list RlePair) :
  rle_encode_zeros x B = OK rle ->
  Forall (fun p => 0 <= run p <= B * B - 2) rle /\ zlen rle <= zlen x.
Proof. exact (rle_encode_shape x B rle). Qed.

Lemma rle_encode_zeros_shape_witness :
  rle_encode_zeros self_test_block 8
    = OK [mkPair 5 0; mkPair (-3) 4; mkPair 7 6; mkPair (-1) 50] /\
  Forall (fun p => 0 <= run p <= 8 * 8 - 2)
         [mkPair 5 0; mkPair (-3) 4; mkPair 7 6; mkPair (-1) 50] /\
  zlen [mkPair 5 0; mkPair (-3) 4; mkPair 7 6; mkPair (-1) 50]
    <= zlen self_test_block.
Proof.
  assert (H : rle_encode_zeros self_test_block 8
              = OK [mkPair 5 0; mkPair (-3) 4; mkPair 7 6; mkPair (-1) 50])
    by (vm_compute; reflexivity).
  split; [exact H|]. exact (rle_encode_zeros_shape _ _ _ H).
Defined.

Lemma decode_run_zeros (out : list Z) r :
  (if 0 <? r then out ++ replicate (Z.to_nat r) 0 else out)
  = out ++ replicate (Z.to_nat r) 0.
Proof.
  destruct (Z.ltb_spec 0 r); [done|].
  replace (Z.to_nat r) with 0%nat by lia. simpl. by rewrite app_nil_r.
Qed.

Lemma rle_decode_loop_inv ps : forall total out y,
  rle_decode_loop ps total out = OK y -> y = out ++ expand ps.
Proof.
  induction ps as [|p ps IH]; intros total out y H.
  - simpl in H. injection H as <-. unfold expand. simpl. by rewrite app_nil_r.
  - destruct p as [v r]. cbn [rle_decode_loop] in H. cbv zeta in H.
    cbn [run value] in *. rewrite decode_run_zeros in H.
    destruct (total <? _) in H; [done|]. apply IH in H. rewrite H.
    change (mkPair v r :: ps) with ([mkPair v r] ++ ps).
    rewrite expand_app, expand_single. by rewrite <- !app_assoc.
Qed.

Lemma rle_decode_loop_exceeds ps : forall total out,
  zlen out <= total -> total < zlen (out ++ expand ps) ->
  rle_decode_loop ps total out =
    Err "rle_decode_zeros: output exceeds expected size".
Proof.
  induction ps as [|p ps IH]; intros total out Hout Hlt.
  - unfold expand in Hlt. simpl in Hlt. rewrite app_nil_r in Hlt. lia.
  - destruct p as [v r]. cbn [rle_decode_loop]. cbv zeta. cbn [run value].
    change (mkPair v r :: ps) with ([mkPair v r] ++ ps) in Hlt.
    rewrite expand_app, expand_single, !app_assoc in Hlt.
    rewrite decode_run_zeros.
    destruct (Z.ltb_spec total
                (zlen ((out ++ replicate (Z.to_nat r) 0) ++ [v])));
      [done|].
    apply IH; [done|]. by rewrite <- !app_assoc in *.
Qed.

(** The decoder returns the expansion of the pairs when it has exactly
    [total_coeffs] elements, and fails with the message of the overshoot
    or of the shortfall otherwise. *)
Theorem rle_decode_zeros_cases (rle : list RlePair) (B n : Z) :
  B = 8 \/ B = 16 -> 0 <= n ->
  (zlen (expand rle) = n -> rle_decode_zeros rle B n = OK (expand rle)) /\
  (n < zlen (expand rle) ->
   rle_decode_zeros rle B n =
     Err "rle_decode_zeros: output exceeds expected size") /\
  (zlen (expand rle) < n ->
   rle_decode_zeros rle B n = Err "rle_decode_zeros: output size mismatch").
Proof.
  intros HB Hn. unfold rle_decode_zeros.
  assert (HB' : negb (B =? 8) && negb (B =? 16) = false)
    by (destruct HB; subst; reflexivity).
  rewrite HB'. split; [|split]; intros Hlen.
  - rewrite (rle_decode_loop_expand rle n []) by (simpl; lia).
    simpl. by rewrite Hlen, Z.eqb_refl.
  - rewrite rle_decode_loop_exceeds; [done | unfold zlen; simpl; lia | done].
  - rewrite (rle_decode_loop_expand rle n []) by (simpl; lia).
    simpl. destruct (Z.eqb_spec (zlen (expand rle)) n); [lia|done].
Qed.

Lemma rle_decode_zeros_cases_witness :
  (8 = 8 \/ 8 = 16) /\ 0 <= 64 /\
  rle_decode_zeros sample_pairs 8 64 = OK (expand sample_pairs) /\
  rle_decode_zeros sample_pairs 8 63 =
    Err "rle_decode_zeros: output exceeds expected size" /\
  rle_decode_zeros sample_pairs 8 128 =
    Err "rle_decode_zeros: output size mismatch".
Proof.
  assert (H1 : 8 = 8 \/ 8 = 16) by (left; reflexivity).
  split; [exact H1|]. split; [lia|].
  split; [|split].
  - apply (rle_decode_zeros_cases sample_pairs 8 64 H1); [lia|reflexivity].
  - apply (rle_decode_zeros_cases sample_pairs 8 63 H1); [lia|].
    vm_compute. reflexivity.
  - apply (rle_decode_zeros_cases sample_pairs 8 128 H1); [lia|].
    vm_compute. reflexivity.
Defined.

End RleMore.

(** * Level shift: round trip *)

Section LevelShiftMore.
Import Img Samples.

Lemma shiftl_one n : 0 <= n -> Z.shiftl 1 n = 2 ^ n.
Proof. intros Hn. rewrite Z.shiftl_mul_pow2 by lia. lia. Qed.

Lemma pow2_half n : 1 <= n -> 2 ^ n = 2 * 2 ^ (n - 1).
Proof.
  intros Hn. replace n with (Z.succ (n - 1)) at 1 by lia.
  rewrite Z.pow_succ_r by lia. done.
Qed.

(** An unsigned image whose samples fit [bits_stored] bits is shifted to
    samples in [-2^(B-1), 2^(B-1) - 1], and the inverse shift gives the
    image back. *)
Theorem level_shift_round_trip (img : Image) :
  is_signed img = false ->
  1 <= bits_stored img <= 16 ->
  Forall (fun v => 0 <= v <= 2 ^ bits_stored img - 1) (pixels img) ->
  exists shifted,
    apply_level_shift img = OK shifted /\
    Forall (fun v => - 2 ^ (bits_stored img - 1) <= v
                     <= 2 ^ (bits_stored img - 1) - 1) (pixels shifted) /\
    (pixels img <> [] -> is_signed shifted = true) /\
    inverse_level_shift shifted = OK img.
Proof.
  intros Hs Hbs Hpx. destruct img as [w h c bs ba sg ty px].
  cbn [is_signed bits_stored pixels] in *. subst sg.
  unfold apply_level_shift, empty. cbn [pixels bits_stored is_signed].
  destruct px as [|p px].
  { eexists. split; [done|]. split; [constructor|]. split; done. }
  assert (Hc : (bs <=? 0) || (16 <? bs) = false).
  { apply orb_false_iff. split; [apply Z.leb_gt | apply Z.ltb_ge]; lia. }
  rewrite Hc. eexists. split; [done|].
  unfold set_pixels. cbn [pixels bits_stored is_signed width height channels
                          bits_allocated type].
  rewrite shiftl_one by lia. pose proof (pow2_half bs ltac:(lia)) as Hhalf.
  split; [|split; [done|]].
  - apply List.Forall_map. eapply Forall_impl; [exact Hpx|].
    intros v Hv. cbv beta in *. lia.
  - unfold inverse_level_shift, empty. cbn [pixels bits_stored map].
    rewrite Hc. unfold set_pixels.
    cbn [pixels bits_stored is_signed width height channels bits_allocated
         type].
    f_equal. f_equal. rewrite !shiftl_one by lia.
    apply Forall_cons in Hpx as [Hp Hpx]. f_equal.
    + unfold clamp_i32. lia.
    + rewrite map_map. rewrite <- (map_id px) at 2.
      apply map_ext_Forall. eapply Forall_impl; [exact Hpx|].
      intros v Hv. cbv beta in *. unfold clamp_i32. lia.
Qed.

Lemma level_shift_round_trip_witness :
  is_signed shift_test_image = false /\
  1 <= bits_stored shift_test_image <= 16 /\
  Forall (fun v => 0 <= v <= 2 ^ bits_stored shift_test_image - 1)
         (pixels shift_test_image) /\
  exists shifted,
    apply_level_shift shift_test_image = OK shifted /\
    inverse_level_shift shifted = OK shift_test_image.
Proof.
  assert (H1 : is_signed shift_test_image = false) by reflexivity.
  assert (H2 : 1 <= bits_stored shift_test_image <= 16) by (simpl; lia).
  assert (H3 : Forall (fun v => 0 <= v <= 2 ^ bits_stored shift_test_image - 1)
                      (pixels shift_test_image)).
  { unfold shift_test_image. cbn [pixels bits_stored].
    repeat constructor; lia. }
  split; [exact H1|]. split; [exact H2|]. split; [exact H3|].
  destruct (level_shift_round_trip shift_test_image H1 H2 H3)
    as (shifted & Ha & _ & _ & Hi).
  exists shifted. split; [exact Ha | exact Hi].
Defined.

(** Level shift is applied once: on its own result, which is signed,
    [apply_level_shift] changes nothing. *)
Theorem apply_level_shift_idempotent (img shifted : Image) :
  apply_level_shift img = OK shifted ->
  apply_level_shift shifted = OK shifted.
Proof.
  destruct img as [w h c bs ba sg ty px].
  unfold apply_level_shift at 1. unfold empty.
  cbn [pixels bits_stored is_signed]. intros H.
  destruct px as [|p px].
  { injection H as E. by subst shifted. }
  destruct (_ || _) eqn:Hc; [done|].
  destruct sg.
  - injection H as E. subst shifted. unfold apply_level_shift, empty.
    cbn [pixels bits_stored is_signed]. by rewrite Hc.
  - injection H as E. subst shifted. unfold apply_level_shift, empty, set_pixels.
    cbn [pixels bits_stored is_signed map]. by rewrite Hc.
Qed.

Lemma apply_level_shift_idempotent_witness :
  apply_level_shift shift_test_image
    = OK (mkImage 2 2 1 8 8 true U16 [-128; -118; 72; 127]) /\
  apply_level_shift (mkImage 2 2 1 8 8 true U16 [-128; -118; 72; 127])
    = OK (mkImage 2 2 1 8 8 true U16 [-128; -118; 72; 127]).
Proof.
  assert (H : apply_level_shift shift_test_image
              = OK (mkImage 2 2 1 8 8 true U16 [-128; -118; 72; 127]))
    by reflexivity.
  split; [exact H|]. exact (apply_level_shift_idempotent _ _ H).
Defined.

End LevelShiftMore.

(** * Block grid *)

Section Grid.
Import Block.

(** As long as [width + block_size - 1] and [height + block_size - 1]
    are [int]s, no operation of [make_grid] wraps. *)
Lemma make_grid_value (w h B : Z) :
  B = 8 \/ B = 16 ->
  0 < w -> w + B - 1 <= 2147483647 -> 0 < h -> h + B - 1 <= 2147483647 ->
  make_grid w h B =
    OK (mkGrid B ((w + B - 1) / B) ((h + B - 1) / B)
          ((w + B - 1) / B * B) ((h + B - 1) / B * B)).
Proof.
  intros HB Hw Hwb Hh Hhb. unfold make_grid.
  assert (HB' : negb (B =? 8) && negb (B =? 16) = false)
    by (destruct HB; subst; reflexivity).
  rewrite HB'.
  replace ((w <=? 0) || (h <=? 0)) with false
    by (symmetry; apply orb_false_iff; lia).
  assert (HBpos : 0 < B) by (destruct HB; lia).
  rewrite !(i32_id (_ + B - 1)) by lia.
  rewrite !Z.quot_div_nonneg by lia.
  pose proof (Z.mul_div_le (w + B - 1) B HBpos) as Hdw.
  pose proof (Z.mul_div_le (h + B - 1) B HBpos) as Hdh.
  assert (0 <= (w + B - 1) / B) by (apply Z.div_pos; lia).
  assert (0 <= (h + B - 1) / B) by (apply Z.div_pos; lia).
  rewrite !i32_id by nia. done.
Qed.

(** A width or height for which that sum exceeds [INT_MAX] gives a grid
    with a negative padded size. *)
Lemma padded_wrapped (w B : Z) :
  B = 8 \/ B = 16 -> 0 < w <= 2147483647 -> 2147483647 < w + B - 1 ->
  i32 (Z.quot (i32 (w + B - 1)) B * B) < 0.
Proof.
  intros HB Hw Hover. assert (HBpos : 0 < B) by (destruct HB; lia).
  rewrite (i32_wrap (w + B - 1)) by (destruct HB; lia).
  set (z := w + B - 1 - 4294967296).
  assert (Hz : -2147483648 <= z <= -2147483648 + 14)
    by (unfold z; destruct HB; lia).
  pose proof (Z.quot_rem' z B) as Hqr.
  pose proof (Z.rem_bound_pos_neg z B HBpos ltac:(lia)) as Hr.
  rewrite i32_id by (destruct HB; subst; lia).
  destruct HB; subst; lia.
Qed.

Lemma make_grid_wrapped (w h B : Z) :
  B = 8 \/ B = 16 -> 0 < w <= 2147483647 -> 0 < h <= 2147483647 ->
  2147483647 < w + B - 1 \/ 2147483647 < h + B - 1 ->
  exists g, make_grid w h B = OK g /\ (padded_w g < 0 \/ padded_h g < 0).
Proof.
  intros HB Hw Hh Hover. unfold make_grid.
  assert (HB' : negb (B =? 8) && negb (B =? 16) = false)
    by (destruct HB; subst; reflexivity).
  rewrite HB'.
  replace ((w <=? 0) || (h <=? 0)) with false
    by (symmetry; apply orb_false_iff; lia).
  eexists. split; [done|]. cbn [padded_w padded_h].
  destruct Hover; [left | right]; by apply padded_wrapped.
Qed.

Lemma make_grid_covers_value (w h B : Z) :
  B = 8 \/ B = 16 ->
  0 < w -> w + B - 1 <= 2147483647 -> 0 < h -> h + B - 1 <= 2147483647 ->
  exists g,
    make_grid w h B = OK g /\
    block_size g = B /\
    0 < blocks_x g /\ 0 < blocks_y g /\
    padded_w g = blocks_x g * B /\ padded_h g = blocks_y g * B /\
    w <= padded_w g < w + B /\ h <= padded_h g < h + B.
Proof.
  intros HB Hw Hwb Hh Hhb. rewrite make_grid_value by done.
  eexists. split; [done|]. cbn [block_size blocks_x blocks_y padded_w padded_h].
  assert (HBpos : 0 < B) by (destruct HB; lia).
  pose proof (Z.div_mod (w + B - 1) B ltac:(lia)) as Hdw.
  pose proof (Z.mod_pos_bound (w + B - 1) B HBpos) as Hmw.
  pose proof (Z.div_mod (h + B - 1) B ltac:(lia)) as Hdh.
  pose proof (Z.mod_pos_bound (h + B - 1) B HBpos) as Hmh.
  assert (0 < (w + B - 1) / B) by (apply Z.div_str_pos; lia).
  assert (0 < (h + B - 1) / B) by (apply Z.div_str_pos; lia).
  repeat split; try done; nia.
Qed.

(** The grid of an image whose width and height are positive [int]s.  As
    long as [width + block_size - 1] and [height + block_size - 1] are
    [int]s, the grid is made of whole blocks that cover the image with less
    than one block of padding in each direction.  When one of the two sums
    exceeds [INT_MAX], [make_grid] still returns a grid, and one of its
    padded sizes is negative. *)
Theorem make_grid_covers (w h B : Z) :
  B = 8 \/ B = 16 -> 0 < w <= 2147483647 -> 0 < h <= 2147483647 ->
  (w + B - 1 <= 2147483647 -> h + B - 1 <= 2147483647 ->
   exists g,
     make_grid w h B = OK g /\
     block_size g = B /\
     0 < blocks_x g /\ 0 < blocks_y g /\
     padded_w g = blocks_x g * B /\ padded_h g = blocks_y g * B /\
     w <= padded_w g < w + B /\ h <= padded_h g < h + B) /\
  (2147483647 < w + B - 1 \/ 2147483647 < h + B - 1 ->
   exists g, make_grid w h B = OK g /\ (padded_w g < 0 \/ padded_h g < 0)).
Proof.
  intros HB Hw Hh. split.
  - intros Hwb Hhb. apply make_grid_covers_value; (done || lia).
  - by apply make_grid_wrapped.
Qed.

Lemma make_grid_covers_witness :
  (8 = 8 \/ 8 = 16) /\ 0 < 13 <= 2147483647 /\ 0 < 6 <= 2147483647 /\
  13 + 8 - 1 <= 2147483647 /\ 6 + 8 - 1 <= 2147483647 /\
  make_grid 13 6 8 = OK (mkGrid 8 2 1 16 8) /\
  make_grid 2147483647 1 8 = OK (mkGrid 8 (-268435455) 1 (-2147483640) 8).
Proof.
  assert (H1 : 8 = 8 \/ 8 = 16) by (left; reflexivity).
  assert (H2 : 0 < 13 <= 2147483647) by lia.
  assert (H3 : 0 < 6 <= 2147483647) by lia.
  assert (H4 : 13 + 8 - 1 <= 2147483647) by lia.
  assert (H5 : 6 + 8 - 1 <= 2147483647) by lia.
  split; [exact H1|]. split; [exact H2|]. split; [exact H3|].
  split; [exact H4|]. split; [exact H5|].
  destruct (make_grid_covers 13 6 8 H1 H2 H3) as [Hin _].
  destruct (Hin H4 H5) as (g & Hg & _).
  split; [|reflexivity].
  rewrite Hg. f_equal. vm_compute in Hg. by injection Hg as <-.
Defined.

End Grid.

(** * Loops that fill a vector by index *)

Section IndexLoops.
Context {A B : Type}.

Lemma foldl_insert_other (f : B -> nat) (g : B -> A) xs :
  forall (px : list A) k,
  k ∉ map f xs ->
  foldl (fun px x => <[f x := g x]> px) px xs !! k = px !! k.
Proof.
  induction xs as [|x xs IH]; intros px k Hk; [done|].
  cbn [foldl]. cbn [map] in Hk. apply not_elem_of_cons in Hk as [Hne Hk].
  rewrite IH by done. by apply list_lookup_insert_ne.
Qed.

Lemma foldl_insert_at (f : B -> nat) (g : B -> A) xs :
  forall (px : list A) x,
  NoDup (map f xs) -> x ∈ xs -> (f x < length px)%nat ->
  foldl (fun px x => <[f x := g x]> px) px xs !! f x = Some (g x).
Proof.
  induction xs as [|x0 xs IH]; intros px x Hnd Hx Hlen.
  - by apply elem_of_nil in Hx.
  - cbn [foldl]. cbn [map] in Hnd. apply NoDup_cons in Hnd as [Hnot Hnd].
    apply elem_of_cons in Hx as [->|Hx].
    + rewrite foldl_insert_other by done. by apply list_lookup_insert_eq.
    + apply IH; [done | done | by rewrite length_insert].
Qed.

End IndexLoops.

Lemma foldl_rows {A Y X} (F : A -> Y * X -> A) (xs : list X) (ys : list Y) :
  forall a,
  foldl (fun a y => foldl (fun a x => F a (y, x)) a xs) a ys
  = foldl F a (list_prod ys xs).
Proof.
  induction ys as [|y ys IH]; intros a; [done|].
  cbn [foldl list_prod]. rewrite foldl_app, IH. f_equal.
  change (map (fun y0 : X => (y, y0)) xs) with ((fun y0 => (y, y0)) <$> xs).
  by rewrite foldl_fmap.
Qed.

Lemma NoDup_list_prod {Y X} (ys : list Y) (xs : list X) :
  NoDup ys -> NoDup xs -> NoDup (list_prod ys xs).
Proof.
  intros Hys Hxs. induction Hys as [|y ys Hy Hys IH]; [constructor|].
  cbn [list_prod]. apply NoDup_app. split; [|split; [|done]].
  - apply (NoDup_fmap_2_strong (fun x => (y, x))); [|done].
    intros a b _ _ E. by injection E.
  - intros [y' x'] H1 H2. apply list_elem_of_fmap in H1 as (x0 & E & _).
    injection E as -> ->. apply list_elem_of_In, in_prod_iff in H2 as [H2 _].
    by apply list_elem_of_In in H2.
Qed.

(** The two nested loops over the rows [0 .. H) and the columns [0 .. W)
    that write [val y x] at index [y * S + x], with a stride [S >= W]. *)
Lemma grid_fill_lookup {A} (val : Z -> Z -> A) (S W H : Z) (px0 : list A) :
  0 <= W <= S -> 0 <= H ->
  let res :=
    foldl (fun px y =>
             foldl (fun px x => <[Z.to_nat (y * S + x) := val y x]> px)
                   px (seqZ 0 W))
          px0 (seqZ 0 H) in
  length res = length px0 /\
  (forall y x, 0 <= y < H -> 0 <= x < W ->
     (Z.to_nat (y * S + x) < length px0)%nat ->
     res !! Z.to_nat (y * S + x) = Some (val y x)) /\
  (forall k, (forall y x, 0 <= y < H -> 0 <= x < W ->
                k <> Z.to_nat (y * S + x)) ->
     res !! k = px0 !! k).
Proof.
  intros HW HH res.
  set (f := fun yx : Z * Z => Z.to_nat (yx.1 * S + yx.2)).
  set (g := fun yx : Z * Z => val yx.1 yx.2).
  assert (Hres : res = foldl (fun px yx => <[f yx := g yx]> px) px0
                             (list_prod (seqZ 0 H) (seqZ 0 W))).
  { unfold res. by rewrite <- foldl_rows. }
  assert (Hin : forall y x, (y, x) ∈ list_prod (seqZ 0 H) (seqZ 0 W)
                            <-> 0 <= y < H /\ 0 <= x < W).
  { intros y x. rewrite list_elem_of_In, in_prod_iff, <- !list_elem_of_In.
    rewrite !elem_of_seqZ, !Z.add_0_l. done. }
  assert (Hnd : NoDup (map f (list_prod (seqZ 0 H) (seqZ 0 W)))).
  { apply NoDup_fmap_2_strong.
    - intros [y1 x1] [y2 x2] H1 H2 E. apply Hin in H1, H2. unfold f in E.
      cbn [fst snd] in E.
      assert (0 <= y1 * S) by (apply Z.mul_nonneg_nonneg; lia).
      assert (0 <= y2 * S) by (apply Z.mul_nonneg_nonneg; lia).
      assert (y1 * S + x1 = y2 * S + x2) by lia.
      assert (y1 = y2) by nia. subst. f_equal. lia.
    - apply NoDup_list_prod; apply NoDup_seqZ. }
  split; [|split].
  - rewrite Hres. apply foldl_insert_length.
  - intros y x Hy Hx Hlen. rewrite Hres.
    apply (foldl_insert_at f g _ px0 (y, x)); [done | apply Hin; lia | done].
  - intros k Hk. rewrite Hres. apply foldl_insert_other.
    intros Hel. apply list_elem_of_fmap in Hel as ([y x] & -> & Hyx).
    apply Hin in Hyx as [Hy Hx]. by apply (Hk y x Hy Hx).
Qed.

(** * Tiling *)

Section Tiling.
Import Img Block Samples.

Lemma make_grid_inv w h B g :
  make_grid w h B = OK g ->
  w + B - 1 <= 2147483647 -> h + B - 1 <= 2147483647 ->
  (B = 8 \/ B = 16) /\ 0 < w /\ 0 < h /\ block_size g = B /\
  0 < blocks_x g /\ 0 < blocks_y g /\
  padded_w g = blocks_x g * B /\ padded_h g = blocks_y g * B /\
  w <= padded_w g < w + B /\ h <= padded_h g < h + B.
Proof.
  intros Hg Hwb Hhb.
  assert (Hpre : (B = 8 \/ B = 16) /\ 0 < w /\ 0 < h).
  { unfold make_grid in Hg.
    destruct (negb (B =? 8) && negb (B =? 16)) eqn:HB; [done|].
    destruct ((w <=? 0) || (h <=? 0)) eqn:Hwh; [done|].
    apply orb_false_iff in Hwh as [Hw Hh]. apply Z.leb_gt in Hw, Hh.
    split; [|done].
    apply andb_false_iff in HB as [HB|HB];
      apply negb_false_iff, Z.eqb_eq in HB; auto. }
  destruct Hpre as (HB & Hw & Hh).
  destruct (make_grid_covers_value w h B HB Hw Hwb Hh Hhb) as (g' & Hg' & H).
  rewrite Hg in Hg'. injection Hg' as <-. tauto.
Qed.

Lemma at_lookup (v : list Z) (i : Z) x :
  v !! Z.to_nat i = Some x -> at_ v i = x.
Proof. unfold at_. by intros ->. Qed.

(** What [tile_to_blocks] returns, sample by sample. *)
Lemma tile_to_blocks_spec img g :
  channels img = 1 -> 0 < width img -> 0 < height img ->
  zlen (pixels img) = width img * height img ->
  width img <= padded_w g -> height img <= padded_h g ->
  exists padded,
    tile_to_blocks img g = OK padded /\
    zlen padded = padded_w g * padded_h g /\
    forall x y, 0 <= x < padded_w g -> 0 <= y < padded_h g ->
      at_ padded (y * padded_w g + x) =
        if (x <? width img) && (y <? height img)
        then at_ (pixels img) (y * width img + x) else 0.
Proof.
  intros Hc Hw Hh Hpx HPW HPH. unfold tile_to_blocks.
  rewrite Hc. cbn [Z.eqb negb].
  replace ((width img <=? 0) || (height img <=? 0)) with false
    by (symmetry; apply orb_false_iff; lia).
  rewrite Hpx, Z.eqb_refl. cbn [negb].
  replace ((padded_w g <=? 0) || (padded_h g <=? 0)) with false
    by (symmetry; apply orb_false_iff; lia).
  eexists. split; [reflexivity|].
  destruct (grid_fill_lookup
              (fun y x => at_ (pixels img) (y * width img + x))
              (padded_w g) (width img) (height img)
              (replicate (Z.to_nat (padded_w g * padded_h g)) 0))
    as (Hlen & Hin & Hout); [lia | lia |].
  rewrite length_replicate in Hlen, Hin.
  split.
  - unfold zlen. rewrite Hlen. nia.
  - intros x y Hx Hy.
    assert (Hk : (Z.to_nat (y * padded_w g + x)
                  < Z.to_nat (padded_w g * padded_h g))%nat) by nia.
    destruct (Z.ltb_spec x (width img)) as [Hxw|Hxw];
      [destruct (Z.ltb_spec y (height img)) as [Hyh|Hyh]|]; cbn [andb].
    + apply at_lookup. apply Hin; [lia | lia | done].
    + apply at_lookup. rewrite Hout.
      * by apply lookup_replicate_2.
      * intros y' x' Hy' Hx'. nia.
    + apply at_lookup. rewrite Hout.
      * by apply lookup_replicate_2.
      * intros y' x' Hy' Hx' E.
        assert (y * padded_w g + x = y' * padded_w g + x') by nia.
        assert (y = y') by nia. subst. lia.
Qed.

(** Tiling writes the samples row by row into a zero-filled buffer of
    [padded_w * padded_h] samples: the sample at column [x] and row [y] of
    the padded buffer is the pixel at [(x, y)], or 0 outside the image. *)
Theorem tile_to_blocks_layout (img : Image) (B : Z) (g : BlockGrid) :
  channels img = 1 ->
  zlen (pixels img) = width img * height img ->
  width img + B - 1 <= 2147483647 -> height img + B - 1 <= 2147483647 ->
  make_grid (width img) (height img) B = OK g ->
  exists padded,
    tile_to_blocks img g = OK padded /\
    zlen padded = padded_w g * padded_h g /\
    forall x y, 0 <= x < padded_w g -> 0 <= y < padded_h g ->
      at_ padded (y * padded_w g + x) =
        if (x <? width img) && (y <? height img)
        then at_ (pixels img) (y * width img + x) else 0.
Proof.
  intros Hc Hpx Hwb Hhb Hg.
  apply make_grid_inv in Hg as (_ & Hw & Hh & _ & _ & _ & _ & _ & HPW & HPH);
    [|done|done].
  apply tile_to_blocks_spec; (done || lia).
Qed.

(** Untiling the tiled samples gives the pixels back. *)
Lemma untile_tile img img' B g padded :
  channels img = 1 ->
  zlen (pixels img) = width img * height img ->
  width img + B - 1 <= 2147483647 -> height img + B - 1 <= 2147483647 ->
  make_grid (width img) (height img) B = OK g ->
  tile_to_blocks img g = OK padded ->
  channels img' = 1 -> width img' = width img -> height img' = height img ->
  untile_from_blocks img' g padded
    = OK (set_pixels img' (pixels img) (is_signed img')).
Proof.
  intros Hc Hpx Hwb Hhb Hg Ht Hc' Hw' Hh'.
  apply make_grid_inv in Hg as (_ & Hw & Hh & _ & _ & _ & _ & _ & HPW & HPH);
    [|done|done].
  destruct (tile_to_blocks_spec img g) as (padded0 & Ht0 & Hlen & Hat);
    try (done || lia).
  rewrite Ht in Ht0. injection Ht0 as <-.
  unfold untile_from_blocks. rewrite Hc', Hw', Hh'. cbn [Z.eqb negb].
  replace ((width img <=? 0) || (height img <=? 0)) with false
    by (symmetry; apply orb_false_iff; lia).
  rewrite Hlen, Z.eqb_refl. cbn [negb]. f_equal. f_equal.
  set (n := Z.to_nat (width img * height img)).
  set (px0 := take n (pixels img') ++ replicate (n - length (pixels img')) 0).
  assert (Hlen0 : length px0 = n).
  { unfold px0. rewrite length_app, length_take, length_replicate. lia. }
  destruct (grid_fill_lookup
              (fun y x => at_ padded (y * padded_w g + x))
              (width img) (width img) (height img) px0)
    as (Hrl & Hin & _); [lia | lia |].
  rewrite Hlen0 in Hrl, Hin.
  apply list_eq. intros k.
  destruct (Nat.lt_ge_cases k n) as [Hk|Hk].
  - set (y := Z.of_nat k / width img). set (x := Z.of_nat k mod width img).
    pose proof (Z.div_mod (Z.of_nat k) (width img) ltac:(lia)) as Hdm.
    pose proof (Z.mod_pos_bound (Z.of_nat k) (width img) Hw) as Hm.
    fold y x in Hdm, Hm.
    assert (Hy : 0 <= y < height img).
    { split; [apply Z.div_pos; lia|]. apply Z.div_lt_upper_bound; [lia|].
      unfold n in Hk. nia. }
    assert (Ek : k = Z.to_nat (y * width img + x)) by lia.
    rewrite Ek at 1. rewrite Hin by (lia || nia).
    rewrite Hat by lia.
    destruct (Z.ltb_spec x (width img)); [|lia].
    destruct (Z.ltb_spec y (height img)); [|lia]. cbn [andb].
    unfold at_. rewrite <- Ek.
    destruct (pixels img !! k) as [v|] eqn:Hv; [done|].
    apply lookup_ge_None in Hv. unfold zlen, n in *. nia.
  - rewrite (lookup_ge_None_2 (pixels img)) by (unfold zlen, n in *; lia).
    apply lookup_ge_None_2. rewrite Hrl. lia.
Qed.

End Tiling.

Section TilingRoundTrip.
Import Img Block Samples.

(** Tiling an image and untiling the padded buffer into an image of the
    same size gives the image back, for both block sizes, as long as
    [width + B - 1] and [height + B - 1] are [int]s. *)
Theorem tile_untile_round_trip (img : Image) (B : Z) :
  B = 8 \/ B = 16 ->
  channels img = 1 -> 0 < width img -> 0 < height img ->
  width img + B - 1 <= 2147483647 -> height img + B - 1 <= 2147483647 ->
  zlen (pixels img) = width img * height img ->
  exists g padded,
    make_grid (width img) (height img) B = OK g /\
    tile_to_blocks img g = OK padded /\
    untile_from_blocks (set_pixels img [] (is_signed img)) g padded = OK img.
Proof.
  intros HB Hc Hw Hh Hwb Hhb Hpx.
  destruct (make_grid_covers_value (width img) (height img) B HB Hw Hwb Hh Hhb)
    as (g & Hg & _).
  pose proof (make_grid_inv _ _ _ _ Hg Hwb Hhb)
    as (_ & _ & _ & _ & _ & _ & _ & _ & HPW & HPH).
  destruct (tile_to_blocks_spec img g) as (padded & Ht & _); try (done || lia).
  exists g, padded. split; [done|]. split; [done|].
  rewrite (untile_tile img _ B g padded) by done.
  f_equal. by destruct img.
Qed.

Lemma tile_untile_round_trip_witness :
  (8 = 8 \/ 8 = 16) /\ channels small_image = 1 /\
  0 < width small_image /\ 0 < height small_image /\
  width small_image + 8 - 1 <= 2147483647 /\
  height small_image + 8 - 1 <= 2147483647 /\
  zlen (pixels small_image) = width small_image * height small_image /\
  exists g padded,
    tile_to_blocks small_image g = OK padded /\
    untile_from_blocks (set_pixels small_image [] false) g padded
      = OK small_image.
Proof.
  assert (H1 : 8 = 8 \/ 8 = 16) by (left; reflexivity).
  assert (H2 : channels small_image = 1) by reflexivity.
  assert (H3 : 0 < width small_image) by (simpl; lia).
  assert (H4 : 0 < height small_image) by (simpl; lia).
  assert (H5 : zlen (pixels small_image)
               = width small_image * height small_image) by reflexivity.
  assert (H6 : width small_image + 8 - 1 <= 2147483647) by (simpl; lia).
  assert (H7 : height small_image + 8 - 1 <= 2147483647) by (simpl; lia).
  split; [exact H1|]. split; [exact H2|]. split; [exact H3|].
  split; [exact H4|]. split; [exact H6|]. split; [exact H7|].
  split; [exact H5|].
  destruct (tile_untile_round_trip small_image 8 H1 H2 H3 H4 H6 H7 H5)
    as (g & padded & _ & Ht & Hu).
  exists g, padded. split; [exact Ht | exact Hu].
Defined.

Lemma tile_to_blocks_layout_witness :
  channels small_image = 1 /\
  zlen (pixels small_image) = width small_image * height small_image /\
  width small_image + 8 - 1 <= 2147483647 /\
  height small_image + 8 - 1 <= 2147483647 /\
  make_grid (width small_image) (height small_image) 8 = OK (mkGrid 8 1 1 8 8) /\
  exists padded,
    tile_to_blocks small_image (mkGrid 8 1 1 8 8) = OK padded /\
    zlen padded = 8 * 8.
Proof.
  assert (H1 : channels small_image = 1) by reflexivity.
  assert (H2 : zlen (pixels small_image)
               = width small_image * height small_image) by reflexivity.
  assert (H3 : make_grid (width small_image) (height small_image) 8
               = OK (mkGrid 8 1 1 8 8)) by reflexivity.
  assert (H6 : width small_image + 8 - 1 <= 2147483647) by (simpl; lia).
  assert (H7 : height small_image + 8 - 1 <= 2147483647) by (simpl; lia).
  split; [exact H1|]. split; [exact H2|]. split; [exact H6|].
  split; [exact H7|]. split; [exact H3|].
  destruct (tile_to_blocks_layout small_image 8 _ H1 H2 H6 H7 H3)
    as (padded & Ht & Hl & _).
  exists padded. split; [exact Ht | exact Hl].
Defined.

End TilingRoundTrip.

(** * The zigzag order of a block of any size *)

Section ZigzagOrder.
Import Block.

Lemma elem_of_concat_map {A B} (f : A -> list B) (l : list A) (b : B) :
  b ∈ concat (map f l) <-> exists a, a ∈ l /\ b ∈ f a.
Proof.
  induction l as [|a l IH]; cbn [map concat].
  - split; [intros H; by apply elem_of_nil in H|].
    intros (a & Ha & _). by apply elem_of_nil in Ha.
  - rewrite elem_of_app, IH. split.
    + intros [Hb|(a' & Ha' & Hb)].
      * exists a. split; [apply elem_of_cons; by left | done].
      * exists a'. split; [apply elem_of_cons; by right | done].
    + intros (a' & Ha' & Hb). apply elem_of_cons in Ha' as [->|Ha'].
      * by left.
      * right. by exists a'.
Qed.

(** Lists produced for distinct keys, every element of which tells its
    key, have no element in common. *)
Lemma NoDup_concat_keyed {K B} (key : B -> K) (f : K -> list B) (l : list K) :
  NoDup l ->
  (forall k e, k ∈ l -> e ∈ f k -> key e = k) ->
  (forall k, k ∈ l -> NoDup (f k)) ->
  NoDup (concat (map f l)).
Proof.
  induction 1 as [|k l Hk Hnd IH]; intros Hkey Hf; [constructor|].
  cbn [map concat]. apply NoDup_app. split; [|split].
  - apply Hf. apply elem_of_cons. by left.
  - intros e He Hin. apply elem_of_concat_map in Hin as (k' & Hk' & He').
    assert (key e = k) by (apply Hkey; [apply elem_of_cons; by left | done]).
    assert (key e = k')
      by (apply Hkey; [apply elem_of_cons; by right | done]).
    apply Hk. congruence.
  - apply IH.
    + intros k' e Hk' He. apply Hkey; [apply elem_of_cons; by right | done].
    + intros k' Hk'. apply Hf. apply elem_of_cons. by right.
Qed.

Lemma cell_index N x y :
  0 <= x < N -> (y * N + x) mod N = x /\ (y * N + x) / N = y.
Proof.
  intros Hx. split.
  - rewrite Z.add_comm, Z_mod_plus_full. apply Z.mod_small. lia.
  - rewrite Z.add_comm, Z_div_plus_full by lia.
    rewrite Z.div_small by lia. lia.
Qed.

(** One anti-diagonal, walked by increasing column or by increasing row. *)
Lemma diag_by_column N s i :
  i ∈ concat (map (fun x => let y := s - x in
                     if (x <? N) && (y <? N) then [y * N + x] else [])
                  (seqZ 0 (s + 1))) <->
  exists x y, 0 <= x < N /\ 0 <= y < N /\ x + y = s /\ i = y * N + x.
Proof.
  rewrite elem_of_concat_map. split.
  - intros (x & Hx & Hi). apply elem_of_seqZ in Hx. cbv zeta in Hi.
    destruct (Z.ltb_spec x N); [|by apply elem_of_nil in Hi].
    destruct (Z.ltb_spec (s - x) N); [|by apply elem_of_nil in Hi].
    apply list_elem_of_singleton in Hi. exists x, (s - x). lia.
  - intros (x & y & Hx & Hy & Hs & ->). exists x. split.
    + apply elem_of_seqZ. lia.
    + cbv zeta. destruct (Z.ltb_spec x N); [|lia].
      destruct (Z.ltb_spec (s - x) N); [|lia].
      apply list_elem_of_singleton. f_equal. lia.
Qed.

Lemma diag_by_row N s i :
  i ∈ concat (map (fun y => let x := s - y in
                     if (x <? N) && (y <? N) then [y * N + x] else [])
                  (seqZ 0 (s + 1))) <->
  exists x y, 0 <= x < N /\ 0 <= y < N /\ x + y = s /\ i = y * N + x.
Proof.
  rewrite elem_of_concat_map. split.
  - intros (y & Hy & Hi). apply elem_of_seqZ in Hy. cbv zeta in Hi.
    destruct (Z.ltb_spec (s - y) N); [|by apply elem_of_nil in Hi].
    destruct (Z.ltb_spec y N); [|by apply elem_of_nil in Hi].
    apply list_elem_of_singleton in Hi. exists (s - y), y. lia.
  - intros (x & y & Hx & Hy & Hs & ->). exists y. split.
    + apply elem_of_seqZ. lia.
    + cbv zeta. destruct (Z.ltb_spec (s - y) N); [|lia].
      destruct (Z.ltb_spec y N); [|lia].
      apply list_elem_of_singleton. f_equal. lia.
Qed.

Lemma NoDup_cell (c : bool) (e : Z) : NoDup (if c then [e] else []).
Proof. destruct c; [apply NoDup_singleton | constructor]. Qed.

Lemma diag_by_column_NoDup N s :
  NoDup (concat (map (fun x => let y := s - x in
                        if (x <? N) && (y <? N) then [y * N + x] else [])
                     (seqZ 0 (s + 1)))).
Proof.
  apply (NoDup_concat_keyed (fun e => e mod N)).
  - apply NoDup_seqZ.
  - intros x e Hx He. apply elem_of_seqZ in Hx. cbv zeta in He.
    destruct (Z.ltb_spec x N); [|by apply elem_of_nil in He].
    destruct (_ <? _); [|by apply elem_of_nil in He].
    apply list_elem_of_singleton in He as ->. apply cell_index. lia.
  - intros x _. cbv zeta. apply NoDup_cell.
Qed.

Lemma diag_by_row_NoDup N s :
  NoDup (concat (map (fun y => let x := s - y in
                        if (x <? N) && (y <? N) then [y * N + x] else [])
                     (seqZ 0 (s + 1)))).
Proof.
  apply (NoDup_concat_keyed (fun e => e / N)).
  - apply NoDup_seqZ.
  - intros y e Hy He. apply elem_of_seqZ in Hy. cbv zeta in He.
    destruct (Z.ltb_spec (s - y) N); [|by apply elem_of_nil in He].
    destruct (Z.ltb_spec y N); [|by apply elem_of_nil in He].
    apply list_elem_of_singleton in He as ->. apply cell_index. lia.
  - intros y _. cbv zeta. apply NoDup_cell.
Qed.

(** Up to [N = 46340] every index [y * N + x] of the block and the bound
    [2 * (N - 1)] are [int]s: no operation of the loops wraps. *)
Lemma zigzag_writes_exact N :
  0 < N <= 46340 ->
  zigzag_writes N =
  concat (map (fun s =>
      if Z.rem s 2 =? 0 then
        concat (map (fun x => let y := s - x in
                       if (x <? N) && (y <? N) then [y * N + x] else [])
                    (seqZ 0 (s + 1)))
      else
        concat (map (fun y => let x := s - y in
                       if (x <? N) && (y <? N) then [y * N + x] else [])
                    (seqZ 0 (s + 1))))
    (seqZ 0 (2 * (N - 1) + 1))).
Proof.
  intros HN. unfold zigzag_writes. rewrite (i32_id (2 * (N - 1))) by lia.
  f_equal. apply map_ext_in. intros s _.
  assert (Hcell : forall x y, 0 <= x -> 0 <= y ->
            (if (x <? N) && (y <? N) then [i32 (y * N + x)] else [])
            = (if (x <? N) && (y <? N) then [y * N + x] else [])).
  { intros x y Hx Hy. destruct (Z.ltb_spec x N); [|done].
    destruct (Z.ltb_spec y N); [|done]. cbn [andb].
    rewrite i32_id; [done | nia]. }
  destruct (Z.rem s 2 =? 0); f_equal; apply map_ext_in; intros a Ha;
    apply list_elem_of_In, elem_of_seqZ in Ha; cbv zeta; apply Hcell; lia.
Qed.

Lemma zigzag_writes_perm N :
  0 < N <= 46340 -> zigzag_writes N ≡ₚ seqZ 0 (N * N).
Proof.
  intros HN'. assert (HN : 0 < N) by lia.
  rewrite zigzag_writes_exact by done.
  assert (Hmem : forall s i,
    i ∈ (if Z.rem s 2 =? 0
         then concat (map (fun x => let y := s - x in
                 if (x <? N) && (y <? N) then [y * N + x] else [])
                (seqZ 0 (s + 1)))
         else concat (map (fun y => let x := s - y in
                 if (x <? N) && (y <? N) then [y * N + x] else [])
                (seqZ 0 (s + 1)))) <->
    exists x y, 0 <= x < N /\ 0 <= y < N /\ x + y = s /\ i = y * N + x).
  { intros s i. destruct (Z.rem s 2 =? 0);
      [apply diag_by_column | apply diag_by_row]. }
  apply NoDup_Permutation.
  - apply (NoDup_concat_keyed (fun e => e / N + e mod N)).
    + apply NoDup_seqZ.
    + intros s e _ He. apply Hmem in He as (x & y & Hx & Hy & Hs & ->).
      destruct (cell_index N x y Hx) as [-> ->]. lia.
    + intros s _. destruct (Z.rem s 2 =? 0);
        [apply diag_by_column_NoDup | apply diag_by_row_NoDup].
  - apply NoDup_seqZ.
  - intros i. rewrite elem_of_concat_map, elem_of_seqZ. split.
    + intros (s & _ & Hi). apply Hmem in Hi as (x & y & Hx & Hy & _ & ->).
      nia.
    + intros Hi. exists (i / N + i mod N).
      pose proof (Z.mod_pos_bound i N HN) as Hm.
      pose proof (Z.div_mod i N ltac:(lia)) as Hd.
      assert (Hq : 0 <= i / N < N).
      { split; [apply Z.div_pos; lia|].
        apply Z.div_lt_upper_bound; lia. }
      split; [apply elem_of_seqZ; lia|].
      apply Hmem. exists (i mod N), (i / N). lia.
Qed.

(** For every block size up to 46340 the vector has [N * N] entries and
    the scan order lists each index of the block once. *)
Lemma zigzag_order_perm_all N :
  0 < N <= 46340 ->
  exists order, make_zigzag_order N = OK order /\ order ≡ₚ seqZ 0 (N * N).
Proof.
  intros HN. pose proof (zigzag_writes_perm N HN) as Hperm.
  assert (Hlen : zlen (zigzag_writes N) = N * N).
  { unfold zlen. rewrite Hperm, length_seqZ. nia. }
  exists (zigzag_writes N). split; [|done].
  unfold make_zigzag_order. destruct (Z.leb_spec N 0); [lia|]. cbv zeta.
  rewrite i32_id by nia. rewrite Hlen.
  destruct (Z.ltb_spec (N * N) 0); [nia|].
  rewrite Z.ltb_irrefl, Z.sub_diag. cbn [Z.to_nat replicate].
  by rewrite app_nil_r.
Qed.

End ZigzagOrder.

(** * Zigzag scan *)

Section Chunks.
Context {A : Type}.

Lemma block_at_nat (v : list A) (n : Z) (b : nat) :
  0 <= n ->
  Block.block_at v n (Z.of_nat b) = take (Z.to_nat n) (drop (b * Z.to_nat n) v).
Proof. intros Hn. unfold Block.block_at. do 2 f_equal. nia. Qed.

(** Block [b] of a concatenation of chunks of [n] elements is chunk [b]. *)
Lemma chunk_of_concat (n : nat) (cs : list (list A)) : forall (b : nat) c,
  Forall (fun c => length c = n) cs -> cs !! b = Some c ->
  take n (drop (b * n) (concat cs)) = c.
Proof.
  induction cs as [|c0 cs IH]; intros b c Hall Hb; [done|].
  apply Forall_cons in Hall as [Hc0 Hall]. cbn [concat].
  destruct b as [|b].
  - injection Hb as <-. simpl. by apply take_app_length'.
  - cbn [lookup] in Hb. simpl in Hb.
    replace (S b * n)%nat with (length c0 + b * n)%nat by lia.
    rewrite drop_app_add. by apply IH.
Qed.

Lemma concat_chunks_length (n : nat) (cs : list (list A)) :
  Forall (fun c => length c = n) cs ->
  length (concat cs) = (length cs * n)%nat.
Proof.
  induction 1 as [|c cs Hc _ IH]; [done|].
  cbn [concat length]. rewrite length_app, Hc, IH. lia.
Qed.

(** A vector of [m] whole blocks is the concatenation of its blocks. *)
Lemma concat_chunks (n : nat) : forall (m : nat) (v : list A),
  length v = (m * n)%nat ->
  concat (map (fun b : nat => take n (drop (b * n) v)) (seq 0 m)) = v.
Proof.
  induction m as [|m IH]; intros v Hlen.
  - simpl in *. by destruct v.
  - cbn [seq map concat]. rewrite <- fmap_S_seq.
    change (map ?f (S <$> ?l)) with (map f (map S l)). rewrite map_map.
    transitivity (take n v ++ drop n v); [|apply take_drop]. f_equal.
    rewrite <- (IH (drop n v)) by (rewrite length_drop; lia).
    f_equal. apply map_ext. intros b. rewrite drop_drop. done.
Qed.

End Chunks.

Lemma map_seqZ_nat {A} (f : Z -> A) (m : Z) :
  map f (seqZ 0 m) = map (fun b : nat => f (Z.of_nat b)) (seq 0 (Z.to_nat m)).
Proof.
  unfold seqZ. change (map f (?g <$> ?l)) with (map f (map g l)).
  rewrite map_map. apply map_ext. intros b. f_equal. lia.
Qed.

Lemma map_at_seqZ (v : list Z) : map (Block.at_ v) (seqZ 0 (zlen v)) = v.
Proof.
  rewrite map_seqZ_nat. unfold zlen. rewrite Nat2Z.id.
  apply list_eq. intros k. rewrite list_lookup_fmap.
  destruct (Nat.lt_ge_cases k (length v)) as [Hk|Hk].
  - rewrite lookup_seq_lt by done. simpl. unfold Block.at_.
    rewrite Nat2Z.id. destruct (v !! k) eqn:E; [done|].
    apply lookup_ge_None in E. lia.
  - rewrite lookup_seq_ge by done. simpl. symmetry.
    by apply lookup_ge_None_2.
Qed.

Section Zigzag.
Import Block Samples.

(** For every block size [N] from 1 to 46340, the sizes for which [N * N]
    is an [int], the scan order visits every index of the [N x N] block
    exactly once. *)
Theorem zigzag_order_permutation (N : Z) :
  0 < N <= 46340 ->
  exists order, make_zigzag_order N = OK order /\ order ≡ₚ seqZ 0 (N * N).
Proof. exact (zigzag_order_perm_all N). Qed.

Lemma zigzag_order_permutation_witness :
  0 < 3 <= 46340 /\
  make_zigzag_order 3 = OK [0; 1; 3; 6; 4; 2; 5; 7; 8] /\
  exists order, make_zigzag_order 3 = OK order /\ order ≡ₚ seqZ 0 (3 * 3).
Proof.
  assert (H : 0 < 3 <= 46340) by lia.
  split; [exact H|]. split; [reflexivity|].
  exact (zigzag_order_permutation 3 H).
Defined.

Lemma zigzag_order_perm B :
  B = 8 \/ B = 16 ->
  exists order, make_zigzag_order B = OK order /\ order ≡ₚ seqZ 0 (B * B).
Proof. intros HB. apply zigzag_order_perm_all. destruct HB; subst; lia. Qed.

(** Scanning a block and writing the scanned values back at the indices of
    the order gives the block. *)
Lemma zigzag_block_round_trip (order src : list Z) (n : Z) :
  order ≡ₚ seqZ 0 n -> zlen src = n ->
  foldl (fun dst i =>
           <[Z.to_nat (at_ order i) :=
               at_ (map (fun i => at_ src (at_ order i)) (seqZ 0 n)) i]> dst)
        (replicate (Z.to_nat n) 0) (seqZ 0 n)
  = src.
Proof.
  intros Hperm Hsrc.
  assert (Hn : 0 <= n) by (rewrite <- Hsrc; apply zlen_nonneg).
  assert (Hlo : zlen order = n).
  { unfold zlen. rewrite Hperm, length_seqZ. lia. }
  set (s := map (fun i => at_ src (at_ order i)) (seqZ 0 n)).
  set (f := fun i => Z.to_nat (at_ order i)).
  set (g := fun i => at_ s i).
  assert (Hmapf : map f (seqZ 0 n) = map Z.to_nat order).
  { unfold f. rewrite <- (map_map (at_ order) Z.to_nat).
    by rewrite <- Hlo, map_at_seqZ. }
  assert (Hnd : NoDup (map f (seqZ 0 n))).
  { rewrite Hmapf. apply NoDup_fmap_2_strong.
    - intros a b Ha Hb E. rewrite Hperm in Ha, Hb.
      apply elem_of_seqZ in Ha, Hb. lia.
    - rewrite Hperm. apply NoDup_seqZ. }
  apply list_eq. intros k.
  destruct (Nat.lt_ge_cases k (Z.to_nat n)) as [Hk|Hk].
  - assert (Hel : Z.of_nat k ∈ order).
    { rewrite Hperm. apply elem_of_seqZ. lia. }
    apply list_elem_of_lookup in Hel as (i & Hi).
    assert (Hilt : (i < length order)%nat) by (by eapply lookup_lt_Some).
    assert (Hat : at_ order (Z.of_nat i) = Z.of_nat k).
    { unfold at_. by rewrite Nat2Z.id, Hi. }
    assert (Hfi : f (Z.of_nat i) = k) by (unfold f; rewrite Hat; lia).
    rewrite <- Hfi.
    rewrite (foldl_insert_at f g (seqZ 0 n) _ (Z.of_nat i)).
    + unfold g, s. rewrite Hfi. f_equal.
      assert (Hs : map (fun i0 => at_ src (at_ order i0)) (seqZ 0 n)
                   !! i = Some (at_ src (at_ order (Z.of_nat i)))).
      { change (map ?h ?l) with (h <$> l). rewrite list_lookup_fmap.
        rewrite lookup_seqZ_lt by (unfold zlen in Hlo; lia). simpl.
        by rewrite Z.add_0_l. }
      unfold at_ at 1. rewrite Nat2Z.id, Hs. simpl. rewrite Hat.
      unfold at_. rewrite Nat2Z.id.
      destruct (src !! k) as [v|] eqn:Ev.
      * done.
      * apply lookup_ge_None in Ev. unfold zlen in Hsrc. lia.
    + done.
    + apply elem_of_seqZ. unfold zlen in Hlo. lia.
    + rewrite length_replicate, Hfi. lia.
  - rewrite (lookup_ge_None_2 src) by (unfold zlen in Hsrc; lia).
    apply lookup_ge_None_2.
    rewrite (foldl_insert_length f g). rewrite length_replicate. lia.
Qed.

Lemma zigzag_round_trip_blocks (x : list Z) (B : Z) :
  B = 8 \/ B = 16 -> zlen x mod (B * B) = 0 ->
  exists s,
    zigzag_scan_blocks x B = OK s /\ zlen s = zlen x /\
    inverse_zigzag_blocks s B = OK x.
Proof.
  intros HB Hmod.
  destruct (zigzag_order_perm B HB) as (order & Horder & Hperm).
  assert (HB' : negb (B =? 8) && negb (B =? 16) = false)
    by (destruct HB; subst; reflexivity).
  set (n := B * B) in *.
  assert (Hn : 0 < n) by (unfold n; destruct HB; subst; lia).
  pose proof (zlen_nonneg x) as Hx0.
  set (m := Z.to_nat (zlen x / n)).
  assert (Hxlen : length x = (m * Z.to_nat n)%nat).
  { pose proof (Z.div_mod (zlen x) n ltac:(lia)) as Hdm.
    rewrite Hmod in Hdm.
    assert (0 <= zlen x / n) by (apply Z.div_pos; lia).
    unfold m, zlen in *. nia. }
  set (S' := fun b : nat =>
               map (fun i => at_ (take (Z.to_nat n) (drop (b * Z.to_nat n) x))
                                 (at_ order i)) (seqZ 0 n)).
  assert (Hscan : zigzag_scan_blocks x B = OK (concat (map S' (seq 0 m)))).
  { unfold zigzag_scan_blocks. rewrite HB'. fold n.
    rewrite Z.rem_mod_nonneg, Hmod by lia. cbn [Z.eqb negb].
    rewrite Horder, bind_OK. rewrite Z.quot_div_nonneg by lia.
    rewrite map_seqZ_nat. fold m. do 2 f_equal.
    apply map_ext. intros b. unfold S'. by rewrite block_at_nat by lia. }
  assert (HS'len : Forall (fun c => length c = Z.to_nat n) (map S' (seq 0 m))).
  { apply List.Forall_map, Forall_forall. intros b _. unfold S'.
    by rewrite length_map, length_seqZ. }
  assert (Hslen : length (concat (map S' (seq 0 m))) = (m * Z.to_nat n)%nat).
  { rewrite (concat_chunks_length _ _ HS'len).
    by rewrite length_map, length_seq. }
  exists (concat (map S' (seq 0 m))).
  split; [done|]. split; [unfold zlen; lia|].
  unfold inverse_zigzag_blocks. rewrite HB'. fold n.
  assert (Hz : zlen (concat (map S' (seq 0 m))) = zlen x)
    by (unfold zlen; lia).
  rewrite Hz, Z.rem_mod_nonneg, Hmod by lia. cbn [Z.eqb negb].
  rewrite Horder, bind_OK. rewrite Z.quot_div_nonneg by lia.
  rewrite map_seqZ_nat. fold m. f_equal.
  transitivity
    (concat (map (fun b : nat => take (Z.to_nat n) (drop (b * Z.to_nat n) x))
                 (seq 0 m))); [|by apply concat_chunks].
  f_equal. apply map_ext_in. intros b Hb. apply in_seq in Hb.
  cbv zeta. rewrite block_at_nat by lia.
  rewrite (chunk_of_concat (Z.to_nat n) (map S' (seq 0 m)) b (S' b));
    [|done|].
  2:{ change (map S' ?l) with (S' <$> l). rewrite list_lookup_fmap.
      by rewrite lookup_seq_lt by lia. }
  unfold S'. apply zigzag_block_round_trip; [done|].
  unfold zlen. rewrite length_take, length_drop. nia.
Qed.

(** The inverse scan undoes the scan on every buffer of whole blocks. *)
Theorem zigzag_round_trip (x : list Z) (B : Z) :
  B = 8 \/ B = 16 -> zlen x mod (B * B) = 0 ->
  exists s,
    zigzag_scan_blocks x B = OK s /\ zlen s = zlen x /\
    inverse_zigzag_blocks s B = OK x.
Proof. apply zigzag_round_trip_blocks. Qed.

Lemma zigzag_round_trip_witness :
  (8 = 8 \/ 8 = 16) /\ zlen two_blocks mod (8 * 8) = 0 /\
  exists s,
    zigzag_scan_blocks two_blocks 8 = OK s /\
    inverse_zigzag_blocks s 8 = OK two_blocks.
Proof.
  assert (H1 : 8 = 8 \/ 8 = 16) by (left; reflexivity).
  assert (H2 : zlen two_blocks mod (8 * 8) = 0) by reflexivity.
  split; [exact H1|]. split; [exact H2|].
  destruct (zigzag_round_trip two_blocks 8 H1 H2) as (s & Hs & _ & Hi).
  exists s. split; [exact Hs | exact Hi].
Defined.

End Zigzag.

(** * Reading back what the byte writer wrote *)

Section ByteReaderProofs.
Import Img Bitstream CodecSpec Codec.

Lemma lor_shiftl_add a b k :
  0 <= k -> 0 <= a < 2 ^ k -> Z.lor a (Z.shiftl b k) = a + b * 2 ^ k.
Proof.
  intros Hk Ha.
  assert (Hland : Z.land a (Z.shiftl b k) = 0).
  { destruct (Z.eq_dec a 0) as [-> | Ha0]; [apply Z.land_0_l|].
    apply Z.bits_inj'. intros n Hn. rewrite Z.land_spec, Z.bits_0.
    destruct (Z.lt_ge_cases n k).
    - rewrite (Z.shiftl_spec_low b k n) by lia. apply andb_false_r.
    - rewrite (Z.bits_above_log2 a n); [done | lia |].
      assert (Z.log2 a < k) by (apply Z.log2_lt_pow2; lia). lia. }
  rewrite <- Z.lxor_lor, <- Z.add_nocarry_lxor by done.
  by rewrite Z.shiftl_mul_pow2 by lia.
Qed.

(** The value of the two bytes of a 16-bit field. *)
Lemma le16_value v :
  0 <= v < 65536 -> Z.lor (v mod 256) (Z.shiftl (v / 256 mod 256) 8) = v.
Proof.
  intros Hv. rewrite lor_shiftl_add by (lia || (apply Z.mod_pos_bound; lia)).
  change (2 ^ 8) with 256.
  rewrite (Z.mod_small (v / 256)).
  - pose proof (Z.div_mod v 256 ltac:(lia)). lia.
  - split; [apply Z.div_pos; lia | apply Z.div_lt_upper_bound; lia].
Qed.

Lemma le32_halves v :
  0 <= v < 4294967296 ->
  v mod 65536 + (v / 65536) * 65536 = v /\
  0 <= v mod 65536 < 65536 /\ 0 <= v / 65536 < 65536.
Proof.
  intros Hv. pose proof (Z.div_mod v 65536 ltac:(lia)).
  pose proof (Z.mod_pos_bound v 65536 ltac:(lia)).
  split; [lia|]. split; [lia|].
  split; [apply Z.div_pos; lia | apply Z.div_lt_upper_bound; lia].
Qed.

Lemma read_u8_middle (pre rest : list Z) b :
  read_u8 (mkReader (pre ++ b :: rest) (zlen pre))
  = OK (b, mkReader (pre ++ b :: rest) (zlen pre + 1)).
Proof.
  unfold read_u8. cbn [rd_buf rd_pos]. rewrite zlen_app.
  pose proof (zlen_nonneg rest). pose proof (zlen_nonneg pre).
  assert (Hz : zlen (b :: rest) = 1 + zlen rest) by (unfold zlen; simpl; lia).
  rewrite Hz. destruct (Z.ltb_spec (zlen pre + (1 + zlen rest)) (zlen pre + 1));
    [lia|].
  unfold zlen. rewrite Nat2Z.id. by rewrite list_lookup_middle.
Qed.

Lemma read_u16_le_middle (pre rest : list Z) v :
  0 <= v < 65536 ->
  read_u16_le (mkReader (pre ++ le16 v ++ rest) (zlen pre))
  = OK (v, mkReader (pre ++ le16 v ++ rest) (zlen pre + 2)).
Proof.
  intros Hv. unfold read_u16_le, le16. cbn [app].
  rewrite read_u8_middle, bind_OK.
  change (pre ++ ?a :: ?b :: rest) with (pre ++ [a] ++ b :: rest).
  rewrite app_assoc.
  replace (zlen pre + 1) with (zlen (pre ++ [v mod 256]))
    by (rewrite zlen_app; reflexivity).
  rewrite read_u8_middle, bind_OK. rewrite le16_value by done.
  rewrite u16_small by done. rewrite zlen_app. do 3 f_equal.
  change (zlen [v mod 256]) with 1. lia.
Qed.

Lemma read_u32_le_middle (pre rest : list Z) v :
  0 <= v < 4294967296 ->
  read_u32_le (mkReader (pre ++ le32 v ++ rest) (zlen pre))
  = OK (v, mkReader (pre ++ le32 v ++ rest) (zlen pre + 4)).
Proof.
  intros Hv. destruct (le32_halves v Hv) as (Hsum & Hlo & Hhi).
  assert (Hsplit : le32 v = le16 (v mod 65536) ++ le16 (v / 65536)).
  { unfold le32, le16. cbn [app].
    rewrite mod_65536_low, mod_65536_high, Z.mod_mod by lia.
    rewrite !Z.div_div by lia. done. }
  unfold read_u32_le. rewrite Hsplit, <- app_assoc.
  rewrite read_u16_le_middle, bind_OK by done.
  rewrite (app_assoc pre).
  replace (zlen pre + 2) with (zlen (pre ++ le16 (v mod 65536)))
    by (rewrite zlen_app; reflexivity).
  rewrite read_u16_le_middle, bind_OK by done.
  rewrite Z.shiftl_mul_pow2 by lia. change (2 ^ 16) with 65536.
  rewrite (u32_small (v / 65536 * 65536)) by lia.
  rewrite <- (Z.shiftl_mul_pow2 _ 16) by lia.
  rewrite lor_shiftl_add by (change (2 ^ 16) with 65536; lia).
  change (2 ^ 16) with 65536. rewrite Hsum. rewrite zlen_app.
  do 3 f_equal. change (zlen (le16 (v mod 65536))) with 2. lia.
Qed.

(** The reader gives back the fields the writer wrote, and stands behind
    them. *)
Theorem byte_reader_round_trip (pre rest : list Z) (v16 v32 : Z) :
  0 <= v16 < 65536 -> 0 <= v32 < 4294967296 ->
  read_u16_le (mkReader (write_u16_le v16 pre ++ rest) (zlen pre))
    = OK (v16, mkReader (write_u16_le v16 pre ++ rest) (zlen pre + 2)) /\
  read_u32_le (mkReader (write_u32_le v32 pre ++ rest) (zlen pre))
    = OK (v32, mkReader (write_u32_le v32 pre ++ rest) (zlen pre + 4)).
Proof.
  intros H16 H32. rewrite write_u16_le_spec, write_u32_le_spec.
  rewrite <- !app_assoc. split.
  - by apply read_u16_le_middle.
  - by apply read_u32_le_middle.
Qed.

Lemma byte_reader_round_trip_witness :
  0 <= 4660 < 65536 /\ 0 <= 305419896 < 4294967296 /\
  read_u16_le (mkReader (write_u16_le 4660 [9] ++ [7]) (zlen [9]))
    = OK (4660, mkReader (write_u16_le 4660 [9] ++ [7]) (zlen [9] + 2)) /\
  read_u32_le (mkReader (write_u32_le 305419896 [9] ++ [7]) (zlen [9]))
    = OK (305419896,
          mkReader (write_u32_le 305419896 [9] ++ [7]) (zlen [9] + 4)).
Proof.
  assert (H1 : 0 <= 4660 < 65536) by lia.
  assert (H2 : 0 <= 305419896 < 4294967296) by lia.
  split; [exact H1|]. split; [exact H2|].
  exact (byte_reader_round_trip [9] [7] 4660 305419896 H1 H2).
Defined.

Lemma read_u8_cases r :
  0 <= rd_pos r ->
  (rd_pos r + 1 <= zlen (rd_buf r) ->
   exists b, read_u8 r = OK (b, mkReader (rd_buf r) (rd_pos r + 1))) /\
  (zlen (rd_buf r) < rd_pos r + 1 ->
   read_u8 r = Err "bitstream: premature EOF").
Proof.
  intros Hpos. unfold read_u8. split; intros H.
  - destruct (Z.ltb_spec (zlen (rd_buf r)) (rd_pos r + 1)); [lia|].
    destruct (rd_buf r !! Z.to_nat (rd_pos r)) as [b|] eqn:E; [by exists b|].
    apply lookup_ge_None in E. unfold zlen in *. lia.
  - destruct (Z.ltb_spec (zlen (rd_buf r)) (rd_pos r + 1)); [done|lia].
Qed.

Lemma read_u16_le_cases r :
  0 <= rd_pos r ->
  (rd_pos r + 2 <= zlen (rd_buf r) ->
   exists v, read_u16_le r = OK (v, mkReader (rd_buf r) (rd_pos r + 2))) /\
  (zlen (rd_buf r) < rd_pos r + 2 ->
   read_u16_le r = Err "bitstream: premature EOF").
Proof.
  intros Hpos. unfold read_u16_le.
  destruct (read_u8_cases r Hpos) as [Hok Herr]. split; intros H.
  - destruct Hok as (lo & ->); [lia|]. rewrite bind_OK.
    destruct (read_u8_cases (mkReader (rd_buf r) (rd_pos r + 1)))
      as [Hok2 _]; [simpl; lia|].
    destruct Hok2 as (hi & ->); [simpl; lia|]. rewrite bind_OK.
    cbn [rd_buf rd_pos]. eexists. do 3 f_equal. lia.
  - destruct (Z.lt_ge_cases (zlen (rd_buf r)) (rd_pos r + 1)) as [H1|H1].
    + by rewrite Herr.
    + destruct Hok as (lo & ->); [lia|]. rewrite bind_OK.
      destruct (read_u8_cases (mkReader (rd_buf r) (rd_pos r + 1)))
        as [_ Herr2]; [simpl; lia|].
      rewrite Herr2; [done | simpl; lia].
Qed.

(** A 32-bit read succeeds exactly when four bytes are left; it then
    stands four bytes further in the same buffer, and otherwise fails with
    the message of the premature end. *)
Theorem read_u32_le_cases (r : ByteReader) :
  0 <= rd_pos r ->
  (rd_pos r + 4 <= zlen (rd_buf r) ->
   exists v, read_u32_le r = OK (v, mkReader (rd_buf r) (rd_pos r + 4))) /\
  (zlen (rd_buf r) < rd_pos r + 4 ->
   read_u32_le r = Err "bitstream: premature EOF").
Proof.
  intros Hpos. unfold read_u32_le.
  destruct (read_u16_le_cases r Hpos) as [Hok Herr]. split; intros H.
  - destruct Hok as (a & ->); [lia|]. rewrite bind_OK.
    destruct (read_u16_le_cases (mkReader (rd_buf r) (rd_pos r + 2)))
      as [Hok2 _]; [simpl; lia|].
    destruct Hok2 as (b & ->); [simpl; lia|]. rewrite bind_OK.
    cbn [rd_buf rd_pos]. eexists. do 3 f_equal. lia.
  - destruct (Z.lt_ge_cases (zlen (rd_buf r)) (rd_pos r + 2)) as [H1|H1].
    + by rewrite Herr.
    + destruct Hok as (a & ->); [lia|]. rewrite bind_OK.
      destruct (read_u16_le_cases (mkReader (rd_buf r) (rd_pos r + 2)))
        as [_ Herr2]; [simpl; lia|].
      rewrite Herr2; [done | simpl; lia].
Qed.

Lemma read_u32_le_cases_witness :
  0 <= rd_pos (mkReader [1; 2; 3; 4; 5] 1) /\
  read_u32_le (mkReader [1; 2; 3; 4; 5] 1)
    = OK (84148994, mkReader [1; 2; 3; 4; 5] 5) /\
  read_u32_le (mkReader [1; 2; 3; 4; 5] 2) = Err "bitstream: premature EOF".
Proof.
  assert (H : 0 <= rd_pos (mkReader [1; 2; 3; 4; 5] 1)) by (simpl; lia).
  split; [exact H|]. split.
  - destruct (proj1 (read_u32_le_cases (mkReader [1; 2; 3; 4; 5] 1) H))
      as (v & Hv); [vm_compute; discriminate|].
    rewrite Hv. vm_compute in Hv. by injection Hv as <-.
  - apply (read_u32_le_cases (mkReader [1; 2; 3; 4; 5] 2)); [simpl; lia|].
    vm_compute. reflexivity.
Defined.

End ByteReaderProofs.

(** * The header and the table section read back *)

Section HeaderRoundTrip.
Import Img Bitstream CodecSpec Codec Samples.

(** The value of two and of four little-endian bytes, as the header reader
    assembles them. *)
Lemma le16_read v :
  0 <= v < 65536 ->
  u16 (Z.lor (v mod 256) (u16 (Z.shiftl (v / 256 mod 256) 8))) = v.
Proof.
  intros Hv.
  assert (Hhi : 0 <= v / 256 mod 256 < 256) by (apply Z.mod_pos_bound; lia).
  rewrite Z.shiftl_mul_pow2 by lia. change (2 ^ 8) with 256.
  rewrite (u16_small (_ * 256)) by lia.
  rewrite <- (Z.shiftl_mul_pow2 _ 8) by lia.
  rewrite le16_value by done. by apply u16_small.
Qed.

Lemma le32_read v :
  0 <= v < 4294967296 ->
  u32 (Z.lor (Z.lor (Z.lor (v mod 256)
                       (u32 (Z.shiftl (v / 256 mod 256) 8)))
                (u32 (Z.shiftl (v / 65536 mod 256) 16)))
         (u32 (Z.shiftl (v / 16777216 mod 256) 24))) = v.
Proof.
  intros Hv.
  assert (H0 : 0 <= v mod 256 < 256) by (apply Z.mod_pos_bound; lia).
  assert (H1 : 0 <= v / 256 mod 256 < 256) by (apply Z.mod_pos_bound; lia).
  assert (H2 : 0 <= v / 65536 mod 256 < 256) by (apply Z.mod_pos_bound; lia).
  assert (H3 : 0 <= v / 16777216 mod 256 < 256) by (apply Z.mod_pos_bound; lia).
  rewrite !Z.shiftl_mul_pow2 by lia.
  change (2 ^ 8) with 256. change (2 ^ 16) with 65536.
  change (2 ^ 24) with 16777216.
  rewrite (u32_small (_ * 256)), (u32_small (_ * 65536)),
    (u32_small (_ * 16777216)) by lia.
  rewrite <- (Z.shiftl_mul_pow2 _ 8), <- (Z.shiftl_mul_pow2 _ 16),
    <- (Z.shiftl_mul_pow2 _ 24) by lia.
  rewrite (lor_shiftl_add _ _ 8) by (change (2 ^ 8) with 256; lia).
  change (2 ^ 8) with 256.
  rewrite (lor_shiftl_add _ _ 16) by (change (2 ^ 16) with 65536; lia).
  change (2 ^ 16) with 65536.
  rewrite (lor_shiftl_add _ _ 24) by (change (2 ^ 24) with 16777216; lia).
  change (2 ^ 24) with 16777216.
  assert (Hsum : v mod 256 + v / 256 mod 256 * 256 + v / 65536 mod 256 * 65536
                 + v / 16777216 mod 256 * 16777216 = v).
  { pose proof (Z.div_mod v 256 ltac:(lia)) as E0.
    pose proof (Z.div_mod (v / 256) 256 ltac:(lia)) as E1.
    pose proof (Z.div_mod (v / 65536) 256 ltac:(lia)) as E2.
    assert (D1 : v / 256 / 256 = v / 65536) by (rewrite Z.div_div by lia; done).
    assert (D2 : v / 65536 / 256 = v / 16777216)
      by (rewrite Z.div_div by lia; done).
    rewrite D1 in E1. rewrite D2 in E2.
    assert (E3 : v / 16777216 mod 256 = v / 16777216).
    { apply Z.mod_small. split; [apply Z.div_pos; lia|].
      apply Z.div_lt_upper_bound; lia. }
    lia. }
  rewrite Hsum. by apply u32_small.
Qed.

(** The header reader on a buffer that starts with the 32 bytes of a
    header of version 1. *)
Lemma read_header_layout w h ch ba bs sgn flg blk q pay rest :
  0 <= w < 4294967296 -> 0 <= h < 4294967296 -> 0 <= ch < 65536 ->
  0 <= ba < 65536 -> 0 <= bs < 65536 -> 0 <= blk < 65536 ->
  0 <= q < 65536 -> 0 <= pay < 4294967296 ->
  read_bitstream_header
    ([77; 67; 68; 67] ++ le16 1 ++ le16 32 ++ le32 w ++ le32 h ++
     le16 ch ++ le16 ba ++ le16 bs ++ [sgn] ++ [flg] ++
     le16 blk ++ le16 q ++ le32 pay ++ rest)
  = OK (mkHeader [77; 67; 68; 67] 1 32 w h ch ba bs sgn flg blk q pay).
Proof.
  intros Hw Hh Hch Hba Hbs Hblk Hq Hpay.
  set (bytes := _ ++ _).
  assert (Hlen : zlen bytes = 32 + zlen rest).
  { unfold bytes, zlen. rewrite !length_app. simpl length. lia. }
  pose proof (zlen_nonneg rest) as Hrest.
  unfold read_bitstream_header, read_u16_le_at, read_u32_le_at.
  change kMCodecHeaderBytes with 32. rewrite Hlen.
  repeat match goal with
    | |- context [32 + zlen rest <? ?k] =>
        destruct (Z.ltb_spec (32 + zlen rest) k); [lia|]
    end.
  rewrite !bind_OK. cbv zeta.
  change (byte_at bytes 4) with (1 mod 256).
  change (byte_at bytes (4 + 1)) with (1 / 256 mod 256).
  change (byte_at bytes 6) with (32 mod 256).
  change (byte_at bytes (6 + 1)) with (32 / 256 mod 256).
  change (byte_at bytes 8) with (w mod 256).
  change (byte_at bytes (8 + 1)) with (w / 256 mod 256).
  change (byte_at bytes (8 + 2)) with (w / 65536 mod 256).
  change (byte_at bytes (8 + 3)) with (w / 16777216 mod 256).
  change (byte_at bytes 12) with (h mod 256).
  change (byte_at bytes (12 + 1)) with (h / 256 mod 256).
  change (byte_at bytes (12 + 2)) with (h / 65536 mod 256).
  change (byte_at bytes (12 + 3)) with (h / 16777216 mod 256).
  change (byte_at bytes 16) with (ch mod 256).
  change (byte_at bytes (16 + 1)) with (ch / 256 mod 256).
  change (byte_at bytes 18) with (ba mod 256).
  change (byte_at bytes (18 + 1)) with (ba / 256 mod 256).
  change (byte_at bytes 20) with (bs mod 256).
  change (byte_at bytes (20 + 1)) with (bs / 256 mod 256).
  change (byte_at bytes 22) with sgn.
  change (byte_at bytes 23) with flg.
  change (byte_at bytes 24) with (blk mod 256).
  change (byte_at bytes (24 + 1)) with (blk / 256 mod 256).
  change (byte_at bytes 26) with (q mod 256).
  change (byte_at bytes (26 + 1)) with (q / 256 mod 256).
  change (byte_at bytes 28) with (pay mod 256).
  change (byte_at bytes (28 + 1)) with (pay / 256 mod 256).
  change (byte_at bytes (28 + 2)) with (pay / 65536 mod 256).
  change (byte_at bytes (28 + 3)) with (pay / 16777216 mod 256).
  change (take 4 bytes) with [77; 67; 68; 67].
  rewrite !le16_read, !le32_read by (done || lia).
  cbn [magic]. rewrite bool_decide_eq_true_2 by done.
  cbn [negb Z.eqb Pos.eqb Z.ltb Z.compare Pos.compare Pos.compare_cont].
  destruct (Z.ltb_spec (32 + zlen rest) 32); [lia | done].
Qed.

(** The header reader gives back the fields [write_bitstream_header]
    wrote, each reduced to the width of its field, whatever follows the
    header. *)
Theorem header_round_trip (im : Image) (flg block_size quality : Z)
    (rest : list Z) :
  read_bitstream_header
    (write_bitstream_header [] im flg block_size quality ++ rest)
  = OK (mkHeader [77; 67; 68; 67] 1 32
          (u32 (width im)) (u32 (height im)) (u16 (channels im))
          (u16 (bits_allocated im)) (u16 (bits_stored im))
          (if is_signed im then 1 else 0) flg
          (u16 block_size) (u16 quality) 0).
Proof.
  rewrite write_bitstream_header_spec, <- !app_assoc.
  apply read_header_layout;
    try (unfold u32; apply Z.mod_pos_bound; lia);
    try (unfold u16; apply Z.mod_pos_bound; lia); lia.
Qed.

Lemma read_table_entries_buf entries : forall pre rest buf acc,
  Forall (fun e : Z * Z => 0 <= e.1 < 4294967296 /\ 1 <= e.2 <= 32) entries ->
  buf = pre ++ concat (map entry_bytes entries) ++ rest ->
  read_table_entries (length entries) (mkReader buf (zlen pre)) acc
  = OK (acc ++ entries, mkReader buf (zlen pre + 5 * zlen entries)).
Proof.
  induction entries as [|[s l] entries IH]; intros pre rest buf acc Hall Hbuf.
  { simpl. rewrite app_nil_r. do 3 f_equal. unfold zlen. simpl. lia. }
  apply Forall_cons in Hall as [[Hs Hl] Hall]. simpl in Hs, Hl.
  cbn [length read_table_entries].
  set (tail := concat (map entry_bytes entries) ++ rest) in *.
  assert (H1 : buf = pre ++ le32 s ++ (l :: tail)).
  { rewrite Hbuf. cbn [map concat]. unfold entry_bytes at 1. cbn [fst snd].
    by rewrite <- !app_assoc. }
  pose proof (read_u32_le_middle pre (l :: tail) s Hs) as E1.
  rewrite <- H1 in E1. rewrite E1, bind_OK.
  assert (H2 : buf = (pre ++ le32 s) ++ l :: tail).
  { rewrite H1. by rewrite <- app_assoc. }
  pose proof (read_u8_middle (pre ++ le32 s) tail l) as E2.
  rewrite <- H2 in E2.
  assert (Hz : zlen (pre ++ le32 s) = zlen pre + 4).
  { rewrite zlen_app. reflexivity. }
  rewrite Hz in E2. rewrite E2, bind_OK.
  destruct (Z.eqb_spec l 0); [lia|]. destruct (Z.ltb_spec 32 l); [lia|].
  cbn [orb].
  assert (H3 : buf = (pre ++ le32 s ++ [l]) ++
                     concat (map entry_bytes entries) ++ rest).
  { rewrite H1. by rewrite <- !app_assoc. }
  pose proof (IH (pre ++ le32 s ++ [l]) rest buf (acc ++ [(s, l)]) Hall H3)
    as E3.
  assert (Hz3 : zlen (pre ++ le32 s ++ [l]) = zlen pre + 4 + 1).
  { rewrite !zlen_app. unfold zlen. simpl. lia. }
  rewrite Hz3 in E3. rewrite E3, <- app_assoc. do 3 f_equal.
  unfold zlen. simpl length. lia.
Qed.

(** The loop of the decoder reads back the table entries that
    [write_table_entries] wrote, in their order, and stands behind them. *)
Theorem table_entries_round_trip (entries : list (Z * Z)) (pre rest : list Z) :
  Forall (fun e : Z * Z => 0 <= e.1 < 4294967296 /\ 1 <= e.2 <= 32) entries ->
  read_table_entries (length entries)
    (mkReader (write_table_entries entries pre ++ rest) (zlen pre)) []
  = OK (entries,
        mkReader (write_table_entries entries pre ++ rest)
                 (zlen pre + 5 * zlen entries)).
Proof.
  intros Hall. rewrite write_table_entries_spec.
  rewrite (read_table_entries_buf entries pre rest _ [] Hall); [done|].
  by rewrite <- app_assoc.
Qed.

Lemma table_entries_round_trip_witness :
  Forall (fun e : Z * Z => 0 <= e.1 < 4294967296 /\ 1 <= e.2 <= 32)
         [(3, 1); (2, 2); (65536, 3); (4294967040, 3)] /\
  write_table_entries [(3, 1); (2, 2); (65536, 3); (4294967040, 3)] [9; 9]
    = [9; 9; 3; 0; 0; 0; 1; 2; 0; 0; 0; 2; 0; 0; 1; 0; 3; 0; 255; 255; 255; 3] /\
  read_table_entries 4
    (mkReader ([9; 9; 3; 0; 0; 0; 1; 2; 0; 0; 0; 2; 0; 0; 1; 0; 3;
                0; 255; 255; 255; 3] ++ [7]) 2) []
  = OK ([(3, 1); (2, 2); (65536, 3); (4294967040, 3)],
        mkReader ([9; 9; 3; 0; 0; 0; 1; 2; 0; 0; 0; 2; 0; 0; 1; 0; 3;
                   0; 255; 255; 255; 3] ++ [7]) 22).
Proof.
  assert (H : Forall (fun e : Z * Z => 0 <= e.1 < 4294967296 /\ 1 <= e.2 <= 32)
                [(3, 1); (2, 2); (65536, 3); (4294967040, 3)]).
  { repeat constructor; simpl; lia. }
  split; [exact H|]. split; [vm_compute; reflexivity|].
  exact (table_entries_round_trip _ [9; 9] [7] H).
Defined.

End HeaderRoundTrip.

(** * The histogram of a stream *)

#[global] Instance key_le_trans : Transitive Huffman.key_le.
Proof. intros a b c. unfold Huffman.key_le. lia. Qed.

Section Histogram.
Import Huffman HuffSpec.

(** The number of occurrences of [s] in a stream. *)
Lemma occurrences_cons (s x : Z) (l : list Z) :
  Z.of_nat (length (filter (fun y => y = s) (x :: l)))
  = (if decide (x = s) then 1 else 0)
    + Z.of_nat (length (filter (fun y => y = s) l)).
Proof.
  rewrite filter_cons. destruct (decide (x = s)); simpl length; lia.
Qed.

(** The counting loop adds to every counter the occurrences of its
    symbol, and fails exactly when a counter would pass [0xFFFFFFFF]. *)
Lemma count_symbols_counts symbols : forall fm,
  (forall k v, fm !! k = Some v -> 0 < v) ->
  (forall k, default 0 (fm !! k)
             + Z.of_nat (length (filter (fun y => y = k) symbols))
             <= 4294967295) ->
  exists fm',
    count_symbols symbols fm = OK fm' /\
    (forall k v, fm' !! k = Some v -> 0 < v) /\
    forall k, default 0 (fm' !! k)
              = default 0 (fm !! k)
                + Z.of_nat (length (filter (fun y => y = k) symbols)).
Proof.
  induction symbols as [|s symbols IH]; intros fm Hpos Hfit.
  { exists fm. split; [done|]. split; [done|]. intros k. simpl. lia. }
  cbn [count_symbols].
  set (c := default 0 (fm !! s)).
  assert (Hc : 0 <= c).
  { unfold c. destruct (fm !! s) as [v|] eqn:E; simpl; [|lia].
    pose proof (Hpos _ _ E). lia. }
  assert (Hstep : (match fm !! s with
                   | Some c0 =>
                       if c0 =? 4294967295
                       then Err "huffman: frequency overflow"
                       else count_symbols symbols (<[s := c0 + 1]> fm)
                   | None => count_symbols symbols (<[s := 1]> fm)
                   end) = count_symbols symbols (<[s := c + 1]> fm)).
  { pose proof (Hfit s) as Hs. rewrite occurrences_cons in Hs.
    destruct (decide (s = s)); [|done]. unfold c in *.
    destruct (fm !! s) as [v|] eqn:E; simpl in *; [|done].
    destruct (Z.eqb_spec v 4294967295); [lia | done]. }
  rewrite Hstep. clear Hstep.
  destruct (IH (<[s := c + 1]> fm)) as (fm' & Hok & Hpos' & Hcount).
  - intros k v Hk. destruct (decide (k = s)) as [->|Hne].
    + rewrite lookup_insert_eq in Hk. injection Hk as <-. lia.
    + rewrite lookup_insert_ne in Hk by done. by apply (Hpos k).
  - intros k. pose proof (Hfit k) as Hk. rewrite occurrences_cons in Hk.
    destruct (decide (k = s)) as [->|Hne].
    + rewrite lookup_insert_eq. simpl. destruct (decide (s = s)); [|done].
      fold c in Hk. lia.
    + rewrite lookup_insert_ne by done.
      destruct (decide (s = k)); [congruence|]. lia.
  - exists fm'. split; [done|]. split; [done|]. intros k.
    rewrite Hcount, occurrences_cons.
    destruct (decide (k = s)) as [->|Hne].
    + rewrite lookup_insert_eq. simpl. destruct (decide (s = s)); [|done].
      fold c. lia.
    + rewrite lookup_insert_ne by done.
      destruct (decide (s = k)); [congruence|]. lia.
Qed.

Lemma sorted_keys_strict (l : list (Z * Z)) :
  StronglySorted key_le l -> NoDup (map fst l) ->
  StronglySorted (fun a b : Z * Z => a.1 < b.1) l.
Proof.
  induction 1 as [|a l Hs IH Hall]; intros Hnd; constructor.
  - apply IH. cbn [map] in Hnd. by apply NoDup_cons in Hnd as [_ ?].
  - cbn [map] in Hnd. apply NoDup_cons in Hnd as [Hnot _].
    apply Forall_forall. intros b Hb.
    pose proof (proj1 (Forall_forall _ _) Hall b Hb) as Hle.
    unfold key_le in Hle.
    assert (a.1 <> b.1).
    { intros E. apply Hnot. rewrite E. apply list_elem_of_fmap. by exists b. }
    lia.
Qed.

(** The histogram is right: for a stream of fewer than [2^32] symbols,
    [build_symbol_frequencies] succeeds; it lists the symbols that occur,
    each once, in increasing order, with the number of its occurrences. *)
Theorem build_symbol_frequencies_counts (symbols : list Z) :
  zlen symbols <= 4294967295 ->
  exists sf,
    build_symbol_frequencies symbols = OK sf /\
    StronglySorted (fun a b : Z * Z => a.1 < b.1) sf /\
    forall s f, (s, f) ∈ sf <->
      0 < f /\ f = Z.of_nat (length (filter (fun y => y = s) symbols)).
Proof.
  intros Hlen.
  destruct (count_symbols_counts symbols ∅) as (fm & Hok & Hpos & Hcount).
  { intros k v Hk. by rewrite lookup_empty in Hk. }
  { intros k. rewrite lookup_empty. simpl.
    pose proof (length_filter (fun y => y = k) symbols). unfold zlen in Hlen.
    lia. }
  exists (merge_sort key_le (map_to_list fm)).
  unfold build_symbol_frequencies. rewrite Hok. split; [done|]. split.
  - apply sorted_keys_strict.
    + apply StronglySorted_merge_sort; apply _.
    + rewrite merge_sort_Permutation. apply NoDup_fst_map_to_list.
  - intros s f. rewrite merge_sort_Permutation, elem_of_map_to_list.
    specialize (Hcount s). rewrite lookup_empty in Hcount. simpl in Hcount.
    split.
    + intros Hs. rewrite Hs in Hcount. simpl in Hcount.
      pose proof (Hpos _ _ Hs). lia.
    + intros [Hf ->]. destruct (fm !! s) as [v|] eqn:E; simpl in Hcount.
      * by rewrite Hcount.
      * lia.
Qed.

Lemma build_symbol_frequencies_counts_witness :
  zlen self_test_symbols <= 4294967295 /\
  build_symbol_frequencies self_test_symbols
    = OK [(0, 1); (1, 1); (2, 2); (3, 3)] /\
  exists sf,
    build_symbol_frequencies self_test_symbols = OK sf /\
    StronglySorted (fun a b : Z * Z => a.1 < b.1) sf /\
    forall s f, (s, f) ∈ sf <->
      0 < f /\
      f = Z.of_nat (length (filter (fun y => y = s) self_test_symbols)).
Proof.
  assert (H : zlen self_test_symbols <= 4294967295) by (vm_compute; discriminate).
  split; [exact H|]. split; [vm_compute; reflexivity|].
  exact (build_symbol_frequencies_counts self_test_symbols H).
Defined.

End Histogram.

(** * The table section: what the decoder rebuilds from the code lengths *)

#[global] Instance len_sym_le_antisymm : AntiSymm (=) Huffman.len_sym_le.
Proof.
  intros [s1 l1] [s2 l2]. unfold Huffman.len_sym_le. simpl.
  intros H1 H2. f_equal; lia.
Qed.

Section TableRebuild.
Import Huffman HuffSpec Codec.

(** The largest symbol found by the first loop is the symbol of an entry of
    non-zero frequency. *)
Lemma scan_max_attained sf : forall m h m' h',
  Forall (fun x : Z * Z => 0 <= x.1) sf ->
  (h = false -> m = 0) ->
  scan_max sf m h = (m', h') ->
  (m' = m /\ h' = h) \/ exists s f, (s, f) ∈ sf /\ f <> 0 /\ s = m'.
Proof.
  induction sf as [|[s f] sf IH]; intros m h m' h' Hall Hm Hs.
  { injection Hs as <- <-. by left. }
  apply Forall_cons in Hall as [Hs0 Hall]. simpl in Hs0, Hs.
  destruct (Z.eqb_spec f 0) as [Hf|Hf].
  { destruct (IH _ _ _ _ Hall Hm Hs) as [?|(s' & f' & Hin & ? & ?)];
      [by left|].
    right. exists s', f'. split; [by right | done]. }
  destruct (IH (if m <? s then s else m) true m' h' Hall ltac:(done) Hs)
    as [[Hm' Hh']|(s' & f' & Hin & ? & ?)].
  - destruct (Z.ltb_spec m s) as [Hlt|Hge].
    + right. exists s, f. split; [by left | done].
    + destruct h.
      * by left.
      * right. exists s, f. split; [by left|]. split; [done|].
        specialize (Hm eq_refl). lia.
  - right. exists s', f'. split; [by right | done].
Qed.

(** A successful insertion does not depend on the message of the failure. *)
Lemma trie_insert_msg m1 m2 ce nodes nodes' :
  trie_insert m1 ce nodes = OK nodes' -> trie_insert m2 ce nodes = OK nodes'.
Proof.
  unfold trie_insert. destruct (trie_walk _ _ _ _) as [[k n1]|]; [|done].
  simpl. destruct (node_at n1 k) as [nd|]; [|done].
  by destruct (negb (symbol nd =? -1)).
Qed.

(** When every symbol is inside the vector, the loop of the decoder fills
    the table as the loop of the encoder does. *)
Lemma fill_table_dec_eq canon : forall t t',
  Forall (fun ce => c_symbol ce < enc_size t) canon ->
  fill_table canon t = OK t' ->
  fill_table_dec canon t = OK t' /\ enc_size t' = enc_size t.
Proof.
  induction canon as [|ce canon IH]; intros t t' Hall Hf.
  { injection Hf as <-. done. }
  apply Forall_cons in Hall as [Hce Hall]. cbn [fill_table fill_table_dec] in *.
  destruct (Z.leb_spec (enc_size t) (c_symbol ce)) as [|_]; [lia|].
  apply bind_OK_inv in Hf as (n1 & Hn1 & Hf).
  rewrite (trie_insert_msg _ "decode: duplicate code assignment" _ _ _ Hn1).
  rewrite bind_OK. apply IH in Hf; [done|]. done.
Qed.

Lemma pair_of_maps {A} (f g : A -> Z) (l : list A) : forall l' : list (Z * Z),
  map f l = map fst l' -> map g l = map snd l' ->
  map (fun x => (f x, g x)) l = l'.
Proof.
  induction l as [|x l IH]; intros [|[a b] l'] Hf Hg; try done.
  simpl in *. injection Hf as -> Hf. injection Hg as -> Hg.
  f_equal. by apply IH.
Qed.

Lemma foldl_max_symbol canon M : forall m0,
  Forall (fun ce => c_symbol ce <= M) canon ->
  m0 <= M -> m0 = M \/ M ∈ map c_symbol canon ->
  foldl (fun m c => Z.max m (c_symbol c)) m0 canon = M.
Proof.
  induction canon as [|ce canon IH]; intros m0 Hall Hm Hin.
  { destruct Hin as [?|Hin]; [done | by apply elem_of_nil in Hin]. }
  apply Forall_cons in Hall as [Hce Hall]. simpl.
  apply IH; [done | lia |].
  destruct Hin as [->|Hin]; [left; lia|].
  simpl in Hin. apply elem_of_cons in Hin as [->|Hin]; [left; lia | by right].
Qed.

Lemma existsb_none {A} (f : A -> bool) l :
  Forall (fun x => f x = false) l -> existsb f l = false.
Proof. induction 1 as [|x l Hx _ IH]; simpl; [done | by rewrite Hx]. Qed.

(** The pairs collected from a table: the valid entries of [enc]. *)
Lemma collect_table_entries_elem t i l :
  (i, l) ∈ collect_table_entries t <->
  exists e, enc t !! i = Some e /\ valid e = true /\ 0 < len e /\
            i < enc_size t /\ l = len e.
Proof.
  unfold collect_table_entries. rewrite list_elem_of_omap. split.
  - intros ([i' e] & Hin & Hf). apply entries_by_index_elem in Hin.
    destruct (valid e) eqn:Hv; [|done].
    destruct (Z.ltb_spec 0 (len e)); [|done].
    destruct (Z.ltb_spec i' (enc_size t)); [|done].
    simpl in Hf. injection Hf as <- <-. by exists e.
  - intros (e & He & Hv & Hl & Hi & ->). exists (i, e). split.
    + by apply entries_by_index_elem.
    + rewrite Hv. destruct (Z.ltb_spec 0 (len e)); [|lia].
      destruct (Z.ltb_spec i (enc_size t)); [done | lia].
Qed.

Lemma collect_table_entries_NoDup t : NoDup (collect_table_entries t).
Proof.
  apply (NoDup_fmap_1 fst). unfold collect_table_entries.
  pose proof (entries_by_index_NoDup (enc t)) as Hnd.
  induction (entries_by_index (enc t)) as [|[i e] l IH]; [constructor|].
  simpl in Hnd. apply NoDup_cons in Hnd as [Hi Hnd]. cbn [omap list_omap].
  destruct (valid e && (0 <? len e) && (i <? enc_size t)); [|by apply IH].
  cbn [fmap list_fmap fst]. constructor; [|by apply IH].
  intros Hin. apply list_elem_of_fmap in Hin as ([i' l'] & Hh & Hin).
  apply list_elem_of_omap in Hin as ([i2 e2] & Hin' & Hf').
  destruct (valid e2 && (0 <? len e2) && (i2 <? enc_size t)); [|done].
  injection Hf' as <- <-. simpl in Hh. subst i2.
  apply Hi. apply list_elem_of_fmap. by exists (i, e2).
Qed.

(** The pairs collected from a table filled from canonical entries are the
    (symbol, length) pairs of the entries. *)
Lemma collect_table_entries_fill canon size t :
  NoDup (map c_symbol canon) ->
  Forall (fun ce => 1 <= c_len ce) canon ->
  fill_table canon (mkTable size ∅ [mkNode (-1) (-1) (-1)]) = OK t ->
  collect_table_entries t ≡ₚ map (fun ce => (c_symbol ce, c_len ce)) canon.
Proof.
  intros Hnd Hlen Hfill. apply NoDup_Permutation.
  - apply collect_table_entries_NoDup.
  - apply (NoDup_fmap_1 fst). rewrite <- list_fmap_compose. exact Hnd.
  - intros [i l]. rewrite collect_table_entries_elem. split.
    + intros (e & He & Hv & Hl & Hi & ->).
      destruct (decide (i ∈ map c_symbol canon)) as [Hin|Hout].
      * apply list_elem_of_fmap in Hin as (ce & -> & Hce).
        destruct (fill_table_enc _ _ _ Hnd Hfill ce Hce) as [Henc _].
        rewrite Henc in He. injection He as <-. simpl.
        apply list_elem_of_fmap. by exists ce.
      * destruct (fill_table_enc_other _ _ _ Hfill) as [_ Hother].
        rewrite (Hother i Hout) in He. simpl in He.
        by rewrite lookup_empty in He.
    + intros Hin. apply list_elem_of_fmap in Hin as (ce & Heq & Hce).
      injection Heq as -> ->.
      destruct (fill_table_enc _ _ _ Hnd Hfill ce Hce) as [Henc Hsz].
      eexists. split; [exact Henc|]. simpl.
      pose proof (proj1 (Forall_forall _ _) Hlen ce Hce). simpl in *.
      repeat split; (done || lia).
Qed.

(** What [build_canonical_table] returns: the table of a single symbol, or
    the table filled from the canonical codes of the leaf depths of a tree
    with two leaves or more. *)
Lemma build_canonical_table_shape sf t :
  Forall (fun x : Z * Z => 0 <= x.1 /\ 0 <= x.2) sf ->
  build_canonical_table sf = OK t ->
  exists max_sym, 0 <= max_sym < 4294967295 /\
    (exists f, (max_sym, f) ∈ sf /\ f <> 0) /\
    (t = single_table max_sym \/
     exists lens,
       NoDup (map fst lens) /\
       Forall (fun x : Z * Z => 0 <= x.1 <= max_sym /\ 1 <= x.2 <= 32) lens /\
       kraft lens = 4294967296 /\
       max_sym ∈ map fst lens /\
       fill_table (canonical_codes (merge_sort len_sym_le lens))
         (mkTable (max_sym + 1) ∅ [mkNode (-1) (-1) (-1)]) = OK t /\
       Forall (fun x : Z * Z => exists f, (x.1, f) ∈ sf /\ f <> 0) lens).
Proof.
  intros Hall Hb. unfold build_canonical_table in Hb.
  destruct sf as [|x0 sf0] eqn:Hsf; [done|].
  rewrite <- Hsf in *. clear Hsf x0 sf0.
  destruct (scan_max sf 0 false) as [max_sym has] eqn:Hscan.
  destruct (scan_max_spec _ _ _ _ _ Hscan) as (Hm0 & Hle & _ & _).
  destruct has; [|done]. simpl negb in Hb. cbv iota in Hb.
  assert (Hall1 : Forall (fun x : Z * Z => 0 <= x.1) sf).
  { eapply Forall_impl; [exact Hall|]. simpl. intros ? [? ?]. done. }
  destruct (scan_max_attained sf 0 false max_sym true Hall1 ltac:(done) Hscan)
    as [[_ ?]|(s & f & Hin & Hf & Hs)]; [done|]. subst s.
  apply bind_OK_inv in Hb as (freqs & Hacc & Hb).
  assert (Hpos0 : positive_map ∅).
  { intros k v Hk. by rewrite lookup_empty in Hk. }
  assert (Hall2 : Forall (fun x : Z * Z => 0 <= x.2) sf).
  { eapply Forall_impl; [exact Hall|]. simpl. intros ? [? ?]. done. }
  destruct (accumulate_spec sf ∅ freqs Hpos0 Hall2 Hacc) as [Hpos Hdom].
  destruct (Z.ltb_spec 4294967295 (max_sym + 1)) as [|Hmax]; [done|].
  exists max_sym. split; [lia|]. split; [by exists f|].
  set (pq := pq_push_all (collect_leaves freqs)) in *.
  assert (Hpq : pq ≡ₚ collect_leaves freqs) by apply pq_push_all_perm.
  assert (Hleafs : forall h, h ∈ pq ->
            hleft h = -1 /\ hright h = -1 /\ 0 <= hsym h <= max_sym).
  { intros h Hh. rewrite Hpq in Hh. apply collect_leaves_elem in Hh
      as (i & v & -> & Hi & Hv). simpl. split; [done|]. split; [done|].
    destruct (proj1 (Hdom i) (ex_intro _ v Hi)) as [[? H]|(f' & Hin' & Hf')].
    - by rewrite lookup_empty in H.
    - split; [|by apply (Hle i f')].
      by pose proof (proj1 (Forall_forall _ _) Hall _ Hin') as [? _]. }
  assert (Hs_leaf : max_sym ∈ map hsym pq).
  { destruct (proj2 (Hdom max_sym) (or_intror (ex_intro _ f (conj Hin Hf))))
      as [v Hv].
    apply list_elem_of_fmap. exists (mkHeap v max_sym (-1) (-1)).
    split; [done|]. rewrite Hpq. apply collect_leaves_elem.
    exists max_sym, v. split; [done|]. split; [done|].
    pose proof (Hpos _ _ Hv). lia. }
  assert (Hnd : NoDup (map hsym pq)).
  { rewrite Hpq. apply collect_leaves_NoDup. }
  destruct (Nat.lt_ge_cases (length pq) 2) as [Hshort|Hlen2].
  { left. destruct pq as [|h1 [|h2 pq']];
      [by apply elem_of_nil in Hs_leaf | | simpl in Hshort; lia].
    injection Hb as <-. simpl in Hs_leaf.
    apply list_elem_of_singleton in Hs_leaf as <-.
    unfold single_table. by rewrite insert_empty. }
  right.
  assert (Hmatch : forall (A : Type) (a : HeapNode -> A) (b : A),
            match pq with [leaf] => a leaf | _ => b end = b).
  { intros A a b. destruct pq as [|h1 [|h2 pq']]; simpl in Hlen2; (done || lia). }
  rewrite Hmatch in Hb. clear Hmatch.
  set (Ts := map (fun h => Leaf (hsym h)) pq).
  assert (HF : Forall2 (repr []) pq Ts).
  { unfold Ts. apply Forall2_fmap_r. apply Forall_Forall2_diag.
    apply Forall_forall. intros h Hh. destruct (Hleafs h Hh) as (? & ? & _).
    simpl. auto. }
  assert (Hfs : forest_size Ts = (length ([] : list HeapNode) + length pq)%nat).
  { unfold Ts. apply forest_size_leaf_forest. }
  assert (Hpqne : pq <> []) by (intros E; rewrite E in Hlen2; simpl in Hlen2; lia).
  destruct (merge_loop_spec (length pq) pq [] Ts HF ltac:(lia) Hpqne Hfs)
    as (root & nodes & T & Hm & Hrepr & Hleaves & Hsize & Hleaf).
  rewrite Hm in Hb.
  apply bind_OK_inv in Hb as (lens & Hdfs & Hfill).
  assert (Hitems : Forall (item_repr root nodes) [(-1, 0, T)]).
  { constructor; [|constructor]. simpl. split; [lia | done]. }
  pose proof (dfs_spec root nodes (length nodes + 2) [(-1, 0, T)] [] Hitems
                ltac:(simpl; lia)) as Hd.
  cbn [map fst] in Hd. rewrite Hd in Hdfs. clear Hd.
  unfold items_ok, items_leaves in Hdfs. simpl in Hdfs.
  rewrite andb_true_r, app_nil_r in Hdfs.
  destruct (depth_ok T 0) eqn:Hok; [|done]. injection Hdfs as <-.
  assert (HTs : concat (map leaves Ts) = map hsym pq).
  { unfold Ts. apply leaves_leaf_forest. }
  destruct T as [s0|Tl Tr].
  { specialize (Hleaf s0 eq_refl). apply (f_equal length) in Hleaf.
    unfold Ts in Hleaf. rewrite length_map in Hleaf. simpl in Hleaf. lia. }
  exists (leaf_depths (Br Tl Tr) 0).
  set (lens := leaf_depths (Br Tl Tr) 0) in *.
  assert (Hfst : map fst lens ≡ₚ map hsym pq).
  { unfold lens. by rewrite leaf_depths_fst, Hleaves, HTs. }
  split; [by rewrite Hfst|]. split.
  { assert (Hrange : Forall (fun x : Z * Z => 1 <= x.2 <= 32) lens).
    { unfold lens. cbn [depth_ok leaf_depths] in Hok |- *.
      apply andb_prop in Hok as [Hok Hokr]. apply andb_prop in Hok as [_ Hokl].
      change (0 + 1) with 1 in *.
      apply Forall_app. split.
      - destruct (leaf_depths_range Tl 1 ltac:(lia) Hokl); [done | lia].
      - destruct (leaf_depths_range Tr 1 ltac:(lia) Hokr); [done | lia]. }
    apply Forall_forall. intros x Hx. split.
    - assert (Hx1 : x.1 ∈ map fst lens).
      { apply list_elem_of_fmap. by exists x. }
      rewrite Hfst in Hx1. apply list_elem_of_fmap in Hx1 as (h & -> & Hh).
      by destruct (Hleafs h Hh) as (_ & _ & ?).
    - by apply (proj1 (Forall_forall _ _) Hrange). }
  split.
  { unfold lens. rewrite leaf_depths_kraft by (done || lia). reflexivity. }
  split; [by rewrite Hfst|]. split; [exact Hfill|].
  apply Forall_forall. intros x Hx.
  assert (Hx1 : x.1 ∈ map fst lens).
  { apply list_elem_of_fmap. by exists x. }
  rewrite Hfst, Hpq in Hx1. apply list_elem_of_fmap in Hx1 as (h & -> & Hh).
  apply collect_leaves_elem in Hh as (i & v & -> & Hi & Hv). simpl.
  destruct (proj1 (Hdom i) (ex_intro _ v Hi)) as [[? H]|Hex]; [|done].
  by rewrite lookup_empty in H.
Qed.

End TableRebuild.

(** * The decoder rebuilds the table of the encoder *)

Section TableRebuildTheorems.
Import Huffman HuffSpec Codec Samples.

Lemma collect_single_table sym :
  collect_table_entries (single_table sym) = [(sym, 1)].
Proof.
  unfold collect_table_entries, single_table. cbn [enc enc_size].
  rewrite entries_by_index_singleton. cbn [omap list_omap valid len].
  destruct (Z.ltb_spec sym (sym + 1)); [done | lia].
Qed.

(** The entries written to the table section: symbols below [0xFFFFFFFF]
    with lengths from 1 to 32, and at least one of them. *)
Lemma collect_table_entries_range sf t :
  Forall (fun x : Z * Z => 0 <= x.1 /\ 0 <= x.2) sf ->
  build_canonical_table sf = OK t ->
  collect_table_entries t <> [] /\
  Forall (fun x : Z * Z => 0 <= x.1 < 4294967295 /\ 1 <= x.2 <= 32)
         (collect_table_entries t).
Proof.
  intros Hall Hb.
  destruct (build_canonical_table_shape sf t Hall Hb)
    as (M & HM & _ & [->|(lens & Hnd & Hrange & Hk & HMin & Hfill & _)]).
  { rewrite collect_single_table. split; [done|].
    repeat constructor; simpl; lia. }
  set (sorted := merge_sort len_sym_le lens) in *.
  assert (Hperm : sorted ≡ₚ lens) by apply merge_sort_Permutation.
  destruct (canonical_codes_props sorted) as (Hsym & Hclen & _).
  { apply sorted_lens_by_length. }
  { rewrite Hperm. eapply Forall_impl; [exact Hrange|]. simpl. lia. }
  { rewrite (kraft_perm _ _ Hperm). lia. }
  pose proof (pair_of_maps c_symbol c_len _ _ Hsym Hclen) as Hpairs.
  assert (Hcollect : collect_table_entries t ≡ₚ lens).
  { rewrite <- Hperm, <- Hpairs. eapply collect_table_entries_fill; [| |exact Hfill].
    - rewrite Hsym, Hperm. exact Hnd.
    - apply Forall_forall. intros ce Hce.
      assert (Hc : c_len ce ∈ map c_len (canonical_codes sorted)).
      { apply list_elem_of_fmap. by exists ce. }
      rewrite Hclen in Hc. apply list_elem_of_fmap in Hc as (x & -> & Hx).
      rewrite Hperm in Hx.
      pose proof (proj1 (Forall_forall _ _) Hrange x Hx). simpl in *. lia. }
  split.
  - intros Hnil. rewrite Hnil in Hcollect. symmetry in Hcollect.
    apply Permutation_nil_r in Hcollect. rewrite Hcollect in HMin.
    by apply elem_of_nil in HMin.
  - rewrite Hcollect. eapply Forall_impl; [exact Hrange|]. simpl. lia.
Qed.

(** Every entry written to the table section belongs to a symbol of
    non-zero frequency. *)
Lemma collect_table_entries_used sf t :
  Forall (fun x : Z * Z => 0 <= x.1 /\ 0 <= x.2) sf ->
  build_canonical_table sf = OK t ->
  Forall (fun x : Z * Z => exists f, (x.1, f) ∈ sf /\ f <> 0)
         (collect_table_entries t).
Proof.
  intros Hall Hb.
  destruct (build_canonical_table_shape sf t Hall Hb)
    as (M & HM & Hused
        & [->|(lens & Hnd & Hrange & Hk & HMin & Hfill & Hlens)]).
  { rewrite collect_single_table. by constructor. }
  set (sorted := merge_sort len_sym_le lens) in *.
  assert (Hperm : sorted ≡ₚ lens) by apply merge_sort_Permutation.
  destruct (canonical_codes_props sorted) as (Hsym & Hclen & _).
  { apply sorted_lens_by_length. }
  { rewrite Hperm. eapply Forall_impl; [exact Hrange|]. simpl. lia. }
  { rewrite (kraft_perm _ _ Hperm). lia. }
  pose proof (pair_of_maps c_symbol c_len _ _ Hsym Hclen) as Hpairs.
  assert (Hcollect : collect_table_entries t ≡ₚ lens).
  { rewrite <- Hperm, <- Hpairs.
    eapply collect_table_entries_fill; [| |exact Hfill].
    - rewrite Hsym, Hperm. exact Hnd.
    - apply Forall_forall. intros ce Hce.
      assert (Hc : c_len ce ∈ map c_len (canonical_codes sorted)).
      { apply list_elem_of_fmap. by exists ce. }
      rewrite Hclen in Hc. apply list_elem_of_fmap in Hc as (x & -> & Hx).
      rewrite Hperm in Hx.
      pose proof (proj1 (Forall_forall _ _) Hrange x Hx). simpl in *. lia. }
  by rewrite Hcollect.
Qed.

Lemma table_rebuild sf t entries :
  Forall (fun x : Z * Z => 0 <= x.1 /\ 0 <= x.2) sf ->
  build_canonical_table sf = OK t ->
  entries ≡ₚ collect_table_entries t ->
  build_table_from_code_lengths entries = OK t.
Proof.
  intros Hall Hb Hent.
  destruct (build_canonical_table_shape sf t Hall Hb)
    as (M & HM & _ & [->|(lens & Hnd & Hrange & Hk & HMin & Hfill & _)]).
  { rewrite collect_single_table in Hent.
    apply Permutation_singleton_r in Hent as ->.
    apply single_symbol_rebuild. lia. }
  set (sorted := merge_sort len_sym_le lens) in *.
  assert (Hperm : sorted ≡ₚ lens) by apply merge_sort_Permutation.
  assert (Hlens32 : Forall (fun x : Z * Z => 1 <= x.2 <= 32) lens).
  { eapply Forall_impl; [exact Hrange|]. simpl. lia. }
  destruct (canonical_codes_props sorted) as (Hsym & Hclen & _).
  { apply sorted_lens_by_length. }
  { by rewrite Hperm. }
  { rewrite (kraft_perm _ _ Hperm). lia. }
  pose proof (pair_of_maps c_symbol c_len _ _ Hsym Hclen) as Hpairs.
  assert (Hcsym : map c_symbol (canonical_codes sorted) ≡ₚ map fst lens).
  { by rewrite Hsym, Hperm. }
  assert (Hcollect : collect_table_entries t ≡ₚ sorted).
  { rewrite <- Hpairs. eapply collect_table_entries_fill; [| |exact Hfill].
    - by rewrite Hcsym.
    - apply Forall_forall. intros ce Hce.
      assert (Hc : c_len ce ∈ map c_len (canonical_codes sorted)).
      { apply list_elem_of_fmap. by exists ce. }
      rewrite Hclen in Hc. apply list_elem_of_fmap in Hc as (x & -> & Hx).
      rewrite Hperm in Hx.
      pose proof (proj1 (Forall_forall _ _) Hlens32 x Hx). simpl in *. lia. }
  assert (Hsame : merge_sort len_sym_le entries = sorted).
  { apply (StronglySorted_unique len_sym_le).
    - apply StronglySorted_merge_sort; apply _.
    - apply StronglySorted_merge_sort; apply _.
    - by rewrite merge_sort_Permutation, Hent, Hcollect. }
  assert (Hel : entries ≡ₚ lens) by (by rewrite Hent, Hcollect).
  unfold build_table_from_code_lengths.
  destruct entries as [|e0 entries0] eqn:He.
  { symmetry in Hel. apply Permutation_nil_r in Hel. rewrite Hel in HMin.
    by apply elem_of_nil in HMin. }
  rewrite <- He in *. clear He e0 entries0.
  rewrite existsb_none.
  2:{ rewrite Hel. eapply Forall_impl; [exact Hlens32|]. simpl. intros x Hx.
      destruct (Z.eqb_spec x.2 0); [lia|].
      destruct (Z.ltb_spec 32 x.2); [lia | done]. }
  cbv zeta. rewrite Hsame.
  assert (Hcs : Forall (fun ce => 0 <= c_symbol ce <= M)
                       (canonical_codes sorted)).
  { apply Forall_forall. intros ce Hce.
    assert (Hc : c_symbol ce ∈ map c_symbol (canonical_codes sorted)).
    { apply list_elem_of_fmap. by exists ce. }
    rewrite Hcsym in Hc. apply list_elem_of_fmap in Hc as (x & -> & Hx).
    pose proof (proj1 (Forall_forall _ _) Hrange x Hx). simpl in *. lia. }
  rewrite (foldl_max_symbol _ M).
  2:{ eapply Forall_impl; [exact Hcs|]. simpl. lia. }
  2:{ lia. }
  2:{ right. by rewrite Hcsym. }
  rewrite u32_small by lia.
  apply fill_table_dec_eq; [|exact Hfill].
  eapply Forall_impl; [exact Hcs|]. simpl. lia.
Qed.

(** The table that [build_canonical_table] returns for a histogram of
    32-bit symbols is the table that [build_table_from_code_lengths]
    rebuilds from the (symbol, length) pairs of the used symbols, in
    whatever order the pairs are listed: the decoder works with the code
    and the decode trie of the encoder. *)
Theorem canonical_table_rebuild (sf : list (Z * Z)) (t : HuffTable)
    (entries : list (Z * Z)) :
  Forall (fun x : Z * Z => 0 <= x.1 /\ 0 <= x.2) sf ->
  build_canonical_table sf = OK t ->
  entries ≡ₚ collect_table_entries t ->
  build_table_from_code_lengths entries = OK t.
Proof. exact (table_rebuild sf t entries). Qed.

Lemma canonical_table_rebuild_witness :
  Forall (fun x : Z * Z => 0 <= x.1 /\ 0 <= x.2) sample_histogram /\
  build_canonical_table sample_histogram = OK sample_table /\
  [(3, 1); (2, 2); (1, 3); (0, 3)] ≡ₚ collect_table_entries sample_table /\
  build_table_from_code_lengths [(3, 1); (2, 2); (1, 3); (0, 3)]
    = OK sample_table.
Proof.
  assert (H1 : Forall (fun x : Z * Z => 0 <= x.1 /\ 0 <= x.2) sample_histogram).
  { repeat constructor; simpl; lia. }
  assert (H2 : build_canonical_table sample_histogram = OK sample_table)
    by (vm_compute; reflexivity).
  assert (H3 : [(3, 1); (2, 2); (1, 3); (0, 3)]
               ≡ₚ collect_table_entries sample_table).
  { assert (Hc : collect_table_entries sample_table
                 = [(0, 3); (1, 3); (2, 2); (3, 1)]) by (vm_compute; reflexivity).
    rewrite Hc. exact (reverse_Permutation [(0, 3); (1, 3); (2, 2); (3, 1)]). }
  split; [exact H1|]. split; [exact H2|]. split; [exact H3|].
  exact (canonical_table_rebuild sample_histogram sample_table _ H1 H2 H3).
Defined.

Lemma code_path_prefix nodes p : forall k rest s s',
  code_path nodes k p s -> code_path nodes k (p ++ rest) s' ->
  rest = [] /\ s = s'.
Proof.
  induction p as [|b p IH]; intros k rest s s' H1 H2.
  - destruct H1 as (nd & Hnd & Hs & Hne). destruct rest as [|b rest].
    + destruct H2 as (nd' & Hnd' & Hs' & _). split; [done|]. congruence.
    + destruct H2 as (nd' & Hnd' & Hs' & _). congruence.
  - destruct H1 as (nd & Hnd & _ & _ & H1).
    destruct H2 as (nd' & Hnd' & _ & _ & H2).
    rewrite Hnd in Hnd'. injection Hnd' as <-. by apply (IH _ _ _ _ H1 H2).
Qed.

(** The code is a prefix code: among the symbols of non-zero frequency, the
    bits written for one symbol never start the bits written for another. *)
Theorem huffman_codes_prefix_free (sf : list (Z * Z)) (t : HuffTable)
    (s1 f1 s2 f2 : Z) :
  Forall (fun x : Z * Z => 0 <= x.1 /\ 0 <= x.2) sf ->
  build_canonical_table sf = OK t ->
  (s1, f1) ∈ sf -> f1 <> 0 -> (s2, f2) ∈ sf -> f2 <> 0 ->
  s1 <> s2 ->
  ~ sym_bits t s1 `prefix_of` sym_bits t s2.
Proof.
  intros Hall Hb H1 Hf1 H2 Hf2 Hne [rest Hrest]. apply Hne.
  destruct (build_canonical_table_codes sf t Hall Hb s1 f1 H1 Hf1)
    as (Hr1 & _ & _ & _ & Hp1).
  destruct (build_canonical_table_codes sf t Hall Hb s2 f2 H2 Hf2)
    as (Hr2 & _ & _ & _ & Hp2).
  rewrite Hrest in Hp2.
  destruct (code_path_prefix _ _ _ _ _ _ Hp1 Hp2) as [_ Heq].
  rewrite <- (u32_i32 s1 Hr1), <- (u32_i32 s2 Hr2). by rewrite Heq.
Qed.

Lemma huffman_codes_prefix_free_witness :
  (Forall (fun x : Z * Z => 0 <= x.1 /\ 0 <= x.2) sample_histogram /\
   build_canonical_table sample_histogram = OK sample_table /\
   (2, 2) ∈ sample_histogram /\ 2 <> 0 /\
   (0, 1) ∈ sample_histogram /\ 1 <> 0 /\ 2 <> 0) /\
  sym_bits sample_table 2 = [true; false] /\
  sym_bits sample_table 0 = [true; true; false] /\
  ~ sym_bits sample_table 2 `prefix_of` sym_bits sample_table 0.
Proof.
  assert (H1 : Forall (fun x : Z * Z => 0 <= x.1 /\ 0 <= x.2) sample_histogram).
  { repeat constructor; simpl; lia. }
  assert (H2 : build_canonical_table sample_histogram = OK sample_table)
    by (vm_compute; reflexivity).
  assert (H3 : (2, 2) ∈ sample_histogram).
  { apply list_elem_of_In. simpl. tauto. }
  assert (H4 : 2 <> 0) by lia.
  assert (H5 : (0, 1) ∈ sample_histogram).
  { apply list_elem_of_In. simpl. tauto. }
  assert (H6 : 1 <> 0) by lia.
  split; [tauto|].
  split; [vm_compute; reflexivity|]. split; [vm_compute; reflexivity|].
  exact (huffman_codes_prefix_free sample_histogram sample_table 2 2 0 1
           H1 H2 H3 H4 H5 H6 H4).
Defined.

End TableRebuildTheorems.

(** * The size of the coded stream *)

Section CodedSize.
Import Huffman HuffSpec Samples.

(** After the flush the writer holds the bits written so far in whole
    bytes: their number, rounded up to a multiple of eight. *)
Lemma flush_length w bs :
  writer_holds w bs ->
  zlen (bw_data (flush w)) = (Z.of_nat (length bs) + 7) / 8.
Proof.
  intros (partial & Hbs & Hlen & Hcur & Hpos). unfold flush. rewrite Hpos.
  assert (Hl : Z.of_nat (length bs) =
               8 * zlen (bw_data w) + Z.of_nat (length partial)).
  { rewrite Hbs, length_app, stream_bits_length. unfold zlen. lia. }
  rewrite Hl.
  destruct (Z.ltb_spec 0 (Z.of_nat (length partial))) as [Hp|Hp].
  - cbn [bw_data]. rewrite zlen_app. change (zlen [_]) with 1.
    apply (Z.div_unique _ _ _ (Z.of_nat (length partial) - 1)); lia.
  - apply (Z.div_unique _ _ _ 7); lia.
Qed.

Lemma sym_bits_total t syms :
  Forall (codes_symbol t) syms ->
  Z.of_nat (length (concat (map (sym_bits t) syms)))
  = foldr Z.add 0 (map (fun x => len (enc_at t x)) syms).
Proof.
  induction 1 as [|s syms Hs _ IH]; [done|].
  cbn [map concat foldr]. rewrite length_app, Nat2Z.inj_add, IH.
  f_equal. unfold sym_bits. rewrite code_bits_length.
  destruct Hs as (_ & _ & _ & Hlen & _). lia.
Qed.

Lemma huff_encode_length s t bits :
  Forall (fun x => 0 <= x < 4294967296) s ->
  huff_encode s = OK (t, bits) ->
  Forall (fun x => 1 <= len (enc_at t x) <= 32) s /\
  zlen bits = (foldr Z.add 0 (map (fun x => len (enc_at t x)) s) + 7) / 8.
Proof.
  intros Hrange Henc.
  destruct (huff_encode_codes s t bits Hrange Henc) as (Hcodes & w & Hw & ->).
  split.
  { eapply Forall_impl; [exact Hcodes|]. by intros x (_ & _ & _ & Hlen & _). }
  destruct (encode_symbols_codes t s bw_init [] Hcodes writer_holds_init)
    as (w' & Hw' & Hholds).
  rewrite Hw in Hw'. injection Hw' as <-.
  rewrite (flush_length w _ Hholds). cbn [app].
  by rewrite sym_bits_total.
Qed.

(** The bytes [huff_encode] returns hold the codes of the symbols and
    nothing more: every symbol has a code of 1 to 32 bits, and the number
    of bytes is the total of the code lengths over the stream, rounded up
    to whole bytes. *)
Theorem huff_encode_size (s : list Z) (t : HuffTable) (bits : list Z) :
  Forall (fun x => 0 <= x < 4294967296) s ->
  huff_encode s = OK (t, bits) ->
  Forall (fun x => 1 <= len (enc_at t x) <= 32) s /\
  zlen bits = (foldr Z.add 0 (map (fun x => len (enc_at t x)) s) + 7) / 8.
Proof. exact (huff_encode_length s t bits). Qed.

Lemma huff_encode_size_witness :
  (Forall (fun x => 0 <= x < 4294967296) self_test_symbols /\
   huff_encode self_test_symbols = OK (sample_table, [110; 160])) /\
  foldr Z.add 0 (map (fun x => len (enc_at sample_table x)) self_test_symbols)
    = 13 /\
  zlen [110; 160] = (13 + 7) / 8.
Proof.
  assert (Hr : Forall (fun x => 0 <= x < 4294967296) self_test_symbols).
  { repeat constructor; lia. }
  assert (He : huff_encode self_test_symbols = OK (sample_table, [110; 160]))
    by (vm_compute; reflexivity).
  split; [auto|].
  assert (Hs : foldr Z.add 0 (map (fun x => len (enc_at sample_table x))
                                   self_test_symbols) = 13)
    by (vm_compute; reflexivity).
  split; [exact Hs|]. rewrite <- Hs.
  exact (proj2 (huff_encode_size self_test_symbols sample_table [110; 160]
                  Hr He)).
Defined.

End CodedSize.

(** * The stages of the encoder, one by one *)

Section Stages.
Import Img Rle Huffman HuffSpec Bitstream Block Fp Quant Dct Codec CodecSpec.

Variable fcos : spec_float -> spec_float.

(** The pairs of an encoded buffer expand to the buffer. *)
Lemma rle_encode_expand x B rle :
  rle_encode_zeros x B = OK rle ->
  (B = 8 \/ B = 16) /\ expand rle = x.
Proof.
  unfold rle_encode_zeros. intros H.
  destruct (negb (B =? 8) && negb (B =? 16)) eqn:HB; [done|].
  assert (HB' : B = 8 \/ B = 16).
  { apply andb_false_iff in HB as [HB|HB]; apply negb_false_iff, Z.eqb_eq in HB;
      auto. }
  destruct (Z.eqb_spec (zlen x mod (B * B)) 0) as [Hmod|]; [|done].
  simpl in H. injection H as <-. split; [done|].
  assert (Hbb : 0 < B * B <= 256) by (destruct HB'; subst; lia).
  apply Z.mod_divide in Hmod as [k Hk]; [|lia].
  pose proof (zlen_nonneg x) as Hx.
  destruct (rle_blocks_spec (Z.to_nat (B * B)) ltac:(lia) ltac:(lia)
              (Z.to_nat k) x (length x) []) as (ps & Henc & Hexp).
  { unfold zlen in Hk. nia. }
  { lia. }
  by rewrite Henc.
Qed.

Lemma expand_values ps p : p ∈ ps -> value p ∈ expand ps.
Proof.
  intros Hp. unfold expand. apply list_elem_of_In, in_concat.
  exists (replicate (Z.to_nat (run p)) 0 ++ [value p]). split.
  - apply list_elem_of_In in Hp.
    exact (in_map (fun p => replicate (Z.to_nat (run p)) 0 ++ [value p]) _ _ Hp).
  - apply in_or_app. right. by left.
Qed.

Lemma rle_decode_expand rle B :
  B = 8 \/ B = 16 ->
  rle_decode_zeros rle B (zlen (expand rle)) = OK (expand rle).
Proof.
  intros HB. unfold rle_decode_zeros.
  assert (HB' : negb (B =? 8) && negb (B =? 16) = false)
    by (destruct HB; subst; reflexivity).
  rewrite HB'. rewrite (rle_decode_loop_expand rle _ []) by (simpl; lia).
  simpl. by rewrite Z.eqb_refl.
Qed.

Lemma quantize_loop_range inv_step x : forall q,
  quantize_loop inv_step x = OK q ->
  length q = length x /\ Forall (fun v => -32768 <= v <= 32767) q.
Proof.
  induction x as [|c x IH]; intros q H.
  { injection H as <-. by split. }
  cbn [quantize_loop] in H.
  apply bind_OK_inv in H as (q0 & Hq0 & H).
  apply bind_OK_inv in H as (qs & Hqs & H). injection H as <-.
  destruct (IH _ Hqs) as [Hlen Hall]. split; [simpl; by rewrite Hlen|].
  constructor; [|done]. unfold quantize_one in Hq0.
  destruct (round_half_away _) as [r|]; [|done].
  destruct (_ || _); [done|]. cbv zeta in Hq0. injection Hq0 as <-.
  destruct (Z.ltb_spec 32767 r).
  - destruct (Z.ltb_spec 32767 (-32768)); lia.
  - destruct (Z.ltb_spec r (-32768)); lia.
Qed.

Lemma quantize_range coeffs B quality q :
  quantize coeffs B quality = OK q ->
  zlen q = zlen coeffs /\ Forall (fun v => -32768 <= v <= 32767) q.
Proof.
  unfold quantize. intros H.
  destruct (negb (B =? 8) && negb (B =? 16)); [done|].
  destruct (negb _); [done|].
  apply quantize_loop_range in H as [Hlen Hall]. unfold zlen.
  by rewrite Hlen.
Qed.

Lemma concat_const_length {A} (ls : list (list A)) (n : nat) :
  Forall (fun l => length l = n) ls -> length (concat ls) = (length ls * n)%nat.
Proof.
  induction 1 as [|l ls Hl _ IH]; [done|].
  cbn [concat length]. rewrite length_app, IH, Hl. lia.
Qed.

Lemma length_seqZ_nat n : 0 <= n -> length (seqZ 0 n) = Z.to_nat n.
Proof. intros _. by rewrite length_seqZ. Qed.

Lemma dct_block_length N src :
  0 <= N -> length (dct_block fcos N src) = Z.to_nat (N * N).
Proof.
  intros HN. unfold dct_block. cbv zeta.
  rewrite (concat_const_length _ (Z.to_nat N)).
  - rewrite length_map, length_seqZ. lia.
  - apply List.Forall_map, Forall_forall. intros v _. cbv beta.
    by rewrite length_map, length_seqZ.
Qed.

Lemma dct2d_blocks_length blocks N coeffs :
  dct2d_blocks fcos blocks N = OK coeffs -> zlen coeffs = zlen blocks.
Proof.
  unfold dct2d_blocks. cbv zeta. intros H.
  destruct (negb (N =? 8) && negb (N =? 16)) eqn:HN; [done|].
  assert (HN' : N = 8 \/ N = 16).
  { apply andb_false_iff in HN as [HN|HN]; apply negb_false_iff, Z.eqb_eq in HN;
      auto. }
  destruct (Z.eqb_spec (Z.rem (zlen blocks) (N * N)) 0) as [Hrem|]; [|done].
  simpl in H. injection H as <-.
  pose proof (zlen_nonneg blocks) as Hb.
  assert (Hbb : 0 < N * N) by (destruct HN'; subst; lia).
  unfold zlen at 1.
  rewrite (concat_const_length _ (Z.to_nat (N * N))).
  - rewrite length_map, length_seqZ.
    rewrite Z.rem_mod_nonneg in Hrem by lia.
    rewrite Z.quot_div_nonneg by lia.
    apply Z.mod_divide in Hrem as [k Hk]; [|lia].
    rewrite Hk, Z.div_mul by lia. nia.
  - apply List.Forall_map, Forall_forall. intros b _. cbv beta.
    apply dct_block_length. lia.
Qed.

Lemma at_range (P : Z -> Prop) (v : list Z) i :
  P 0 -> Forall P v -> P (at_ v i).
Proof.
  intros H0 Hall. unfold at_.
  destruct (v !! Z.to_nat i) as [x|] eqn:E; simpl; [|done].
  eapply Forall_lookup_1; eauto.
Qed.

Lemma zigzag_scan_range (P : Z -> Prop) x B s :
  P 0 -> Forall P x -> zigzag_scan_blocks x B = OK s -> Forall P s.
Proof.
  intros H0 Hall. unfold zigzag_scan_blocks. intros H.
  destruct (negb (B =? 8) && negb (B =? 16)); [done|]. cbv zeta in H.
  destruct (negb _); [done|].
  apply bind_OK_inv in H as (order & _ & H). injection H as <-.
  apply Forall_concat, List.Forall_map, Forall_forall. intros b _. cbv beta.
  apply List.Forall_map, Forall_forall. intros i _.
  apply at_range; [done|]. unfold block_at.
  by apply Forall_take, Forall_drop.
Qed.

(** What [huff_encode] went through. *)
Lemma huff_encode_inv symbols table huff :
  Forall (fun x => 0 <= x < 4294967296) symbols ->
  huff_encode symbols = OK (table, huff) ->
  (exists sf, Forall (fun x : Z * Z => 0 <= x.1 /\ 0 <= x.2) sf /\
              build_canonical_table sf = OK table) /\
  huff_decode huff table (zlen symbols) = OK symbols.
Proof.
  intros Hrange Henc.
  destruct (huff_encode_codes symbols table huff Hrange Henc)
    as (Hcodes & w & Hw & ->).
  split.
  - unfold huff_encode in Henc.
    destruct symbols as [|s0 s'] eqn:Hs; [done|]. rewrite <- Hs in *.
    apply bind_OK_inv in Henc as (sf & Hsf & Henc).
    apply bind_OK_inv in Henc as (t' & Ht & Henc).
    apply bind_OK_inv in Henc as (w' & Hw' & Henc).
    injection Henc as -> _.
    destruct (build_symbol_frequencies_spec _ _ Hsf) as [Hpos Hdom].
    exists sf. split; [|done].
    apply Forall_forall. intros [x f] Hin. simpl. split.
    + assert (Hx : x ∈ symbols) by (apply Hdom; eauto).
      pose proof (proj1 (Forall_forall _ _) Hrange x Hx) as Hx0.
      simpl in Hx0. lia.
    + pose proof (proj1 (Forall_forall _ _) Hpos _ Hin). simpl in *. lia.
  - destruct (table_round_trip table symbols Hcodes) as (w' & Hw' & Hdec).
    rewrite Hw in Hw'. by injection Hw' as <-.
Qed.

End Stages.

(** * From the encoder to the decoder *)

Section EncodeStages.
Import Img Rle Huffman HuffSpec Bitstream Block Fp Quant Dct Codec CodecSpec.

Variable fcos : spec_float -> spec_float.

(** Every stage of a successful run of the encoder, with its result. *)
Lemma encode_stages im quality bytes :
  encode_to_mcodec fcos im quality = OK bytes ->
  exists img grid blocks coeffs qcoeff zz rle table huff,
    channels im = 1 /\ 0 < width im /\ 0 < height im /\
    zlen (pixels im) = width im * height im /\
    apply_level_shift im = OK img /\
    make_grid (width img) (height img) 8 = OK grid /\
    tile_to_blocks img grid = OK blocks /\
    dct2d_blocks fcos blocks 8 = OK coeffs /\
    quantize coeffs 8 quality = OK qcoeff /\
    zigzag_scan_blocks qcoeff 8 = OK zz /\
    rle_encode_zeros zz 8 = OK rle /\
    huff_encode (pack_rle_symbols rle) = OK (table, huff) /\
    let entries := merge_sort len_sym_le (collect_table_entries table) in
    let payload := u32 (u32 (8 + u32 (zlen entries) * 5) + u32 (zlen huff)) in
    bytes =
      patch_payload_bytes
        (write_bytes huff (write_table_entries entries
           (write_u32_le (u32 (zlen entries))
              (write_u32_le (u32 (zlen (pack_rle_symbols rle)))
                 (write_bitstream_header [] img
                    (if negb (is_signed im) then 1 else 0) 8 quality)))))
        payload /\
    zlen bytes = u32 (32 + payload).
Proof.
  unfold encode_to_mcodec. intros H.
  destruct (negb (channels im =? 1)) eqn:Hch; [done|].
  destruct ((width im <=? 0) || (height im <=? 0)) eqn:Hwh; [done|].
  destruct (negb (zlen (pixels im) =? width im * height im)) eqn:Hpx; [done|].
  cbv zeta in H.
  apply bind_OK_inv in H as (img & Hshift & H).
  apply bind_OK_inv in H as (grid & Hgrid & H).
  apply bind_OK_inv in H as (blocks & Htile & H).
  apply bind_OK_inv in H as (coeffs & Hdct & H).
  apply bind_OK_inv in H as (qcoeff & Hq & H).
  apply bind_OK_inv in H as (zz & Hzz & H).
  apply bind_OK_inv in H as (rle & Hrle & H).
  apply bind_OK_inv in H as ([table huff] & Hhuff & H).
  exists img, grid, blocks, coeffs, qcoeff, zz, rle, table, huff.
  tests_to_props.
  do 12 (split; [done || lia|]).
  cbv zeta.
  change (4 + 4) with 8 in *. change (4 + 1) with 5 in *.
  change kMCodecHeaderBytes with 32 in *.
  remember (merge_sort len_sym_le (collect_table_entries table)) as entries
    eqn:He.
  destruct entries as [|e es]; [done|].
  destruct (_ <? 32) in H; [done|].
  destruct (negb _) eqn:Hsz in H; [done|].
  injection H as <-. tests_to_props. split; done.
Qed.

(** The buffer of a container, field by field. *)
Lemma patched_layout img flg quality sc entries huff bytes :
  let payload := u32 (u32 (8 + u32 (zlen entries) * 5) + u32 (zlen huff)) in
  bytes =
    patch_payload_bytes
      (write_bytes huff (write_table_entries entries
         (write_u32_le (u32 (zlen entries))
            (write_u32_le sc
               (write_bitstream_header [] img flg 8 quality)))))
      payload ->
  zlen bytes = u32 (32 + payload) ->
  40 + 5 * zlen entries + zlen huff < 4294967296 /\
  zlen bytes = 40 + 5 * zlen entries + zlen huff /\
  bytes =
    [77; 67; 68; 67] ++ le16 1 ++ le16 32 ++
    le32 (u32 (width img)) ++ le32 (u32 (height img)) ++
    le16 (u16 (channels img)) ++ le16 (u16 (bits_allocated img)) ++
    le16 (u16 (bits_stored img)) ++ [if is_signed img then 1 else 0] ++
    [flg] ++ le16 8 ++ le16 (u16 quality) ++
    le32 (8 + 5 * zlen entries + zlen huff) ++
    (le32 sc ++ le32 (zlen entries) ++
     concat (map entry_bytes entries) ++ huff).
Proof.
  intros payload Hbytes Hlen.
  rewrite write_bitstream_header_spec in Hbytes.
  unfold write_bytes in Hbytes.
  rewrite write_table_entries_spec, !write_u32_le_spec in Hbytes.
  set (pre := [77; 67; 68; 67] ++ le16 1 ++ le16 32 ++
    le32 (u32 (width img)) ++ le32 (u32 (height img)) ++
    le16 (u16 (channels img)) ++ le16 (u16 (bits_allocated img)) ++
    le16 (u16 (bits_stored img)) ++ [if is_signed img then 1 else 0] ++
    [flg] ++ le16 (u16 8) ++ le16 (u16 quality)).
  set (rest := le32 sc ++ le32 (u32 (zlen entries)) ++
               concat (map entry_bytes entries) ++ huff).
  assert (Hpre : length pre = 28%nat) by done.
  assert (Hb : bytes = pre ++ le32 payload ++ rest).
  { rewrite Hbytes, <- (patch_payload_bytes_spec pre rest payload Hpre).
    f_equal; try (subst pre rest; rewrite <- ?app_assoc; done). }
  assert (Hz : zlen bytes = 40 + 5 * zlen entries + zlen huff).
  { rewrite Hb. subst rest. rewrite !zlen_app, concat_entry_bytes_length.
    unfold zlen at 1 2 3 4. rewrite Hpre. simpl length. lia. }
  pose proof (zlen_nonneg entries) as Hn0. pose proof (zlen_nonneg huff) as Hh0.
  assert (Hlt : 40 + 5 * zlen entries + zlen huff < 4294967296).
  { rewrite <- Hz, Hlen. unfold u32. apply Z.mod_pos_bound. lia. }
  assert (Hu : u32 (zlen entries) = zlen entries).
  { unfold u32. apply Z.mod_small. lia. }
  assert (Hpay : payload = 8 + 5 * zlen entries + zlen huff).
  { subst payload. rewrite Hu. unfold u32.
    rewrite (Z.mod_small (8 + _)) by lia.
    rewrite (Z.mod_small (zlen huff)) by lia.
    rewrite Z.mod_small by lia. lia. }
  split; [done|]. split; [done|]. rewrite Hb. subst pre rest.
  rewrite Hu, Hpay. rewrite <- !app_assoc. done.
Qed.

End EncodeStages.

(** * The decoder on a container written by the encoder *)

Section DecodeEncode.
Import Img Rle Huffman HuffSpec Bitstream Block Fp Quant Dct Codec CodecSpec.

Variable fcos : spec_float -> spec_float.

Lemma i32_small z : 0 <= z < 2147483648 -> i32 z = z.
Proof.
  intros Hz. unfold i32. cbv zeta. rewrite Z.mod_small by lia.
  destruct (Z.ltb_spec z 2147483648); lia.
Qed.

Lemma tile_to_blocks_length img grid blocks :
  tile_to_blocks img grid = OK blocks ->
  zlen blocks = padded_w grid * padded_h grid.
Proof.
  unfold tile_to_blocks. intros H. result_inv H. injection H as <-.
  tests_to_props.
  assert (Hrows : forall ys (px : list Z),
    length (foldl (fun padded y =>
              foldl (fun padded x =>
                       <[Z.to_nat (y * padded_w grid + x) :=
                           at_ (pixels img) (y * width img + x)]> padded)
                    padded (seqZ 0 (width img))) px ys) = length px).
  { induction ys as [|y ys IH]; intros px; [done|].
    cbn [foldl]. rewrite IH.
    apply (foldl_insert_length (fun x => Z.to_nat (y * padded_w grid + x))
             (fun x => at_ (pixels img) (y * width img + x))). }
  unfold zlen. rewrite Hrows, length_replicate. nia.
Qed.

(** The decoder parses the container of a successful run of the encoder
    back to the quantised coefficients of that run, and goes on from
    there. *)
Lemma decode_encode_eq im quality bytes :
  encode_to_mcodec fcos im quality = OK bytes ->
  (width im + 7) * (height im + 7) < 4294967296 ->
  exists img grid blocks coeffs qcoeff,
    apply_level_shift im = OK img /\
    make_grid (width im) (height im) 8 = OK grid /\
    tile_to_blocks img grid = OK blocks /\
    dct2d_blocks fcos blocks 8 = OK coeffs /\
    quantize coeffs 8 quality = OK qcoeff /\
    decode_from_mcodec fcos bytes =
      (coeffs' ← dequantize qcoeff 8 (u16 quality);
       blocks' ← idct2d_blocks fcos coeffs' 8;
       im1 ← untile_from_blocks
                (mkImage (width im) (height im) 1 (bits_stored im)
                   (u16 (bits_allocated im)) true S16 []) grid blocks';
       im2 ← (if is_signed im then OK im1 else inverse_level_shift im1);
       if negb (zlen (pixels im2) =? width im2 * height im2 * channels im2)
       then Err "decode: decoded pixel count mismatch" else OK im2).
Proof.
  intros Henc Hsize.
  destruct (encode_stages fcos im quality bytes Henc)
    as (img & grid & blocks & coeffs & qcoeff & zz & rle & table & huff
        & Hch & Hw & Hh & Hpx & Hshift & Hgrid & Htile & Hdct & Hq & Hzz
        & Hrle & Hhuff & Hrest).
  cbv zeta in Hrest. destruct Hrest as [Hbytes Hlen].
  destruct (apply_level_shift_fields im img Hshift)
    as (Ew & Eh & Ec & Ebs & Eba & Hsgn).
  destruct Hsgn as [Hsgn Hbs].
  { intros Hnil. rewrite Hnil in Hpx. unfold zlen in Hpx. simpl in Hpx. nia. }
  rewrite Ew, Eh in Hgrid.
  exists img, grid, blocks, coeffs, qcoeff. do 5 (split; [done|]).
  (* sizes of the stages *)
  assert (Hwb : width im + 8 - 1 <= 2147483647) by nia.
  assert (Hhb : height im + 8 - 1 <= 2147483647) by nia.
  destruct (make_grid_inv _ _ _ _ Hgrid Hwb Hhb)
    as (_ & _ & _ & Hbsz & Hbx & Hby & Hpw & Hph & Hpwr & Hphr).
  pose proof (tile_to_blocks_length _ _ _ Htile) as Lb.
  pose proof (dct2d_blocks_length fcos _ _ _ Hdct) as Lc.
  destruct (quantize_range _ _ _ _ Hq) as [Lq Rq].
  assert (Hmod : zlen qcoeff mod (8 * 8) = 0).
  { rewrite Lq, Lc, Lb, Hpw, Hph. apply Z.mod_divide; [lia|].
    exists (blocks_x grid * blocks_y grid). lia. }
  destruct (zigzag_round_trip_blocks qcoeff 8 (or_introl eq_refl) Hmod)
    as (s & Hs & Ls & Hinv).
  rewrite Hzz in Hs. injection Hs as <-.
  assert (Rzz : Forall (fun v => -32768 <= v <= 32767) zz).
  { apply (zigzag_scan_range _ qcoeff 8 zz); [lia | exact Rq | exact Hzz]. }
  destruct (rle_encode_expand _ _ _ Hrle) as [_ Hexp].
  destruct (rle_encode_shape _ _ _ Hrle) as [Hruns Lrle].
  assert (Hpairs : Forall (fun p => -32768 <= value p <= 32767 /\
                                    0 <= run p <= 65535) rle).
  { apply Forall_forall. intros p Hp. split.
    - pose proof (expand_values _ _ Hp) as Hv. rewrite Hexp in Hv.
      by apply (proj1 (Forall_forall _ _) Rzz).
    - pose proof (proj1 (Forall_forall _ _) Hruns p Hp) as Hr. cbv beta in Hr.
      lia. }
  assert (Lsym : zlen (pack_rle_symbols rle) = zlen rle).
  { unfold pack_rle_symbols, zlen. by rewrite length_map. }
  assert (Hcount : 0 <= zlen rle < 4294967296).
  { pose proof (zlen_nonneg rle). split; [done|].
    rewrite Ls, Lq, Lc, Lb in Lrle. nia. }
  destruct (huff_encode_inv _ table huff (pack_rle_symbols_range rle) Hhuff)
    as ((sf & Hsf & Hbuild) & Hdec).
  destruct (collect_table_entries_range sf table Hsf Hbuild) as [Hne Hrange].
  set (entries := merge_sort len_sym_le (collect_table_entries table)) in *.
  assert (Hperm : entries ≡ₚ collect_table_entries table)
    by apply merge_sort_Permutation.
  pose proof (table_rebuild sf table entries Hsf Hbuild Hperm) as Hrebuild.
  assert (Hent : Forall (fun e : Z * Z => 0 <= e.1 < 4294967296 /\
                                          1 <= e.2 <= 32) entries).
  { rewrite Hperm. eapply Forall_impl; [exact Hrange|]. simpl. lia. }
  assert (Hn : 0 < zlen entries).
  { destruct entries as [|e es] eqn:He; [|unfold zlen; simpl; lia].
    symmetry in Hperm. by apply Permutation_nil_r in Hperm. }
  destruct (patched_layout img _ quality _ entries huff bytes Hbytes Hlen)
    as (Hlt & Hzb & Hb).
  rewrite Ew, Eh, Ec, Ebs, Eba, Hsgn, Hch, Lsym in Hb.
  rewrite (u32_small (width im)), (u32_small (height im)) in Hb by nia.
  change (u16 1) with 1 in Hb.
  rewrite (u16_small (bits_stored im)), (u32_small (zlen rle)) in Hb by lia.
  set (n := zlen entries) in *. set (hl := zlen huff) in *.
  pose proof (zlen_nonneg huff) as Hhl. fold hl in Hhl.
  set (sc := zlen rle) in *.
  set (P := le32 sc ++ le32 n ++ concat (map entry_bytes entries) ++ huff) in *.
  assert (HzP : zlen P = 8 + 5 * n + hl).
  { unfold P. rewrite !zlen_app, concat_entry_bytes_length.
    unfold zlen at 1 2. simpl length. fold n hl. lia. }
  (* the header *)
  assert (Hhdr : read_bitstream_header bytes =
    OK (mkHeader [77; 67; 68; 67] 1 32 (width im) (height im) 1
          (u16 (bits_allocated im)) (bits_stored im) 1
          (if negb (is_signed im) then 1 else 0) 8 (u16 quality)
          (8 + 5 * n + hl))).
  { assert (Hwr : 0 <= width im < 4294967296) by nia.
    assert (Hhr : 0 <= height im < 4294967296) by nia.
    rewrite Hb. apply read_header_layout; try lia;
      unfold u16; apply Z.mod_pos_bound; lia. }
  assert (Hdrop : drop (Z.to_nat 32) bytes = P) by (rewrite Hb; reflexivity).
  unfold decode_from_mcodec. change kMCodecHeaderBytes with 32.
  rewrite Hzb. destruct (Z.ltb_spec (40 + 5 * n + hl) 32); [lia|].
  rewrite Hhdr, bind_OK. cbv beta zeta.
  cbn [header_bytes payload_bytes h_width h_height h_channels h_bits_allocated
       h_bits_stored h_is_signed flags h_block_size Bitstream.quality].
  rewrite (u32_small (32 + _)) by lia.
  destruct (Z.ltb_spec (40 + 5 * n + hl) (32 + (8 + 5 * n + hl))); [lia|].
  destruct (Z.ltb_spec (32 + (8 + 5 * n + hl)) 32); [lia|].
  rewrite Hdrop.
  rewrite (take_ge P) by (unfold zlen in HzP; lia).
  (* the two counts *)
  pose proof (read_u32_le_middle [] (le32 n ++ concat (map entry_bytes entries)
                                       ++ huff) sc Hcount) as R1.
  change ([] ++ le32 sc ++ _) with P in R1.
  change (zlen []) with 0 in R1. change (0 + 4) with 4 in R1.
  rewrite R1, bind_OK.
  pose proof (read_u32_le_middle (le32 sc) (concat (map entry_bytes entries)
                                             ++ huff) n ltac:(lia)) as R2.
  change (le32 sc ++ le32 n ++ _) with P in R2.
  change (zlen (le32 sc)) with 4 in R2. change (4 + 4) with 8 in R2.
  rewrite R2, bind_OK.
  destruct (Z.eqb_spec n 0); [lia|].
  unfold remaining at 1. cbn [rd_buf rd_pos]. rewrite HzP.
  destruct (Z.ltb_spec (8 + 5 * n + hl - 8) (n * (4 + 1))); [lia|].
  (* the table entries and the coded bits *)
  assert (HP3 : P = (le32 sc ++ le32 n) ++
                    concat (map entry_bytes entries) ++ huff).
  { unfold P. by rewrite <- app_assoc. }
  pose proof (read_table_entries_buf entries (le32 sc ++ le32 n) huff P []
                Hent HP3) as R3.
  change (zlen (le32 sc ++ le32 n)) with 8 in R3. fold n in R3.
  replace (Z.to_nat n) with (length entries) by (unfold n, zlen; lia).
  rewrite R3, bind_OK. cbn [app].
  unfold read_bytes, remaining. cbn [rd_buf rd_pos]. rewrite HzP.
  destruct (Z.ltb_spec (8 + 5 * n + hl)
              (8 + 5 * n + (8 + 5 * n + hl - (8 + 5 * n)))); [lia|].
  assert (Hbits : take (Z.to_nat (8 + 5 * n + hl - (8 + 5 * n)))
                       (drop (Z.to_nat (8 + 5 * n)) P) = huff).
  { rewrite HP3, app_assoc. rewrite drop_app_length'.
    - apply take_ge. unfold hl, zlen. lia.
    - pose proof (concat_entry_bytes_length entries) as Hc.
      rewrite length_app.
      change (length (le32 sc ++ le32 n)) with 8%nat. unfold n, zlen in *. lia. }
  rewrite Hbits, bind_OK.
  rewrite Hrebuild, bind_OK.
  fold sc in Lsym. rewrite <- Lsym. rewrite Hdec, bind_OK.
  rewrite (unpack_pack_pairs rle Hpairs).
  assert (Hwi : 0 <= width im < 2147483648) by nia.
  assert (Hhi : 0 <= height im < 2147483648) by nia.
  rewrite (i32_small (width im)), (i32_small (height im)) by done.
  rewrite Hgrid, bind_OK.
  replace (blocks_x grid * blocks_y grid * (8 * 8)) with (zlen (expand rle))
    by (rewrite Hexp, Ls, Lq, Lc, Lb, Hpw, Hph; lia).
  rewrite (rle_decode_expand rle 8) by (by left). rewrite bind_OK, Hexp.
  rewrite Hinv, bind_OK.
  destruct (is_signed im); reflexivity.
Qed.

(** The decoder applied to the container of a successful run of the
    encoder (on an image whose padded size stays below [2^32] samples)
    reads the header, the counts, the table and the coded bits back to the
    quantised coefficients the encoder produced: what it returns is the
    reconstruction from those coefficients, with the step of the quality
    stored in 16 bits. *)
Theorem decoder_recovers_coefficients (im : Image) (quality : Z)
    (bytes : list Z) :
  encode_to_mcodec fcos im quality = OK bytes ->
  (width im + 7) * (height im + 7) < 4294967296 ->
  exists img grid blocks coeffs qcoeff,
    apply_level_shift im = OK img /\
    make_grid (width im) (height im) 8 = OK grid /\
    tile_to_blocks img grid = OK blocks /\
    dct2d_blocks fcos blocks 8 = OK coeffs /\
    quantize coeffs 8 quality = OK qcoeff /\
    decode_from_mcodec fcos bytes =
      (coeffs' ← dequantize qcoeff 8 (u16 quality);
       blocks' ← idct2d_blocks fcos coeffs' 8;
       im1 ← untile_from_blocks
                (mkImage (width im) (height im) 1 (bits_stored im)
                   (u16 (bits_allocated im)) true S16 []) grid blocks';
       im2 ← (if is_signed im then OK im1 else inverse_level_shift im1);
       if negb (zlen (pixels im2) =? width im2 * height im2 * channels im2)
       then Err "decode: decoded pixel count mismatch" else OK im2).
Proof. exact (decode_encode_eq im quality bytes). Qed.

Lemma untile_from_blocks_meta img g padded img' :
  untile_from_blocks img g padded = OK img' ->
  width img' = width img /\ height img' = height img /\
  channels img' = channels img /\ bits_stored img' = bits_stored img /\
  bits_allocated img' = bits_allocated img /\
  is_signed img' = is_signed img /\ type img' = type img.
Proof.
  unfold untile_from_blocks. intros H. result_inv H. by injection H as <-.
Qed.

Lemma inverse_level_shift_meta img img' :
  pixels img <> [] ->
  inverse_level_shift img = OK img' ->
  width img' = width img /\ height img' = height img /\
  channels img' = channels img /\ bits_stored img' = bits_stored img /\
  bits_allocated img' = bits_allocated img /\
  is_signed img' = false /\ type img' = type img.
Proof.
  unfold inverse_level_shift. intros Hne H.
  destruct (empty img) eqn:He.
  { unfold empty in He. by destruct (pixels img). }
  result_inv H. by injection H as <-.
Qed.

(** The image decoded from the container of an image keeps the width, the
    height, the channel count, the bit depths and the signedness of the
    image, holds [width * height] samples, and always carries the pixel
    type [S16]. *)
Theorem decoded_image_metadata (im : Image) (quality : Z) (bytes : list Z)
    (im' : Image) :
  encode_to_mcodec fcos im quality = OK bytes ->
  (width im + 7) * (height im + 7) < 4294967296 ->
  0 <= bits_allocated im < 65536 ->
  decode_from_mcodec fcos bytes = OK im' ->
  width im' = width im /\ height im' = height im /\
  channels im' = channels im /\ bits_stored im' = bits_stored im /\
  bits_allocated im' = bits_allocated im /\
  is_signed im' = is_signed im /\ type im' = S16 /\
  zlen (pixels im') = width im * height im.
Proof.
  intros Henc Hsize Hba Hdec.
  destruct (decode_encode_eq im quality bytes Henc Hsize)
    as (img & grid & blocks & coeffs & qcoeff & _ & _ & _ & _ & _ & Heq).
  apply encode_inv in Henc as (_ & _ & _ & _ & Hch & _).
  rewrite Heq in Hdec. clear Heq.
  apply bind_OK_inv in Hdec as (coeffs' & _ & Hdec).
  apply bind_OK_inv in Hdec as (blocks' & _ & Hdec).
  apply bind_OK_inv in Hdec as (im1 & Hun & Hdec).
  apply bind_OK_inv in Hdec as (im2 & Hinv & Hdec).
  destruct (negb _) eqn:Hcount in Hdec; [done|]. injection Hdec as <-.
  apply negb_false_iff, Z.eqb_eq in Hcount.
  pose proof (untile_from_blocks_fields _ _ _ _ Hun) as (Hne & _ & _).
  apply untile_from_blocks_meta in Hun
    as (E1 & E2 & E3 & E4 & E5 & E6 & E7).
  cbn [width height channels bits_stored bits_allocated is_signed type] in *.
  rewrite u16_small in E5 by done.
  destruct (is_signed im) eqn:Hs.
  - injection Hinv as <-. rewrite Hcount, E1, E2, E3, Hch.
    repeat split; (done || lia).
  - apply (inverse_level_shift_meta _ _ Hne) in Hinv
      as (F1 & F2 & F3 & F4 & F5 & F6 & F7).
    rewrite Hcount, F1, F2, F3, F4, F5, F6, F7, E1, E2, E3, E4, E5, E7, Hch.
    repeat split; (done || lia).
Qed.

End DecodeEncode.

Section DecodeEncodeWitnesses.
Import Img Rle Huffman HuffSpec Bitstream Block Fp Quant Dct Codec CodecSpec.
Import Cos8.

Lemma decoder_recovers_coefficients_witness :
  encode_to_mcodec cos8 ramp_image 100 = OK ramp_container /\
  (width ramp_image + 7) * (height ramp_image + 7) < 4294967296 /\
  exists img grid blocks coeffs qcoeff,
    apply_level_shift ramp_image = OK img /\
    make_grid (width ramp_image) (height ramp_image) 8 = OK grid /\
    tile_to_blocks img grid = OK blocks /\
    dct2d_blocks cos8 blocks 8 = OK coeffs /\
    quantize coeffs 8 100 = OK qcoeff /\
    decode_from_mcodec cos8 ramp_container =
      (coeffs' ← dequantize qcoeff 8 (u16 100);
       blocks' ← idct2d_blocks cos8 coeffs' 8;
       im1 ← untile_from_blocks
                (mkImage (width ramp_image) (height ramp_image) 1
                   (bits_stored ramp_image)
                   (u16 (bits_allocated ramp_image)) true S16 []) grid blocks';
       im2 ← (if is_signed ramp_image then OK im1
              else inverse_level_shift im1);
       if negb (zlen (pixels im2) =? width im2 * height im2 * channels im2)
       then Err "decode: decoded pixel count mismatch" else OK im2).
Proof.
  assert (H : encode_to_mcodec cos8 ramp_image 100 = OK ramp_container)
    by (vm_compute; reflexivity).
  assert (H2 : (width ramp_image + 7) * (height ramp_image + 7) < 4294967296)
    by (simpl; lia).
  split; [exact H|]. split; [exact H2|].
  exact (decoder_recovers_coefficients cos8 ramp_image 100 ramp_container H H2).
Defined.

Lemma decoded_image_metadata_witness :
  (encode_to_mcodec cos8 ramp_image 100 = OK ramp_container /\
   (width ramp_image + 7) * (height ramp_image + 7) < 4294967296 /\
   0 <= bits_allocated ramp_image < 65536 /\
   decode_from_mcodec cos8 ramp_container = OK decoded_ramp) /\
  width decoded_ramp = width ramp_image /\
  height decoded_ramp = height ramp_image /\
  channels decoded_ramp = channels ramp_image /\
  bits_stored decoded_ramp = bits_stored ramp_image /\
  bits_allocated decoded_ramp = bits_allocated ramp_image /\
  is_signed decoded_ramp = is_signed ramp_image /\
  type decoded_ramp = S16 /\
  zlen (pixels decoded_ramp) = width ramp_image * height ramp_image.
Proof.
  assert (H : encode_to_mcodec cos8 ramp_image 100 = OK ramp_container)
    by (vm_compute; reflexivity).
  assert (H2 : (width ramp_image + 7) * (height ramp_image + 7) < 4294967296)
    by (simpl; lia).
  assert (H3 : 0 <= bits_allocated ramp_image < 65536) by (simpl; lia).
  assert (H4 : decode_from_mcodec cos8 ramp_container = OK decoded_ramp)
    by (vm_compute; reflexivity).
  split; [auto|].
  exact (decoded_image_metadata cos8 ramp_image 100 ramp_container
           decoded_ramp H H2 H3 H4).
Defined.

End DecodeEncodeWitnesses.

(** * Buffers that are longer or shorter than the container *)

Section BufferLength.
Import Img Rle Huffman HuffSpec Bitstream Block Fp Quant Dct Codec CodecSpec.

Variable fcos : spec_float -> spec_float.

Lemma byte_at_app (b extra : list Z) k :
  0 <= k < zlen b -> byte_at (b ++ extra) k = byte_at b k.
Proof.
  intros Hk. unfold byte_at. rewrite lookup_app_l; [done|].
  unfold zlen in Hk. lia.
Qed.

(** The header reader looks at the first 32 bytes and at the length. *)
Lemma read_bitstream_header_app bytes extra hdr :
  read_bitstream_header bytes = OK hdr ->
  read_bitstream_header (bytes ++ extra) = OK hdr.
Proof.
  unfold read_bitstream_header, read_u16_le_at, read_u32_le_at.
  change kMCodecHeaderBytes with 32. intros H.
  pose proof (zlen_nonneg extra) as Hex. rewrite zlen_app.
  destruct (Z.ltb_spec (zlen bytes) 32) as [|Hlen]; [done|].
  destruct (Z.ltb_spec (zlen bytes + zlen extra) 32); [lia|].
  repeat match goal with
    | H : context [zlen bytes <? ?k] |- _ =>
        destruct (Z.ltb_spec (zlen bytes) k); [lia|]
    end.
  repeat match goal with
    | |- context [zlen bytes + zlen extra <? ?k] =>
        lazymatch k with
        | header_bytes _ => fail
        | _ => destruct (Z.ltb_spec (zlen bytes + zlen extra) k); [lia|]
        end
    end.
  rewrite !bind_OK in *. cbv zeta in *.
  rewrite !byte_at_app by lia.
  rewrite take_app_le by (unfold zlen in Hlen; lia).
  destruct (negb (bool_decide _)); [done|].
  destruct (negb _); [done|]. destruct (_ <? 32); [done|].
  cbn [header_bytes] in *.
  match type of H with
  | (if zlen bytes <? ?hb then _ else _) = _ =>
      destruct (Z.ltb_spec (zlen bytes) hb); [done|];
      destruct (Z.ltb_spec (zlen bytes + zlen extra) hb); [lia | done]
  end.
Qed.

Lemma read_bitstream_header_size bytes hdr :
  read_bitstream_header bytes = OK hdr -> 32 <= header_bytes hdr <= zlen bytes.
Proof.
  unfold read_bitstream_header. change kMCodecHeaderBytes with 32.
  intros H. result_inv H. injection H as <-. cbn [header_bytes].
  tests_to_props. lia.
Qed.

Lemma decode_trailing bytes extra im :
  decode_from_mcodec fcos bytes = OK im ->
  decode_from_mcodec fcos (bytes ++ extra) = OK im.
Proof.
  unfold decode_from_mcodec. change kMCodecHeaderBytes with 32. intros H.
  pose proof (zlen_nonneg extra) as Hex. rewrite zlen_app.
  destruct (Z.ltb_spec (zlen bytes) 32) as [|Hlen]; [done|].
  destruct (Z.ltb_spec (zlen bytes + zlen extra) 32); [lia|].
  apply bind_OK_inv in H as (hdr & Hhdr & H).
  rewrite (read_bitstream_header_app _ extra _ Hhdr), bind_OK.
  pose proof (read_bitstream_header_size _ _ Hhdr) as Hhb.
  cbv zeta in *.
  set (pe := u32 (header_bytes hdr + payload_bytes hdr)) in *.
  destruct (Z.ltb_spec (zlen bytes) pe) as [|Hpe]; [done|].
  destruct (Z.ltb_spec (zlen bytes + zlen extra) pe); [lia|].
  destruct (Z.ltb_spec pe (header_bytes hdr)) as [|Hps]; [done|].
  rewrite drop_app_le by (unfold zlen in *; lia).
  rewrite take_app_le; [exact H|].
  rewrite length_drop. unfold zlen in *. lia.
Qed.

(** Bytes that follow the payload declared in the header are ignored: a
    buffer that decodes still decodes, to the same image, with anything
    appended. *)
Theorem trailing_bytes_ignored (bytes extra : list Z) (im : Image) :
  decode_from_mcodec fcos bytes = OK im ->
  decode_from_mcodec fcos (bytes ++ extra) = OK im.
Proof. exact (decode_trailing bytes extra im). Qed.

(** A container cut short is rejected, before anything of the payload is
    read: below 32 bytes for its size, from 32 bytes on because the header
    declares more payload than the buffer holds. *)
Theorem truncated_container_rejected (im : Image) (quality : Z)
    (bytes : list Z) (k : Z) :
  encode_to_mcodec fcos im quality = OK bytes ->
  0 <= k < zlen bytes ->
  decode_from_mcodec fcos (take (Z.to_nat k) bytes) =
    Err (if k <? 32 then "decode: buffer too small for header"
         else "decode: buffer smaller than declared payload_bytes").
Proof.
  intros Henc Hk.
  destruct (encode_stages fcos im quality bytes Henc)
    as (img & grid & blocks & coeffs & qcoeff & zz & rle & table & huff
        & _ & _ & _ & _ & _ & _ & _ & _ & _ & _ & _ & _ & Hrest).
  cbv zeta in Hrest. destruct Hrest as [Hbytes Hlen].
  set (entries := merge_sort len_sym_le (collect_table_entries table)) in *.
  destruct (patched_layout img _ quality _ entries huff bytes Hbytes Hlen)
    as (Hlt & Hzb & Hb).
  pose proof (zlen_nonneg entries) as Hn. pose proof (zlen_nonneg huff) as Hh.
  assert (Hzt : zlen (take (Z.to_nat k) bytes) = k).
  { unfold zlen in *. rewrite length_take. lia. }
  unfold decode_from_mcodec. change kMCodecHeaderBytes with 32. rewrite Hzt.
  destruct (Z.ltb_spec k 32) as [|Hk32]; [done|].
  set (P := le32 _ ++ le32 (zlen entries) ++ _) in Hb.
  assert (Hhdr : read_bitstream_header (take (Z.to_nat k) bytes) =
    OK (mkHeader [77; 67; 68; 67] 1 32 (u32 (width img)) (u32 (height img))
          (u16 (channels img)) (u16 (bits_allocated img))
          (u16 (bits_stored img)) (if is_signed img then 1 else 0)
          (if negb (is_signed im) then 1 else 0) 8 (u16 quality)
          (8 + 5 * zlen entries + zlen huff))).
  { assert (Ht : take (Z.to_nat k) bytes =
      [77; 67; 68; 67] ++ le16 1 ++ le16 32 ++
      le32 (u32 (width img)) ++ le32 (u32 (height img)) ++
      le16 (u16 (channels img)) ++ le16 (u16 (bits_allocated img)) ++
      le16 (u16 (bits_stored img)) ++ [if is_signed img then 1 else 0] ++
      [if negb (is_signed im) then 1 else 0] ++ le16 8 ++ le16 (u16 quality) ++
      le32 (8 + 5 * zlen entries + zlen huff) ++ take (Z.to_nat k - 32) P).
    { rewrite Hb.
      replace (Z.to_nat k) with (32 + (Z.to_nat k - 32))%nat by lia.
      replace (32 + (Z.to_nat k - 32) - 32)%nat with (Z.to_nat k - 32)%nat
        by lia.
      reflexivity. }
    rewrite Ht. apply read_header_layout; try lia;
      try (unfold u32; apply Z.mod_pos_bound; lia);
      unfold u16; apply Z.mod_pos_bound; lia. }
  rewrite Hhdr, bind_OK. cbv zeta. cbn [header_bytes payload_bytes].
  rewrite u32_small by lia.
  destruct (Z.ltb_spec k (32 + (8 + 5 * zlen entries + zlen huff)));
    [done | lia].
Qed.

End BufferLength.

Section BufferLengthWitnesses.
Import Img Bitstream Codec Cos8.

Lemma trailing_bytes_ignored_witness :
  decode_from_mcodec cos8 ramp_container = OK decoded_ramp /\
  decode_from_mcodec cos8 (ramp_container ++ [1; 2; 3]) = OK decoded_ramp.
Proof.
  assert (H : decode_from_mcodec cos8 ramp_container = OK decoded_ramp)
    by (vm_compute; reflexivity).
  split; [exact H|].
  exact (trailing_bytes_ignored cos8 ramp_container [1; 2; 3] decoded_ramp H).
Defined.

Lemma truncated_container_rejected_witness :
  (encode_to_mcodec cos8 ramp_image 100 = OK ramp_container /\
   0 <= 94 < zlen ramp_container) /\
  decode_from_mcodec cos8 (take (Z.to_nat 94) ramp_container) =
    Err "decode: buffer smaller than declared payload_bytes".
Proof.
  assert (H : encode_to_mcodec cos8 ramp_image 100 = OK ramp_container)
    by (vm_compute; reflexivity).
  assert (H2 : 0 <= 94 < zlen ramp_container) by (vm_compute; split; [discriminate | reflexivity]).
  split; [auto|].
  exact (truncated_container_rejected cos8 ramp_image 100 ramp_container 94
           H H2).
Defined.

End BufferLengthWitnesses.

(** * The command line parser *)

Section CliProofs.
Import Cli CliSpec.

Lemma parse_args_items items : forall kv,
  Forall item_ok items ->
  parse_args (concat (map item_args items)) kv
  = foldl (fun kv it => <[item_key it := item_value it]> kv) kv items.
Proof.
  induction items as [|it items IH]; intros kv Hok; [done|].
  apply Forall_cons in Hok as [Hit Hok].
  destruct it as [k v|k]; cbn [map concat item_args app foldl item_key item_value].
  - cbn [parse_args]. simpl in Hit. rewrite Hit. by apply IH.
  - cbn [parse_args].
    destruct (concat (map item_args items)) as [|next rest'] eqn:Hrest.
    + destruct items as [|it' items']; [done|].
      destruct it'; discriminate.
    + assert (Hnext : starts_with_dashes next = true).
      { destruct items as [|it' items']; [discriminate|].
        destruct it'; cbn [map concat item_args app] in Hrest;
          injection Hrest as <- _; reflexivity. }
      rewrite Hnext. by apply IH.
Qed.

Lemma foldl_items_lookup items key : forall kv : gmap string string,
  foldl (fun kv it => <[item_key it := item_value it]> kv) kv items !! key
  = match list_find (fun it => item_key it = key) (reverse items) with
    | Some (_, it) => Some (item_value it)
    | None => kv !! key
    end.
Proof.
  induction items as [|it items IH] using rev_ind; intros kv; [done|].
  rewrite foldl_app, reverse_app. cbn [foldl reverse rev_append app].
  change (rev_append [] [it]) with [it]. cbn [app list_find].
  destruct (decide (item_key it = key)) as [<-|Hne].
  - simpl. by rewrite lookup_insert_eq.
  - rewrite lookup_insert_ne by done. rewrite IH.
    destruct (list_find _ (reverse items)) as [[i it']|]; done.
Qed.

(** On a command line made of options with a value and of flags, where no
    value starts with two dashes, the parser binds every key to the value
    of its last occurrence (["true"] for a flag); [has] tells whether the
    key occurs, and [get] returns the default exactly for the keys that do
    not occur. *)
Theorem cli_parse_last_wins (prog : string) (items : list item)
    (key def : string) :
  Forall item_ok items ->
  let kv := parse (prog :: concat (map item_args items)) in
  match list_find (fun it => item_key it = key) (reverse items) with
  | Some (_, it) => has kv key = true /\ get kv key def = item_value it
  | None => has kv key = false /\ get kv key def = def
  end.
Proof.
  intros Hok kv. subst kv.
  change (parse (prog :: concat (map item_args items)))
    with (parse_args (concat (map item_args items)) ∅).
  rewrite parse_args_items by done. unfold has, get.
  rewrite foldl_items_lookup.
  destruct (list_find _ (reverse items)) as [[i it]|].
  - split; [|done]. apply bool_decide_eq_true. eauto.
  - rewrite lookup_empty. split; [|done]. apply bool_decide_eq_false.
    by intros [? ?].
Qed.

Lemma cli_parse_last_wins_witness :
  Forall item_ok [Opt "in" "a.dcm"; Flag "verbose"; Opt "quality" "50";
                  Opt "in" "b.dcm"] /\
  parse ["encode"; "--in"; "a.dcm"; "--verbose"; "--quality"; "50"; "--in";
         "b.dcm"]
    = <["in" := "b.dcm"]> (<["quality" := "50"]> (<["verbose" := "true"]>
        (<["in" := "a.dcm"]> ∅))) /\
  (has (parse ["encode"; "--in"; "a.dcm"; "--verbose"; "--quality"; "50";
               "--in"; "b.dcm"]) "in" = true /\
   get (parse ["encode"; "--in"; "a.dcm"; "--verbose"; "--quality"; "50";
               "--in"; "b.dcm"]) "in" "" = "b.dcm").
Proof.
  assert (H : Forall item_ok [Opt "in" "a.dcm"; Flag "verbose";
                               Opt "quality" "50"; Opt "in" "b.dcm"]).
  { repeat constructor. }
  split; [exact H|]. split; [reflexivity|].
  exact (cli_parse_last_wins "encode" _ "in" "" H).
Defined.

End CliProofs.

(** * Saving a decoded image *)

Section SavePgm.
Import Img Block Bitstream Codec Saver.

Variable fcos : spec_float -> spec_float.






End SavePgm.

Section SavePgmWitnesses.
Import Img Block Bitstream Codec Saver Samples Cos8.



End SavePgmWitnesses.

(** * Sizes and ranges of the transform *)

Section Transform.
Import Fp Block Dct.

Variable fcos : spec_float -> spec_float.

Lemma collect_spec {A} (l : list (result A)) (xs : list A) :
  collect l = OK xs -> Forall2 (fun r x => r = OK x) l xs.
Proof.
  revert xs. induction l as [|r l IH]; intros xs H.
  { injection H as <-. constructor. }
  cbn [collect] in H. apply bind_OK_inv in H as (a & Ha & H).
  apply bind_OK_inv in H as (as_ & Has & H). injection H as <-.
  constructor; [done | by apply IH].
Qed.

Lemma idct_sample_range sum v :
  idct_sample sum = OK v -> -2147483648 <= v <= 2147483647.
Proof.
  unfold idct_sample. destruct sum as [s|s| |s m e]; try done.
  - simpl. intros [= <-]. lia.
  - intros [= <-]. destruct s; lia.
  - destruct (round_half_away _) as [r|]; [|done]. intros [= <-]. lia.
Qed.

Lemma idct_block_shape N src out :
  0 <= N -> idct_block fcos N src = OK out ->
  length out = Z.to_nat (N * N) /\
  Forall (fun v => -2147483648 <= v <= 2147483647) out.
Proof.
  intros HN H. unfold idct_block in H. cbv zeta in H.
  apply collect_spec in H. split.
  - rewrite <- (Forall2_length _ _ _ H).
    rewrite (concat_const_length _ (Z.to_nat N)).
    + rewrite length_map, length_seqZ. lia.
    + apply List.Forall_map, Forall_forall. intros y _. cbv beta.
      by rewrite length_map, length_seqZ.
  - eapply Forall2_Forall_r; [exact H|]. apply Forall_forall.
    intros r Hr v Hv. subst r.
    apply list_elem_of_In, in_concat in Hr as (row & Hrow & Hin).
    apply in_map_iff in Hrow as (y & <- & _).
    apply in_map_iff in Hin as (x & Hx & _).
    by apply idct_sample_range in Hx.
Qed.

Lemma valid_block_size N :
  negb (N =? 8) && negb (N =? 16) = false -> N = 8 \/ N = 16.
Proof.
  intros H. apply andb_false_iff in H as [H|H];
    apply negb_false_iff, Z.eqb_eq in H; auto.
Qed.

Lemma whole_blocks (n N : Z) :
  0 <= n -> 0 < N -> Z.rem n N = 0 ->
  (Z.to_nat (Z.quot n N) * Z.to_nat N)%nat = Z.to_nat n.
Proof.
  intros Hn HN Hrem. rewrite Z.rem_mod_nonneg in Hrem by lia.
  rewrite Z.quot_div_nonneg by lia.
  apply Z.mod_divide in Hrem as [k Hk]; [|lia].
  rewrite Hk, Z.div_mul by lia. nia.
Qed.

(** The transform keeps sizes and ranges whatever the samples are: the
    forward transform of a buffer of whole blocks always succeeds and
    returns one coefficient per sample; the inverse transform, where it
    succeeds, returns one sample per coefficient, each inside the range of
    [int32_t]. *)
Theorem transform_shape (N : Z) (blocks_in : list Z)
    (coeff_in : list spec_float) (blocks_out : list Z) :
  (N = 8 \/ N = 16) ->
  (zlen blocks_in mod (N * N) = 0 ->
   exists coeffs,
     dct2d_blocks fcos blocks_in N = OK coeffs /\
     zlen coeffs = zlen blocks_in) /\
  (idct2d_blocks fcos coeff_in N = OK blocks_out ->
   zlen blocks_out = zlen coeff_in /\
   Forall (fun v => -2147483648 <= v <= 2147483647) blocks_out).
Proof.
  intros HN.
  assert (HN' : negb (N =? 8) && negb (N =? 16) = false)
    by (destruct HN; subst; reflexivity).
  assert (Hbb : 0 < N * N) by (destruct HN; subst; lia).
  split.
  - intros Hmod. pose proof (zlen_nonneg blocks_in) as Hb.
    destruct (dct2d_blocks fcos blocks_in N) as [coeffs|msg] eqn:Hd.
    + exists coeffs. split; [done|]. by apply (dct2d_blocks_length fcos _ N).
    + unfold dct2d_blocks in Hd. cbv zeta in Hd. rewrite HN' in Hd.
      rewrite Z.rem_mod_nonneg, Hmod in Hd by lia. done.
  - unfold idct2d_blocks. cbv zeta. rewrite HN'. intros H.
    destruct (Z.eqb_spec (Z.rem (zlen coeff_in) (N * N)) 0) as [Hrem|];
      [|done].
    cbn [negb] in H. apply bind_OK_inv in H as (bs & Hbs & H).
    injection H as <-. apply collect_spec in Hbs.
    pose proof (zlen_nonneg coeff_in) as Hc.
    assert (Hall : Forall (fun out =>
              length out = Z.to_nat (N * N) /\
              Forall (fun v => -2147483648 <= v <= 2147483647) out) bs).
    { eapply Forall2_Forall_r; [exact Hbs|]. apply Forall_forall.
      intros r Hr out Hout. subst r. apply list_elem_of_In in Hr.
      apply in_map_iff in Hr as (b & Hb & _).
      apply (idct_block_shape N _ _ ltac:(lia) Hb). }
    split.
    + unfold zlen. rewrite (concat_const_length _ (Z.to_nat (N * N))).
      * rewrite <- (Forall2_length _ _ _ Hbs), length_map, length_seqZ.
        rewrite whole_blocks by (done || lia). unfold zlen. lia.
      * eapply Forall_impl; [exact Hall|]. by intros out [? _].
    + apply Forall_concat. eapply Forall_impl; [exact Hall|].
      by intros out [_ ?].
Qed.

End Transform.

Section TransformWitness.
Import Fp Block Dct Img Codec Cos8.

Lemma transform_shape_witness :
  (8 = 8 \/ 8 = 16) /\
  (exists coeffs,
     dct2d_blocks cos8 (map (fun v => v - 128) (pixels ramp_image)) 8
       = OK coeffs /\
     zlen coeffs = 64) /\
  idct2d_blocks cos8 (replicate 64 (f32_of_int 0)) 8 = OK (replicate 64 0) /\
  zlen (replicate 64 0) = zlen (replicate 64 (f32_of_int 0)).
Proof.
  assert (H : 8 = 8 \/ 8 = 16) by (left; reflexivity).
  assert (Hi : idct2d_blocks cos8 (replicate 64 (f32_of_int 0)) 8
               = OK (replicate 64 0)) by (vm_compute; reflexivity).
  destruct (transform_shape cos8 8 (map (fun v => v - 128) (pixels ramp_image))
              (replicate 64 (f32_of_int 0)) (replicate 64 0) H)
    as [Hf Hb].
  split; [exact H|]. split; [apply Hf; reflexivity|].
  split; [exact Hi|]. exact (proj1 (Hb Hi)).
Defined.

End TransformWitness.

(** * The container, and when the encoder fails *)

Section Container.
Import Img Rle Huffman HuffSpec Bitstream Block Fp Quant Dct Codec CodecSpec.

Variable fcos : spec_float -> spec_float.

(** The entries collected from the table of [huff_encode] are the symbols
    of the stream, each with the length of its code. *)
Lemma huff_encode_entries symbols table huff :
  Forall (fun x => 0 <= x < 4294967296) symbols ->
  huff_encode symbols = OK (table, huff) ->
  forall s l, (s, l) ∈ collect_table_entries table <->
              s ∈ symbols /\ l = len (enc_at table s).
Proof.
  intros Hrange Henc.
  destruct (huff_encode_codes symbols table huff Hrange Henc) as (Hcodes & _).
  unfold huff_encode in Henc.
  destruct symbols as [|s0 s'] eqn:Hs; [done|]. rewrite <- Hs in *.
  apply bind_OK_inv in Henc as (sf & Hsf & Henc).
  apply bind_OK_inv in Henc as (t' & Ht & Henc).
  apply bind_OK_inv in Henc as (w' & Hw' & Henc).
  injection Henc as -> _.
  destruct (build_symbol_frequencies_spec _ _ Hsf) as [Hpos Hdom].
  assert (Hall : Forall (fun x : Z * Z => 0 <= x.1 /\ 0 <= x.2) sf).
  { apply Forall_forall. intros [x f] Hin. simpl. split.
    - assert (Hx : x ∈ symbols) by (apply Hdom; eauto).
      pose proof (proj1 (Forall_forall _ _) Hrange x Hx) as Hx0.
      simpl in Hx0. lia.
    - pose proof (proj1 (Forall_forall _ _) Hpos _ Hin). simpl in *. lia. }
  pose proof (collect_table_entries_used sf table Hall Ht) as Hused.
  intros s l. split.
  - intros Hin.
    pose proof (proj1 (Forall_forall _ _) Hused _ Hin) as (f & Hf & _).
    apply collect_table_entries_elem in Hin as (e & He & _ & _ & _ & ->).
    split; [apply Hdom; eauto|]. unfold enc_at. by rewrite He.
  - intros [Hin ->].
    pose proof (proj1 (Forall_forall _ _) Hcodes s Hin)
      as (Hr & Hsize & Hvalid & Hlen & _).
    apply collect_table_entries_elem. unfold enc_at in *.
    destruct (enc table !! s) as [e|] eqn:He; [|done].
    exists e. simpl in *. repeat split; (done || lia).
Qed.

(** The stages of a successful run give the symbols of [encoder_symbols]. *)
Lemma encoder_symbols_stages im quality img grid blocks coeffs qcoeff zz rle :
  apply_level_shift im = OK img ->
  make_grid (width img) (height img) 8 = OK grid ->
  tile_to_blocks img grid = OK blocks ->
  dct2d_blocks fcos blocks 8 = OK coeffs ->
  quantize coeffs 8 quality = OK qcoeff ->
  zigzag_scan_blocks qcoeff 8 = OK zz ->
  rle_encode_zeros zz 8 = OK rle ->
  encoder_coefficients fcos im = OK coeffs /\
  encoder_symbols fcos im quality = OK (pack_rle_symbols rle).
Proof.
  intros Hshift Hgrid Htile Hdct Hq Hzz Hrle.
  assert (Hc : encoder_coefficients fcos im = OK coeffs).
  { unfold encoder_coefficients.
    by rewrite Hshift, bind_OK, Hgrid, bind_OK, Htile, bind_OK. }
  split; [done|]. unfold encoder_symbols.
  by rewrite Hc, bind_OK, Hq, bind_OK, Hzz, bind_OK, Hrle, bind_OK.
Qed.

Lemma encoder_symbols_inv im quality symbols :
  encoder_symbols fcos im quality = OK symbols ->
  exists img grid blocks coeffs qcoeff zz rle,
    apply_level_shift im = OK img /\
    make_grid (width img) (height img) 8 = OK grid /\
    tile_to_blocks img grid = OK blocks /\
    dct2d_blocks fcos blocks 8 = OK coeffs /\
    quantize coeffs 8 quality = OK qcoeff /\
    zigzag_scan_blocks qcoeff 8 = OK zz /\
    rle_encode_zeros zz 8 = OK rle /\
    symbols = pack_rle_symbols rle.
Proof.
  unfold encoder_symbols, encoder_coefficients. intros H.
  apply bind_OK_inv in H as (coeffs & Hc & H).
  apply bind_OK_inv in Hc as (img & Hshift & Hc).
  apply bind_OK_inv in Hc as (grid & Hgrid & Hc).
  apply bind_OK_inv in Hc as (blocks & Htile & Hdct).
  apply bind_OK_inv in H as (qcoeff & Hq & H).
  apply bind_OK_inv in H as (zz & Hzz & H).
  apply bind_OK_inv in H as (rle & Hrle & H). injection H as <-.
  by exists img, grid, blocks, coeffs, qcoeff, zz, rle.
Qed.

(** The sizes of the stages: no more symbols than padded samples. *)
Lemma encoder_symbols_count im quality symbols :
  0 < width im <= 2147483640 -> 0 < height im <= 2147483640 ->
  encoder_symbols fcos im quality = OK symbols ->
  zlen symbols <= (width im + 7) * (height im + 7).
Proof.
  intros Hw Hh H.
  apply encoder_symbols_inv in H
    as (img & grid & blocks & coeffs & qcoeff & zz & rle & Hshift & Hgrid
        & Htile & Hdct & Hq & Hzz & Hrle & ->).
  destruct (apply_level_shift_fields im img Hshift) as (Ew & Eh & _).
  rewrite Ew, Eh in Hgrid.
  destruct (make_grid_inv _ _ _ _ Hgrid ltac:(lia) ltac:(lia))
    as (_ & _ & _ & _ & Hbx & Hby & Hpw & Hph & Hpwr & Hphr).
  pose proof (tile_to_blocks_length _ _ _ Htile) as Lb.
  pose proof (dct2d_blocks_length fcos _ _ _ Hdct) as Lc.
  destruct (quantize_range _ _ _ _ Hq) as [Lq _].
  assert (Hmod : zlen qcoeff mod (8 * 8) = 0).
  { rewrite Lq, Lc, Lb, Hpw, Hph. apply Z.mod_divide; [lia|].
    exists (blocks_x grid * blocks_y grid). lia. }
  destruct (zigzag_round_trip_blocks qcoeff 8 (or_introl eq_refl) Hmod)
    as (s & Hs & Ls & _).
  rewrite Hzz in Hs. injection Hs as <-.
  destruct (rle_encode_shape _ _ _ Hrle) as [_ Lrle].
  assert (Lsym : zlen (pack_rle_symbols rle) = zlen rle).
  { unfold pack_rle_symbols, zlen. by rewrite length_map. }
  rewrite Lsym. rewrite Ls, Lq, Lc, Lb in Lrle. nia.
Qed.

(** C5: a buffer returned by the encoder is the 32-byte header (magic
    "MCDC", version 1, header size 32, then the fields in little-endian
    order at offsets 8 to 27 and the payload length at offset 28), followed
    by the payload of the symbols the stages of the encoder produce and of
    the table and the coded bytes [huff_encode] returns for them: the
    number of symbols as a 32-bit value, the number of table entries, the
    entries of five bytes each, and the coded bytes.  The entries are the
    symbols that occur in the stream, once each, with the lengths of their
    codes, ordered by length and then by symbol.  The payload length
    written at offset 28 is [8 + 5 * used_symbol_count + number of coded
    bytes] and the buffer has [32 + payload] bytes. *)
Theorem container_layout (im : Image) (quality : Z) (bytes : list Z) :
  encode_to_mcodec fcos im quality = OK bytes ->
  exists symbols table huff entries,
    encoder_symbols fcos im quality = OK symbols /\
    huff_encode symbols = OK (table, huff) /\
    entries = merge_sort len_sym_le (collect_table_entries table) /\
    (forall s l, (s, l) ∈ entries <->
                 s ∈ symbols /\ l = len (enc_at table s)) /\
    NoDup (map fst entries) /\ StronglySorted len_sym_le entries /\
    Forall (fun e : Z * Z => 0 <= e.1 < 4294967296 /\ 1 <= e.2 <= 32)
           entries /\
    entries <> [] /\
    (width im <= 2147483640 -> height im <= 2147483640 ->
     zlen symbols <= (width im + 7) * (height im + 7)) /\
    let payload := 8 + 5 * zlen entries + zlen huff in
    bytes =
      header_prefix im 1 (if is_signed im then 0 else 1) quality ++
      le32 payload ++ le32 (u32 (zlen symbols)) ++ le32 (zlen entries) ++
      concat (map entry_bytes entries) ++ huff /\
    zlen bytes = 32 + payload /\ payload < 4294967296.
Proof.
  intros Henc.
  destruct (encode_stages fcos im quality bytes Henc)
    as (img & grid & blocks & coeffs & qcoeff & zz & rle & table & huff
        & Hch & Hw & Hh & Hpx & Hshift & Hgrid & Htile & Hdct & Hq & Hzz
        & Hrle & Hhuff & Hrest).
  cbv zeta in Hrest. destruct Hrest as [Hbytes Hlen].
  destruct (encoder_symbols_stages im quality _ _ _ _ _ _ _
              Hshift Hgrid Htile Hdct Hq Hzz Hrle) as [_ Hsym].
  set (symbols := pack_rle_symbols rle) in *.
  set (entries := merge_sort len_sym_le (collect_table_entries table)) in *.
  assert (Hperm : entries ≡ₚ collect_table_entries table)
    by apply merge_sort_Permutation.
  pose proof (pack_rle_symbols_range rle) as Hrange. fold symbols in Hrange.
  pose proof (huff_encode_entries symbols table huff Hrange Hhuff) as Hmem.
  assert (Hmem' : forall s l, (s, l) ∈ entries <->
                              s ∈ symbols /\ l = len (enc_at table s)).
  { intros s l. rewrite Hperm. apply Hmem. }
  destruct (huff_encode_inv _ table huff Hrange Hhuff)
    as ((sf & Hsf & Hbuild) & _).
  destruct (collect_table_entries_range sf table Hsf Hbuild) as [Hne Hent].
  exists symbols, table, huff, entries.
  split; [done|]. split; [done|]. split; [done|]. split; [done|].
  split.
  { apply NoDup_fmap_2_strong.
    - intros [s1 l1] [s2 l2] H1 H2 E. simpl in E. subst s2.
      apply Hmem' in H1 as [_ ->]. apply Hmem' in H2 as [_ ->]. done.
    - rewrite Hperm. apply collect_table_entries_NoDup. }
  split; [apply StronglySorted_merge_sort; apply _|].
  split.
  { rewrite Hperm. eapply Forall_impl; [exact Hent|]. simpl. lia. }
  split.
  { intros Hnil. rewrite Hnil in Hperm. symmetry in Hperm.
    by apply Permutation_nil_r in Hperm. }
  split.
  { intros Hwb Hhb. apply (encoder_symbols_count im quality); (done || lia). }
  destruct (patched_layout img _ quality _ entries huff bytes Hbytes Hlen)
    as (Hlt & Hz & Hb).
  destruct (apply_level_shift_fields im img Hshift)
    as (Ew & Eh & Ec & Ebs & Eba & Hsgn).
  destruct Hsgn as [Hsgn _].
  { intros Hnil. rewrite Hnil in Hpx. unfold zlen in Hpx. simpl in Hpx. nia. }
  cbv zeta. split; [|split; [lia | lia]].
  rewrite Hb, Ew, Eh, Ec, Ebs, Eba, Hsgn. unfold header_prefix.
  rewrite <- !app_assoc. by destruct (is_signed im).
Qed.

End Container.

Section EncoderFailures.
Import Img Rle Huffman HuffSpec Bitstream Block Fp Quant Dct Codec CodecSpec.

Variable fcos : spec_float -> spec_float.








End EncoderFailures.

Section ContainerWitnesses.
Import Img Rle Huffman Bitstream Block Quant Dct Codec CodecSpec Cos8.

Lemma container_layout_witness :
  encode_to_mcodec cos8 ramp_image 100 = OK ramp_container /\
  exists symbols table huff entries,
    encoder_symbols cos8 ramp_image 100 = OK symbols /\
    huff_encode symbols = OK (table, huff) /\
    ramp_container =
      header_prefix ramp_image 1 1 100 ++
      le32 (8 + 5 * zlen entries + zlen huff) ++ le32 (u32 (zlen symbols)) ++
      le32 (zlen entries) ++ concat (map entry_bytes entries) ++ huff /\
    zlen ramp_container = 32 + (8 + 5 * zlen entries + zlen huff).
Proof.
  assert (H : encode_to_mcodec cos8 ramp_image 100 = OK ramp_container)
    by (vm_compute; reflexivity).
  split; [exact H|].
  destruct (container_layout cos8 ramp_image 100 ramp_container H)
    as (symbols & table & huff & entries & Hs & Hh & _ & _ & _ & _ & _ & _ & _
        & Hb & Hl & _).
  exists symbols, table, huff, entries.
  split; [exact Hs|]. split; [exact Hh|]. split; [exact Hb | exact Hl].
Defined.



End ContainerWitnesses.
